(** * Backend.cpp: declaration lowering and symbol backpatching

    A shallow embedding of the declaration-lowering core of the GCC to LLVM
    bridge (src/Backend.cpp): the declaration cache, the symbol materialiser
    [make_decl_llvm], the initialiser emitter [emit_global], the alias
    resolver [emit_alias] and the thunk generator [emit_thunk].

    The two compiler worlds are modelled as explicit state.  The LLVM module
    is a finite map from symbol identities (addresses of GlobalValue objects)
    to their records; GCC declarations are a finite map from tree identities
    to the attributes the code reads.  Operations are functions in a
    state-and-failure monad: [None] stands for an abort (a failed assert, a
    failed cast<>, a dereferenced null pointer). *)

From Stdlib Require Import ZArith Lia Ascii.
From stdpp Require Import gmap strings list fin_maps pretty.

Local Open Scope Z_scope.

(** ** C integers *)

(** [int] is 32 bits wide; arithmetic on it wraps around. *)
Definition INT_BITS : Z := 32.
Definition INT_MAX : Z := 2 ^ (INT_BITS - 1) - 1.
Definition INT_MIN : Z := - 2 ^ (INT_BITS - 1).

(** The signed value of the low [w] bits of [z]. *)
Definition swrap (w z : Z) : Z := (z + 2 ^ (w - 1)) mod 2 ^ w - 2 ^ (w - 1).
(** The unsigned value of the low [w] bits of [z]. *)
Definition uwrap (w z : Z) : Z := z mod 2 ^ w.

Definition to_int (z : Z) : Z := swrap INT_BITS z.

(** ** LLVM types *)

#[warnings="-register-all"]
Inductive LType :=
  | VoidTy
  | IntegerTy (bits : N)
  | PointerTy (elt : LType)
  | ArrayTy (elt : LType) (n : N)
  | StructTy (elts : list LType)
  | FunctionTy (ret : LType) (params : list LType) (vararg : bool).

(** LLVM types are uniqued, so pointer comparison of types is structural
    equality. *)
Fixpoint LType_eq_dec (a b : LType) {struct a} : {a = b} + {a <> b}.
Proof.
  unshelve refine (
   let fix lst (l1 l2 : list LType) {struct l1} : {l1 = l2} + {l1 <> l2} :=
     match l1, l2 with
     | [], [] => left eq_refl
     | x :: l1', y :: l2' =>
        match LType_eq_dec x y, lst l1' l2' with
        | left e1, left e2 => left _
        | _, _ => right _
        end
     | _, _ => right _
     end in
   match a, b with
   | VoidTy, VoidTy => left eq_refl
   | IntegerTy n, IntegerTy m => cast_if (decide (n = m))
   | PointerTy x, PointerTy y => cast_if (LType_eq_dec x y)
   | ArrayTy x n, ArrayTy y m => cast_if_and (LType_eq_dec x y) (decide (n = m))
   | StructTy l1, StructTy l2 => cast_if (lst l1 l2)
   | FunctionTy r1 p1 v1, FunctionTy r2 p2 v2 =>
       cast_if_and3 (LType_eq_dec r1 r2) (lst p1 p2) (decide (v1 = v2))
   | _, _ => right _
   end); try congruence; try (subst; congruence).
Defined.
#[global] Instance LType_eq : EqDecision LType := LType_eq_dec.

Definition getPointerTo (t : LType) : LType := PointerTy t.
Definition getElementType (t : LType) : option LType :=
  match t with PointerTy e => Some e | _ => None end.
Definition isVoidTy (t : LType) : bool :=
  match t with VoidTy => true | _ => false end.
Definition isPointerTy (t : LType) : bool :=
  match t with PointerTy _ => true | _ => false end.
Definition Int8Ty : LType := IntegerTy 8.
Definition Int32Ty : LType := IntegerTy 32.
Definition Int8PtrTy : LType := PointerTy Int8Ty.

(** ** Linkage and visibility (GlobalValue::LinkageTypes, VisibilityTypes) *)

Inductive LinkageTypes :=
  | ExternalLinkage
  | AvailableExternallyLinkage
  | LinkOnceAnyLinkage
  | LinkOnceODRLinkage
  | WeakAnyLinkage
  | WeakODRLinkage
  | AppendingLinkage
  | InternalLinkage
  | PrivateLinkage
  | LinkerPrivateLinkage
  | DLLImportLinkage
  | DLLExportLinkage
  | ExternalWeakLinkage
  | CommonLinkage.

#[global] Instance LinkageTypes_eq : EqDecision LinkageTypes.
Proof. solve_decision. Defined.

(** GlobalValue::getWeakLinkage and GlobalValue::getLinkOnceLinkage. *)
Definition getWeakLinkage (ODR : bool) : LinkageTypes :=
  if ODR then WeakODRLinkage else WeakAnyLinkage.
Definition getLinkOnceLinkage (ODR : bool) : LinkageTypes :=
  if ODR then LinkOnceODRLinkage else LinkOnceAnyLinkage.

Inductive VisibilityTypes :=
  | DefaultVisibility
  | HiddenVisibility
  | ProtectedVisibility.

#[global] Instance VisibilityTypes_eq : EqDecision VisibilityTypes.
Proof. solve_decision. Defined.

(** ** Constants *)

(** The identity of a GlobalValue object (its address). *)
Abbreviation sym := positive.

(** The constants this file builds.  Constants are uniqued by LLVM, so two
    pointers to constants are equal exactly when the constants are
    structurally equal. *)
Inductive Constant :=
  | GlobalRef (g : sym)                       (* a GlobalVariable, Function or GlobalAlias *)
  | ConstantInt (ty : LType) (v : Z)
  | ConstantString (ty : LType) (str : string)
  | NullValue (ty : LType)                    (* Constant::getNullValue *)
  | UndefValue (ty : LType)
  | BitCastExpr (c : Constant) (ty : LType).

#[global] Instance Constant_eq : EqDecision Constant.
Proof. solve_decision. Defined.

(** Whether the constant has the global [g] among its (transitive) operands. *)
Fixpoint mentions (g : sym) (c : Constant) : bool :=
  match c with
  | GlobalRef g' => bool_decide (g' = g)
  | BitCastExpr c' _ => mentions g c'
  | _ => false
  end.

(** ** Instructions built by the thunk generator *)

Inductive Operand :=
  | OArg (i : nat)                            (* the i-th formal argument *)
  | OInst (r : nat)                           (* the value of instruction r *)
  | OConst (c : Constant).

Inductive Instruction :=
  | BitCastInst (v : Operand) (ty : LType)
  | GEPInst (inbounds : bool) (ptr idx : Operand)   (* i8* getelementptr, one index *)
  | LoadInst (ptr : Operand)
  | PtrToIntInst (v : Operand) (ty : LType)
  | ICmpEQInst (a b : Operand)
  | CallInst (callee : Operand) (args : list Operand) (cc : N)
             (attrs : list (bool * bool)) (tail : bool)
  | RetVoidInst
  | RetInst (v : Operand)
  | CondBrInst (cond : Operand) (ifTrue ifFalse : string).

(** A basic block: its label and its instructions, each paired with the
    number that names its value. *)
Record BasicBlock := {
  bb_name : string;
  bb_insts : list (nat * Instruction)
}.

Definition operand_mentions (g : sym) (o : Operand) : bool :=
  match o with OConst c => mentions g c | _ => false end.

Definition inst_operands (i : Instruction) : list Operand :=
  match i with
  | BitCastInst v _ | LoadInst v | PtrToIntInst v _ | RetInst v => [v]
  | GEPInst _ p x => [p; x]
  | ICmpEQInst a b => [a; b]
  | CallInst f args _ _ _ => f :: args
  | RetVoidInst => []
  | CondBrInst c _ _ => [c]
  end.

Definition block_mentions (g : sym) (b : BasicBlock) : bool :=
  existsb (fun '(_, i) => existsb (operand_mentions g) (inst_operands i)) (bb_insts b).

(** ** Global values *)

Inductive GlobalPayload :=
  | GlobalVariable (initializer : option Constant) (isConstant : bool) (threadLocal : bool)
  | Function (cc : N) (attrs : list (bool * bool)) (body : list BasicBlock)
  | GlobalAlias (aliasee : Constant).

Record GlobalValue := {
  gv_name : string;
  gv_type : LType;                  (* getType(): always a pointer type *)
  gv_linkage : LinkageTypes;
  gv_visibility : VisibilityTypes;
  gv_section : string;
  gv_alignment : Z;
  gv_payload : GlobalPayload
}.

Definition with_name (n : string) (g : GlobalValue) : GlobalValue :=
  {| gv_name := n; gv_type := gv_type g; gv_linkage := gv_linkage g;
     gv_visibility := gv_visibility g; gv_section := gv_section g;
     gv_alignment := gv_alignment g; gv_payload := gv_payload g |}.
Definition with_linkage (l : LinkageTypes) (g : GlobalValue) : GlobalValue :=
  {| gv_name := gv_name g; gv_type := gv_type g; gv_linkage := l;
     gv_visibility := gv_visibility g; gv_section := gv_section g;
     gv_alignment := gv_alignment g; gv_payload := gv_payload g |}.
Definition with_visibility (v : VisibilityTypes) (g : GlobalValue) : GlobalValue :=
  {| gv_name := gv_name g; gv_type := gv_type g; gv_linkage := gv_linkage g;
     gv_visibility := v; gv_section := gv_section g;
     gv_alignment := gv_alignment g; gv_payload := gv_payload g |}.
Definition with_section (sec : string) (g : GlobalValue) : GlobalValue :=
  {| gv_name := gv_name g; gv_type := gv_type g; gv_linkage := gv_linkage g;
     gv_visibility := gv_visibility g; gv_section := sec;
     gv_alignment := gv_alignment g; gv_payload := gv_payload g |}.
Definition with_alignment (a : Z) (g : GlobalValue) : GlobalValue :=
  {| gv_name := gv_name g; gv_type := gv_type g; gv_linkage := gv_linkage g;
     gv_visibility := gv_visibility g; gv_section := gv_section g;
     gv_alignment := a; gv_payload := gv_payload g |}.
Definition with_payload (p : GlobalPayload) (g : GlobalValue) : GlobalValue :=
  {| gv_name := gv_name g; gv_type := gv_type g; gv_linkage := gv_linkage g;
     gv_visibility := gv_visibility g; gv_section := gv_section g;
     gv_alignment := gv_alignment g; gv_payload := p |}.

Definition isGlobalVariable (g : GlobalValue) : bool :=
  match gv_payload g with GlobalVariable _ _ _ => true | _ => false end.
Definition isFunction (g : GlobalValue) : bool :=
  match gv_payload g with Function _ _ _ => true | _ => false end.
Definition isGlobalAlias (g : GlobalValue) : bool :=
  match gv_payload g with GlobalAlias _ => true | _ => false end.

(** GlobalValue::isDeclaration: a variable without initializer, a function
    without body; an alias never is. *)
Definition isDeclaration (g : GlobalValue) : bool :=
  match gv_payload g with
  | GlobalVariable None _ _ => true
  | GlobalVariable (Some _) _ _ => false
  | Function _ _ [] => true
  | Function _ _ (_ :: _) => false
  | GlobalAlias _ => false
  end.

Definition getInitializer (g : GlobalValue) : option Constant :=
  match gv_payload g with GlobalVariable i _ _ => i | _ => None end.
(** GlobalVariable::isConstant. *)
Definition isConstant (g : GlobalValue) : bool :=
  match gv_payload g with GlobalVariable _ c _ => c | _ => false end.
Definition isThreadLocal (g : GlobalValue) : bool :=
  match gv_payload g with GlobalVariable _ _ t => t | _ => false end.

Definition setInitializer (i : option Constant) (g : GlobalValue) : GlobalValue :=
  match gv_payload g with
  | GlobalVariable _ c t => with_payload (GlobalVariable i c t) g
  | _ => g
  end.
Definition setConstant (c : bool) (g : GlobalValue) : GlobalValue :=
  match gv_payload g with
  | GlobalVariable i _ t => with_payload (GlobalVariable i c t) g
  | _ => g
  end.
Definition setThreadLocal (t : bool) (g : GlobalValue) : GlobalValue :=
  match gv_payload g with
  | GlobalVariable i c _ => with_payload (GlobalVariable i c t) g
  | _ => g
  end.
Definition setBody (b : list BasicBlock) (g : GlobalValue) : GlobalValue :=
  match gv_payload g with
  | Function cc a _ => with_payload (Function cc a b) g
  | _ => g
  end.

(** The uses a global value holds: its initializer, its body, its aliasee. *)
Definition payload_mentions (x : sym) (p : GlobalPayload) : bool :=
  match p with
  | GlobalVariable (Some c) _ _ => mentions x c
  | GlobalVariable None _ _ => false
  | Function _ _ body => existsb (block_mentions x) body
  | GlobalAlias a => mentions x a
  end.

(** ** GCC trees *)

(** The identity of a tree node (its address). *)
Abbreviation tree := positive.

Inductive tree_code :=
  | VAR_DECL | FUNCTION_DECL | CONST_DECL | PARM_DECL | RESULT_DECL
  | TYPE_DECL | LABEL_DECL | FIELD_DECL.

#[global] Instance tree_code_eq : EqDecision tree_code.
Proof. solve_decision. Defined.

(** HAS_RTL_P: the declaration kinds that carry a DECL_RTL slot. *)
Definition HAS_RTL_P (c : tree_code) : bool :=
  match c with
  | VAR_DECL | FUNCTION_DECL | CONST_DECL | PARM_DECL | RESULT_DECL | LABEL_DECL => true
  | TYPE_DECL | FIELD_DECL => false
  end.

(** CODE_CONTAINS_STRUCT (code, TS_DECL_WITH_VIS). *)
Definition CODE_CONTAINS_STRUCT_TS_DECL_WITH_VIS (c : tree_code) : bool :=
  match c with
  | VAR_DECL | FUNCTION_DECL | TYPE_DECL => true
  | _ => false
  end.

(** A GCC type node, with the attributes the backend reads. *)
Record gcc_type := {
  TYPE_UID : N;
  TYPE_SIZE : option Z;            (* NULL for an incomplete type *)
  TYPE_MODE_is_BLKmode : bool;
  AGGREGATE_TYPE_P : bool
}.

#[global] Instance gcc_type_eq : EqDecision gcc_type.
Proof. solve_decision. Defined.

(** The initial values of declarations. *)
Inductive tree_expr :=
  | error_mark_node
  | INTEGER_CST (type : gcc_type) (value : Z)
  | STRING_CST (type : gcc_type) (str : string)
  | ADDR_EXPR (type : gcc_type) (constant : bool) (operand : tree).

#[global] Instance tree_expr_eq : EqDecision tree_expr.
Proof. solve_decision. Defined.

Definition TREE_CONSTANT (e : tree_expr) : bool :=
  match e with
  | error_mark_node => false
  | INTEGER_CST _ _ => true
  | STRING_CST _ _ => true
  | ADDR_EXPR _ c _ => c
  end.
Definition is_STRING_CST (e : tree_expr) : bool :=
  match e with STRING_CST _ _ => true | _ => false end.

Inductive symbol_visibility :=
  | VISIBILITY_DEFAULT | VISIBILITY_PROTECTED | VISIBILITY_HIDDEN | VISIBILITY_INTERNAL.

Record tree_decl := {
  TREE_CODE : tree_code;
  TREE_TYPE : gcc_type;
  DECL_ASSEMBLER_NAME : option string;
  DECL_INITIAL : option tree_expr;
  DECL_SIZE : option Z;
  TREE_PUBLIC : bool;
  TREE_STATIC : bool;
  DECL_EXTERNAL : bool;
  DECL_REGISTER : bool;
  DECL_WEAK : bool;
  DECL_ONE_ONLY : bool;
  DECL_COMMON : bool;
  DECL_COMDAT : bool;
  DECL_THREAD_LOCAL_P : bool;
  TREE_READONLY : bool;
  TREE_SIDE_EFFECTS : bool;
  TREE_THIS_VOLATILE : bool;
  DECL_VISIBILITY_SPECIFIED : bool;
  DECL_VISIBILITY : symbol_visibility;
  DECL_SECTION_NAME : option string;
  DECL_ALIGN : Z;
  DECL_USER_ALIGN : bool;
  DECL_PRESERVE_P : bool;
  DECL_ATTRIBUTES : list (string * list string);
  DECL_SOURCE_FILE : string;
  DECL_SOURCE_LINE : Z;
  TREE_ASM_WRITTEN : bool
}.

Definition set_DECL_COMMON (b : bool) (d : tree_decl) : tree_decl :=
  {| TREE_CODE := TREE_CODE d; TREE_TYPE := TREE_TYPE d;
     DECL_ASSEMBLER_NAME := DECL_ASSEMBLER_NAME d; DECL_INITIAL := DECL_INITIAL d;
     DECL_SIZE := DECL_SIZE d; TREE_PUBLIC := TREE_PUBLIC d; TREE_STATIC := TREE_STATIC d;
     DECL_EXTERNAL := DECL_EXTERNAL d; DECL_REGISTER := DECL_REGISTER d;
     DECL_WEAK := DECL_WEAK d; DECL_ONE_ONLY := DECL_ONE_ONLY d;
     DECL_COMMON := b; DECL_COMDAT := DECL_COMDAT d;
     DECL_THREAD_LOCAL_P := DECL_THREAD_LOCAL_P d; TREE_READONLY := TREE_READONLY d;
     TREE_SIDE_EFFECTS := TREE_SIDE_EFFECTS d; TREE_THIS_VOLATILE := TREE_THIS_VOLATILE d;
     DECL_VISIBILITY_SPECIFIED := DECL_VISIBILITY_SPECIFIED d;
     DECL_VISIBILITY := DECL_VISIBILITY d; DECL_SECTION_NAME := DECL_SECTION_NAME d;
     DECL_ALIGN := DECL_ALIGN d; DECL_USER_ALIGN := DECL_USER_ALIGN d;
     DECL_PRESERVE_P := DECL_PRESERVE_P d; DECL_ATTRIBUTES := DECL_ATTRIBUTES d;
     DECL_SOURCE_FILE := DECL_SOURCE_FILE d; DECL_SOURCE_LINE := DECL_SOURCE_LINE d;
     TREE_ASM_WRITTEN := TREE_ASM_WRITTEN d |}.

Definition set_TREE_ASM_WRITTEN (b : bool) (d : tree_decl) : tree_decl :=
  {| TREE_CODE := TREE_CODE d; TREE_TYPE := TREE_TYPE d;
     DECL_ASSEMBLER_NAME := DECL_ASSEMBLER_NAME d; DECL_INITIAL := DECL_INITIAL d;
     DECL_SIZE := DECL_SIZE d; TREE_PUBLIC := TREE_PUBLIC d; TREE_STATIC := TREE_STATIC d;
     DECL_EXTERNAL := DECL_EXTERNAL d; DECL_REGISTER := DECL_REGISTER d;
     DECL_WEAK := DECL_WEAK d; DECL_ONE_ONLY := DECL_ONE_ONLY d;
     DECL_COMMON := DECL_COMMON d; DECL_COMDAT := DECL_COMDAT d;
     DECL_THREAD_LOCAL_P := DECL_THREAD_LOCAL_P d; TREE_READONLY := TREE_READONLY d;
     TREE_SIDE_EFFECTS := TREE_SIDE_EFFECTS d; TREE_THIS_VOLATILE := TREE_THIS_VOLATILE d;
     DECL_VISIBILITY_SPECIFIED := DECL_VISIBILITY_SPECIFIED d;
     DECL_VISIBILITY := DECL_VISIBILITY d; DECL_SECTION_NAME := DECL_SECTION_NAME d;
     DECL_ALIGN := DECL_ALIGN d; DECL_USER_ALIGN := DECL_USER_ALIGN d;
     DECL_PRESERVE_P := DECL_PRESERVE_P d; DECL_ATTRIBUTES := DECL_ATTRIBUTES d;
     DECL_SOURCE_FILE := DECL_SOURCE_FILE d; DECL_SOURCE_LINE := DECL_SOURCE_LINE d;
     TREE_ASM_WRITTEN := b |}.

(** An IDENTIFIER_NODE: its spelling and, when IDENTIFIER_TRANSPARENT_ALIAS
    is set, the identifier TREE_CHAIN leads to. *)
Inductive identifier :=
  | Identifier (spelling : string)
  | TransparentAlias (spelling : string) (TREE_CHAIN : identifier).

Definition IDENTIFIER_POINTER (i : identifier) : string :=
  match i with Identifier n | TransparentAlias n _ => n end.

(** The target of an alias pair: an identifier or a declaration. *)
Inductive alias_target :=
  | TargetIdentifier (id : identifier)
  | TargetDecl (t : tree).

(** A cgraph node of a thunk or same-body alias. *)
Record cgraph_thunk_info := {
  thunk_p : bool;
  this_adjusting : bool;
  fixed_offset : Z;                 (* HOST_WIDE_INT *)
  virtual_offset_p : bool;
  virtual_value : Z;                (* HOST_WIDE_INT *)
  thunk_alias : tree
}.
Record cgraph_node := {
  node_decl : tree;
  thunk : cgraph_thunk_info
}.

(** Diagnostics reported through GCC's error, sorry and warning. *)
Inductive diagnostic :=
  | Error (msg : string) (decl : option tree)
  | Sorry (msg : string) (decl : option tree)
  | Warning (msg : string).

(** ** The state of the backend *)

(** A [void *] as the declaration cache stores it: null, the address of an
    LLVM value, or a pointer-sized integer converted to a pointer. *)
Inductive void_ptr :=
  | NullPtr
  | ValuePtr (v : Constant)
  | IntPtr (bits : Z).

(** [(void * )(intptr_t) z] and [(intptr_t) p].  The address of an LLVM value
    as a number is not modelled. *)
Definition int_to_ptr (z : Z) : void_ptr := if z =? 0 then NullPtr else IntPtr z.
Definition ptr_to_int (p : void_ptr) : option Z :=
  match p with
  | NullPtr => Some 0
  | IntPtr z => Some z
  | ValuePtr _ => None
  end.

(** An element of AttributeAnnotateGlobals. *)
Record annotation := {
  ann_global : Constant;
  ann_text : string;
  ann_file : Constant;
  ann_line : Z
}.

(** TheTarget: what the code asks of the target data.  The alignment is an
    unsigned and the allocation size a uint64_t. *)
Record TargetMachine := {
  PointerSizeInBits : Z;
  getABITypeAlignment : LType -> Z;
  getTypeAllocSizeInBits : LType -> Z;
  isSized : LType -> bool
}.

(** TheTypeConverter: the type conversion service. *)
Record TypeConverter := {
  ConvertType : gcc_type -> LType;
  ConvertFunctionType : gcc_type -> tree -> LType * N * list (bool * bool)
}.

(** What the build and the GCC target configuration fix. *)
Record Configuration := {
  ENABLE_CHECKING : bool;
  decode_reg_name : string -> Z
}.

Record State := {
  (* the LLVM side *)
  TheModule : gmap sym GlobalValue;
  detached : gset sym;             (* removed from the module, not yet deleted *)
  TheTarget : TargetMachine;
  TheTypeConverter : TypeConverter;
  flag_odr : bool;
  llvm_cache : gmap tree void_ptr;
  StaticCtors : list (Constant * Z);
  StaticDtors : list (Constant * Z);
  AttributeUsedGlobals : list Constant;           (* a SmallSetVector *)
  AttributeCompilerUsedGlobals : list Constant;   (* a SmallSetVector *)
  AttributeAnnotateGlobals : list annotation;
  StringCSTCache : gmap string sym;
  (* the GCC side *)
  config : Configuration;
  trees : gmap tree tree_decl;
  cgraph_asm : gmap string tree;   (* cgraph_node_for_asm *)
  varpool_asm : gmap string tree;  (* varpool_node_for_asm *)
  errorcount : nat;
  sorrycount : nat;
  diagnostics : list diagnostic
}.

Definition upd_TheModule (f : gmap sym GlobalValue -> gmap sym GlobalValue) (s : State) : State :=
  {| TheModule := f (TheModule s); detached := detached s; TheTarget := TheTarget s;
     TheTypeConverter := TheTypeConverter s; flag_odr := flag_odr s;
     llvm_cache := llvm_cache s; StaticCtors := StaticCtors s; StaticDtors := StaticDtors s;
     AttributeUsedGlobals := AttributeUsedGlobals s;
     AttributeCompilerUsedGlobals := AttributeCompilerUsedGlobals s;
     AttributeAnnotateGlobals := AttributeAnnotateGlobals s;
     StringCSTCache := StringCSTCache s; config := config s; trees := trees s;
     cgraph_asm := cgraph_asm s; varpool_asm := varpool_asm s;
     errorcount := errorcount s; sorrycount := sorrycount s;
     diagnostics := diagnostics s |}.
Definition upd_detached (f : gset sym -> gset sym) (s : State) : State :=
  {| TheModule := TheModule s; detached := f (detached s); TheTarget := TheTarget s;
     TheTypeConverter := TheTypeConverter s; flag_odr := flag_odr s;
     llvm_cache := llvm_cache s; StaticCtors := StaticCtors s; StaticDtors := StaticDtors s;
     AttributeUsedGlobals := AttributeUsedGlobals s;
     AttributeCompilerUsedGlobals := AttributeCompilerUsedGlobals s;
     AttributeAnnotateGlobals := AttributeAnnotateGlobals s;
     StringCSTCache := StringCSTCache s; config := config s; trees := trees s;
     cgraph_asm := cgraph_asm s; varpool_asm := varpool_asm s;
     errorcount := errorcount s; sorrycount := sorrycount s;
     diagnostics := diagnostics s |}.
Definition upd_llvm_cache (f : gmap tree void_ptr -> gmap tree void_ptr) (s : State) : State :=
  {| TheModule := TheModule s; detached := detached s; TheTarget := TheTarget s;
     TheTypeConverter := TheTypeConverter s; flag_odr := flag_odr s;
     llvm_cache := f (llvm_cache s); StaticCtors := StaticCtors s; StaticDtors := StaticDtors s;
     AttributeUsedGlobals := AttributeUsedGlobals s;
     AttributeCompilerUsedGlobals := AttributeCompilerUsedGlobals s;
     AttributeAnnotateGlobals := AttributeAnnotateGlobals s;
     StringCSTCache := StringCSTCache s; config := config s; trees := trees s;
     cgraph_asm := cgraph_asm s; varpool_asm := varpool_asm s;
     errorcount := errorcount s; sorrycount := sorrycount s;
     diagnostics := diagnostics s |}.
Definition upd_StaticCtors (f : list (Constant * Z) -> list (Constant * Z)) (s : State) : State :=
  {| TheModule := TheModule s; detached := detached s; TheTarget := TheTarget s;
     TheTypeConverter := TheTypeConverter s; flag_odr := flag_odr s;
     llvm_cache := llvm_cache s; StaticCtors := f (StaticCtors s); StaticDtors := StaticDtors s;
     AttributeUsedGlobals := AttributeUsedGlobals s;
     AttributeCompilerUsedGlobals := AttributeCompilerUsedGlobals s;
     AttributeAnnotateGlobals := AttributeAnnotateGlobals s;
     StringCSTCache := StringCSTCache s; config := config s; trees := trees s;
     cgraph_asm := cgraph_asm s; varpool_asm := varpool_asm s;
     errorcount := errorcount s; sorrycount := sorrycount s;
     diagnostics := diagnostics s |}.
Definition upd_StaticDtors (f : list (Constant * Z) -> list (Constant * Z)) (s : State) : State :=
  {| TheModule := TheModule s; detached := detached s; TheTarget := TheTarget s;
     TheTypeConverter := TheTypeConverter s; flag_odr := flag_odr s;
     llvm_cache := llvm_cache s; StaticCtors := StaticCtors s; StaticDtors := f (StaticDtors s);
     AttributeUsedGlobals := AttributeUsedGlobals s;
     AttributeCompilerUsedGlobals := AttributeCompilerUsedGlobals s;
     AttributeAnnotateGlobals := AttributeAnnotateGlobals s;
     StringCSTCache := StringCSTCache s; config := config s; trees := trees s;
     cgraph_asm := cgraph_asm s; varpool_asm := varpool_asm s;
     errorcount := errorcount s; sorrycount := sorrycount s;
     diagnostics := diagnostics s |}.
Definition upd_AttributeUsedGlobals (f : list Constant -> list Constant) (s : State) : State :=
  {| TheModule := TheModule s; detached := detached s; TheTarget := TheTarget s;
     TheTypeConverter := TheTypeConverter s; flag_odr := flag_odr s;
     llvm_cache := llvm_cache s; StaticCtors := StaticCtors s; StaticDtors := StaticDtors s;
     AttributeUsedGlobals := f (AttributeUsedGlobals s);
     AttributeCompilerUsedGlobals := AttributeCompilerUsedGlobals s;
     AttributeAnnotateGlobals := AttributeAnnotateGlobals s;
     StringCSTCache := StringCSTCache s; config := config s; trees := trees s;
     cgraph_asm := cgraph_asm s; varpool_asm := varpool_asm s;
     errorcount := errorcount s; sorrycount := sorrycount s;
     diagnostics := diagnostics s |}.
Definition upd_AttributeCompilerUsedGlobals (f : list Constant -> list Constant) (s : State) : State :=
  {| TheModule := TheModule s; detached := detached s; TheTarget := TheTarget s;
     TheTypeConverter := TheTypeConverter s; flag_odr := flag_odr s;
     llvm_cache := llvm_cache s; StaticCtors := StaticCtors s; StaticDtors := StaticDtors s;
     AttributeUsedGlobals := AttributeUsedGlobals s;
     AttributeCompilerUsedGlobals := f (AttributeCompilerUsedGlobals s);
     AttributeAnnotateGlobals := AttributeAnnotateGlobals s;
     StringCSTCache := StringCSTCache s; config := config s; trees := trees s;
     cgraph_asm := cgraph_asm s; varpool_asm := varpool_asm s;
     errorcount := errorcount s; sorrycount := sorrycount s;
     diagnostics := diagnostics s |}.
Definition upd_AttributeAnnotateGlobals (f : list annotation -> list annotation) (s : State) : State :=
  {| TheModule := TheModule s; detached := detached s; TheTarget := TheTarget s;
     TheTypeConverter := TheTypeConverter s; flag_odr := flag_odr s;
     llvm_cache := llvm_cache s; StaticCtors := StaticCtors s; StaticDtors := StaticDtors s;
     AttributeUsedGlobals := AttributeUsedGlobals s;
     AttributeCompilerUsedGlobals := AttributeCompilerUsedGlobals s;
     AttributeAnnotateGlobals := f (AttributeAnnotateGlobals s);
     StringCSTCache := StringCSTCache s; config := config s; trees := trees s;
     cgraph_asm := cgraph_asm s; varpool_asm := varpool_asm s;
     errorcount := errorcount s; sorrycount := sorrycount s;
     diagnostics := diagnostics s |}.
Definition upd_StringCSTCache (f : gmap string sym -> gmap string sym) (s : State) : State :=
  {| TheModule := TheModule s; detached := detached s; TheTarget := TheTarget s;
     TheTypeConverter := TheTypeConverter s; flag_odr := flag_odr s;
     llvm_cache := llvm_cache s; StaticCtors := StaticCtors s; StaticDtors := StaticDtors s;
     AttributeUsedGlobals := AttributeUsedGlobals s;
     AttributeCompilerUsedGlobals := AttributeCompilerUsedGlobals s;
     AttributeAnnotateGlobals := AttributeAnnotateGlobals s;
     StringCSTCache := f (StringCSTCache s); config := config s; trees := trees s;
     cgraph_asm := cgraph_asm s; varpool_asm := varpool_asm s;
     errorcount := errorcount s; sorrycount := sorrycount s;
     diagnostics := diagnostics s |}.
Definition upd_trees (f : gmap tree tree_decl -> gmap tree tree_decl) (s : State) : State :=
  {| TheModule := TheModule s; detached := detached s; TheTarget := TheTarget s;
     TheTypeConverter := TheTypeConverter s; flag_odr := flag_odr s;
     llvm_cache := llvm_cache s; StaticCtors := StaticCtors s; StaticDtors := StaticDtors s;
     AttributeUsedGlobals := AttributeUsedGlobals s;
     AttributeCompilerUsedGlobals := AttributeCompilerUsedGlobals s;
     AttributeAnnotateGlobals := AttributeAnnotateGlobals s;
     StringCSTCache := StringCSTCache s; config := config s; trees := f (trees s);
     cgraph_asm := cgraph_asm s; varpool_asm := varpool_asm s;
     errorcount := errorcount s; sorrycount := sorrycount s;
     diagnostics := diagnostics s |}.
(** error, sorry and warning: the message is recorded and the matching
    counter goes up. *)
Definition report (d : diagnostic) (s : State) : State :=
  {| TheModule := TheModule s; detached := detached s; TheTarget := TheTarget s;
     TheTypeConverter := TheTypeConverter s; flag_odr := flag_odr s;
     llvm_cache := llvm_cache s; StaticCtors := StaticCtors s; StaticDtors := StaticDtors s;
     AttributeUsedGlobals := AttributeUsedGlobals s;
     AttributeCompilerUsedGlobals := AttributeCompilerUsedGlobals s;
     AttributeAnnotateGlobals := AttributeAnnotateGlobals s;
     StringCSTCache := StringCSTCache s; config := config s; trees := trees s;
     cgraph_asm := cgraph_asm s; varpool_asm := varpool_asm s;
     errorcount := match d with Error _ _ => S (errorcount s) | _ => errorcount s end;
     sorrycount := match d with Sorry _ _ => S (sorrycount s) | _ => sorrycount s end;
     diagnostics := diagnostics s ++ [d] |}.

(** ** The monad of the backend's operations *)

Definition M (A : Type) : Type := State -> option (A * State).

Definition ret {A} (a : A) : M A := fun s => Some (a, s).
Definition bind {A B} (c : M A) (k : A -> M B) : M B :=
  fun s => match c s with
           | Some (a, s') => k a s'
           | None => None
           end.
(** A failed assert, a failed cast<> or a null dereference. *)
Definition abort {A} : M A := fun _ => None.
Definition get : M State := fun s => Some (s, s).
Definition gets {A} (f : State -> A) : M A := fun s => Some (f s, s).
Definition modify (f : State -> State) : M unit := fun s => Some (tt, f s).
Definition assert (b : bool) : M unit := if b then ret tt else abort.
Definition unwrap {A} (o : option A) : M A :=
  match o with Some a => ret a | None => abort end.
Definition when (b : bool) (c : M unit) : M unit := if b then c else ret tt.

Notation "'do' x <- c1 ; c2" := (bind c1 (fun x => c2))
  (at level 10, x name, c1 at level 100, c2 at level 200).
Notation "'do' ' p <- c1 ; c2" := (bind c1 (fun x => let 'p := x in c2))
  (at level 10, p pattern, c1 at level 100, c2 at level 200).

(** GCC's diagnostics. *)
Definition error (msg : string) (decl : option tree) : M unit :=
  modify (report (Error msg decl)).
Definition sorry (msg : string) (decl : option tree) : M unit :=
  modify (report (Sorry msg decl)).
Definition warning (msg : string) : M unit :=
  modify (report (Warning msg)).

(** [errorcount || sorrycount] *)
Definition seen_error (s : State) : bool :=
  negb (Nat.eqb (errorcount s) 0) || negb (Nat.eqb (sorrycount s) 0).

(** Reading a declaration through its pointer. *)
Definition decl_of (t : tree) : M tree_decl := fun s =>
  match trees s !! t with
  | Some d => Some (d, s)
  | None => None
  end.

(** ** The LLVM module *)

(** Module::getNamedValue: the symbol table maps non-empty names to values. *)
Definition getNamedValue (m : gmap sym GlobalValue) (Name : string) : option sym :=
  if decide (Name = EmptyString) then None
  else (fun r => fst (snd r)) <$>
         list_find (fun p => gv_name (snd p) = Name) (map_to_list m).

(** Module::getFunction. *)
Definition getFunction (m : gmap sym GlobalValue) (Name : string) : option sym :=
  match getNamedValue m Name with
  | Some g => match m !! g with
              | Some v => if isFunction v then Some g else None
              | None => None
              end
  | None => None
  end.

(** Module::getGlobalVariable (Name, true). *)
Definition getGlobalVariable (m : gmap sym GlobalValue) (Name : string) : option sym :=
  match getNamedValue m Name with
  | Some g => match m !! g with
              | Some v => if isGlobalVariable v then Some g else None
              | None => None
              end
  | None => None
  end.

(** The symbol table renames a value whose name is taken: it appends the
    first counter that makes the name unique. *)
Fixpoint find_unique (m : gmap sym GlobalValue) (base : string) (k fuel : nat) : string :=
  match fuel with
  | O => (base +:+ pretty k)%string
  | S fuel' =>
      match getNamedValue m (base +:+ pretty k)%string with
      | Some _ => find_unique m base (S k) fuel'
      | None => (base +:+ pretty k)%string
      end
  end.

Definition unique_name (m : gmap sym GlobalValue) (Name : string) : string :=
  match getNamedValue m Name with
  | Some _ => find_unique m Name 1 (size m)
  | None => Name
  end.

(** The objects alive: those in the module and those detached from it. *)
Definition live (s : State) : gset sym := dom (TheModule s) ∪ detached s.

(** [new GlobalVariable], [Function::Create] and [new GlobalAlias] with
    TheModule as parent: the object gets an address no live
    object has, its name is made unique, and it enters the module. *)
Definition new_global (v : GlobalValue) : M sym := fun s =>
  let g := fresh (live s) in
  let v' := with_name (unique_name (TheModule s) (gv_name v)) v in
  Some (g, upd_TheModule (insert g v') s).

(** A pointer to a global value that is in the module. *)
Definition global_of (g : sym) : M GlobalValue := fun s =>
  match TheModule s !! g with
  | Some v => Some (v, s)
  | None => None
  end.

(** Calling a setter on a global value. *)
Definition update_global (g : sym) (f : GlobalValue -> GlobalValue) : M unit :=
  do v <- global_of g;
  modify (upd_TheModule (insert g (f v))).

Definition removeFromParent (g : sym) : M unit :=
  modify (fun s => upd_detached (union {[g]}) (upd_TheModule (delete g) s)).
(** [delete GV] for a detached global. *)
Definition delete_global (g : sym) : M unit :=
  modify (upd_detached (fun d => d ∖ {[g]})).
Definition eraseFromParent (g : sym) : M unit :=
  modify (upd_TheModule (delete g)).

(** [New->takeName (Old)] *)
Definition takeName (New Old : sym) : M unit :=
  do o <- global_of Old;
  do _ <- update_global Old (with_name EmptyString);
  update_global New (with_name (gv_name o)).

Definition annotation_mentions (g : sym) (a : annotation) : bool :=
  mentions g (ann_global a) || mentions g (ann_file a).

(** Value::use_empty *)
Definition use_empty (g : sym) (s : State) : bool :=
  forallb (fun p => negb (payload_mentions g (gv_payload (snd p)))) (map_to_list (TheModule s))
  && forallb (fun a => negb (annotation_mentions g a)) (AttributeAnnotateGlobals s).

(** Value::getType of a constant. *)
Definition getType (m : gmap sym GlobalValue) (c : Constant) : option LType :=
  match c with
  | GlobalRef g => gv_type <$> m !! g
  | ConstantInt ty _ | ConstantString ty _ | NullValue ty | UndefValue ty => Some ty
  | BitCastExpr _ ty => Some ty
  end.

(** TargetFolder::CreateBitCast and ConstantExpr::getBitCast: a cast to the
    type the constant already has is the constant, and a cast of a cast is
    folded into one cast of the inner operand. *)
Definition CreateBitCast (m : gmap sym GlobalValue) (c : Constant) (DestTy : LType)
  : option Constant :=
  match getType m c with
  | None => None
  | Some ty =>
      if decide (ty = DestTy) then Some c
      else match c with
           | BitCastExpr c' _ =>
               match getType m c' with
               | None => None
               | Some ty' =>
                   if decide (ty' = DestTy) then Some c'
                   else Some (BitCastExpr c' DestTy)
               end
           | _ => Some (BitCastExpr c DestTy)
           end
  end.

(** ConstantExpr::getBitCast on an operand LLVM knows the type of: the cast
    as the folder leaves it. *)
Definition getBitCast (m : gmap sym GlobalValue) (c : Constant) (DestTy : LType)
  : Constant :=
  default (BitCastExpr c DestTy) (CreateBitCast m c DestTy).

(** The constant that takes the place of [c] when every use of [Old] among
    the operands is replaced by [New]: a constant expression over [Old] is
    built anew from its replaced operand (replaceUsesOfWithOnConstant), so a
    cast of [Old] becomes one folded cast, not a cast of a cast; a constant
    without [Old] among its operands is no user and stays as it is. *)
Fixpoint subst_constant (m : gmap sym GlobalValue) (Old : sym) (New : Constant)
    (c : Constant) : Constant :=
  match c with
  | GlobalRef g => if bool_decide (g = Old) then New else c
  | BitCastExpr c' ty =>
      if mentions Old c' then getBitCast m (subst_constant m Old New c') ty else c
  | _ => c
  end.

Definition subst_operand (m : gmap sym GlobalValue) (Old : sym) (New : Constant)
    (o : Operand) : Operand :=
  match o with
  | OConst c => OConst (subst_constant m Old New c)
  | _ => o
  end.

Definition subst_inst (m : gmap sym GlobalValue) (Old : sym) (New : Constant)
    (i : Instruction) : Instruction :=
  match i with
  | BitCastInst v ty => BitCastInst (subst_operand m Old New v) ty
  | GEPInst ib p x => GEPInst ib (subst_operand m Old New p) (subst_operand m Old New x)
  | LoadInst p => LoadInst (subst_operand m Old New p)
  | PtrToIntInst v ty => PtrToIntInst (subst_operand m Old New v) ty
  | ICmpEQInst a b => ICmpEQInst (subst_operand m Old New a) (subst_operand m Old New b)
  | CallInst f args cc attrs tl =>
      CallInst (subst_operand m Old New f) (map (subst_operand m Old New) args) cc attrs tl
  | RetVoidInst => RetVoidInst
  | RetInst v => RetInst (subst_operand m Old New v)
  | CondBrInst c t e => CondBrInst (subst_operand m Old New c) t e
  end.

Definition subst_block (m : gmap sym GlobalValue) (Old : sym) (New : Constant)
    (b : BasicBlock) : BasicBlock :=
  {| bb_name := bb_name b;
     bb_insts := map (fun '(r, i) => (r, subst_inst m Old New i)) (bb_insts b) |}.

Definition subst_payload (m : gmap sym GlobalValue) (Old : sym) (New : Constant)
    (p : GlobalPayload) : GlobalPayload :=
  match p with
  | GlobalVariable i c t => GlobalVariable (subst_constant m Old New <$> i) c t
  | Function cc a body => Function cc a (map (subst_block m Old New) body)
  | GlobalAlias a => GlobalAlias (subst_constant m Old New a)
  end.

Definition subst_global (m : gmap sym GlobalValue) (Old : sym) (New : Constant)
    (g : GlobalValue) : GlobalValue :=
  with_payload (subst_payload m Old New (gv_payload g)) g.

Definition subst_annotation (m : gmap sym GlobalValue) (Old : sym) (New : Constant)
    (a : annotation) : annotation :=
  {| ann_global := subst_constant m Old New (ann_global a); ann_text := ann_text a;
     ann_file := subst_constant m Old New (ann_file a); ann_line := ann_line a |}.

(** Value::replaceAllUsesWith.  The users are the global values (through
    their initializer, body or aliasee) and the annotation structs; their
    constant expressions over [Old] are rebuilt with the types the module
    has when the call is made.  The collections of raw pointers (the
    declaration cache, the structor lists, the root sets) are no users and
    are not visited: an entry of theirs that is a constant expression over
    [Old] is left as it is, the address of an expression that no longer
    exists. *)
Definition replaceAllUsesWith (Old : sym) (New : Constant) : M unit :=
  modify (fun s =>
    upd_AttributeAnnotateGlobals (map (subst_annotation (TheModule s) Old New))
      (upd_TheModule (fmap (subst_global (TheModule s) Old New)) s)).

Definition getTypeM (c : Constant) : M LType :=
  do m <- gets TheModule; unwrap (getType m c).
Definition CreateBitCastM (c : Constant) (DestTy : LType) : M Constant :=
  do m <- gets TheModule; unwrap (CreateBitCast m c DestTy).

(** [cast<GlobalValue>], [cast<GlobalVariable>] and [cast<Function>] of a
    [Value *]: the pointer must be non-null and of the class asked for. *)
Definition cast_GlobalValue (v : option Constant) : M sym :=
  match v with
  | Some (GlobalRef g) => do _ <- global_of g; ret g
  | _ => abort
  end.
Definition cast_GlobalVariable (v : option Constant) : M sym :=
  do g <- cast_GlobalValue v;
  do gv <- global_of g;
  do _ <- assert (isGlobalVariable gv);
  ret g.
Definition cast_Function (v : option Constant) : M sym :=
  do g <- cast_GlobalValue v;
  do gv <- global_of g;
  do _ <- assert (isFunction gv);
  ret g.

(** SmallSetVector: count, remove, insert. *)
Definition SetVector_count (x : Constant) (l : list Constant) : bool :=
  bool_decide (x ∈ l).
Definition SetVector_remove (x : Constant) (l : list Constant) : list Constant :=
  filter (fun y => y <> x) l.
Definition SetVector_insert (x : Constant) (l : list Constant) : list Constant :=
  if bool_decide (x ∈ l) then l else l ++ [x].

(** ** Matching LLVM values with GCC declarations *)

#[global] Instance void_ptr_eq : EqDecision void_ptr.
Proof. solve_decision. Defined.

(** Modelled from the spec: llvm_get_cached (the cache implementation is not
    part of Backend.cpp).  Section 4.1: lookup yields the bound value, or
    empty (null) when the declaration was never bound. *)
Definition cached (s : State) (t : tree) : void_ptr :=
  default NullPtr (llvm_cache s !! t).
Definition llvm_get_cached (t : tree) : M void_ptr :=
  gets (fun s => cached s t).

(** Modelled from the spec: llvm_set_cached (the cache implementation is not
    part of Backend.cpp).  Section 4.1: bind records the mapping, overwriting
    any previous value. *)
Definition llvm_set_cached (t : tree) (p : void_ptr) : M void_ptr :=
  do _ <- modify (upd_llvm_cache (insert t p));
  ret p.

(** Modelled from the spec: llvm_replace_cached (the cache implementation is
    not part of Backend.cpp).  Section 4.1: every declaration bound to the
    old value becomes bound to the new one. *)
Definition llvm_replace_cached (old new : void_ptr) : M unit :=
  modify (upd_llvm_cache (fmap (fun p => if decide (p = old) then new else p))).

Definition Value_to_ptr (v : option Constant) : void_ptr :=
  match v with Some c => ValuePtr c | None => NullPtr end.

(** set_decl_llvm - Remember the LLVM value for a GCC declaration. *)
Definition set_decl_llvm (t : tree) (V : option Constant) : M (option Constant) :=
  do d <- decl_of t;
  do _ <- assert (HAS_RTL_P (TREE_CODE d));
  do _ <- llvm_set_cached t (Value_to_ptr V);
  ret V.

(** get_decl_llvm - Retrieve the LLVM value for a GCC declaration, or NULL.
    A cached index read back as a [Value *] is no usable pointer. *)
Definition get_decl_llvm (t : tree) : M (option Constant) :=
  do d <- decl_of t;
  do _ <- assert (HAS_RTL_P (TREE_CODE d));
  do p <- llvm_get_cached t;
  match p with
  | NullPtr => ret None
  | ValuePtr v => ret (Some v)
  | IntPtr _ => abort
  end.

(** [(intptr_t) x] for an [int] x: sign extension to the pointer width. *)
Definition to_intptr (s : State) (z : Z) : Z :=
  swrap (PointerSizeInBits (TheTarget s)) z.

(** set_decl_index - Associate a non-negative number with the given GCC
    declaration. *)
Definition set_decl_index (t : tree) (i : Z) : M Z :=
  do d <- decl_of t;
  do _ <- assert (negb (HAS_RTL_P (TREE_CODE d)));
  do _ <- assert (0 <=? i);
  do s <- get;
  do _ <- llvm_set_cached t (int_to_ptr (to_intptr s (to_int (to_int (- i) - 1))));
  ret i.

(** get_decl_index - Get the non-negative number associated with the given
    GCC declaration.  Returns a negative value if no such association has
    been made. *)
Definition get_decl_index (t : tree) : M Z :=
  do d <- decl_of t;
  do _ <- assert (negb (HAS_RTL_P (TREE_CODE d)));
  do p <- llvm_get_cached t;
  do z <- unwrap (ptr_to_int p);
  ret (to_int (- to_int (1 + to_int z))).

(** changeLLVMConstant - Replace Old with New everywhere, updating all maps
    (except for AttributeAnnotateGlobals, which is a different kind of
    animal). *)
Definition changeLLVMConstant (Old : sym) (New : Constant) : M unit :=
  do s <- get;
  do _ <- assert (use_empty Old s);
  do _ <- when (SetVector_count (GlobalRef Old) (AttributeUsedGlobals s))
            (modify (upd_AttributeUsedGlobals
                       (fun l => SetVector_insert New (SetVector_remove (GlobalRef Old) l))));
  do s <- get;
  do _ <- when (SetVector_count (GlobalRef Old) (AttributeCompilerUsedGlobals s))
            (modify (upd_AttributeCompilerUsedGlobals
                       (fun l => SetVector_insert New (SetVector_remove (GlobalRef Old) l))));
  do _ <- modify (upd_StaticCtors
            (map (fun p => if decide (fst p = GlobalRef Old) then (New, snd p) else p)));
  do _ <- modify (upd_StaticDtors
            (map (fun p => if decide (fst p = GlobalRef Old) then (New, snd p) else p)));
  llvm_replace_cached (ValuePtr (GlobalRef Old)) (ValuePtr New).

(** register_ctor_dtor - Called to register static ctors/dtors with LLVM. *)
Definition register_ctor_dtor (Fn : sym) (InitPrio : Z) (isCtor : bool) : M unit :=
  if isCtor then modify (upd_StaticCtors (fun l => l ++ [(GlobalRef Fn, InitPrio)]))
  else modify (upd_StaticDtors (fun l => l ++ [(GlobalRef Fn, InitPrio)])).

(** handleVisibility - Forward decl visibility style to global. *)
Definition handleVisibility (d : tree_decl) (GV : sym) : M unit :=
  if TREE_PUBLIC d && (DECL_VISIBILITY_SPECIFIED d || negb (DECL_EXTERNAL d)) then
    match DECL_VISIBILITY d with
    | VISIBILITY_HIDDEN => update_global GV (with_visibility HiddenVisibility)
    | VISIBILITY_PROTECTED => update_global GV (with_visibility ProtectedVisibility)
    | VISIBILITY_DEFAULT => update_global GV (with_visibility DefaultVisibility)
    | VISIBILITY_INTERNAL => ret tt
    end
  else ret tt.

(** ** Emitting global variables *)

(** ConvertMetadataStringToGV - Convert string to global value.  Use existing
    global if possible. *)
Definition ConvertMetadataStringToGV (str : string) : M Constant :=
  let Ty := ArrayTy Int8Ty (N.of_nat (String.length str) + 1) in
  let Init := ConstantString Ty str in
  do cache <- gets StringCSTCache;
  match cache !! str with
  | Some Slot => ret (GlobalRef Slot)
  | None =>
      do GV <- new_global {| gv_name := ".str"; gv_type := PointerTy Ty;
                             gv_linkage := PrivateLinkage;
                             gv_visibility := DefaultVisibility;
                             gv_section := ""; gv_alignment := 0;
                             gv_payload := GlobalVariable (Some Init) true false |};
      do _ <- update_global GV (with_section "llvm.metadata");
      do _ <- modify (upd_StringCSTCache (insert str GV));
      ret (GlobalRef GV)
  end.

(** The arguments of every attribute called [name], in order
    (lookup_attribute and the walk along TREE_CHAIN). *)
Definition attribute_args (name : string) (attrs : list (string * list string))
  : list string :=
  concat (map snd (filter (fun a => fst a = name) attrs)).

(** lookup_attribute (name, attrs) != 0 *)
Definition has_attribute (name : string) (attrs : list (string * list string)) : bool :=
  bool_decide (Exists (fun a => fst a = name) attrs).

(** AddAnnotateAttrsToGlobal - Adds decls that have a annotate attribute to a
    vector to be emitted later.  The text operand stands for the address of
    the string constant (AddressOf). *)
Definition AddAnnotateAttrsToGlobal (GV : sym) (d : tree_decl) : M unit :=
  if negb (has_attribute "annotate" (DECL_ATTRIBUTES d)) then ret tt
  else
    do file <- ConvertMetadataStringToGV (DECL_SOURCE_FILE d);
    do file <- CreateBitCastM file Int8PtrTy;
    do gv <- CreateBitCastM (GlobalRef GV) Int8PtrTy;
    modify (upd_AttributeAnnotateGlobals (fun l =>
      l ++ map (fun text => {| ann_global := gv; ann_text := text;
                               ann_file := file; ann_line := DECL_SOURCE_LINE d |})
               (attribute_args "annotate" (DECL_ATTRIBUTES d)))).

(** SizeOfGlobalMatchesDecl - Whether the size of the given global value is
    the same as that of the given GCC declaration.  Conservatively returns
    'true' if the answer is unclear.  The size of the declaration is read
    into a uint64_t after the assertion that it fits one; the alignment in
    bits is an unsigned, and the rounding is done in uint64_t: both wrap
    around, and a division by zero is [None] like the failed assertion. *)
Definition SizeOfGlobalMatchesDecl (TM : TargetMachine) (gv : GlobalValue) (d : tree_decl)
  : option bool :=
  match DECL_SIZE d with
  | None => Some true
  | Some size =>
      (* assert (isInt64 (DECL_SIZE (decl), true)) *)
      if negb ((0 <=? size) && (size <? 2 ^ 64)) then None
      else
        let gcc_size := size in
        match getElementType (gv_type gv) with
        | None => Some true
        | Some Ty =>
            if negb (isSized TM Ty) then Some true
            else
              let Align := uwrap 32 (8 * getABITypeAlignment TM Ty) in
              if Align =? 0 then None
              else
                Some (bool_decide
                        (getTypeAllocSizeInBits TM Ty
                         = uwrap 64 (uwrap 64 (gcc_size + Align - 1) / Align * Align)))
        end
  end.

(** Whether DECL_INITIAL is absent: null or error_mark_node. *)
Definition no_initial (d : tree_decl) : bool :=
  match DECL_INITIAL d with
  | None | Some error_mark_node => true
  | Some _ => false
  end.

(** The linkage emit_global computes for [decl], whose global currently has
    linkage [current] (GV->getLinkage ()). *)
Definition emit_global_Linkage (d : tree_decl) (odr : bool) (current : LinkageTypes)
  : LinkageTypes :=
  if CODE_CONTAINS_STRUCT_TS_DECL_WITH_VIS (TREE_CODE d) && false then PrivateLinkage
  else if CODE_CONTAINS_STRUCT_TS_DECL_WITH_VIS (TREE_CODE d) && false then LinkerPrivateLinkage
  else if negb (TREE_PUBLIC d) then InternalLinkage
  else if DECL_WEAK d then WeakAnyLinkage
  else if DECL_ONE_ONLY d then getWeakLinkage odr
  else if DECL_COMMON d && no_initial d then CommonLinkage
  else if DECL_COMDAT d then getLinkOnceLinkage odr
  else current.

(** The upgrade of the linkage of a constant global. *)
Definition constant_Linkage (constant : bool) (Linkage : LinkageTypes) : LinkageTypes :=
  if constant then
    if decide (Linkage = WeakAnyLinkage) then WeakODRLinkage
    else if decide (Linkage = LinkOnceAnyLinkage) then LinkOnceODRLinkage
    else Linkage
  else Linkage.

(** Modelled from the spec: getDefaultValue (declared outside Backend.cpp).
    Section 4.4: without an explicit initial value the zero value of the
    type is used. *)
Definition getDefaultValue (Ty : LType) : Constant := NullValue Ty.

(** SET_DECL_LLVM (decl, V) is set_decl_llvm (decl, V). *)
Definition SET_DECL_LLVM (t : tree) (V : Constant) : M (option Constant) :=
  set_decl_llvm t (Some V).

(** TREE_ASM_WRITTEN (decl) = 1 *)
Definition mark_written (t : tree) : M unit :=
  do d <- decl_of t;
  modify (upd_trees (insert t (set_TREE_ASM_WRITTEN true d))).

(** extractRegisterName - Get a register name given its decl; a leading star
    is dropped. *)
Definition extractRegisterName (d : tree_decl) : option string :=
  match DECL_ASSEMBLER_NAME d with
  | None => None
  | Some Name =>
      match Name with
      | String "*"%char rest => Some rest
      | _ => Some Name
      end
  end.

(** getLLVMAssemblerName - Get the assembler name (DECL_ASSEMBLER_NAME) for
    the declaration, with any leading star replaced by '\1'. *)
Definition getLLVMAssemblerName (d : tree_decl) : string :=
  match DECL_ASSEMBLER_NAME d with
  | None => ""
  | Some Name =>
      match Name with
      | String "*"%char rest => String (Ascii.ascii_of_nat 1) rest
      | _ => Name
      end
  end.

(** ValidateRegisterVariable - Check that a static "asm" variable is
    well-formed.  If not, emit error messages and return true.  If so, return
    false. *)
Definition ValidateRegisterVariable (decl : tree) : M bool :=
  do d <- decl_of decl;
  do name <- unwrap (extractRegisterName d);
  do cfg <- gets config;
  let RegNumber := decode_reg_name cfg name in
  do s <- get;
  if seen_error s then ret true
  else if RegNumber =? -1 then
    do _ <- error "register name not specified for %q+D" (Some decl); ret true
  else if RegNumber <? 0 then
    do _ <- error "invalid register name for %q+D" (Some decl); ret true
  else if TYPE_MODE_is_BLKmode (TREE_TYPE d) then
    do _ <- error "data type of %q+D isn%'t suitable for a register" (Some decl); ret true
  else if bool_decide (DECL_INITIAL d <> None) && TREE_STATIC d then
    do _ <- error "global register variable has initial value" None; ret true
  else if AGGREGATE_TYPE_P (TREE_TYPE d) then
    do _ <- sorry "LLVM cannot handle register variable %q+D, report a bug" (Some decl);
    ret true
  else
    do _ <- when (TREE_THIS_VOLATILE d)
              (warning "volatile register variables don%'t work as you might wish");
    ret false.

(** ** Materialising declarations *)

(** What make_decl_llvm aborts on when GCC is built with ENABLE_CHECKING:
    automatic variables, types and labels. *)
Definition checking_rejects (d : tree_decl) : bool :=
  bool_decide (TREE_CODE d = PARM_DECL) || bool_decide (TREE_CODE d = RESULT_DECL)
  || (bool_decide (TREE_CODE d = VAR_DECL) && negb (TREE_STATIC d)
      && negb (TREE_PUBLIC d) && negb (DECL_EXTERNAL d) && negb (DECL_REGISTER d))
  || bool_decide (TREE_CODE d = TYPE_DECL) || bool_decide (TREE_CODE d = LABEL_DECL).

Definition setCallingConv (cc : N) (g : GlobalValue) : GlobalValue :=
  match gv_payload g with
  | Function _ a b => with_payload (Function cc a b) g
  | _ => g
  end.
Definition setAttributes (a : list (bool * bool)) (g : GlobalValue) : GlobalValue :=
  match gv_payload g with
  | Function cc _ b => with_payload (Function cc a b) g
  | _ => g
  end.

(** A fresh declaration of a global variable or of a function, as the
    constructors leave it. *)
Definition GlobalVariable_new (Ty : LType) (constant : bool) (Linkage : LinkageTypes)
    (Name : string) : GlobalValue :=
  {| gv_name := Name; gv_type := PointerTy Ty; gv_linkage := Linkage;
     gv_visibility := DefaultVisibility; gv_section := ""; gv_alignment := 0;
     gv_payload := GlobalVariable None constant false |}.
Definition Function_new (Ty : LType) (Linkage : LinkageTypes) (Name : string)
  : GlobalValue :=
  {| gv_name := Name; gv_type := PointerTy Ty; gv_linkage := Linkage;
     gv_visibility := DefaultVisibility; gv_section := ""; gv_alignment := 0;
     gv_payload := Function 0 [] [] |}.

(** The new global [New] was renamed because [Old], a forward declaration of
    the other kind, has its name: every use of [Old] becomes a cast of
    [New], the maps are updated, [New] takes the name and [Old] is erased
    (make_decl_llvm, both branches). *)
Definition replace_forward_declaration (New Old : sym) : M unit :=
  do old <- global_of Old;
  do _ <- assert (isDeclaration old);
  (* Replace any uses of Old with uses of New. *)
  do InNewType <- CreateBitCastM (GlobalRef New) (gv_type old);
  do _ <- replaceAllUsesWith Old InNewType;
  (* Update the decl that points to Old. *)
  do _ <- changeLLVMConstant Old InNewType;
  (* Now we can give New the proper name. *)
  do _ <- takeName New Old;
  (* Old is now dead, nuke it. *)
  eraseFromParent Old.

(** Check for external weak linkage. *)
Definition check_external_weak (d : tree_decl) (GV : sym) : M unit :=
  when (DECL_EXTERNAL d && DECL_WEAK d) (update_global GV (with_linkage ExternalWeakLinkage)).

(** The function branch of make_decl_llvm: the Function for a FUNCTION_DECL
    whose assembler name is [Name]. *)
Definition make_decl_llvm_function (decl : tree) (d : tree_decl) (Name : string)
  : M sym :=
  do _ <- assert (negb (bool_decide (Name = "")));
  (* If this function has already been created, reuse the decl. *)
  do m <- gets TheModule;
  match getFunction m Name with
  | Some FnEntry => ret FnEntry
  | None =>
      do tc <- gets TheTypeConverter;
      let '(Ty, CC, PAL) := ConvertFunctionType tc (TREE_TYPE d) decl in
      do FnEntry <- new_global (Function_new Ty ExternalLinkage Name);
      do _ <- update_global FnEntry (setCallingConv CC);
      do _ <- update_global FnEntry (setAttributes PAL);
      do _ <- check_external_weak d FnEntry;
      do _ <- handleVisibility d FnEntry;
      (* If FnEntry got renamed, then there is already an object with this
         name in the symbol table.  If this happens, the old one must be a
         forward decl, just replace it with a cast of the new one. *)
      do fn <- global_of FnEntry;
      do _ <- when (bool_decide (gv_name fn <> Name))
                (do m <- gets TheModule;
                 do G <- unwrap (getGlobalVariable m Name);
                 replace_forward_declaration FnEntry G);
      ret FnEntry
  end.

(** The variable branch of make_decl_llvm: the GlobalVariable for a VAR_DECL
    or CONST_DECL whose assembler name is [Name]. *)
Definition make_decl_llvm_variable (decl : tree) (d : tree_decl) (Name : string)
  : M sym :=
  do _ <- assert (bool_decide (TREE_CODE d = VAR_DECL)
                  || bool_decide (TREE_CODE d = CONST_DECL));
  do tc <- gets TheTypeConverter;
  let Ty := ConvertType tc (TREE_TYPE d) in
  (* "extern void foo": type {} instead of type void. *)
  let Ty := if isVoidTy Ty then StructTy [] else Ty in
  do GV <-
    (if bool_decide (Name = "") then   (* Global has no name. *)
       do GV <- new_global (GlobalVariable_new Ty false ExternalLinkage "");
       do _ <- check_external_weak d GV;
       do _ <- handleVisibility d GV;
       ret GV
     else
       (* If the global has a name, prevent multiple vars with the same
          name from being created. *)
       do m <- gets TheModule;
       match getGlobalVariable m Name with
       | None =>
           do GV <- new_global (GlobalVariable_new Ty false ExternalLinkage Name);
           do _ <- check_external_weak d GV;
           do _ <- handleVisibility d GV;
           (* If GV got renamed, then there is already an object with this
              name in the symbol table.  If this happens, the old one must
              be a forward decl, just replace it with a cast of the new
              one. *)
           do gv <- global_of GV;
           do _ <- when (bool_decide (gv_name gv <> Name))
                     (do m <- gets TheModule;
                      do F <- unwrap (getFunction m Name);
                      replace_forward_declaration GV F);
           ret GV
       | Some GVE => ret GVE   (* Global already created, reuse it. *)
       end);
  do _ <- when ((TREE_READONLY d && negb (TREE_SIDE_EFFECTS d))
                || bool_decide (TREE_CODE d = CONST_DECL))
            (if DECL_EXTERNAL d then
               (* Mark external globals constant even though they could be
                  marked non-constant in the defining translation unit. *)
               update_global GV (setConstant true)
             else
               (* Mark readonly globals with constant initializers constant. *)
               match DECL_INITIAL d with
               | Some init =>
                   when (bool_decide (init <> error_mark_node)
                         && (TREE_CONSTANT init || is_STRING_CST init))
                     (update_global GV (setConstant true))
               | None => ret tt
               end);
  (* Set thread local (TLS) *)
  do _ <- when (bool_decide (TREE_CODE d = VAR_DECL) && DECL_THREAD_LOCAL_P d)
            (update_global GV (setThreadLocal true));
  do gv <- global_of GV;
  do tm <- gets TheTarget;
  do _ <- (if isDeclaration gv then ret tt
           else do matches <- unwrap (SizeOfGlobalMatchesDecl tm gv d); assert matches);
  ret GV.

(** The bookkeeping make_decl_llvm does on the declaration before it creates
    anything: the clearing of DECL_COMMON.  The check of the assembler name
    against the register names stands under #ifdef REGISTER_PREFIX and
    passes a std::string where decode_reg_name takes a const char *: the
    file compiles only where the macro is not defined, and there the check
    is not part of the function. *)
Definition make_decl_llvm_prepare (decl : tree) (d : tree_decl) (Name : string)
  : M unit :=
  (* Specifying a section attribute on a variable forces it into a non-.bss
     section, and thus it cannot be common. *)
  do _ <- when (bool_decide (TREE_CODE d = VAR_DECL)
                && bool_decide (DECL_SECTION_NAME d <> None)
                && bool_decide (DECL_INITIAL d = None) && DECL_COMMON d)
            (modify (upd_trees (insert decl (set_DECL_COMMON false d))));
  do d <- decl_of decl;
  (* Variables can't be both common and weak. *)
  when (bool_decide (TREE_CODE d = VAR_DECL) && DECL_WEAK d)
    (modify (upd_trees (insert decl (set_DECL_COMMON false d)))).

(** make_decl_llvm - Create the DECL_RTL for a VAR_DECL or FUNCTION_DECL.
    DECL should have static storage duration; the one exception are
    variables explicitly placed in a register by the user. *)
Definition make_decl_llvm (decl : tree) : M (option Constant) :=
  (* If we already made the LLVM, then return it. *)
  do V <- get_decl_llvm decl;
  match V with
  | Some v => ret (Some v)
  | None =>
  do d <- decl_of decl;
  do cfg <- gets config;
  do _ <- assert (negb (ENABLE_CHECKING cfg && checking_rejects d));
  do s <- get;
  if seen_error s then ret None   (* Do not process broken code. *)
  else if bool_decide (TREE_CODE d <> FUNCTION_DECL) && DECL_REGISTER d then
    (* Global register variable with asm name: this just verifies that the
       variable is ok. *)
    do _ <- ValidateRegisterVariable decl;
    ret None
  else
  (* CONST_DECLs do not have assembler names. *)
  let Name := if bool_decide (TREE_CODE d <> CONST_DECL)
              then getLLVMAssemblerName d else "" in
  do _ <- make_decl_llvm_prepare decl d Name;
  do d <- decl_of decl;
  (* Okay, now we need to create an LLVM global variable or function for
     this object. *)
  if bool_decide (TREE_CODE d = FUNCTION_DECL) then
    do FnEntry <- make_decl_llvm_function decl d Name;
    SET_DECL_LLVM decl (GlobalRef FnEntry)
  else
    do GV <- make_decl_llvm_variable decl d Name;
    SET_DECL_LLVM decl (GlobalRef GV)
  end.

(** DECL_LLVM (decl) is make_decl_llvm (decl). *)
Definition DECL_LLVM (decl : tree) : M (option Constant) := make_decl_llvm decl.

(** Modelled from the spec: ConvertInitializer (the initializer conversion
    service is not part of Backend.cpp).  Section 6: it produces a backend
    constant from the initial value and may call back into the materialiser
    for references to other declarations; here the address of a declaration
    is the definition of that declaration cast to the type of the
    expression. *)
Definition ConvertInitializer (DEFINITION_LLVM : tree -> M (option Constant))
    (exp : tree_expr) : M Constant :=
  do tc <- gets TheTypeConverter;
  match exp with
  | error_mark_node => abort
  | INTEGER_CST ty v => ret (ConstantInt (ConvertType tc ty) v)
  | STRING_CST ty str => ret (ConstantString (ConvertType tc ty) str)
  | ADDR_EXPR ty _ operand =>
      do V <- DEFINITION_LLVM operand;
      do g <- cast_GlobalValue V;
      CreateBitCastM (GlobalRef g) (ConvertType tc ty)
  end.

(** The retyping step of emit_global: the forward definition [GV] has a type
    that disagrees with the initializer, so a new global of type [InitTy]
    replaces it. *)
Definition retype_global (decl : tree) (GV : sym) (InitTy : LType) : M sym :=
  do gv <- global_of GV;
  do _ <- removeFromParent GV;
  do NGV <- new_global (GlobalVariable_new InitTy (isConstant gv) ExternalLinkage
                                           (gv_name gv));
  do c <- CreateBitCastM (GlobalRef NGV) (gv_type gv);
  do _ <- replaceAllUsesWith GV c;
  do _ <- changeLLVMConstant GV (GlobalRef NGV);
  do _ <- delete_global GV;
  do _ <- SET_DECL_LLVM decl (GlobalRef NGV);
  ret NGV.

(** The post-processing of emit_global, from "Set the initializer" to the
    end: initializer, thread locality, linkage, visibility, section,
    alignment, roots, annotations, and the written mark.  TheDebugInfo is
    null and the target defines none of the optional hooks. *)
Definition emit_global_finish (decl : tree) (GV : sym) (Init : Constant) : M unit :=
  do d <- decl_of decl;
  (* Set the initializer. *)
  do _ <- update_global GV (setInitializer (Some Init));
  (* Set thread local (TLS) *)
  do _ <- when (bool_decide (TREE_CODE d = VAR_DECL) && DECL_THREAD_LOCAL_P d)
            (update_global GV (setThreadLocal true));
  (* Set the linkage. *)
  do gv <- global_of GV;
  do odr <- gets flag_odr;
  let Linkage := emit_global_Linkage d odr (gv_linkage gv) in
  let Linkage := constant_Linkage (isConstant gv) Linkage in
  do _ <- update_global GV (with_linkage Linkage);
  do _ <- handleVisibility d GV;
  (* Set the section, the alignment and the roots. *)
  do _ <- when (bool_decide (TREE_CODE d = VAR_DECL))
    (do _ <- match DECL_SECTION_NAME d with
             | Some sec => update_global GV (with_section sec)
             | None => ret tt
             end;
     do _ <- when (negb (DECL_ALIGN d =? 0))
               (do tm <- gets TheTarget;
                do gv <- global_of GV;
                do elt <- unwrap (getElementType (gv_type gv));
                let TargetAlign := getABITypeAlignment tm elt in
                when (DECL_USER_ALIGN d || (8 * TargetAlign <? DECL_ALIGN d))
                  (update_global GV (with_alignment (DECL_ALIGN d / 8))));
     (* Handle used decls *)
     do _ <- when (DECL_PRESERVE_P d)
               (if false
                then modify (upd_AttributeCompilerUsedGlobals (SetVector_insert (GlobalRef GV)))
                else modify (upd_AttributeUsedGlobals (SetVector_insert (GlobalRef GV))));
     (* Add annotate attributes for globals *)
     match DECL_ATTRIBUTES d with
     | [] => ret tt
     | _ :: _ => AddAnnotateAttrsToGlobal GV d
     end);
  (* Sanity check that the LLVM global has the right size. *)
  do gv <- global_of GV;
  do tm <- gets TheTarget;
  do matches <- unwrap (SizeOfGlobalMatchesDecl tm gv d);
  do _ <- assert matches;
  (* Mark the global as written so gcc doesn't waste time outputting it. *)
  mark_written decl.

(** Whether emit_global leaves the declaration alone: a global register
    variable, or a forward declaration whose type has no size yet. *)
Definition emit_global_skips (d : tree_decl) : bool :=
  (bool_decide (TREE_CODE d = VAR_DECL) && DECL_REGISTER d)
  || bool_decide (TYPE_SIZE (TREE_TYPE d) = None).

(** emit_global - Emit the specified VAR_DECL or aggregate CONST_DECL to LLVM
    as a global variable.  [ConvertInitializer] is the conversion service
    with its way back into this file. *)
Definition emit_global_with (ConvertInitializer : tree_expr -> M Constant) (decl : tree)
  : M unit :=
  do d <- decl_of decl;
  (* Global register variables don't turn into LLVM GlobalVariables. *)
  if bool_decide (TREE_CODE d = VAR_DECL) && DECL_REGISTER d then ret tt
  (* If we encounter a forward declaration then do not emit the global yet. *)
  else if bool_decide (TYPE_SIZE (TREE_TYPE d) = None) then ret tt
  else
  (* Get or create the global variable now. *)
  do V <- DECL_LLVM decl;
  do GV <- cast_GlobalVariable V;
  do d <- decl_of decl;
  (* Convert the initializer over. *)
  do Init <-
    match DECL_INITIAL d with
    | None | Some error_mark_node =>
        do tc <- gets TheTypeConverter;
        ret (getDefaultValue (ConvertType tc (TREE_TYPE d)))
    | Some init =>
        do _ <- assert (TREE_CONSTANT init || is_STRING_CST init);
        (* Temporarily set an initializer for the global, so we don't
           infinitely recurse. *)
        do gv <- global_of GV;
        do elt <- unwrap (getElementType (gv_type gv));
        do _ <- update_global GV (setInitializer (Some (UndefValue elt)));
        ConvertInitializer init
    end;
  (* If we had a forward definition that has a type that disagrees with our
     initializer, insert a cast now. *)
  do gv <- global_of GV;
  do elt <- unwrap (getElementType (gv_type gv));
  do InitTy <- getTypeM Init;
  do GV <-
    (if bool_decide (elt <> InitTy) then
       do NGV <- retype_global decl GV InitTy;
       (* A use of GV inside Init was rewritten and the old expression
          destroyed: Init must not be such an expression. *)
       do _ <- assert (negb (mentions GV Init));
       ret NGV
     else ret GV);
  emit_global_finish decl GV Init.

(** make_definition_llvm - Ensures that the body or initial value of the
    given GCC global will be output, and returns a declaration for it. *)
Definition make_definition_llvm_with (emit_global : tree -> M unit) (decl : tree)
  : M (option Constant) :=
  do d <- decl_of decl;
  (* Only need to do something special for global variables. *)
  if bool_decide (TREE_CODE d <> CONST_DECL) && bool_decide (TREE_CODE d <> VAR_DECL)
  then DECL_LLVM decl
  (* Do not allocate storage for external references. *)
  else if DECL_EXTERNAL d then DECL_LLVM decl
  (* Can only assign initial values to global variables in static storage. *)
  else if negb (TREE_STATIC d) then
    do _ <- assert (bool_decide (DECL_INITIAL d = None));
    DECL_LLVM decl
  else
    do V <- DECL_LLVM decl;
    do GV <- cast_GlobalValue V;
    do gv <- global_of GV;
    (* If we already output a definition for this declaration, then reuse it. *)
    if negb (isDeclaration gv) then ret (Some (GlobalRef GV))
    else
      do _ <- emit_global decl;
      DECL_LLVM decl.   (* Decl could have changed if it changed type. *)

(** The recursion emit_global -> ConvertInitializer -> make_definition_llvm
    -> emit_global, unfolded [fuel] times; running out of fuel is [None]. *)
Fixpoint emit_global (fuel : nat) (decl : tree) : M unit :=
  match fuel with
  | O => abort
  | S fuel' =>
      emit_global_with
        (ConvertInitializer (make_definition_llvm_with (emit_global fuel'))) decl
  end.

Definition make_definition_llvm (fuel : nat) (decl : tree) : M (option Constant) :=
  make_definition_llvm_with (emit_global fuel) decl.

(** DEFINITION_LLVM (decl) is make_definition_llvm (decl). *)
Definition DEFINITION_LLVM (fuel : nat) (decl : tree) : M (option Constant) :=
  make_definition_llvm fuel decl.

(** ** Aliases *)

(** GetLinkageForAlias - The given GCC declaration is an alias or thunk.
    Return the appropriate LLVM linkage type for it. *)
Definition GetLinkageForAlias (d : tree_decl) (odr : bool) : LinkageTypes :=
  if DECL_COMDAT d then InternalLinkage
  else if DECL_ONE_ONLY d then getWeakLinkage odr
  else if DECL_WEAK d then WeakAnyLinkage
  else if negb (TREE_PUBLIC d) then InternalLinkage
  else if DECL_EXTERNAL d then InternalLinkage
  else ExternalLinkage.

(** [while (IDENTIFIER_TRANSPARENT_ALIAS (target)) target = TREE_CHAIN (target);] *)
Fixpoint ultimate_transparent_alias (i : identifier) : identifier :=
  match i with
  | Identifier _ => i
  | TransparentAlias _ next => ultimate_transparent_alias next
  end.

(** The second half of emit_alias, once the aliasee is known. *)
Definition emit_alias_finish (decl : tree) (V Aliasee : sym) : M unit :=
  do d <- decl_of decl;
  do odr <- gets flag_odr;
  let Linkage := GetLinkageForAlias d odr in
  do v <- global_of V;
  do _ <-
    (if bool_decide (Linkage <> InternalLinkage) then
       (* Create the LLVM alias. *)
       do aliasee <- global_of Aliasee;
       do GA <- new_global {| gv_name := ""; gv_type := gv_type aliasee;
                              gv_linkage := Linkage;
                              gv_visibility := DefaultVisibility;
                              gv_section := ""; gv_alignment := 0;
                              gv_payload := GlobalAlias (GlobalRef Aliasee) |};
       do _ <- handleVisibility d GA;
       (* Associate it with decl instead of V. *)
       do c <- CreateBitCastM (GlobalRef GA) (gv_type v);
       do _ <- replaceAllUsesWith V c;
       do _ <- changeLLVMConstant V (GlobalRef GA);
       takeName GA V
     else
       (* Make all users of the alias directly use the aliasee instead. *)
       do c <- CreateBitCastM (GlobalRef Aliasee) (gv_type v);
       do _ <- replaceAllUsesWith V c;
       changeLLVMConstant V (GlobalRef Aliasee));
  do _ <- eraseFromParent V;
  (* Mark the alias as written so gcc doesn't waste time outputting it. *)
  mark_written decl.

(** emit_alias - Given decl and target emit alias to target. *)
Definition emit_alias (fuel : nat) (decl : tree) (target : alias_target) : M unit :=
  do s <- get;
  if seen_error s then ret tt   (* Do not process broken code. *)
  else
  (* Get or create LLVM global for our alias. *)
  do V0 <- DECL_LLVM decl;
  do V <- cast_GlobalValue V0;
  do d <- decl_of decl;
  let weakref := has_attribute "weakref" (DECL_ATTRIBUTES d) in
  let target :=
    match target with
    | TargetIdentifier i =>
        if weakref then TargetIdentifier (ultimate_transparent_alias i) else target
    | TargetDecl _ => target
    end in
  do s <- get;
  let target :=
    match target with
    | TargetIdentifier i =>
        match cgraph_asm s !! IDENTIFIER_POINTER i with
        | Some fdecl => TargetDecl fdecl
        | None =>
            match varpool_asm s !! IDENTIFIER_POINTER i with
            | Some vdecl => TargetDecl vdecl
            | None => target
            end
        end
    | TargetDecl _ => target
    end in
  match target with
  | TargetIdentifier i =>
      if negb weakref then
        error "%q+D aliased to undefined symbol %qs" (Some decl)
      else
        (* weakref to external symbol. *)
        do v <- global_of V;
        do Aliasee <-
          match gv_payload v with
          | GlobalVariable _ constant _ =>
              new_global (GlobalVariable_new (gv_type v) constant ExternalWeakLinkage
                                             (IDENTIFIER_POINTER i))
          | Function _ _ _ =>
              do FTy <- unwrap (getElementType (gv_type v));
              new_global (Function_new FTy ExternalWeakLinkage (IDENTIFIER_POINTER i))
          | GlobalAlias _ => abort
          end;
        emit_alias_finish decl V Aliasee
  | TargetDecl t =>
      do A <- DEFINITION_LLVM fuel t;
      do Aliasee <- cast_GlobalValue A;
      emit_alias_finish decl V Aliasee
  end.

(** emit_same_body_alias - Turn a same-body alias into LLVM IR. *)
Definition emit_same_body_alias (fuel : nat) (alias : cgraph_node) : M unit :=
  do s <- get;
  if seen_error s then ret tt   (* Do not process broken code. *)
  else
  (* If the target is not "extern inline" then output an ordinary alias. *)
  let target := thunk_alias (thunk alias) in
  do td <- decl_of target;
  if negb (DECL_EXTERNAL td) then emit_alias fuel (node_decl alias) (TargetDecl target)
  else
    do A0 <- DECL_LLVM (node_decl alias);
    do Alias <- cast_GlobalValue A0;
    do A1 <- DEFINITION_LLVM fuel target;
    do Aliasee <- cast_GlobalValue A1;
    do a <- global_of Alias;
    do c <- CreateBitCastM (GlobalRef Aliasee) (gv_type a);
    do _ <- replaceAllUsesWith Alias c;
    do _ <- changeLLVMConstant Alias (GlobalRef Aliasee);
    do _ <- eraseFromParent Alias;
    mark_written (node_decl alias).

(** Running an operation on each element of a list, in order. *)
Fixpoint for_each {A} (f : A -> M unit) (l : list A) : M unit :=
  match l with
  | [] => ret tt
  | x :: l' => do _ <- f x; for_each f l'
  end.

(** emit_variables - Output GCC global variables to the LLVM IR.
    [static_variables] are the declarations FOR_EACH_STATIC_VARIABLE visits
    and [alias_pairs] is GCC's vector of that name; the backend is
    initialised already. *)
Definition emit_variables (fuel : nat) (static_variables : list tree)
    (alias_pairs : list (tree * alias_target)) : M unit :=
  do s <- get;
  if seen_error s then ret tt   (* Do not process broken code. *)
  else
  do _ <- for_each (fun var =>
            do d <- decl_of var;
            when (bool_decide (TREE_CODE d = VAR_DECL)
                  && (TREE_PUBLIC d || DECL_PRESERVE_P d))
              (emit_global fuel var)) static_variables;
  (* Emit any aliases. *)
  for_each (fun p => emit_alias fuel (fst p) (snd p)) alias_pairs.

(** ** Thunks *)

(** An LLVM value in a function under construction, with its type. *)
Definition TValue : Type := Operand * LType.

(** The LLVMBuilder and the function it appends to: the blocks so far, the
    block instructions are inserted into, and the next value number. *)
Record LLVMBuilder := {
  bld_blocks : list BasicBlock;
  bld_insert : string;
  bld_next : nat
}.

(** BasicBlock::Create (Context, Name, Thunk) *)
Definition BasicBlock_Create (Name : string) (b : LLVMBuilder) : LLVMBuilder :=
  {| bld_blocks := bld_blocks b ++ [{| bb_name := Name; bb_insts := [] |}];
     bld_insert := bld_insert b; bld_next := bld_next b |}.
Definition SetInsertPoint (Name : string) (b : LLVMBuilder) : LLVMBuilder :=
  {| bld_blocks := bld_blocks b; bld_insert := Name; bld_next := bld_next b |}.

(** Appending an instruction at the insertion point. *)
Definition Insert (i : Instruction) (b : LLVMBuilder) : Operand * LLVMBuilder :=
  (OInst (bld_next b),
   {| bld_blocks :=
        map (fun bb => if decide (bb_name bb = bld_insert b)
                       then {| bb_name := bb_name bb;
                               bb_insts := bb_insts bb ++ [(bld_next b, i)] |}
                       else bb) (bld_blocks b);
      bld_insert := bld_insert b; bld_next := S (bld_next b) |}).

(** IRBuilder::CreateBitCast: nothing is emitted for a cast to the type the
    value has; a constant is folded. *)
Definition Builder_CreateBitCast (V : TValue) (DestTy : LType) (b : LLVMBuilder)
  : TValue * LLVMBuilder :=
  if decide (snd V = DestTy) then (V, b)
  else match fst V with
       | OConst c => ((OConst (BitCastExpr c DestTy), DestTy), b)
       | _ => let '(r, b') := Insert (BitCastInst (fst V) DestTy) b in ((r, DestTy), b')
       end.
Definition Builder_CreateInBoundsGEP (Ptr Idx : TValue) (b : LLVMBuilder)
  : TValue * LLVMBuilder :=
  let '(r, b') := Insert (GEPInst true (fst Ptr) (fst Idx)) b in ((r, snd Ptr), b').
Definition Builder_CreateLoad (Ptr : TValue) (b : LLVMBuilder) : TValue * LLVMBuilder :=
  let '(r, b') := Insert (LoadInst (fst Ptr)) b in
  ((r, default VoidTy (getElementType (snd Ptr))), b').
Definition Builder_CreatePtrToInt (V : TValue) (DestTy : LType) (b : LLVMBuilder)
  : TValue * LLVMBuilder :=
  let '(r, b') := Insert (PtrToIntInst (fst V) DestTy) b in ((r, DestTy), b').
Definition Builder_CreateICmpEQ (A B : TValue) (b : LLVMBuilder) : TValue * LLVMBuilder :=
  let '(r, b') := Insert (ICmpEQInst (fst A) (fst B)) b in ((r, IntegerTy 1), b').

Definition IntPtrType (s : State) : LType :=
  IntegerTy (Z.to_N (PointerSizeInBits (TheTarget s))).

(** ApplyVirtualOffset - Adjust 'this' by a virtual offset. *)
Definition ApplyVirtualOffset (IntPtrTy : LType) (This : TValue) (virtual_value : Z)
    (Builder : LLVMBuilder) : TValue * LLVMBuilder :=
  let BytePtrTy := Int8PtrTy in                      (* i8* *)
  let HandleTy := getPointerTo BytePtrTy in          (* i8** *)
  (* The vptr is always at offset zero in the object. *)
  let '(VPtr, Builder) := Builder_CreateBitCast This (getPointerTo HandleTy) Builder in
  (* Form the vtable address. *)
  let '(VTableAddr, Builder) := Builder_CreateLoad VPtr Builder in
  (* Find the entry with the vcall offset. *)
  let VOffset : TValue := (OConst (ConstantInt IntPtrTy virtual_value), IntPtrTy) in
  let '(VTableAddr, Builder) := Builder_CreateBitCast VTableAddr BytePtrTy Builder in
  let '(VTableAddr, Builder) := Builder_CreateInBoundsGEP VTableAddr VOffset Builder in
  let '(VTableAddr, Builder) := Builder_CreateBitCast VTableAddr HandleTy Builder in
  (* Get the offset itself. *)
  let '(VCallOffset, Builder) := Builder_CreateLoad VTableAddr Builder in
  let '(VCallOffset, Builder) := Builder_CreatePtrToInt VCallOffset IntPtrTy Builder in
  (* Adjust the 'this' pointer. *)
  let '(Adjusted, Builder) := Builder_CreateBitCast This BytePtrTy Builder in
  let '(Adjusted, Builder) := Builder_CreateInBoundsGEP Adjusted VCallOffset Builder in
  Builder_CreateBitCast Adjusted (snd This) Builder.

(** The move by the fixed offset, as emit_thunk does it twice: for 'this'
    with the type of the argument, for the returned value with the return
    type of the thunk. *)
Definition ApplyFixedOffset (IntPtrTy : LType) (V : TValue) (offset : Z) (BackTy : LType)
    (Builder : LLVMBuilder) : TValue * LLVMBuilder :=
  if offset =? 0 then (V, Builder)
  else
    let Offset : TValue := (OConst (ConstantInt IntPtrTy offset), IntPtrTy) in
    let '(V, Builder) := Builder_CreateBitCast V Int8PtrTy Builder in
    let '(V, Builder) := Builder_CreateInBoundsGEP V Offset Builder in
    Builder_CreateBitCast V BackTy Builder.

(** The loop of emit_thunk over the formal arguments [AI], numbered from
    [i]: every argument is passed through, except 'this', the first one that
    carries neither the sret nor the nest attribute. *)
Fixpoint thunk_arguments (info : cgraph_thunk_info) (IntPtrTy : LType)
    (params : list LType) (attrs : list (bool * bool)) (i : nat)
    (FoundThis : bool) (Builder : LLVMBuilder)
  : option (list Operand * LLVMBuilder) :=
  match params with
  | [] => Some ([], Builder)
  | ty :: params' =>
      let '(hasStructRetAttr, hasNestAttr) := nth i attrs (false, false) in
      if FoundThis || hasStructRetAttr || hasNestAttr then
        '(rest, Builder) ← thunk_arguments info IntPtrTy params' attrs (S i) FoundThis Builder;
        Some (OArg i :: rest, Builder)
      else
        (* The current argument is 'this'. *)
        if negb (isPointerTy ty) then None
        else
          let This : TValue := (OArg i, ty) in
          (* Adjust 'this' according to the thunk offsets.  First, the
             fixed offset. *)
          let '(This, Builder) :=
            ApplyFixedOffset IntPtrTy This (fixed_offset info) ty Builder in
          (* Then by the virtual offset, if any. *)
          let '(This, Builder) :=
            if virtual_offset_p info
            then ApplyVirtualOffset IntPtrTy This (virtual_value info) Builder
            else (This, Builder) in
          '(rest, Builder) ← thunk_arguments info IntPtrTy params' attrs (S i) true Builder;
          Some (fst This :: rest, Builder)
  end.

Definition count_insts (body : list BasicBlock) : nat :=
  length (concat (map bb_insts body)).

(** The body emit_thunk builds for a thunk of function type
    [FunctionTy RetTy params false] whose target [callee] returns a
    [CallTy]; [body] are the blocks the thunk has so far. *)
Definition emit_thunk_body (info : cgraph_thunk_info) (IntPtrTy : LType)
    (RetTy : LType) (params : list LType) (cc : N) (attrs : list (bool * bool))
    (callee : Constant) (CallTy : LType) (body : list BasicBlock)
  : option (list BasicBlock) :=
  let ThisAdjusting := this_adjusting info in
  let Builder := {| bld_blocks := body; bld_insert := ""; bld_next := count_insts body |} in
  let Builder := SetInsertPoint "entry" (BasicBlock_Create "entry" Builder) in
  (* Whether we found 'this' yet. *)
  let FoundThis := negb ThisAdjusting in
  '(Arguments, Builder) ← thunk_arguments info IntPtrTy params attrs 0 FoundThis Builder;
  let '(Call, Builder) := Insert (CallInst (OConst callee) Arguments cc attrs true) Builder in
  if ThisAdjusting then
    (* Return the value unchanged. *)
    if isVoidTy RetTy then Some (bld_blocks (snd (Insert RetVoidInst Builder)))
    else Some (bld_blocks (snd (Insert (RetInst Call) Builder)))
  else
    (* Covariant return thunk - adjust the returned value by the thunk
       offsets. *)
    if negb (isPointerTy CallTy) then None
    else
      let RetVal : TValue := (Call, CallTy) in
      (* First check if the returned value is NULL. *)
      let Zero : TValue := (OConst (NullValue CallTy), CallTy) in
      let '(isNull, Builder) := Builder_CreateICmpEQ RetVal Zero Builder in
      let Builder := BasicBlock_Create "isNull" Builder in
      let Builder := BasicBlock_Create "isNotNull" Builder in
      let '(_, Builder) := Insert (CondBrInst (fst isNull) "isNull" "isNotNull") Builder in
      (* If it is NULL, return it without any adjustment. *)
      let Builder := SetInsertPoint "isNull" Builder in
      let '(_, Builder) := Insert (RetInst (fst Zero)) Builder in
      (* Otherwise, first adjust by the virtual offset, if any. *)
      let Builder := SetInsertPoint "isNotNull" Builder in
      let '(RetVal, Builder) :=
        if virtual_offset_p info
        then ApplyVirtualOffset IntPtrTy RetVal (virtual_value info) Builder
        else (RetVal, Builder) in
      (* Then move 'this' by the fixed offset. *)
      let '(RetVal, Builder) :=
        ApplyFixedOffset IntPtrTy RetVal (fixed_offset info) RetTy Builder in
      (* Return the adjusted value. *)
      let '(_, Builder) := Insert (RetInst (fst RetVal)) Builder in
      Some (bld_blocks Builder).

(** The return type of the function a callee of pointer-to-function type
    points to. *)
Definition callee_return_type (m : gmap sym GlobalValue) (callee : Constant)
  : option LType :=
  match getType m callee with
  | Some (PointerTy (FunctionTy R _ _)) => Some R
  | _ => None
  end.

(** emit_thunk - Turn a thunk into LLVM IR. *)
Definition emit_thunk (node : cgraph_node) : M unit :=
  do s <- get;
  if seen_error s then ret tt   (* Do not process broken code. *)
  else
  do V <- DECL_LLVM (node_decl node);
  do Thunk <- cast_Function V;
  do thunk_fn <- global_of Thunk;
  match getElementType (gv_type thunk_fn) with
  | Some (FunctionTy RetTy params isVarArg) =>
      if isVarArg then sorry "thunks to varargs functions not supported" None
      else
        (* Mark the thunk as written so gcc doesn't waste time outputting it. *)
        do _ <- mark_written (node_decl node);
        (* Set the linkage and visibility. *)
        do d <- decl_of (node_decl node);
        do odr <- gets flag_odr;
        do _ <- update_global Thunk (with_linkage (GetLinkageForAlias d odr));
        do _ <- handleVisibility d Thunk;
        do A <- DECL_LLVM (thunk_alias (thunk node));
        do callee <- unwrap A;
        do s <- get;
        do CallTy <- unwrap (callee_return_type (TheModule s) callee);
        do thunk_fn <- global_of Thunk;
        match gv_payload thunk_fn with
        | Function cc attrs body =>
            do blocks <- unwrap (emit_thunk_body (thunk node) (IntPtrType s) RetTy params
                                                 cc attrs callee CallTy body);
            update_global Thunk (setBody blocks)
        | _ => abort
        end
  | _ => abort
  end.

(** ** Running the instructions of a thunk *)

(** The machine a function body runs on: pointers are [ptr_bits] wide,
    memory holds pointer-sized words, every global has an address, and a
    call of the function at an address with given arguments returns a word. *)
Record Machine := {
  ptr_bits : Z;
  memory : Z -> Z;
  address_of : sym -> Z;
  call_result : Z -> list Z -> Z
}.

Fixpoint eval_constant (mc : Machine) (c : Constant) : option Z :=
  match c with
  | GlobalRef g => Some (uwrap (ptr_bits mc) (address_of mc g))
  | ConstantInt _ v => Some (uwrap (ptr_bits mc) v)
  | NullValue _ => Some 0
  | BitCastExpr c' _ => eval_constant mc c'
  | ConstantString _ _ | UndefValue _ => None
  end.

(** The values of the instructions executed so far and the calls made. *)
Record Frame := {
  regs : gmap nat Z;
  calls : list (Z * list Z)
}.

Definition eval_operand (mc : Machine) (args : list Z) (fr : Frame) (o : Operand)
  : option Z :=
  match o with
  | OArg i => args !! i
  | OInst r => regs fr !! r
  | OConst c => eval_constant mc c
  end.

Inductive Control :=
  | Continue
  | Returned (v : option Z)
  | Branch (label : string).

Definition set_reg (r : nat) (v : Z) (fr : Frame) : Frame :=
  {| regs := <[r := v]> (regs fr); calls := calls fr |}.

Definition exec_inst (mc : Machine) (args : list Z) (fr : Frame) (r : nat)
    (i : Instruction) : option (Frame * Control) :=
  let w := ptr_bits mc in
  match i with
  | BitCastInst v _ | PtrToIntInst v _ =>
      x ← eval_operand mc args fr v; Some (set_reg r x fr, Continue)
  | GEPInst _ p idx =>
      a ← eval_operand mc args fr p;
      k ← eval_operand mc args fr idx;
      Some (set_reg r (uwrap w (a + k)) fr, Continue)
  | LoadInst p =>
      a ← eval_operand mc args fr p;
      Some (set_reg r (uwrap w (memory mc a)) fr, Continue)
  | ICmpEQInst a b =>
      x ← eval_operand mc args fr a;
      y ← eval_operand mc args fr b;
      Some (set_reg r (if x =? y then 1 else 0) fr, Continue)
  | CallInst f xs _ _ _ =>
      fa ← eval_operand mc args fr f;
      vs ← mapM (eval_operand mc args fr) xs;
      Some ({| regs := <[r := uwrap w (call_result mc fa vs)]> (regs fr);
               calls := calls fr ++ [(fa, vs)] |}, Continue)
  | RetVoidInst => Some (fr, Returned None)
  | RetInst v => x ← eval_operand mc args fr v; Some (fr, Returned (Some x))
  | CondBrInst c t e =>
      x ← eval_operand mc args fr c;
      Some (fr, Branch (if x =? 0 then e else t))
  end.

Fixpoint exec_insts (mc : Machine) (args : list Z) (fr : Frame)
    (insts : list (nat * Instruction)) : option (Frame * Control) :=
  match insts with
  | [] => Some (fr, Continue)
  | (r, i) :: rest =>
      match exec_inst mc args fr r i with
      | Some (fr', Continue) => exec_insts mc args fr' rest
      | other => other
      end
  end.

Definition find_block (body : list BasicBlock) (label : string) : option BasicBlock :=
  snd <$> list_find (fun bb => bb_name bb = label) body.

(** What a run of a function shows: the calls it made, in order, and the
    value it returned. *)
Record Outcome := {
  out_calls : list (Z * list Z);
  out_return : option Z
}.

Fixpoint exec_blocks (fuel : nat) (mc : Machine) (args : list Z)
    (body : list BasicBlock) (fr : Frame) (label : string) : option Outcome :=
  match fuel with
  | O => None
  | S fuel' =>
      bb ← find_block body label;
      match exec_insts mc args fr (bb_insts bb) with
      | Some (fr', Returned v) => Some {| out_calls := calls fr'; out_return := v |}
      | Some (fr', Branch l) => exec_blocks fuel' mc args body fr' l
      | _ => None
      end
  end.

(** Entering a function at its first block. *)
Definition run_function (fuel : nat) (mc : Machine) (body : list BasicBlock)
    (args : list Z) : option Outcome :=
  match body with
  | [] => None
  | bb :: _ => exec_blocks fuel mc args body {| regs := ∅; calls := [] |} (bb_name bb)
  end.

(** ** A concrete compilation unit *)

(** The inputs the closed examples below run on: a 64-bit target, a type
    converter for a handful of types, and a few declarations. *)
Module Unit.

Definition target : TargetMachine :=
  {| PointerSizeInBits := 64;
     getABITypeAlignment := fun t => match t with IntegerTy 32 => 4 | _ => 8 end;
     getTypeAllocSizeInBits :=
       fun t => match t with
                | IntegerTy 32 => 32
                | ArrayTy _ n => 32 * Z.of_N n
                | _ => 64
                end;
     isSized := fun _ => true |}.

(** i8* (object *, int): the signature of the thunks and of their targets. *)
Definition method_type : LType := FunctionTy Int8PtrTy [Int8PtrTy; Int32Ty] false.

Definition converter : TypeConverter :=
  {| ConvertType :=
       fun t => match TYPE_UID t with
                | 0%N => Int32Ty
                | 1%N => Int8PtrTy
                | 2%N => ArrayTy Int32Ty 0
                | 3%N => ArrayTy Int32Ty 100
                | _ => VoidTy
                end;
     ConvertFunctionType := fun _ _ => (method_type, 0%N, []) |}.

Definition configuration : Configuration :=
  {| ENABLE_CHECKING := true;
     decode_reg_name :=
       fun n => if decide (n = "ebp") then 6 else if decide (n = "") then -1 else -2 |}.

Definition int_type : gcc_type :=
  {| TYPE_UID := 0; TYPE_SIZE := Some 32; TYPE_MODE_is_BLKmode := false;
     AGGREGATE_TYPE_P := false |}.
Definition ptr_type : gcc_type :=
  {| TYPE_UID := 1; TYPE_SIZE := Some 64; TYPE_MODE_is_BLKmode := false;
     AGGREGATE_TYPE_P := false |}.
Definition open_array_type : gcc_type :=
  {| TYPE_UID := 2; TYPE_SIZE := None; TYPE_MODE_is_BLKmode := true;
     AGGREGATE_TYPE_P := true |}.
Definition array_type : gcc_type :=
  {| TYPE_UID := 3; TYPE_SIZE := Some 3200; TYPE_MODE_is_BLKmode := true;
     AGGREGATE_TYPE_P := true |}.
Definition fn_type : gcc_type :=
  {| TYPE_UID := 10; TYPE_SIZE := None; TYPE_MODE_is_BLKmode := false;
     AGGREGATE_TYPE_P := false |}.

(** A declaration of kind [code] called [name], with every flag clear. *)
Definition declaration (code : tree_code) (name : string) (ty : gcc_type)
    (init : option tree_expr) (public : bool) : tree_decl :=
  {| TREE_CODE := code; TREE_TYPE := ty; DECL_ASSEMBLER_NAME := Some name;
     DECL_INITIAL := init; DECL_SIZE := TYPE_SIZE ty; TREE_PUBLIC := public;
     TREE_STATIC := true; DECL_EXTERNAL := false; DECL_REGISTER := false;
     DECL_WEAK := false; DECL_ONE_ONLY := false; DECL_COMMON := false;
     DECL_COMDAT := false; DECL_THREAD_LOCAL_P := false; TREE_READONLY := false;
     TREE_SIDE_EFFECTS := false; TREE_THIS_VOLATILE := false;
     DECL_VISIBILITY_SPECIFIED := false; DECL_VISIBILITY := VISIBILITY_DEFAULT;
     DECL_SECTION_NAME := None; DECL_ALIGN := 0; DECL_USER_ALIGN := false;
     DECL_PRESERVE_P := false; DECL_ATTRIBUTES := []; DECL_SOURCE_FILE := "unit.c";
     DECL_SOURCE_LINE := 1; TREE_ASM_WRITTEN := false |}.

Definition with_register (d : tree_decl) : tree_decl :=
  {| TREE_CODE := TREE_CODE d; TREE_TYPE := TREE_TYPE d;
     DECL_ASSEMBLER_NAME := DECL_ASSEMBLER_NAME d; DECL_INITIAL := DECL_INITIAL d;
     DECL_SIZE := DECL_SIZE d; TREE_PUBLIC := TREE_PUBLIC d; TREE_STATIC := TREE_STATIC d;
     DECL_EXTERNAL := DECL_EXTERNAL d; DECL_REGISTER := true;
     DECL_WEAK := DECL_WEAK d; DECL_ONE_ONLY := DECL_ONE_ONLY d;
     DECL_COMMON := DECL_COMMON d; DECL_COMDAT := DECL_COMDAT d;
     DECL_THREAD_LOCAL_P := DECL_THREAD_LOCAL_P d; TREE_READONLY := TREE_READONLY d;
     TREE_SIDE_EFFECTS := TREE_SIDE_EFFECTS d; TREE_THIS_VOLATILE := TREE_THIS_VOLATILE d;
     DECL_VISIBILITY_SPECIFIED := DECL_VISIBILITY_SPECIFIED d;
     DECL_VISIBILITY := DECL_VISIBILITY d; DECL_SECTION_NAME := DECL_SECTION_NAME d;
     DECL_ALIGN := DECL_ALIGN d; DECL_USER_ALIGN := DECL_USER_ALIGN d;
     DECL_PRESERVE_P := DECL_PRESERVE_P d; DECL_ATTRIBUTES := DECL_ATTRIBUTES d;
     DECL_SOURCE_FILE := DECL_SOURCE_FILE d; DECL_SOURCE_LINE := DECL_SOURCE_LINE d;
     TREE_ASM_WRITTEN := TREE_ASM_WRITTEN d |}.

Definition with_attributes (a : list (string * list string)) (d : tree_decl) : tree_decl :=
  {| TREE_CODE := TREE_CODE d; TREE_TYPE := TREE_TYPE d;
     DECL_ASSEMBLER_NAME := DECL_ASSEMBLER_NAME d; DECL_INITIAL := DECL_INITIAL d;
     DECL_SIZE := DECL_SIZE d; TREE_PUBLIC := TREE_PUBLIC d; TREE_STATIC := TREE_STATIC d;
     DECL_EXTERNAL := DECL_EXTERNAL d; DECL_REGISTER := DECL_REGISTER d;
     DECL_WEAK := DECL_WEAK d; DECL_ONE_ONLY := DECL_ONE_ONLY d;
     DECL_COMMON := DECL_COMMON d; DECL_COMDAT := DECL_COMDAT d;
     DECL_THREAD_LOCAL_P := DECL_THREAD_LOCAL_P d; TREE_READONLY := TREE_READONLY d;
     TREE_SIDE_EFFECTS := TREE_SIDE_EFFECTS d; TREE_THIS_VOLATILE := TREE_THIS_VOLATILE d;
     DECL_VISIBILITY_SPECIFIED := DECL_VISIBILITY_SPECIFIED d;
     DECL_VISIBILITY := DECL_VISIBILITY d; DECL_SECTION_NAME := DECL_SECTION_NAME d;
     DECL_ALIGN := DECL_ALIGN d; DECL_USER_ALIGN := DECL_USER_ALIGN d;
     DECL_PRESERVE_P := DECL_PRESERVE_P d; DECL_ATTRIBUTES := a;
     DECL_SOURCE_FILE := DECL_SOURCE_FILE d; DECL_SOURCE_LINE := DECL_SOURCE_LINE d;
     TREE_ASM_WRITTEN := TREE_ASM_WRITTEN d |}.

(** The declarations of the unit, by address:
    1  void *G = &G;                      2  static int foo = 1;
    3  int foo = 2; (same assembler name) 4  a field (no storage)
    5  register long sp asm ("ebp");      6  int arr[100]; (first seen as int arr[])
    7  int *user = (int * ) &arr;         8  a function "method"
    9  its thunk "thunk"                  10 static int w weakref ("ext");
    11 int a alias ("ext");               12 a function named "arr" *)
Definition G : tree := 1%positive.
Definition foo_static : tree := 2%positive.
Definition foo_public : tree := 3%positive.
Definition field : tree := 4%positive.
Definition sp : tree := 5%positive.
Definition arr : tree := 6%positive.
Definition user : tree := 7%positive.
Definition method : tree := 8%positive.
Definition thunk_decl : tree := 9%positive.
Definition weak_alias : tree := 10%positive.
Definition strong_alias : tree := 11%positive.
Definition arr_function : tree := 12%positive.

Definition declarations : gmap tree tree_decl :=
  list_to_map
    [ (G, declaration VAR_DECL "G" ptr_type (Some (ADDR_EXPR ptr_type true G)) true);
      (foo_static, declaration VAR_DECL "foo" int_type (Some (INTEGER_CST int_type 1)) false);
      (foo_public, declaration VAR_DECL "foo" int_type (Some (INTEGER_CST int_type 2)) true);
      (field, declaration FIELD_DECL "f" int_type None false);
      (sp, with_register (declaration VAR_DECL "*ebp" int_type None true));
      (arr, declaration VAR_DECL "arr" open_array_type None true);
      (user, declaration VAR_DECL "user" ptr_type (Some (ADDR_EXPR ptr_type true arr)) true);
      (method, declaration FUNCTION_DECL "method" fn_type None true);
      (thunk_decl, declaration FUNCTION_DECL "thunk" fn_type None true);
      (weak_alias, with_attributes [("weakref", ["ext"])]
                     (declaration VAR_DECL "w" int_type None false));
      (strong_alias, declaration VAR_DECL "a" int_type None true);
      (arr_function, declaration FUNCTION_DECL "arr" fn_type None true) ].

(** The state when the unit starts: an empty module, nothing cached. *)
Definition start : State :=
  {| TheModule := ∅; detached := ∅; TheTarget := target; TheTypeConverter := converter;
     flag_odr := false; llvm_cache := ∅; StaticCtors := []; StaticDtors := [];
     AttributeUsedGlobals := []; AttributeCompilerUsedGlobals := [];
     AttributeAnnotateGlobals := []; StringCSTCache := ∅; config := configuration;
     trees := declarations; cgraph_asm := ∅; varpool_asm := ∅;
     errorcount := 0; sorrycount := 0; diagnostics := [] |}.

End Unit.

(** ** Vocabulary of the statements *)

(** The state an operation leaves, when it does not abort. *)
Definition after {A} (c : M A) (s : State) : State :=
  match c s with Some (_, s') => s' | None => s end.

(** The state after the diagnostics [ds] were reported, in order. *)
Definition reports (ds : list diagnostic) (s : State) : State :=
  foldl (fun s d => report d s) s ds.

(** What ValidateRegisterVariable reports for the declaration [d] at
    [decl], whose register name decodes to [R]. *)
Definition register_diagnostics (decl : tree) (d : tree_decl) (R : Z) : list diagnostic :=
  if R =? -1 then [Error "register name not specified for %q+D" (Some decl)]
  else if R <? 0 then [Error "invalid register name for %q+D" (Some decl)]
  else if TYPE_MODE_is_BLKmode (TREE_TYPE d) then
    [Error "data type of %q+D isn%'t suitable for a register" (Some decl)]
  else if bool_decide (DECL_INITIAL d <> None) && TREE_STATIC d then
    [Error "global register variable has initial value" None]
  else if AGGREGATE_TYPE_P (TREE_TYPE d) then
    [Sorry "LLVM cannot handle register variable %q+D, report a bug" (Some decl)]
  else if TREE_THIS_VOLATILE d then
    [Warning "volatile register variables don%'t work as you might wish"]
  else [].

(** ** Closed runs *)

Module BrokenUnit.
Import Unit.

(** An alias to a symbol the unit never defines, after [foo_public] was
    materialised: the alias is rejected and the unit has an error. *)
Definition after_bad_alias : State :=
  after (emit_alias 1 strong_alias (TargetIdentifier (Identifier "ext")))
    (after (make_decl_llvm foo_public) start).

End BrokenUnit.

(** The linkage classification table of the specification, first match
    wins, followed by the upgrade for constants.  [otherwise] is the linkage
    of a public declaration that carries none of the flags. *)
Definition linkage_table (public weak one_only common_without_init comdat : bool)
    (odr constant : bool) (otherwise : LinkageTypes) : LinkageTypes :=
  let classified :=
    if negb public then InternalLinkage
    else if weak then WeakAnyLinkage
    else if one_only then (if odr then WeakODRLinkage else WeakAnyLinkage)
    else if common_without_init then CommonLinkage
    else if comdat then (if odr then LinkOnceODRLinkage else LinkOnceAnyLinkage)
    else otherwise in
  if constant then
    match classified with
    | WeakAnyLinkage => WeakODRLinkage
    | LinkOnceAnyLinkage => LinkOnceODRLinkage
    | other => other
    end
  else classified.

Module SharedName.
Import Unit.
(** [static int foo = 1] is emitted, then [int foo = 2] under the same
    assembler name. *)
Definition after_two_foo : State :=
  after (emit_global 1 foo_public) (after (emit_global 1 foo_static) start).
End SharedName.

(** The properties of a global that survive the setters emit_global calls
    after it has set the linkage. *)
Definition keeps_linkage (f : GlobalValue -> GlobalValue) : Prop :=
  forall v, gv_linkage (f v) = gv_linkage v /\ isConstant (f v) = isConstant v.

(** The global [g] has linkage [L] and constness [c]. *)
Definition has_linkage (g : sym) (L : LinkageTypes) (c : bool) (s : State) : Prop :=
  exists v, TheModule s !! g = Some v /\ gv_linkage v = L /\ isConstant v = c.

(** The operation [c] leaves the component [proj] of the state as it is. *)
Definition keeps {A B} (proj : State -> B) (c : M A) : Prop :=
  forall s r s', c s = Some (r, s') -> proj s' = proj s.

(** The global [g] is in the module and satisfies [Q]. *)
Definition holds_at (g : sym) (Q : GlobalValue -> Prop) (s : State) : Prop :=
  exists v, TheModule s !! g = Some v /\ Q v.

(** [s'] has the declarations, the cache, the services and the counters of
    [s]: only the LLVM module and the root sets may differ. *)
Definition same_frontend (s s' : State) : Prop :=
  trees s' = trees s /\ llvm_cache s' = llvm_cache s
  /\ TheTarget s' = TheTarget s /\ TheTypeConverter s' = TheTypeConverter s
  /\ config s' = config s /\ flag_odr s' = flag_odr s
  /\ errorcount s' = errorcount s /\ sorrycount s' = sorrycount s.

(** A global variable of type [ty] whose initializer is [Init]. *)
Definition variable_with (ty : LType) (Init : option Constant) (v : GlobalValue) : Prop :=
  isGlobalVariable v = true /\ gv_type v = ty /\ getInitializer v = Init.

(** Every use of [Old] in the module of [s] has become a use of [Cast] in
    [s']: [Old] is gone from the module, no global value and no annotation
    of [s'] mentions it, and every other global value of [s] is still
    there, its initializer, body or aliasee rewritten and its casts
    folded. *)
Definition redirected (Old : sym) (Cast : Constant) (s s' : State) : Prop :=
  TheModule s' !! Old = None
  /\ (forall g v', TheModule s' !! g = Some v' ->
                   payload_mentions Old (gv_payload v') = false)
  /\ (forall a, (a ∈ AttributeAnnotateGlobals s') -> annotation_mentions Old a = false)
  /\ (forall g v, g <> Old -> TheModule s !! g = Some v ->
                  exists v', TheModule s' !! g = Some v'
                             /\ gv_payload v'
                                = subst_payload (TheModule s') Old Cast (gv_payload v)).

(** The cache, the constructor and destructor lists and the two root sets
    of [s'] hold [NewRef] wherever those of [s] held the global [Old], and
    none of them holds [Old]. *)
Definition rebound (Old : sym) (NewRef : Constant) (s s' : State) : Prop :=
  (forall t, cached s t = ValuePtr (GlobalRef Old) -> cached s' t = ValuePtr NewRef)
  /\ (forall i p, StaticCtors s !! i = Some (GlobalRef Old, p) ->
                  StaticCtors s' !! i = Some (NewRef, p))
  /\ (forall i p, StaticDtors s !! i = Some (GlobalRef Old, p) ->
                  StaticDtors s' !! i = Some (NewRef, p))
  /\ ((GlobalRef Old ∈ AttributeUsedGlobals s) -> (NewRef ∈ AttributeUsedGlobals s'))
  /\ ((GlobalRef Old ∈ AttributeCompilerUsedGlobals s) ->
      (NewRef ∈ AttributeCompilerUsedGlobals s'))
  /\ (forall t, cached s' t <> ValuePtr (GlobalRef Old))
  /\ (forall p, (GlobalRef Old, p) ∉ StaticCtors s')
  /\ (forall p, (GlobalRef Old, p) ∉ StaticDtors s')
  /\ (GlobalRef Old ∉ AttributeUsedGlobals s')
  /\ (GlobalRef Old ∉ AttributeCompilerUsedGlobals s').

(** What changeLLVMConstant does to a list of structors and to a root set. *)
Definition rebind_structors (Old : sym) (New : Constant) (l : list (Constant * Z))
  : list (Constant * Z) :=
  map (fun p => if decide (fst p = GlobalRef Old) then (New, snd p) else p) l.
Definition rebind_roots (Old : sym) (New : Constant) (l : list Constant)
  : list Constant :=
  if SetVector_count (GlobalRef Old) l
  then SetVector_insert New (SetVector_remove (GlobalRef Old) l) else l.
Definition rebind_cache (Old : sym) (New : Constant) (m : gmap tree void_ptr)
  : gmap tree void_ptr :=
  (fun p => if decide (p = ValuePtr (GlobalRef Old)) then ValuePtr New else p) <$> m.

(** Wherever the cache, the constructor and destructor lists and the two
    root sets of [s] refer to the global [g], the entry is [g] itself and
    no constant expression over it. *)
Definition held_as_itself (g : sym) (s : State) : Prop :=
  (forall t v, cached s t = ValuePtr v -> mentions g v = true -> v = GlobalRef g)
  /\ (forall c p, (c, p) ∈ StaticCtors s -> mentions g c = true -> c = GlobalRef g)
  /\ (forall c p, (c, p) ∈ StaticDtors s -> mentions g c = true -> c = GlobalRef g)
  /\ (forall c, c ∈ AttributeUsedGlobals s -> mentions g c = true -> c = GlobalRef g)
  /\ (forall c, c ∈ AttributeCompilerUsedGlobals s ->
                mentions g c = true -> c = GlobalRef g).

(** No entry of the cache, of the constructor and destructor lists and of
    the two root sets of [s] refers to the global [g], be it as the global
    or as an operand of a constant expression. *)
Definition unreferenced (g : sym) (s : State) : Prop :=
  (forall t v, cached s t = ValuePtr v -> mentions g v = false)
  /\ (forall c p, (c, p) ∈ StaticCtors s -> mentions g c = false)
  /\ (forall c p, (c, p) ∈ StaticDtors s -> mentions g c = false)
  /\ (forall c, c ∈ AttributeUsedGlobals s -> mentions g c = false)
  /\ (forall c, c ∈ AttributeCompilerUsedGlobals s -> mentions g c = false).

Module NameCollision.
Import Unit.
(** [int *user = (int * ) &arr] is emitted, which materialises [int arr[]]
    as global 2 for the initializer of global 1. *)
Definition after_user : State := after (emit_global 2 user) start.
(** Then a function is declared under the assembler name of [arr]. *)
Definition after_collision : State := after (make_decl_llvm arr_function) after_user.
(** Then the unit declares [int arr[100]] once more, at 13, and the
    variable collides with the function. *)
Definition arr_again : tree := 13%positive.
Definition before_second_collision : State :=
  upd_trees (insert arr_again (declaration VAR_DECL "arr" array_type None true))
    after_collision.
Definition after_second_collision : State :=
  after (make_decl_llvm arr_again) before_second_collision.
End NameCollision.

(** The operation [c] runs to its end from [s], and its result and the
    state it leaves satisfy [Q]. *)
Definition runs {A} (c : M A) (s : State) (Q : A -> State -> Prop) : Prop :=
  exists a s', c s = Some (a, s') /\ Q a s'.

(** ** What a thunk is to compute *)

(** The pointer [P] advanced by [F] bytes, on a machine whose pointers are
    [ptr_bits] wide. *)
Definition advanced (mc : Machine) (P F : Z) : Z := uwrap (ptr_bits mc) (P + F).

(** The virtual offset of the object at [P]: the word at [vv] bytes into the
    table the first word of the object points to. *)
Definition virtual_offset (mc : Machine) (vv P : Z) : Z :=
  memory mc (advanced mc (memory mc P) vv).

(** 'this' as a this-adjusting thunk is to pass it on: moved by the fixed
    offset and then, if there is one, by the virtual offset. *)
Definition adjust_this (mc : Machine) (info : cgraph_thunk_info) (P : Z) : Z :=
  let P1 := advanced mc P (fixed_offset info) in
  if virtual_offset_p info
  then advanced mc P1 (virtual_offset mc (virtual_value info) P1)
  else P1.

(** A non-null pointer as a covariant-return thunk is to return it: moved by
    the virtual offset, if there is one, and then by the fixed offset. *)
Definition adjust_returned (mc : Machine) (info : cgraph_thunk_info) (R : Z) : Z :=
  let R1 := if virtual_offset_p info
            then advanced mc R (virtual_offset mc (virtual_value info) R)
            else R in
  advanced mc R1 (fixed_offset info).

(** The arguments a thunk is to pass on, for the incoming arguments [args]
    numbered from [i]: each one as it is, except 'this', the first one that
    is neither the struct-return nor the static-chain argument. *)
Fixpoint passed_arguments (adjust : Z -> Z) (attrs : list (bool * bool)) (i : nat)
    (FoundThis : bool) (args : list Z) : list Z :=
  match args with
  | [] => []
  | a :: rest =>
      let '(sret, nest) := nth i attrs (false, false) in
      if FoundThis || sret || nest
      then a :: passed_arguments adjust attrs (S i) FoundThis rest
      else adjust a :: passed_arguments adjust attrs (S i) true rest
  end.

(** ** The builder and the run of what it builds *)

(** The block called [n], entered with the frame [fr0], runs to the frame
    [fr] and the control [c]. *)
Definition block_runs (mc : Machine) (args : list Z) (body : list BasicBlock)
    (n : string) (fr0 fr : Frame) (c : Control) : Prop :=
  exists bb, find_block body n = Some bb
             /\ exec_insts mc args fr0 (bb_insts bb) = Some (fr, c).

(** The instructions at the insertion point of [b], run from the frame
    [fr0], lead to the frame [fr] and the control [c]. *)
Definition at_point (mc : Machine) (args : list Z) (fr0 : Frame) (b : LLVMBuilder)
    (fr : Frame) (c : Control) : Prop :=
  block_runs mc args (bld_blocks b) (bld_insert b) fr0 fr c.

(** The operand names no instruction numbered [n] or more. *)
Definition operand_below (n : nat) (o : Operand) : Prop :=
  match o with OInst r => (r < n)%nat | _ => True end.

(** From the builder [b] and the frame [fr] to [b'] and [fr']: instructions
    were appended at the insertion point only, no call was made, and the
    values known in [fr] are the same in [fr']. *)
Definition grows (mc : Machine) (args : list Z) (b : LLVMBuilder) (fr : Frame)
    (b' : LLVMBuilder) (fr' : Frame) : Prop :=
  (bld_next b <= bld_next b')%nat
  /\ bld_insert b' = bld_insert b
  /\ map bb_name (bld_blocks b') = map bb_name (bld_blocks b)
  /\ calls fr' = calls fr
  /\ (forall o, operand_below (bld_next b) o ->
                eval_operand mc args fr' o = eval_operand mc args fr o)
  /\ (forall n, n <> bld_insert b ->
                find_block (bld_blocks b') n = find_block (bld_blocks b) n).

(** The builder operation that returned [res] appended instructions that
    run from [fr] and give its value the value [x]. *)
Definition yields (mc : Machine) (args : list Z) (fr0 : Frame) (b : LLVMBuilder)
    (fr : Frame) (res : TValue * LLVMBuilder) (x : Z) : Prop :=
  exists fr', at_point mc args fr0 (snd res) fr' Continue
              /\ grows mc args b fr (snd res) fr'
              /\ eval_operand mc args fr' (fst (fst res)) = Some x
              /\ operand_below (bld_next (snd res)) (fst (fst res)).

(** The block [bb] after [Insert i b]. *)
Definition Insert_in (i : Instruction) (b : LLVMBuilder) (bb : BasicBlock) : BasicBlock :=
  if decide (bb_name bb = bld_insert b)
  then {| bb_name := bb_name bb; bb_insts := bb_insts bb ++ [(bld_next b, i)] |}
  else bb.

(** The builder emit_thunk starts with: an entry block in a function that
    has no block yet. *)
Definition entry_builder : LLVMBuilder :=
  SetInsertPoint "entry"
    (BasicBlock_Create "entry"
       {| bld_blocks := []; bld_insert := ""; bld_next := count_insts [] |}).

(** The frame a function is entered with. *)
Definition entry_frame : Frame := {| regs := ∅; calls := [] |}.

Module ThunkUnit.
Import Unit.
(** The thunk and the method it forwards to are both declared. *)
Definition materialised : State :=
  after (make_decl_llvm method) (after (make_decl_llvm thunk_decl) start).

(** A thunk that moves 'this' back by 8 bytes and then by the virtual
    offset found 16 bytes into the table of the object. *)
Definition this_thunk : cgraph_node :=
  {| node_decl := thunk_decl;
     thunk := {| thunk_p := true; this_adjusting := true; fixed_offset := -8;
                 virtual_offset_p := true; virtual_value := 16;
                 thunk_alias := method |} |}.

(** A thunk that moves the returned pointer forward by 8 bytes. *)
Definition covariant_thunk : cgraph_node :=
  {| node_decl := thunk_decl;
     thunk := {| thunk_p := true; this_adjusting := false; fixed_offset := 8;
                 virtual_offset_p := false; virtual_value := 0;
                 thunk_alias := method |} |}.

(** A 64-bit machine: the word at [a] is [a + 24], the global [g] is at
    [4096 * g], and a function returns its first argument. *)
Definition machine : Machine :=
  {| ptr_bits := 64;
     memory := fun a => a + 24;
     address_of := fun g => 4096 * Z.pos g;
     call_result := fun _ args => hd 0 args |}.
End ThunkUnit.

Module RootUnit.
(** Two globals are roots, the first one is about to be replaced by the
    second one; the first one and a third one are roots for the compiler. *)
Definition two_roots : State :=
  upd_AttributeUsedGlobals (fun _ => [GlobalRef 1%positive; GlobalRef 2%positive])
    (upd_AttributeCompilerUsedGlobals
       (fun _ => [GlobalRef 1%positive; GlobalRef 3%positive])
       (upd_StaticCtors (fun _ => [(GlobalRef 1%positive, 65535)]) Unit.start)).
End RootUnit.

(** ** What make_decl_llvm declares *)

(** The visibility handleVisibility leaves on a global whose visibility was
    [old]. *)
Definition forwarded_visibility (d : tree_decl) (old : VisibilityTypes)
  : VisibilityTypes :=
  if TREE_PUBLIC d && (DECL_VISIBILITY_SPECIFIED d || negb (DECL_EXTERNAL d)) then
    match DECL_VISIBILITY d with
    | VISIBILITY_HIDDEN => HiddenVisibility
    | VISIBILITY_PROTECTED => ProtectedVisibility
    | VISIBILITY_DEFAULT => DefaultVisibility
    | VISIBILITY_INTERNAL => old
    end
  else old.

(** The linkage of a declaration make_decl_llvm has just created. *)
Definition declared_linkage (d : tree_decl) : LinkageTypes :=
  if DECL_EXTERNAL d && DECL_WEAK d then ExternalWeakLinkage else ExternalLinkage.

(** Whether make_decl_llvm marks the variable of [d] constant. *)
Definition declared_constant (d : tree_decl) : bool :=
  ((TREE_READONLY d && negb (TREE_SIDE_EFFECTS d))
   || bool_decide (TREE_CODE d = CONST_DECL))
  && (if DECL_EXTERNAL d then true
      else match DECL_INITIAL d with
           | Some init => bool_decide (init <> error_mark_node)
                          && (TREE_CONSTANT init || is_STRING_CST init)
           | None => false
           end).

(** Whether make_decl_llvm marks the variable of [d] thread local. *)
Definition declared_thread_local (d : tree_decl) : bool :=
  bool_decide (TREE_CODE d = VAR_DECL) && DECL_THREAD_LOCAL_P d.

(** The declaration [d] once make_decl_llvm has looked at it: a variable
    that is weak, or has a section and no initial value, is not common. *)
Definition uncommon (d : tree_decl) : tree_decl :=
  if bool_decide (TREE_CODE d = VAR_DECL)
     && (DECL_WEAK d
         || (bool_decide (DECL_SECTION_NAME d <> None)
             && bool_decide (DECL_INITIAL d = None)))
  then set_DECL_COMMON false d else d.

(** The name make_decl_llvm looks a declaration up by. *)
Definition llvm_name (d : tree_decl) : string :=
  if bool_decide (TREE_CODE d <> CONST_DECL) then getLLVMAssemblerName d else "".

(** The declaration make_decl_llvm creates for the function [d] under the
    name [Name], its type converted to [Ty], [CC] and [PAL]. *)
Definition declared_function (d : tree_decl) (Name : string) (Ty : LType) (CC : N)
    (PAL : list (bool * bool)) : GlobalValue :=
  {| gv_name := Name; gv_type := PointerTy Ty;
     gv_linkage := declared_linkage d;
     gv_visibility := forwarded_visibility d DefaultVisibility;
     gv_section := ""; gv_alignment := 0;
     gv_payload := Function CC PAL [] |}.

(** The declaration make_decl_llvm creates for the variable [d] under the
    name [Name], its type converted to [Ty]: a void object has the empty
    struct type. *)
Definition declared_variable (d : tree_decl) (Name : string) (Ty : LType) : GlobalValue :=
  {| gv_name := Name;
     gv_type := PointerTy (if isVoidTy Ty then StructTy [] else Ty);
     gv_linkage := declared_linkage d;
     gv_visibility := forwarded_visibility d DefaultVisibility;
     gv_section := ""; gv_alignment := 0;
     gv_payload := GlobalVariable None (declared_constant d) (declared_thread_local d) |}.

(** The size check passes for the global [v] and the declaration [d]: the
    assertion on the size of the declaration holds, the alignment is not
    zero and SizeOfGlobalMatchesDecl is true. *)
Definition size_matches (TM : TargetMachine) (v : GlobalValue) (d : tree_decl) : bool :=
  bool_decide (SizeOfGlobalMatchesDecl TM v d = Some true).

(** The variable [v] with the flags of the declaration [d] raised on it. *)
Definition redeclared_variable (d : tree_decl) (v : GlobalValue) : GlobalValue :=
  with_payload
    (GlobalVariable (getInitializer v) (isConstant v || declared_constant d)
       (isThreadLocal v || declared_thread_local d)) v.

Module Redeclared.
Import Unit.
(** A second declaration of the function "method", met after the first
    was materialised. *)
Definition method_again : tree := 13%positive.
Definition once_declared : State :=
  upd_trees (insert method_again (declaration FUNCTION_DECL "method" fn_type None true))
    (after (make_decl_llvm method) start).
(** [static int foo = 1] was materialised; [int foo = 2] has the same
    assembler name. *)
Definition foo_declared : State := after (make_decl_llvm foo_static) start.
End Redeclared.

(** ** What emit_alias leaves *)

(** The alias emit_alias creates for the declaration [d], to stand for the
    global [v] and point to the global [Aliasee], which is [a]. *)
Definition created_alias (d : tree_decl) (odr : bool) (v a : GlobalValue) (Aliasee : sym)
  : GlobalValue :=
  {| gv_name := gv_name v; gv_type := gv_type a;
     gv_linkage := GetLinkageForAlias d odr;
     gv_visibility := forwarded_visibility d DefaultVisibility;
     gv_section := ""; gv_alignment := 0;
     gv_payload := GlobalAlias (GlobalRef Aliasee) |}.

(** The global [g], which is [x], as a value of type [ty]: itself, or cast. *)
Definition as_type (g : sym) (x : GlobalValue) (ty : LType) : Constant :=
  if decide (gv_type x = ty) then GlobalRef g else BitCastExpr (GlobalRef g) ty.

Module AliasUserUnit.
Import Unit.
(** The declarations, by address:
    30 int al;  (to be an alias of big)    31 int big[100];
    32 void *p = &al;                      33 extern int w2; (to be an alias of big)
    34 void *q = &w2; *)
Definition al : tree := 30%positive.
Definition big : tree := 31%positive.
Definition p : tree := 32%positive.
Definition w2 : tree := 33%positive.
Definition q : tree := 34%positive.
Definition with_storage (static external : bool) (d : tree_decl) : tree_decl :=
  {| TREE_CODE := TREE_CODE d; TREE_TYPE := TREE_TYPE d;
     DECL_ASSEMBLER_NAME := DECL_ASSEMBLER_NAME d; DECL_INITIAL := DECL_INITIAL d;
     DECL_SIZE := DECL_SIZE d; TREE_PUBLIC := TREE_PUBLIC d; TREE_STATIC := static;
     DECL_EXTERNAL := external; DECL_REGISTER := DECL_REGISTER d;
     DECL_WEAK := DECL_WEAK d; DECL_ONE_ONLY := DECL_ONE_ONLY d;
     DECL_COMMON := DECL_COMMON d; DECL_COMDAT := DECL_COMDAT d;
     DECL_THREAD_LOCAL_P := DECL_THREAD_LOCAL_P d; TREE_READONLY := TREE_READONLY d;
     TREE_SIDE_EFFECTS := TREE_SIDE_EFFECTS d; TREE_THIS_VOLATILE := TREE_THIS_VOLATILE d;
     DECL_VISIBILITY_SPECIFIED := DECL_VISIBILITY_SPECIFIED d;
     DECL_VISIBILITY := DECL_VISIBILITY d; DECL_SECTION_NAME := DECL_SECTION_NAME d;
     DECL_ALIGN := DECL_ALIGN d; DECL_USER_ALIGN := DECL_USER_ALIGN d;
     DECL_PRESERVE_P := DECL_PRESERVE_P d; DECL_ATTRIBUTES := DECL_ATTRIBUTES d;
     DECL_SOURCE_FILE := DECL_SOURCE_FILE d; DECL_SOURCE_LINE := DECL_SOURCE_LINE d;
     TREE_ASM_WRITTEN := TREE_ASM_WRITTEN d |}.
Definition al_decl : tree_decl :=
  with_storage false false (declaration VAR_DECL "al" int_type None true).
Definition big_decl : tree_decl := declaration VAR_DECL "big" array_type None true.
Definition w2_decl : tree_decl :=
  with_storage false true (declaration VAR_DECL "w2" int_type None true).
Definition user_unit : State :=
  upd_trees
    (fun t =>
       <[al := al_decl]>
         (<[big := big_decl]>
            (<[p := declaration VAR_DECL "p" ptr_type (Some (ADDR_EXPR ptr_type true al)) true]>
               (<[w2 := w2_decl]>
                  (<[q := declaration VAR_DECL "q" ptr_type
                            (Some (ADDR_EXPR ptr_type true w2)) true]> t)))))
    start.
(** [void *p = &al] is emitted: [p] is global 1, [al] is global 2 and the
    initializer of [p] is the address of global 2 cast to i8*.  Then
    [big] is defined as global 3. *)
Definition p_emitted : State := after (emit_global 2 p) user_unit.
Definition p_big_defined : State := after (DEFINITION_LLVM 2 big) p_emitted.
(** The same with [void *q = &w2]. *)
Definition q_emitted : State := after (emit_global 2 q) user_unit.
Definition q_big_defined : State := after (DEFINITION_LLVM 2 big) q_emitted.
(** The global variable of [int big[100]] once it is defined. *)
Definition big_defined : GlobalValue :=
  {| gv_name := "big"; gv_type := PointerTy (ArrayTy Int32Ty 100);
     gv_linkage := ExternalLinkage; gv_visibility := DefaultVisibility;
     gv_section := ""; gv_alignment := 0;
     gv_payload := GlobalVariable (Some (NullValue (ArrayTy Int32Ty 100))) false false |}.
End AliasUserUnit.

Module SameBodyUserUnit.
Import Unit.
(** An extern inline function "base" at 40, its same-body alias "complete"
    at 41, whose type converts to another function type, and
    [void *r = &complete] at 42. *)
Definition base : tree := 40%positive.
Definition complete : tree := 41%positive.
Definition r : tree := 42%positive.
Definition complete_gcc_type : gcc_type :=
  {| TYPE_UID := 11; TYPE_SIZE := None; TYPE_MODE_is_BLKmode := false;
     AGGREGATE_TYPE_P := false |}.
Definition complete_type : LType := FunctionTy VoidTy [] false.
Definition two_type_converter : TypeConverter :=
  {| ConvertType := ConvertType Unit.converter;
     ConvertFunctionType :=
       fun ty _ => if (TYPE_UID ty =? 11)%N then (complete_type, 0%N, [])
                   else (method_type, 0%N, []) |}.
Definition base_decl : tree_decl :=
  AliasUserUnit.with_storage true true (declaration FUNCTION_DECL "base" fn_type None true).
Definition complete_decl : tree_decl :=
  declaration FUNCTION_DECL "complete" complete_gcc_type None true.
Definition user_unit : State :=
  {| TheModule := ∅; detached := ∅; TheTarget := target;
     TheTypeConverter := two_type_converter;
     flag_odr := false; llvm_cache := ∅; StaticCtors := []; StaticDtors := [];
     AttributeUsedGlobals := []; AttributeCompilerUsedGlobals := [];
     AttributeAnnotateGlobals := []; StringCSTCache := ∅; config := configuration;
     trees := <[base := base_decl]>
                (<[complete := complete_decl]>
                   (<[r := declaration VAR_DECL "r" ptr_type
                             (Some (ADDR_EXPR ptr_type true complete)) true]> declarations));
     cgraph_asm := ∅; varpool_asm := ∅;
     errorcount := 0; sorrycount := 0; diagnostics := [] |}.
Definition alias_node : cgraph_node :=
  {| node_decl := complete;
     thunk := {| thunk_p := false; this_adjusting := false; fixed_offset := 0;
                 virtual_offset_p := false; virtual_value := 0;
                 thunk_alias := base |} |}.
(** [void *r = &complete] is emitted: [r] is global 1, [complete] is global
    2.  Then [base] is declared as global 3. *)
Definition r_emitted : State := after (emit_global 2 r) user_unit.
Definition both_declared : State := after (DEFINITION_LLVM 1 base) r_emitted.
End SameBodyUserUnit.

(** ** What emit_global leaves on the variable *)

(** The global variable [gv0] once emit_global has finished with it for the
    VAR_DECL [d]: [Init] is its initializer and [TargetAlign] the ABI
    alignment of its type, in bytes. *)
Definition emitted_variable (d : tree_decl) (odr : bool) (TargetAlign : Z) (Init : Constant)
    (gv0 : GlobalValue) : GlobalValue :=
  {| gv_name := gv_name gv0; gv_type := gv_type gv0;
     gv_linkage :=
       constant_Linkage (isConstant gv0) (emit_global_Linkage d odr (gv_linkage gv0));
     gv_visibility := forwarded_visibility d (gv_visibility gv0);
     gv_section := default (gv_section gv0) (DECL_SECTION_NAME d);
     gv_alignment :=
       if negb (DECL_ALIGN d =? 0)
          && (DECL_USER_ALIGN d || (8 * TargetAlign <? DECL_ALIGN d))
       then DECL_ALIGN d / 8 else gv_alignment gv0;
     gv_payload := GlobalVariable (Some Init) (isConstant gv0)
                     (isThreadLocal gv0 || declared_thread_local d) |}.

(** The initializer emit_global converts without going back to another
    declaration, and its type: the zero value when there is no initial
    value, the constant of an integer or string literal. *)
Definition literal_initializer (tc : TypeConverter) (d : tree_decl)
  : option (Constant * LType) :=
  match DECL_INITIAL d with
  | None | Some error_mark_node =>
      Some (getDefaultValue (ConvertType tc (TREE_TYPE d)), ConvertType tc (TREE_TYPE d))
  | Some (INTEGER_CST ty v) => Some (ConstantInt (ConvertType tc ty) v, ConvertType tc ty)
  | Some (STRING_CST ty str) => Some (ConstantString (ConvertType tc ty) str, ConvertType tc ty)
  | Some (ADDR_EXPR _ _ _) => None
  end.

Module VarargsUnit.
Import Unit.
(** The unit with a converter that makes every function type variadic. *)
Definition variadic_converter : TypeConverter :=
  {| ConvertType := ConvertType Unit.converter;
     ConvertFunctionType := fun _ _ => (FunctionTy Int8PtrTy [Int8PtrTy] true, 0%N, []) |}.
Definition variadic_unit : State :=
  {| TheModule := ∅; detached := ∅; TheTarget := target; TheTypeConverter := variadic_converter;
     flag_odr := false; llvm_cache := ∅; StaticCtors := []; StaticDtors := [];
     AttributeUsedGlobals := []; AttributeCompilerUsedGlobals := [];
     AttributeAnnotateGlobals := []; StringCSTCache := ∅; config := configuration;
     trees := declarations; cgraph_asm := ∅; varpool_asm := ∅;
     errorcount := 0; sorrycount := 0; diagnostics := [] |}.
End VarargsUnit.

(** ** The plugin interface *)

(** The flag arguments of the plugin: the global booleans PluginFlags
    points to. *)
Record Flags := {
  DebugPassStructure : bool;
  DebugPassArguments : bool;
  DisableLLVMOptimizations : bool;
  EnableGCCOptimizations : bool;
  EmitIR : bool;
  SaveGCCOutput : bool
}.

(** [bool *Flag]: the address of one of them. *)
Inductive FlagPtr :=
  | addr_DebugPassStructure | addr_DebugPassArguments | addr_DisableLLVMOptimizations
  | addr_EnableGCCOptimizations | addr_EmitIR | addr_SaveGCCOutput.

#[global] Instance FlagPtr_eq : EqDecision FlagPtr.
Proof. solve_decision. Defined.

(** [*F] *)
Definition load_flag (F : FlagPtr) (f : Flags) : bool :=
  match F with
  | addr_DebugPassStructure => DebugPassStructure f
  | addr_DebugPassArguments => DebugPassArguments f
  | addr_DisableLLVMOptimizations => DisableLLVMOptimizations f
  | addr_EnableGCCOptimizations => EnableGCCOptimizations f
  | addr_EmitIR => EmitIR f
  | addr_SaveGCCOutput => SaveGCCOutput f
  end.

(** [*F = true] *)
Definition set_flag (F : FlagPtr) (f : Flags) : Flags :=
  {| DebugPassStructure :=
       if decide (F = addr_DebugPassStructure) then true else DebugPassStructure f;
     DebugPassArguments :=
       if decide (F = addr_DebugPassArguments) then true else DebugPassArguments f;
     DisableLLVMOptimizations :=
       if decide (F = addr_DisableLLVMOptimizations) then true
       else DisableLLVMOptimizations f;
     EnableGCCOptimizations :=
       if decide (F = addr_EnableGCCOptimizations) then true else EnableGCCOptimizations f;
     EmitIR := if decide (F = addr_EmitIR) then true else EmitIR f;
     SaveGCCOutput := if decide (F = addr_SaveGCCOutput) then true else SaveGCCOutput f |}.

(** FlagDescriptor: the plugin argument is -fplugin-arg-llvm-KEY, and the
    flag is set to true if it is seen. *)
Record FlagDescriptor := { Key : string; Flag : FlagPtr }.

(** PluginFlags - Flag arguments for the plugin (without the terminator). *)
Definition PluginFlags : list FlagDescriptor :=
  [ {| Key := "debug-pass-structure"; Flag := addr_DebugPassStructure |};
    {| Key := "debug-pass-arguments"; Flag := addr_DebugPassArguments |};
    {| Key := "disable-llvm-optzns"; Flag := addr_DisableLLVMOptimizations |};
    {| Key := "enable-gcc-optzns"; Flag := addr_EnableGCCOptimizations |};
    {| Key := "emit-ir"; Flag := addr_EmitIR |};
    {| Key := "save-gcc-output"; Flag := addr_SaveGCCOutput |} ].

(** GCC's struct plugin_argument: [value] is null for an argument given
    without '='. *)
Record plugin_argument := { key : string; value : option string }.

(** The two warnings of the argument loop:
    "option '-fplugin-arg-%s-%s=%s' ignored (superfluous '=%s')" and
    "plugin %qs: unrecognized argument %qs ignored". *)
Inductive plugin_warning :=
  | superfluous_value (plugin_name k v : string)
  | unrecognized_argument (plugin_name k : string).

(** What the argument loop of plugin_init works on. *)
Record PluginState := { plugin_flags : Flags; plugin_warnings : list plugin_warning }.

(** "Look for a matching flag": the inner loop over the table, for the
    argument [a].  The result is [Found]. *)
Fixpoint look_for_flag (plugin_name : string) (a : plugin_argument)
    (table : list FlagDescriptor) (st : PluginState) : bool * PluginState :=
  match table with
  | [] => (false, st)
  | F :: rest =>
      if negb (String.eqb (key a) (Key F)) then look_for_flag plugin_name a rest st
      else
        (true,
         match value a with
         | Some v =>
             {| plugin_flags := plugin_flags st;
                plugin_warnings :=
                  plugin_warnings st ++ [superfluous_value plugin_name (key a) v] |}
         | None =>
             {| plugin_flags := set_flag (Flag F) (plugin_flags st);
                plugin_warnings := plugin_warnings st |}
         end)
  end.

(** "Process any plugin arguments": the loop of plugin_init over argv. *)
Fixpoint process_plugin_arguments (plugin_name : string) (argv : list plugin_argument)
    (st : PluginState) : PluginState :=
  match argv with
  | [] => st
  | a :: rest =>
      let '(Found, st) := look_for_flag plugin_name a PluginFlags st in
      let st :=
        if negb Found
        then {| plugin_flags := plugin_flags st;
                plugin_warnings :=
                  plugin_warnings st ++ [unrecognized_argument plugin_name (key a)] |}
        else st in
      process_plugin_arguments plugin_name rest st
  end.

(** The file names TakeoverAsmOutput reads and writes; a null pointer is
    [None]. *)
Record OutputNames := {
  dump_base_name : option string;
  main_input_filename : option string;
  asm_file_name : option string;
  llvm_asm_file_name : option string
}.

(** TakeoverAsmOutput - Obtain exclusive use of the assembly code output
    file.  Any GCC output will be thrown away.  [strip_off_ending] is GCC's
    and HOST_BIT_BUCKET the host's; [None] is strlen of a null pointer. *)
Definition TakeoverAsmOutput (strip_off_ending : string -> string)
    (HOST_BIT_BUCKET : string) (SaveGCCOutput : bool) (n : OutputNames)
  : option OutputNames :=
  (* Calculate the output file name as in init_asm_output (toplev.c). *)
  let dump :=
    match dump_base_name n, main_input_filename n with
    | None, Some main => Some (if negb (String.eqb main "") then main else "gccdump")
    | dump, _ => dump
    end in
  llvm ←
    match main_input_filename n, asm_file_name n with
    | None, None => Some "-"
    | _, None =>
        dumpname ← dump;
        Some (strip_off_ending dumpname +:+ ".s")
    | _, Some asm => Some asm
    end;
  Some {| dump_base_name := dump;
          main_input_filename := main_input_filename n;
          asm_file_name :=
            if negb SaveGCCOutput then
              (* Redirect any GCC output to /dev/null. *)
              Some HOST_BIT_BUCKET
            else
              (* Save GCC output to a special file. *)
              Some (llvm +:+ ".gcc");
          llvm_asm_file_name := Some llvm |}.

(** ** Vocabulary of the plugin interface *)

(** The key of the table entry for the flag at [F]. *)
Definition key_of (F : FlagPtr) : string :=
  match F with
  | addr_DebugPassStructure => "debug-pass-structure"
  | addr_DebugPassArguments => "debug-pass-arguments"
  | addr_DisableLLVMOptimizations => "disable-llvm-optzns"
  | addr_EnableGCCOptimizations => "enable-gcc-optzns"
  | addr_EmitIR => "emit-ir"
  | addr_SaveGCCOutput => "save-gcc-output"
  end.

(** The argument is a key of the table. *)
Definition recognized (a : plugin_argument) : bool :=
  bool_decide (key a ∈ map Key PluginFlags).

(** The warning the argument draws, if any. *)
Definition warning_for (plugin_name : string) (a : plugin_argument)
  : option plugin_warning :=
  if recognized a then
    match value a with
    | Some v => Some (superfluous_value plugin_name (key a) v)
    | None => None
    end
  else Some (unrecognized_argument plugin_name (key a)).

(** The argument names the flag at [F] and has no value. *)
Definition switches_on (F : FlagPtr) (a : plugin_argument) : bool :=
  bool_decide (key a = key_of F) && bool_decide (value a = None).

Module RetypedUnit.
Import Unit.
(** [union U { long l; void *p; } u = { .p = &u };] at 50.  The union
    converts to { i64 }; the initial value, reduced to the address it holds,
    converts to an i8*: the type of the initializer disagrees with the type
    of the global, and the initializer refers to the global. *)
Definition u : tree := 50%positive.
Definition union_type : gcc_type :=
  {| TYPE_UID := 4; TYPE_SIZE := Some 64; TYPE_MODE_is_BLKmode := false;
     AGGREGATE_TYPE_P := true |}.
Definition union_converter : TypeConverter :=
  {| ConvertType :=
       fun t => if (TYPE_UID t =? 4)%N then StructTy [IntegerTy 64]
                else ConvertType converter t;
     ConvertFunctionType := ConvertFunctionType converter |}.
Definition u_decl : tree_decl :=
  declaration VAR_DECL "u" union_type (Some (ADDR_EXPR ptr_type true u)) true.
Definition start : State :=
  {| TheModule := ∅; detached := ∅; TheTarget := target;
     TheTypeConverter := union_converter;
     flag_odr := false; llvm_cache := ∅; StaticCtors := []; StaticDtors := [];
     AttributeUsedGlobals := []; AttributeCompilerUsedGlobals := [];
     AttributeAnnotateGlobals := []; StringCSTCache := ∅; config := configuration;
     trees := <[u := u_decl]> declarations;
     cgraph_asm := ∅; varpool_asm := ∅;
     errorcount := 0; sorrycount := 0; diagnostics := [] |}.
End RetypedUnit.

(** ** Vocabulary of the linkage of an emitted declaration *)

(** Every run of [c] from a state that satisfies [P] ends with a result and
    in a state that satisfy [Q]. *)
Definition ensures {A} (P : State -> Prop) (c : M A) (Q : A -> State -> Prop) : Prop :=
  forall s r s', P s -> c s = Some (r, s') -> Q r s'.

(** A setter that leaves the linkage and the kind of a global, and whether
    it is a declaration, as they are. *)
Definition keeps_definition (f : GlobalValue -> GlobalValue) : Prop :=
  forall v, gv_linkage (f v) = gv_linkage v
            /\ isDeclaration (f v) = isDeclaration v
            /\ isGlobalVariable (f v) = isGlobalVariable v.

(** A property of a global that depends on nothing but its linkage, its
    kind and whether it is a declaration. *)
Definition stable (Q : GlobalValue -> Prop) : Prop :=
  forall v v', gv_linkage v' = gv_linkage v -> isDeclaration v' = isDeclaration v ->
               isGlobalVariable v' = isGlobalVariable v -> Q v -> Q v'.

(** A property [K] of the declarations and of the cache that survives the
    rebinding of a global other than [g] and the writing of the
    declarations in [free]. *)
Definition framed (g : sym) (K : State -> Prop) (free : tree -> Prop) : Prop :=
  (forall s s', llvm_cache s' = llvm_cache s -> trees s' = trees s -> K s -> K s')
  /\ (forall Old p s, Old <> g -> K s ->
        K (upd_llvm_cache
             (fmap (fun q => if decide (q = ValuePtr (GlobalRef Old)) then p else q)) s))
  /\ (forall t p s, free t -> K s -> K (upd_llvm_cache (insert t p) s))
  /\ (forall t d s, free t -> K s -> K (upd_trees (insert t d) s)).

(** The global [g] is in the module and satisfies [Q], and the declarations
    and the cache satisfy [K]. *)
Definition spared (g : sym) (Q : GlobalValue -> Prop) (K : State -> Prop) (s : State)
  : Prop :=
  K s /\ holds_at g Q s.

(** The declaration [t] is [d] and is bound to the global [g], which has
    linkage [L] and is a definition. *)
Definition bound_to (g : sym) (t : tree) (d : tree_decl) (s : State) : Prop :=
  cached s t = ValuePtr (GlobalRef g) /\ trees s !! t = Some d.
Definition defined_with (L : LinkageTypes) (v : GlobalValue) : Prop :=
  gv_linkage v = L /\ isDeclaration v = false.
Definition settled (g : sym) (L : LinkageTypes) (t : tree) (d : tree_decl) (s : State)
  : Prop :=
  spared g (defined_with L) (bound_to g t d) s.

(** The global variable make_decl_llvm finds for the declaration [decl]:
    the one the cache holds, or else the one the module has under the name
    of the declaration. *)
Definition symbol_before (s : State) (decl : tree) (d : tree_decl) : option sym :=
  match cached s decl with
  | ValuePtr (GlobalRef g) => Some g
  | ValuePtr _ | IntPtr _ => None
  | NullPtr => getGlobalVariable (TheModule s) (llvm_name d)
  end.

(** The linkage a public declaration without flags ends with, when its
    emission starts in [s] and finishes the global [GV]: the linkage [GV]
    had in [s] if it is the global make_decl_llvm found there, and external
    linkage if it was created on the way. *)
Definition inherited_linkage (s : State) (decl : tree) (d : tree_decl) (GV : sym)
  : LinkageTypes :=
  match symbol_before s decl d with
  | Some G0 =>
      if decide (GV = G0)
      then default ExternalLinkage (gv_linkage <$> TheModule s !! G0)
      else ExternalLinkage
  | None => ExternalLinkage
  end.

(** * Properties *)

(** ** Reasoning in the monad *)

Lemma bind_Some {A B} (c : M A) (k : A -> M B) s r :
  bind c k s = Some r <-> exists a s1, c s = Some (a, s1) /\ k a s1 = Some r.
Proof.
  unfold bind. split.
  - destruct (c s) as [[a s1]|]; [eauto | discriminate].
  - intros (a & s1 & -> & H). exact H.
Qed.

Lemma bind_eq {A B} (c : M A) (k : A -> M B) s a s1 :
  c s = Some (a, s1) -> bind c k s = k a s1.
Proof. unfold bind. now intros ->. Qed.

Lemma assert_Some b s r : assert b s = Some r <-> b = true /\ r = (tt, s).
Proof.
  unfold assert, ret, abort. destruct b; split.
  - now intros [= <-].
  - now intros [_ ->].
  - discriminate.
  - now intros [? _].
Qed.

Lemma unwrap_Some {A} (o : option A) s r :
  unwrap o s = Some r <-> exists a, o = Some a /\ r = (a, s).
Proof.
  unfold unwrap, ret, abort. destruct o; split.
  - intros [= <-]. eauto.
  - now intros (? & [= ->] & ->).
  - discriminate.
  - now intros (? & ? & _).
Qed.

Lemma decl_of_Some t s r :
  decl_of t s = Some r <-> exists d, trees s !! t = Some d /\ r = (d, s).
Proof.
  unfold decl_of. destruct (trees s !! t); split.
  - intros [= <-]. eauto.
  - now intros (? & [= ->] & ->).
  - discriminate.
  - now intros (? & ? & _).
Qed.

Lemma global_of_Some g s r :
  global_of g s = Some r <-> exists v, TheModule s !! g = Some v /\ r = (v, s).
Proof.
  unfold global_of. destruct (TheModule s !! g); split.
  - intros [= <-]. eauto.
  - now intros (? & [= ->] & ->).
  - discriminate.
  - now intros (? & ? & _).
Qed.

Ltac minj H := first [injection H as ? ? | injection H as ?]; subst.

(** Taking a run of monadic code apart, one step at a time. *)
Ltac minv1 :=
  match goal with
  | H : bind _ _ _ = Some _ |- _ =>
      apply bind_Some in H; destruct H as (? & ? & ? & H)
  | H : assert _ _ = Some _ |- _ =>
      apply assert_Some in H; destruct H as [? ?]; subst
  | H : unwrap _ _ = Some _ |- _ =>
      apply unwrap_Some in H; destruct H as (? & ? & ?); subst
  | H : decl_of _ _ = Some _ |- _ =>
      apply decl_of_Some in H; destruct H as (? & ? & ?); subst
  | H : global_of _ _ = Some _ |- _ =>
      apply global_of_Some in H; destruct H as (? & ? & ?); subst
  | H : ret _ _ = Some _ |- _ => unfold ret in H; minj H
  | H : get _ = Some _ |- _ => unfold get in H; minj H
  | H : gets _ _ = Some _ |- _ => unfold gets in H; minj H
  | H : modify _ _ = Some _ |- _ => unfold modify in H; minj H
  | H : abort _ = Some _ |- _ => discriminate H
  | H : (_, _) = (_, _) |- _ => minj H
  end.
Ltac minv := repeat minv1.

(** ** C integers *)

Lemma swrap_small w z : 0 < w -> - 2 ^ (w - 1) <= z < 2 ^ (w - 1) -> swrap w z = z.
Proof.
  intros Hw Hz. unfold swrap.
  assert (2 ^ w = 2 * 2 ^ (w - 1)) as E.
  { replace w with (1 + (w - 1)) at 1 by lia. rewrite Z.pow_add_r by lia. reflexivity. }
  rewrite Z.mod_small; lia.
Qed.

Lemma to_int_small z : INT_MIN <= z <= INT_MAX -> to_int z = z.
Proof.
  intros H. unfold to_int. apply swrap_small; [reflexivity|].
  unfold INT_MIN, INT_MAX, INT_BITS in *. lia.
Qed.

Lemma to_intptr_int s z :
  32 <= PointerSizeInBits (TheTarget s) -> INT_MIN <= z <= INT_MAX -> to_intptr s z = z.
Proof.
  intros Hw Hz. unfold to_intptr. apply swrap_small; [lia|].
  assert (2 ^ 31 <= 2 ^ (PointerSizeInBits (TheTarget s) - 1)).
  { apply Z.pow_le_mono_r; lia. }
  unfold INT_MIN, INT_MAX, INT_BITS in *. simpl in *. lia.
Qed.

(** ** The index namespace of the declaration cache *)

(** C8.  For a declaration without storage (HAS_RTL_P is false) and a
    non-negative [int] i, set_decl_index stores the negative value -i-1 in
    the cache, and get_decl_index afterwards returns exactly i; for a
    declaration the cache holds nothing for, get_decl_index returns a
    negative value. *)
Theorem decl_index_roundtrip (s : State) (t : tree) (d : tree_decl) (i : Z) :
  trees s !! t = Some d ->
  HAS_RTL_P (TREE_CODE d) = false ->
  32 <= PointerSizeInBits (TheTarget s) ->
  0 <= i <= INT_MAX ->
  (exists s', set_decl_index t i s = Some (i, s')
              /\ llvm_cache s' !! t = Some (IntPtr (- i - 1))
              /\ - i - 1 < 0
              /\ get_decl_index t s' = Some (i, s'))
  /\ (llvm_cache s !! t = None ->
      exists z, get_decl_index t s = Some (z, s) /\ z < 0).
Proof.
  intros Ht Hrtl Hw Hi.
  assert (INT_MAX = 2147483647) as EM by reflexivity.
  assert (INT_MIN = -2147483648) as Em by reflexivity.
  split.
  - eexists. split; [|split; [|split]].
    + unfold set_decl_index.
      rewrite (bind_eq _ _ _ d s) by (unfold decl_of; now rewrite Ht).
      rewrite Hrtl. simpl.
      assert ((0 <=? i) = true) as -> by lia.
      cbn [assert bind ret get llvm_set_cached modify].
      reflexivity.
    + cbn. rewrite lookup_insert_eq.
      rewrite (to_int_small (- i)) by lia.
      rewrite (to_int_small (- i - 1)) by lia.
      rewrite to_intptr_int by (cbn; lia).
      unfold int_to_ptr. destruct (- i - 1 =? 0) eqn:E; [lia | reflexivity].
    + lia.
    + unfold get_decl_index.
      rewrite (bind_eq _ _ _ d _) by (unfold decl_of; cbn; now rewrite Ht).
      rewrite Hrtl. cbn. unfold cached. cbn.
      rewrite lookup_insert_eq. cbn.
      rewrite (to_int_small (- i)) by lia.
      rewrite (to_int_small (- i - 1)) by lia.
      rewrite to_intptr_int by (cbn; lia).
      unfold int_to_ptr. destruct (- i - 1 =? 0) eqn:E; [lia |]. cbn.
      rewrite (to_int_small (- i - 1)) by lia.
      replace (1 + (- i - 1)) with (- i) by lia.
      rewrite (to_int_small (- i)) by lia.
      replace (- (- i)) with i by lia.
      rewrite to_int_small by lia. reflexivity.
  - intros Hc. exists (-1). split; [|lia].
    unfold get_decl_index.
    rewrite (bind_eq _ _ _ d _) by (unfold decl_of; cbn; now rewrite Ht).
    rewrite Hrtl. cbn. unfold cached. rewrite Hc. cbn. reflexivity.
Qed.

Lemma decl_index_roundtrip_witness :
  (exists s', set_decl_index Unit.field 7 Unit.start = Some (7, s')
              /\ llvm_cache s' !! Unit.field = Some (IntPtr (- 7 - 1))
              /\ - 7 - 1 < 0
              /\ get_decl_index Unit.field s' = Some (7, s'))
  /\ (llvm_cache Unit.start !! Unit.field = None ->
      exists z, get_decl_index Unit.field Unit.start = Some (z, Unit.start) /\ z < 0).
Proof.
  apply (decl_index_roundtrip Unit.start Unit.field
           (Unit.declaration FIELD_DECL "f" Unit.int_type None false) 7).
  - reflexivity.
  - reflexivity.
  - simpl. lia.
  - unfold INT_MAX, INT_BITS. simpl. lia.
Defined.

(** ** The value namespace of the declaration cache *)

Lemma get_decl_llvm_inv t s V s' :
  get_decl_llvm t s = Some (V, s') ->
  s' = s /\ cached s t = Value_to_ptr V
  /\ exists d, trees s !! t = Some d /\ HAS_RTL_P (TREE_CODE d) = true.
Proof.
  unfold get_decl_llvm, llvm_get_cached. intros H. minv.
  destruct (cached _ t) eqn:E; minv; simpl; eauto.
Qed.

Lemma get_decl_llvm_eq t s d V :
  trees s !! t = Some d -> HAS_RTL_P (TREE_CODE d) = true ->
  cached s t = Value_to_ptr V ->
  get_decl_llvm t s = Some (V, s).
Proof.
  intros Ht Hr Hc. unfold get_decl_llvm.
  rewrite (bind_eq _ _ _ d s) by (apply decl_of_Some; eauto).
  rewrite Hr. cbn. rewrite Hc. destruct V; reflexivity.
Qed.

Lemma set_decl_llvm_inv t V s r s' :
  set_decl_llvm t V s = Some (r, s') ->
  r = V /\ s' = upd_llvm_cache (insert t (Value_to_ptr V)) s
  /\ exists d, trees s !! t = Some d /\ HAS_RTL_P (TREE_CODE d) = true.
Proof.
  unfold set_decl_llvm, llvm_set_cached. intros H. minv. eauto.
Qed.

Lemma cached_set t p s : cached (upd_llvm_cache (insert t p) s) t = p.
Proof. unfold cached. cbn. now rewrite lookup_insert_eq. Qed.

(** ** Register variables *)

Lemma reports_cons d ds s : reports (d :: ds) s = reports ds (report d s).
Proof. reflexivity. Qed.
Lemma reports_module ds s : TheModule (reports ds s) = TheModule s.
Proof.
  revert s. induction ds as [|d ds IH]; intros s; [reflexivity|].
  now rewrite reports_cons, IH.
Qed.
Lemma reports_cache ds s : llvm_cache (reports ds s) = llvm_cache s.
Proof.
  revert s. induction ds as [|d ds IH]; intros s; [reflexivity|].
  now rewrite reports_cons, IH.
Qed.



Lemma ValidateRegisterVariable_reports s decl d name :
  trees s !! decl = Some d ->
  extractRegisterName d = Some name ->
  seen_error s = false ->
  exists b, ValidateRegisterVariable decl s
            = Some (b, reports (register_diagnostics decl d (decode_reg_name (config s) name)) s).
Proof.
  intros Ht Hn He. unfold ValidateRegisterVariable.
  rewrite (bind_eq _ _ _ d s) by (apply decl_of_Some; eauto).
  rewrite Hn. cbn. rewrite He. unfold register_diagnostics.
  destruct (_ =? -1); [eexists; reflexivity|].
  destruct (_ <? 0); [eexists; reflexivity|].
  destruct (TYPE_MODE_is_BLKmode _); [eexists; reflexivity|].
  destruct (_ && TREE_STATIC d); [eexists; reflexivity|].
  destruct (AGGREGATE_TYPE_P _); [eexists; reflexivity|].
  destruct (TREE_THIS_VOLATILE d); eexists; reflexivity.
Qed.

(** C10.  For a non-function declaration marked as a register variable
    whose cache entry is unset, make_decl_llvm returns NULL, leaves the
    module and the cache as they are, and changes nothing but the
    diagnostics: none when an error is pending, and otherwise the one
    ValidateRegisterVariable picks (missing register name, invalid register
    name, unsuitable data type, initial value on a global register, aggregate
    register variable), or no error at all for a well-formed declaration. *)
Theorem register_variable_gets_no_symbol (s : State) (decl : tree) (d : tree_decl)
    (name : string) :
  trees s !! decl = Some d ->
  TREE_CODE d <> FUNCTION_DECL ->
  DECL_REGISTER d = true ->
  HAS_RTL_P (TREE_CODE d) = true ->
  ENABLE_CHECKING (config s) && checking_rejects d = false ->
  extractRegisterName d = Some name ->
  cached s decl = NullPtr ->
  exists ds,
    make_decl_llvm decl s = Some (None, reports ds s)
    /\ TheModule (reports ds s) = TheModule s
    /\ cached (reports ds s) decl = NullPtr
    /\ (seen_error s = true -> ds = [])
    /\ (seen_error s = false ->
        let R := decode_reg_name (config s) name in
        (R = -1 ->
         ds = [Error "register name not specified for %q+D" (Some decl)])
        /\ (R < 0 -> R <> -1 ->
            ds = [Error "invalid register name for %q+D" (Some decl)])
        /\ (0 <= R -> TYPE_MODE_is_BLKmode (TREE_TYPE d) = true ->
            ds = [Error "data type of %q+D isn%'t suitable for a register" (Some decl)])
        /\ (0 <= R -> TYPE_MODE_is_BLKmode (TREE_TYPE d) = false ->
            DECL_INITIAL d <> None -> TREE_STATIC d = true ->
            ds = [Error "global register variable has initial value" None])
        /\ (0 <= R -> TYPE_MODE_is_BLKmode (TREE_TYPE d) = false ->
            (DECL_INITIAL d = None \/ TREE_STATIC d = false) ->
            AGGREGATE_TYPE_P (TREE_TYPE d) = true ->
            ds = [Sorry "LLVM cannot handle register variable %q+D, report a bug"
                        (Some decl)])
        /\ (0 <= R -> TYPE_MODE_is_BLKmode (TREE_TYPE d) = false ->
            (DECL_INITIAL d = None \/ TREE_STATIC d = false) ->
            AGGREGATE_TYPE_P (TREE_TYPE d) = false ->
            errorcount (reports ds s) = errorcount s
            /\ sorrycount (reports ds s) = sorrycount s)).
Proof.
  intros Ht Hcode Hreg Hrtl Hchk Hname Hc.
  assert (make_decl_llvm decl s =
          if seen_error s then Some (None, s)
          else (do _ <- ValidateRegisterVariable decl; ret None) s) as Hrun.
  { unfold make_decl_llvm.
    rewrite (bind_eq _ _ _ None s) by (eapply get_decl_llvm_eq; eauto).
    rewrite (bind_eq _ _ _ d s) by (apply decl_of_Some; eauto).
    cbn. rewrite Hchk. cbn. destruct (seen_error s); [reflexivity|].
    rewrite Hreg. rewrite bool_decide_true by assumption. reflexivity. }
  destruct (seen_error s) eqn:He.
  - exists []. cbn. repeat split; try assumption; try discriminate. 
  - destruct (ValidateRegisterVariable_reports s decl d name Ht Hname He) as [b Hb].
    eexists. split; [|split; [|split; [|split]]].
    + rewrite Hrun. rewrite (bind_eq _ _ _ _ _ Hb). reflexivity.
    + apply reports_module.
    + unfold cached. rewrite reports_cache. exact Hc.
    + discriminate.
    + intros _ R. subst R. unfold register_diagnostics.
      set (R := decode_reg_name (config s) name).
      repeat split.
      * intros ->. reflexivity.
      * intros H1 H2. destruct (R =? -1) eqn:E1; [lia|].
        destruct (R <? 0) eqn:E2; [reflexivity | lia].
      * intros H1 H2. destruct (R =? -1) eqn:E1; [lia|].
        destruct (R <? 0) eqn:E2; [lia|]. now rewrite H2.
      * intros H1 H2 H3 H4. destruct (R =? -1) eqn:E1; [lia|].
        destruct (R <? 0) eqn:E2; [lia|]. rewrite H2, H4.
        now rewrite bool_decide_true by assumption.
      * intros H1 H2 H3 H4. destruct (R =? -1) eqn:E1; [lia|].
        destruct (R <? 0) eqn:E2; [lia|]. rewrite H2, H4.
        destruct H3 as [H3|H3].
        -- rewrite bool_decide_false by (rewrite H3; tauto). reflexivity.
        -- rewrite H3, andb_false_r. reflexivity.
      * destruct (R =? -1) eqn:E1; [lia|].
        destruct (R <? 0) eqn:E2; [lia|]. rewrite H0, H2.
        destruct H1 as [H3|H3].
        -- rewrite bool_decide_false by (rewrite H3; tauto).
           destruct (TREE_THIS_VOLATILE d); reflexivity.
        -- rewrite H3, andb_false_r. destruct (TREE_THIS_VOLATILE d); reflexivity.
      * destruct (R =? -1) eqn:E1; [lia|].
        destruct (R <? 0) eqn:E2; [lia|]. rewrite H0, H2.
        destruct H1 as [H3|H3].
        -- rewrite bool_decide_false by (rewrite H3; tauto).
           destruct (TREE_THIS_VOLATILE d); reflexivity.
        -- rewrite H3, andb_false_r. destruct (TREE_THIS_VOLATILE d); reflexivity.
Qed.

Lemma register_variable_gets_no_symbol_witness :
  exists ds,
    make_decl_llvm Unit.sp Unit.start = Some (None, reports ds Unit.start)
    /\ TheModule (reports ds Unit.start) = TheModule Unit.start
    /\ cached (reports ds Unit.start) Unit.sp = NullPtr.
Proof.
  destruct (register_variable_gets_no_symbol Unit.start Unit.sp
              (Unit.with_register
                 (Unit.declaration VAR_DECL "*ebp" Unit.int_type None true)) "ebp")
    as (ds & H1 & H2 & H3 & _).
  - reflexivity.
  - discriminate.
  - reflexivity.
  - reflexivity.
  - reflexivity.
  - reflexivity.
  - reflexivity.
  - exists ds. auto.
Defined.

(** ** Materialising twice *)

Lemma SET_DECL_LLVM_inv t c s r s' :
  SET_DECL_LLVM t c s = Some (r, s') ->
  r = Some c /\ s' = upd_llvm_cache (insert t (ValuePtr c)) s
  /\ exists d, trees s !! t = Some d /\ HAS_RTL_P (TREE_CODE d) = true.
Proof. unfold SET_DECL_LLVM. intros H. now apply set_decl_llvm_inv in H. Qed.

(** What a run of make_decl_llvm amounts to: the cached value and the same
    state; or NULL and the same state, with an error pending; or NULL after
    the validation of a register variable; or a global [g], cached for the
    declaration as the last step. *)
Lemma make_decl_llvm_cases decl s V s' :
  make_decl_llvm decl s = Some (V, s') ->
  (exists v, V = Some v /\ s' = s /\ cached s decl = ValuePtr v)
  \/ (V = None /\ s' = s /\ cached s decl = NullPtr /\ seen_error s = true)
  \/ (V = None /\ cached s decl = NullPtr /\ seen_error s = false
      /\ exists d, trees s !! decl = Some d /\ TREE_CODE d <> FUNCTION_DECL
                   /\ DECL_REGISTER d = true)
  \/ (exists g s1 d1, V = Some (GlobalRef g) /\ seen_error s = false
      /\ cached s decl = NullPtr
      /\ s' = upd_llvm_cache (insert decl (ValuePtr (GlobalRef g))) s1
      /\ trees s1 !! decl = Some d1 /\ HAS_RTL_P (TREE_CODE d1) = true).
Proof.
  unfold make_decl_llvm. intros H.
  apply bind_Some in H. destruct H as (V0 & s0 & Hget & H).
  apply get_decl_llvm_inv in Hget. destruct Hget as (-> & Hc & d0 & Hd0 & Hrtl).
  destruct V0 as [v|].
  - minv. left. eauto.
  - right. minv.
    destruct (seen_error _) eqn:He.
    + minv. left. auto.
    + right. destruct (bool_decide _ && DECL_REGISTER _) eqn:Hr.
      * minv. left. apply andb_true_iff in Hr. destruct Hr as [Hr1 Hr2].
        apply bool_decide_eq_true in Hr1. repeat split; eauto.
      * right. minv.
        destruct (bool_decide (TREE_CODE _ = FUNCTION_DECL)); minv;
          apply SET_DECL_LLVM_inv in H; destruct H as (-> & -> & d1 & Hd1 & Hr1);
          eauto 10.
Qed.

(** C4.  For a declaration with static storage duration (a function, or a
    variable that is no register variable), a second call of make_decl_llvm
    returns exactly what the first call returned and leaves the state as the
    first call left it, so it creates no global; the symbol the first call
    returned is the one the cache holds for the declaration; and the first
    call returns a symbol unless an error is pending (then both calls return
    NULL and change nothing). *)
Theorem make_decl_llvm_idempotent (s : State) (decl : tree) (d : tree_decl)
    (V : option Constant) (s1 : State) :
  trees s !! decl = Some d ->
  (TREE_CODE d = FUNCTION_DECL \/ DECL_REGISTER d = false) ->
  make_decl_llvm decl s = Some (V, s1) ->
  make_decl_llvm decl s1 = Some (V, s1)
  /\ (forall c, V = Some c -> cached s1 decl = ValuePtr c)
  /\ (V = None -> s1 = s /\ seen_error s = true)
  /\ (cached s decl = NullPtr -> seen_error s = false ->
      exists g, V = Some (GlobalRef g)).
Proof.
  intros Ht Hstatic H.
  destruct (make_decl_llvm_cases _ _ _ _ H)
    as [(v & -> & -> & Hc) | [(-> & -> & Hc & He) | [(-> & Hc & He & d' & Hd' & Hcode & Hreg)
       | (g & s2 & d1 & -> & He & Hc & -> & Hd1 & Hr1)]]].
  - repeat split; try assumption.
    + intros c [= <-]. assumption.
    + discriminate.
    + intros Hn. rewrite Hn in Hc. discriminate.
  - repeat split; try assumption.
    + discriminate.
    + intros _ He'. rewrite He' in He. discriminate.
  - rewrite Ht in Hd'. injection Hd' as <-.
    destruct Hstatic as [Hf | Hr]; [contradiction | rewrite Hr in Hreg; discriminate].
  - assert (make_decl_llvm decl
              (upd_llvm_cache (insert decl (ValuePtr (GlobalRef g))) s2)
            = Some (Some (GlobalRef g),
                    upd_llvm_cache (insert decl (ValuePtr (GlobalRef g))) s2)) as E.
    { unfold make_decl_llvm.
      erewrite (bind_eq _ _ _ (Some (GlobalRef g))); [reflexivity|].
      eapply get_decl_llvm_eq; [exact Hd1 | exact Hr1 | apply cached_set]. }
    repeat split.
    + exact E.
    + intros c [= <-]. apply cached_set.
    + discriminate.
    + discriminate.
    + eauto.
Qed.

(** ** Once an error was reported *)

Lemma make_decl_llvm_after_error decl s V s' :
  seen_error s = true ->
  make_decl_llvm decl s = Some (V, s') ->
  s' = s /\ cached s decl = Value_to_ptr V.
Proof.
  intros He H.
  destruct (make_decl_llvm_cases _ _ _ _ H)
    as [(v & -> & -> & Hc) | [(-> & -> & Hc & _) | [(-> & Hc & He' & _)
       | (g & s2 & d1 & -> & He' & _)]]]; try congruence; auto.
Qed.

Lemma make_decl_llvm_after_error_runs decl s d :
  seen_error s = true ->
  trees s !! decl = Some d -> HAS_RTL_P (TREE_CODE d) = true ->
  ENABLE_CHECKING (config s) && checking_rejects d = false ->
  (forall z, cached s decl <> IntPtr z) ->
  exists V, make_decl_llvm decl s = Some (V, s).
Proof.
  intros He Ht Hr Hchk Hc. unfold make_decl_llvm.
  destruct (cached s decl) as [|v|z] eqn:E.
  - exists None.
    rewrite (bind_eq _ _ _ None s) by (eapply get_decl_llvm_eq; eauto).
    rewrite (bind_eq _ _ _ d s) by (apply decl_of_Some; eauto).
    cbn. rewrite Hchk. cbn. now rewrite He.
  - exists (Some v).
    rewrite (bind_eq _ _ _ (Some v) s) by (eapply get_decl_llvm_eq; eauto).
    reflexivity.
  - now destruct (Hc z).
Qed.

(** X24.  Once an error or a sorry was reported, make_decl_llvm changes
    nothing and returns what the cache holds (NULL when nothing is cached),
    and emit_alias, emit_same_body_alias, emit_thunk and emit_variables
    return at once and change nothing. *)
Theorem emission_after_error_is_noop (s : State) :
  seen_error s = true ->
  (forall decl V s', make_decl_llvm decl s = Some (V, s') ->
                     s' = s /\ cached s decl = Value_to_ptr V)
  /\ (forall decl d, trees s !! decl = Some d -> HAS_RTL_P (TREE_CODE d) = true ->
                     ENABLE_CHECKING (config s) && checking_rejects d = false ->
                     (forall z, cached s decl <> IntPtr z) ->
                     exists V, make_decl_llvm decl s = Some (V, s))
  /\ (forall fuel decl target, emit_alias fuel decl target s = Some (tt, s))
  /\ (forall fuel alias, emit_same_body_alias fuel alias s = Some (tt, s))
  /\ (forall node, emit_thunk node s = Some (tt, s))
  /\ (forall fuel vars pairs, emit_variables fuel vars pairs s = Some (tt, s)).
Proof.
  intros He. repeat split.
  - eapply make_decl_llvm_after_error; eauto.
  - eapply make_decl_llvm_after_error; eauto.
  - intros. eapply make_decl_llvm_after_error_runs; eauto.
  - intros. unfold emit_alias, bind, get. now rewrite He.
  - intros. unfold emit_same_body_alias, bind, get. now rewrite He.
  - intros. unfold emit_thunk, bind, get. now rewrite He.
  - intros. unfold emit_variables, bind, get. now rewrite He.
Qed.



(** C9.  The failing input: an alias to a symbol the unit never defines was
    rejected, so an error is pending, and [int foo = 2] was materialised
    before.  emit_alias, which tests the counters first, changes nothing;
    emit_global has no such test and installs the initializer of [foo], and
    so does make_definition_llvm, which calls it. *)
Lemma emit_global_runs_after_error :
  seen_error BrokenUnit.after_bad_alias = true
  /\ cached BrokenUnit.after_bad_alias Unit.foo_public = ValuePtr (GlobalRef 1%positive)
  /\ (getInitializer <$> TheModule BrokenUnit.after_bad_alias !! 1%positive) = Some None
  /\ emit_alias 1 Unit.weak_alias (TargetIdentifier (Identifier "ext"))
       BrokenUnit.after_bad_alias
     = Some (tt, BrokenUnit.after_bad_alias)
  /\ (getInitializer <$>
        TheModule (after (emit_global 1 Unit.foo_public) BrokenUnit.after_bad_alias)
          !! 1%positive)
     = Some (Some (ConstantInt Int32Ty 2))
  /\ emit_global 1 Unit.foo_public BrokenUnit.after_bad_alias
     <> Some (tt, BrokenUnit.after_bad_alias)
  /\ make_definition_llvm 1 Unit.foo_public BrokenUnit.after_bad_alias
     = Some (Some (GlobalRef 1%positive),
             after (emit_global 1 Unit.foo_public) BrokenUnit.after_bad_alias)
  /\ (TREE_ASM_WRITTEN <$>
        trees (after (make_definition_llvm 1 Unit.foo_public) BrokenUnit.after_bad_alias)
          !! Unit.foo_public)
     = Some true.
Proof.
  split; [vm_compute; reflexivity|].
  split; [vm_compute; reflexivity|].
  split; [vm_compute; reflexivity|].
  split; [vm_compute; reflexivity|].
  split; [vm_compute; reflexivity|].
  split.
  { intros H.
    apply (f_equal (fun r => match r with
                             | Some (_, s) => getInitializer <$> TheModule s !! 1%positive
                             | None => None
                             end)) in H.
    vm_compute in H. discriminate H. }
  split; vm_compute; reflexivity.
Qed.

Lemma make_decl_llvm_idempotent_witness :
  make_decl_llvm Unit.foo_public (after (make_decl_llvm Unit.foo_public) Unit.start)
  = Some (Some (GlobalRef 1%positive), after (make_decl_llvm Unit.foo_public) Unit.start)
  /\ cached (after (make_decl_llvm Unit.foo_public) Unit.start) Unit.foo_public
     = ValuePtr (GlobalRef 1%positive).
Proof.
  destruct (make_decl_llvm_idempotent Unit.start Unit.foo_public
              (Unit.declaration VAR_DECL "foo" Unit.int_type
                 (Some (INTEGER_CST Unit.int_type 2)) true)
              (Some (GlobalRef 1%positive))
              (after (make_decl_llvm Unit.foo_public) Unit.start))
    as (H1 & H2 & _).
  - reflexivity.
  - right. reflexivity.
  - vm_compute. reflexivity.
  - split; [exact H1 | apply H2; reflexivity].
Defined.

Lemma emission_after_error_is_noop_witness :
  emit_alias 1 Unit.weak_alias (TargetIdentifier (Identifier "ext")) BrokenUnit.after_bad_alias
  = Some (tt, BrokenUnit.after_bad_alias).
Proof.
  destruct (emission_after_error_is_noop BrokenUnit.after_bad_alias) as (_ & _ & H & _).
  - vm_compute. reflexivity.
  - apply H.
Defined.

(** ** The module under the primitive operations *)

Lemma update_global_inv g f s r s' :
  update_global g f s = Some (r, s') ->
  exists v, TheModule s !! g = Some v /\ s' = upd_TheModule (insert g (f v)) s.
Proof. unfold update_global. intros H. minv. eauto. Qed.

Lemma update_global_eq g f s v :
  TheModule s !! g = Some v ->
  update_global g f s = Some (tt, upd_TheModule (insert g (f v)) s).
Proof.
  intros H. unfold update_global.
  rewrite (bind_eq _ _ _ v s) by (apply global_of_Some; eauto). reflexivity.
Qed.

Lemma fresh_live_not_in_module s : TheModule s !! fresh (live s) = None.
Proof.
  apply not_elem_of_dom. intros H.
  apply (is_fresh (live s)). unfold live. set_solver.
Qed.

Lemma new_global_inv v s g s' :
  new_global v s = Some (g, s') ->
  g = fresh (live s)
  /\ TheModule s !! g = None
  /\ s' = upd_TheModule (insert g (with_name (unique_name (TheModule s) (gv_name v)) v)) s.
Proof.
  unfold new_global. intros [= <- <-]. split; [reflexivity|].
  split; [apply fresh_live_not_in_module | reflexivity].
Qed.

(** ** The linkage emit_global assigns *)



Lemma setInitializer_keeps i : keeps_linkage (setInitializer i).
Proof. intros v. unfold setInitializer, isConstant. destruct (gv_payload v) eqn:E; cbn; rewrite ?E; auto. Qed.
Lemma setThreadLocal_keeps t : keeps_linkage (setThreadLocal t).
Proof. intros v. unfold setThreadLocal, isConstant. destruct (gv_payload v) eqn:E; cbn; rewrite ?E; auto. Qed.
Lemma with_visibility_keeps x : keeps_linkage (with_visibility x).
Proof. intros v. split; reflexivity. Qed.
Lemma with_section_keeps x : keeps_linkage (with_section x).
Proof. intros v. split; reflexivity. Qed.
Lemma with_alignment_keeps x : keeps_linkage (with_alignment x).
Proof. intros v. split; reflexivity. Qed.



Lemma has_linkage_update g L c f s r s' :
  keeps_linkage f ->
  update_global g f s = Some (r, s') ->
  has_linkage g L c s -> has_linkage g L c s'.
Proof.
  intros Hf H (v & Hv & <- & <-). apply update_global_inv in H.
  destruct H as (v' & Hv' & ->). rewrite Hv in Hv'. injection Hv' as <-.
  exists (f v). cbn. rewrite lookup_insert_eq. destruct (Hf v). auto.
Qed.

Lemma has_linkage_update_other g g' L c f s r s' :
  g <> g' ->
  update_global g' f s = Some (r, s') ->
  has_linkage g L c s -> has_linkage g L c s'.
Proof.
  intros Hne H (v & Hv & <- & <-). apply update_global_inv in H.
  destruct H as (v' & Hv' & ->).
  exists v. cbn. rewrite lookup_insert_ne by congruence. auto.
Qed.

Lemma has_linkage_new g L c v s g' s' :
  new_global v s = Some (g', s') ->
  has_linkage g L c s -> has_linkage g L c s' /\ g <> g'.
Proof.
  intros H (v0 & Hv & <- & <-). apply new_global_inv in H.
  destruct H as (-> & Hfresh & ->).
  assert (g <> fresh (live s)) by congruence.
  split; [|assumption].
  exists v0. cbn. rewrite lookup_insert_ne by congruence. auto.
Qed.

Lemma has_linkage_same_module g L c s s' :
  TheModule s' = TheModule s -> has_linkage g L c s -> has_linkage g L c s'.
Proof. intros E (v & Hv & ?). exists v. now rewrite E. Qed.

Lemma has_linkage_handleVisibility g L c d s r s' :
  handleVisibility d g s = Some (r, s') ->
  has_linkage g L c s -> has_linkage g L c s'.
Proof.
  unfold handleVisibility. intros H HL.
  destruct (_ && _).
  - destruct (DECL_VISIBILITY d);
      try (eapply has_linkage_update; [apply with_visibility_keeps | exact H | exact HL]).
    minv. exact HL.
  - minv. exact HL.
Qed.

Lemma has_linkage_ConvertMetadataStringToGV g L c str s r s' :
  ConvertMetadataStringToGV str s = Some (r, s') ->
  has_linkage g L c s -> has_linkage g L c s'.
Proof.
  unfold ConvertMetadataStringToGV. intros H HL. minv.
  destruct (StringCSTCache _ !! str).
  - minv. exact HL.
  - minv.
    match goal with
    | Hn : new_global _ _ = Some _, Hu : update_global _ _ _ = Some (_, ?s3) |- _ =>
        destruct (has_linkage_new _ _ _ _ _ _ _ Hn HL) as [HL1 Hne];
        apply (has_linkage_same_module _ _ _ s3); [reflexivity|];
        eapply has_linkage_update_other; [exact Hne | exact Hu | exact HL1]
    end.
Qed.

Lemma CreateBitCastM_state c ty s r s' :
  CreateBitCastM c ty s = Some (r, s') -> s' = s.
Proof. unfold CreateBitCastM. intros H. minv. reflexivity. Qed.

Lemma has_linkage_AddAnnotateAttrsToGlobal g L c GV d s r s' :
  AddAnnotateAttrsToGlobal GV d s = Some (r, s') ->
  has_linkage g L c s -> has_linkage g L c s'.
Proof.
  unfold AddAnnotateAttrsToGlobal. intros H HL.
  destruct (negb (has_attribute _ _)).
  - minv. exact HL.
  - minv.
    repeat match goal with
           | Hb : CreateBitCastM _ _ _ = Some _ |- _ =>
               apply CreateBitCastM_state in Hb; subst
           end.
    match goal with
    | Hm : ConvertMetadataStringToGV _ _ = Some (_, ?s1) |- _ =>
        apply (has_linkage_same_module _ _ _ s1); [reflexivity|];
        eapply has_linkage_ConvertMetadataStringToGV; eauto
    end.
Qed.

Lemma when_Some b (c : M unit) s r :
  when b c s = Some r -> (b = true /\ c s = Some r) \/ (b = false /\ r = (tt, s)).
Proof. unfold when, ret. destruct b; [auto | intros [= <-]; auto]. Qed.

(** The post-processing: the global keeps the constness it had, and gets
    the linkage computed from the declaration and the linkage it had. *)
Lemma emit_global_finish_linkage decl GV Init s s' :
  emit_global_finish decl GV Init s = Some (tt, s') ->
  exists d gv0,
    trees s !! decl = Some d
    /\ TheModule s !! GV = Some gv0
    /\ trees s' = <[decl := set_TREE_ASM_WRITTEN true d]> (trees s)
    /\ flag_odr s' = flag_odr s
    /\ has_linkage GV
         (constant_Linkage (isConstant gv0)
            (emit_global_Linkage d (flag_odr s) (gv_linkage gv0)))
         (isConstant gv0) s'.
Proof.
  unfold emit_global_finish. intros H.
  apply bind_Some in H. destruct H as (d & s0 & Hd & H).
  apply decl_of_Some in Hd. destruct Hd as (d' & Hd & E).
  injection E as -> ->.
  apply bind_Some in H. destruct H as (u1 & s1 & Hinit & H).
  pose proof Hinit as Hinit'.
  apply update_global_inv in Hinit'. destruct Hinit' as (gv0 & Hgv0 & Es1).
  exists d', gv0. split; [exact Hd|]. split; [exact Hgv0|].
  assert (has_linkage GV (gv_linkage gv0) (isConstant gv0) s) as HL0.
  { exists gv0. auto. }
  assert (has_linkage GV (gv_linkage gv0) (isConstant gv0) s1) as HL1.
  { eapply has_linkage_update; [apply setInitializer_keeps | exact Hinit | exact HL0]. }
  assert (trees s1 = trees s /\ flag_odr s1 = flag_odr s) as [Et1 Eo1] by (subst s1; auto).
  clear Hinit Es1 HL0.
  apply bind_Some in H. destruct H as (u2 & s2 & Htls & H).
  assert (has_linkage GV (gv_linkage gv0) (isConstant gv0) s2
          /\ trees s2 = trees s /\ flag_odr s2 = flag_odr s) as (HL2 & Et2 & Eo2).
  { apply when_Some in Htls. destruct Htls as [[_ Hu] | [_ [= _ <-]]]; [|auto].
    split; [eapply has_linkage_update; [apply setThreadLocal_keeps | exact Hu | exact HL1]|].
    apply update_global_inv in Hu. destruct Hu as (? & _ & ->). auto. }
  clear Htls HL1 Et1 Eo1.
  apply bind_Some in H. destruct H as (gv & s2' & Hg & H).
  apply global_of_Some in Hg. destruct Hg as (gv' & Hgv & E).
  injection E as -> ->.
  destruct HL2 as (gv2 & Hgv2 & EL & EC). rewrite Hgv in Hgv2. injection Hgv2 as <-.
  apply bind_Some in H. destruct H as (odr & s2' & Ho & H).
  unfold gets in Ho. injection Ho as <- <-.
  rewrite EL, EC, Eo2 in H.
  set (L := constant_Linkage (isConstant gv0)
              (emit_global_Linkage d' (flag_odr s) (gv_linkage gv0))) in *.
  apply bind_Some in H. destruct H as (u3 & s3 & Hlink & H).
  assert (has_linkage GV L (isConstant gv0) s3
          /\ trees s3 = trees s /\ flag_odr s3 = flag_odr s) as (HL3 & Et3 & Eo3).
  { apply update_global_inv in Hlink. destruct Hlink as (v & Hv & ->).
    rewrite Hgv in Hv. injection Hv as <-.
    split; [|auto]. exists (with_linkage L gv'). cbn. rewrite lookup_insert_eq. auto. }
  clear Hlink.
  apply bind_Some in H. destruct H as (u4 & s4 & Hvis & H).
  assert (has_linkage GV L (isConstant gv0) s4
          /\ trees s4 = trees s /\ flag_odr s4 = flag_odr s) as (HL4 & Et4 & Eo4).
  { clear H. split; [eapply has_linkage_handleVisibility; eauto|].
    unfold handleVisibility in Hvis.
    destruct (_ && _); [destruct (DECL_VISIBILITY d')|];
      try (apply update_global_inv in Hvis; destruct Hvis as (? & _ & ->); auto);
      minv; auto. }
  clear Hvis HL3 Et3 Eo3.
  apply bind_Some in H. destruct H as (u5 & s5 & Hvar & H).
  assert (has_linkage GV L (isConstant gv0) s5
          /\ trees s5 = trees s /\ flag_odr s5 = flag_odr s) as (HL5 & Et5 & Eo5).
  { apply when_Some in Hvar. destruct Hvar as [[_ Hv] | [_ [= _ <-]]]; [|auto].
    apply bind_Some in Hv. destruct Hv as (? & sa & Hsec & Hv).
    assert (has_linkage GV L (isConstant gv0) sa
            /\ trees sa = trees s /\ flag_odr sa = flag_odr s) as (HLa & Eta & Eoa).
    { clear Hv H. destruct (DECL_SECTION_NAME d').
      - split; [eapply has_linkage_update; [apply with_section_keeps | exact Hsec | exact HL4]|].
        apply update_global_inv in Hsec. destruct Hsec as (? & _ & ->). auto.
      - minv. auto. }
    apply bind_Some in Hv. destruct Hv as (? & sb & Hal & Hv).
    assert (has_linkage GV L (isConstant gv0) sb
            /\ trees sb = trees s /\ flag_odr sb = flag_odr s) as (HLb & Etb & Eob).
    { clear Hv H.
      apply when_Some in Hal. destruct Hal as [[_ Ha] | [_ [= _ <-]]]; [|auto].
      minv.
      match goal with
      | Hw : when _ _ _ = Some _ |- _ =>
          apply when_Some in Hw; destruct Hw as [[_ Hu] | [_ [= _ <-]]]; [|auto]
      end.
      split; [eapply has_linkage_update; [apply with_alignment_keeps | exact Hu | exact HLa]|].
      apply update_global_inv in Hu. destruct Hu as (? & _ & ->). auto. }
    apply bind_Some in Hv. destruct Hv as (? & sc & Hused & Hv).
    assert (has_linkage GV L (isConstant gv0) sc
            /\ trees sc = trees s /\ flag_odr sc = flag_odr s) as (HLc & Etc & Eoc).
    { apply when_Some in Hused. destruct Hused as [[_ Hu] | [_ [= _ <-]]]; [|auto].
      unfold modify in Hu. injection Hu as _ <-.
      split; [eapply has_linkage_same_module; [reflexivity | exact HLb] | auto]. }
    clear H.
    destruct (DECL_ATTRIBUTES d').
    - minv. auto.
    - split; [eapply has_linkage_AddAnnotateAttrsToGlobal; eauto|].
      clear Hal Hused Hsec.
      unfold AddAnnotateAttrsToGlobal in Hv.
      destruct (negb (has_attribute _ _)); [minv; auto|].
      minv.
      repeat match goal with
             | Hb : CreateBitCastM _ _ _ = Some _ |- _ =>
                 apply CreateBitCastM_state in Hb; subst
             end.
      match goal with
      | Hm : ConvertMetadataStringToGV _ _ = Some _ |- _ =>
          unfold ConvertMetadataStringToGV in Hm; minv;
          destruct (StringCSTCache _ !! _); minv
      end; auto.
      repeat match goal with
             | Hn : new_global _ _ = Some _ |- _ =>
                 apply new_global_inv in Hn; destruct Hn as (_ & _ & ->)
             | Hu : update_global _ _ _ = Some _ |- _ =>
                 apply update_global_inv in Hu; destruct Hu as (? & _ & ->)
             end.
      auto. }
  clear Hvar HL4 Et4 Eo4.
  minv.
  unfold mark_written in H. minv.
  match goal with
  | Ht : trees ?sx !! decl = Some ?dx |- _ =>
      rewrite Et5, Hd in Ht; injection Ht as <-
  end.
  minv. cbn. rewrite Et5. split; [reflexivity|]. split; [exact Eo5|].
  eapply has_linkage_same_module; [reflexivity | exact HL5].
Qed.

Lemma emit_global_Linkage_table d odr constant current :
  constant_Linkage constant (emit_global_Linkage d odr current)
  = linkage_table (TREE_PUBLIC d) (DECL_WEAK d) (DECL_ONE_ONLY d)
      (DECL_COMMON d && no_initial d) (DECL_COMDAT d) odr constant current.
Proof.
  unfold constant_Linkage, emit_global_Linkage, linkage_table,
    getWeakLinkage, getLinkOnceLinkage.
  rewrite andb_false_r.
  destruct (TREE_PUBLIC d), (DECL_WEAK d), (DECL_ONE_ONLY d),
    (DECL_COMMON d && no_initial d), (DECL_COMDAT d), odr, constant;
    cbn; try reflexivity; destruct current; reflexivity.
Qed.

(** A run of emit_global that emits ends with the post-processing of some
    global and some initializer. *)
Lemma emit_global_ends_with_finish fuel decl s s' d :
  trees s !! decl = Some d ->
  emit_global_skips d = false ->
  emit_global fuel decl s = Some (tt, s') ->
  exists GV Init s1, emit_global_finish decl GV Init s1 = Some (tt, s').
Proof.
  intros Hd Hskip H. destruct fuel as [|fuel]; [discriminate|].
  cbn [emit_global] in H. unfold emit_global_with in H.
  apply bind_Some in H. destruct H as (d0 & s0 & Hd0 & H).
  apply decl_of_Some in Hd0. destruct Hd0 as (d1 & Hd1 & E). injection E as -> ->.
  rewrite Hd in Hd1. injection Hd1 as <-.
  unfold emit_global_skips in Hskip. apply orb_false_iff in Hskip.
  destruct Hskip as [E1 E2]. rewrite E1, E2 in H.
  do 8 (apply bind_Some in H; destruct H as (? & ? & _ & H)).
  eauto.
Qed.

(** ** What the operations leave alone *)

Section Keeps.
Context {B : Type} (proj : State -> B).

Lemma keeps_ret {A} (a : A) : keeps proj (ret a).
Proof. intros s r s' [= _ <-]. reflexivity. Qed.
Lemma keeps_abort {A} : keeps proj (@abort A).
Proof. intros s r s' [=]. Qed.
Lemma keeps_get : keeps proj get.
Proof. intros s r s' [= _ <-]. reflexivity. Qed.
Lemma keeps_gets {A} (f : State -> A) : keeps proj (gets f).
Proof. intros s r s' [= _ <-]. reflexivity. Qed.
Lemma keeps_assert b : keeps proj (assert b).
Proof. destruct b; [apply keeps_ret | apply keeps_abort]. Qed.
Lemma keeps_unwrap {A} (o : option A) : keeps proj (unwrap o).
Proof. destruct o; [apply keeps_ret | apply keeps_abort]. Qed.
Lemma keeps_bind {A C} (c : M A) (k : A -> M C) :
  keeps proj c -> (forall a, keeps proj (k a)) -> keeps proj (bind c k).
Proof.
  intros Hc Hk s r s' H. apply bind_Some in H. destruct H as (a & s1 & H1 & H2).
  rewrite (Hk _ _ _ _ H2). eapply Hc; eauto.
Qed.
Lemma keeps_when b (c : M unit) : keeps proj c -> keeps proj (when b c).
Proof. destruct b; [auto | intros; apply keeps_ret]. Qed.
Lemma keeps_modify f : (forall s, proj (f s) = proj s) -> keeps proj (modify f).
Proof. intros Hf s r s' [= _ <-]. apply Hf. Qed.
Lemma keeps_decl_of t : keeps proj (decl_of t).
Proof. intros s r s' H. apply decl_of_Some in H. destruct H as (? & _ & [= _ <-]). reflexivity. Qed.
Lemma keeps_global_of g : keeps proj (global_of g).
Proof. intros s r s' H. apply global_of_Some in H. destruct H as (? & _ & [= _ <-]). reflexivity. Qed.
Lemma keeps_new_global v :
  (forall f s, proj (upd_TheModule f s) = proj s) -> keeps proj (new_global v).
Proof. intros Hf s r s' [= _ <-]. apply Hf. Qed.
Lemma keeps_for_each {A} (f : A -> M unit) l :
  (forall a, keeps proj (f a)) -> keeps proj (for_each f l).
Proof.
  intros Hf. induction l as [|a l IH]; cbn; [apply keeps_ret|].
  apply keeps_bind; auto.
Qed.
End Keeps.

Create HintDb mops.
#[export] Hint Unfold update_global removeFromParent delete_global eraseFromParent
  takeName replaceAllUsesWith changeLLVMConstant llvm_replace_cached
  llvm_set_cached llvm_get_cached handleVisibility check_external_weak
  replace_forward_declaration make_decl_llvm_function make_decl_llvm_variable
  CreateBitCastM getTypeM error sorry warning set_decl_llvm get_decl_llvm
  SET_DECL_LLVM cast_GlobalValue cast_GlobalVariable cast_Function
  register_ctor_dtor mark_written ConvertMetadataStringToGV
  AddAnnotateAttrsToGlobal ValidateRegisterVariable retype_global : mops.

Ltac keeps_step :=
  lazymatch goal with
  | |- keeps _ (bind _ _) => apply keeps_bind; [|intros ?]
  | |- keeps _ (ret _) => apply keeps_ret
  | |- keeps _ abort => apply keeps_abort
  | |- keeps _ get => apply keeps_get
  | |- keeps _ (gets _) => apply keeps_gets
  | |- keeps _ (assert _) => apply keeps_assert
  | |- keeps _ (unwrap _) => apply keeps_unwrap
  | |- keeps _ (when _ _) => apply keeps_when
  | |- keeps _ (modify _) => apply keeps_modify; intros ?; reflexivity
  | |- keeps _ (decl_of _) => apply keeps_decl_of
  | |- keeps _ (global_of _) => apply keeps_global_of
  | |- keeps _ (new_global _) => apply keeps_new_global; intros ? ?; reflexivity
  | |- keeps _ (if ?b then _ else _) => destruct b
  | |- keeps _ (match ?x with _ => _ end) => destruct x
  | |- keeps _ _ => progress autounfold with mops
  end.
Ltac solve_keeps := repeat keeps_step.

Lemma make_decl_llvm_variable_keeps_trees decl d Name :
  keeps trees (make_decl_llvm_variable decl d Name).
Proof. solve_keeps. Qed.
Lemma make_decl_llvm_function_keeps_trees decl d Name :
  keeps trees (make_decl_llvm_function decl d Name).
Proof. solve_keeps. Qed.

(** Taking apart one step of a run. *)
Tactic Notation "mbind" hyp(H) "as" simple_intropattern(a) ident(s) ident(Hc) :=
  apply bind_Some in H; destruct H as (a & s & Hc & H).

Ltac mleaf H :=
  first
    [ apply assert_Some in H; let E := fresh in destruct H as [? E]; minj E
    | apply unwrap_Some in H; let E := fresh in destruct H as (? & ? & E); minj E
    | apply decl_of_Some in H; let E := fresh in destruct H as (? & ? & E); minj E
    | apply global_of_Some in H; let E := fresh in destruct H as (? & ? & E); minj E
    | unfold ret in H; minj H
    | unfold get in H; minj H
    | unfold gets in H; minj H
    | unfold modify in H; minj H ].

(** The declaration after the bookkeeping of make_decl_llvm: as it was, or
    with DECL_COMMON cleared. *)
Lemma make_decl_llvm_prepare_trees decl d Name s r s' :
  trees s !! decl = Some d ->
  make_decl_llvm_prepare decl d Name s = Some (r, s') ->
  exists d', trees s' !! decl = Some d'
             /\ (d' = d \/ d' = set_DECL_COMMON false d).
Proof.
  intros Hd H. unfold make_decl_llvm_prepare in H.
  mbind H as u2 s2 H2.
  assert (exists d2, trees s2 !! decl = Some d2
                     /\ (d2 = d \/ d2 = set_DECL_COMMON false d)) as (d2 & Hd2 & Hor).
  { clear H. apply when_Some in H2. destruct H2 as [[_ H2] | [_ [= _ <-]]].
    - mleaf H2. cbn. rewrite lookup_insert_eq. eauto.
    - eauto. }
  clear H2.
  mbind H as d2' s2' Hd2'.
  apply decl_of_Some in Hd2'. destruct Hd2' as (d2'' & Hd2'' & E). injection E as -> ->.
  rewrite Hd2 in Hd2''. injection Hd2'' as <-.
  apply when_Some in H. destruct H as [[_ H] | [_ [= _ <-]]].
  - mleaf H. cbn. rewrite lookup_insert_eq. eexists. split; [reflexivity|].
    right. destruct Hor as [-> | ->]; reflexivity.
  - eauto.
Qed.

Lemma make_decl_llvm_trees decl s V s' d :
  trees s !! decl = Some d ->
  make_decl_llvm decl s = Some (V, s') ->
  exists d', trees s' !! decl = Some d'
             /\ (d' = d \/ d' = set_DECL_COMMON false d).
Proof.
  intros Hd H. unfold make_decl_llvm in H.
  mbind H as V0 s0 Hget.
  apply get_decl_llvm_inv in Hget. destruct Hget as (-> & _).
  destruct V0 as [v|]; [mleaf H; eauto|].
  mbind H as d0 s0 Hd0.
  apply decl_of_Some in Hd0. destruct Hd0 as (d1 & Hd1 & E). injection E as -> ->.
  rewrite Hd in Hd1. injection Hd1 as <-.
  mbind H as cfg sa Hc. unfold gets in Hc. injection Hc as <- <-.
  mbind H as u sb Ha. apply assert_Some in Ha. destruct Ha as [_ E]. injection E as -> ->.
  mbind H as sx sc Hg. unfold get in Hg. injection Hg as <- <-.
  destruct (seen_error _); [mleaf H; eauto|].
  destruct (_ && DECL_REGISTER d).
  - assert (trees s' = trees s) as ->; [|eauto].
    revert H. generalize s, V, s'.
    match goal with
    | |- forall s r s', ?c s = Some (r, s') -> _ => change (keeps trees c)
    end.
    solve_keeps.
  - mbind H as u1 s1 Hp.
    destruct (make_decl_llvm_prepare_trees _ _ _ _ _ _ Hd Hp) as (d1 & Hd1 & Hor).
    assert (trees s' = trees s1) as ->; [|eauto].
    revert H. generalize s1, V, s'.
    match goal with
    | |- forall s r s', ?c s = Some (r, s') -> _ => change (keeps trees c)
    end.
    solve_keeps.
Qed.

(** ** The self-reference guard *)

Lemma same_frontend_refl s : same_frontend s s.
Proof. repeat split. Qed.

Lemma same_frontend_trans s1 s2 s3 :
  same_frontend s1 s2 -> same_frontend s2 s3 -> same_frontend s1 s3.
Proof.
  unfold same_frontend. intros (?&?&?&?&?&?&?&?) (?&?&?&?&?&?&?&?).
  repeat split; congruence.
Qed.

Lemma update_global_holds g f (Q Q' : GlobalValue -> Prop) s :
  (forall v, Q v -> Q' (f v)) ->
  holds_at g Q s ->
  exists s', update_global g f s = Some (tt, s')
             /\ holds_at g Q' s' /\ same_frontend s s'.
Proof.
  intros Hf (v & Hv & HQ). eexists. split; [apply update_global_eq; exact Hv|].
  split; [|repeat split].
  exists (f v). cbn. rewrite lookup_insert_eq. auto.
Qed.

Lemma when_update_global_holds b g f (Q : GlobalValue -> Prop) s :
  (forall v, Q v -> Q (f v)) ->
  holds_at g Q s ->
  exists s', when b (update_global g f) s = Some (tt, s')
             /\ holds_at g Q s' /\ same_frontend s s'.
Proof.
  intros Hf HQ. destruct b; cbn.
  - apply (update_global_holds g f Q Q); assumption.
  - exists s. repeat split. exact HQ.
Qed.

Lemma handleVisibility_holds d g (Q : GlobalValue -> Prop) s :
  (forall x v, Q v -> Q (with_visibility x v)) ->
  holds_at g Q s ->
  exists s', handleVisibility d g s = Some (tt, s')
             /\ holds_at g Q s' /\ same_frontend s s'.
Proof.
  intros Hf HQ. unfold handleVisibility.
  destruct (_ && _); [destruct (DECL_VISIBILITY d)|];
    try (apply (update_global_holds g _ Q Q); [apply Hf | exact HQ]);
    exists s; repeat split; exact HQ.
Qed.

Lemma variable_with_setInitializer ty i i' v :
  variable_with ty i v -> variable_with ty i' (setInitializer i' v).
Proof.
  unfold variable_with, isGlobalVariable, getInitializer, setInitializer.
  intros (H1 & H2 & H3). destruct (gv_payload v) eqn:E; try discriminate. cbn. auto.
Qed.
Lemma variable_with_setThreadLocal ty i t v :
  variable_with ty i v -> variable_with ty i (setThreadLocal t v).
Proof.
  unfold variable_with, isGlobalVariable, getInitializer, setThreadLocal.
  intros (H1 & H2 & H3). destruct (gv_payload v) eqn:E; try discriminate. cbn in *. auto.
Qed.
Lemma variable_with_with_linkage ty i x v :
  variable_with ty i v -> variable_with ty i (with_linkage x v).
Proof. unfold variable_with. auto. Qed.
Lemma variable_with_with_visibility ty i x v :
  variable_with ty i v -> variable_with ty i (with_visibility x v).
Proof. unfold variable_with. auto. Qed.
Lemma variable_with_with_section ty i x v :
  variable_with ty i v -> variable_with ty i (with_section x v).
Proof. unfold variable_with. auto. Qed.
Lemma variable_with_with_alignment ty i x v :
  variable_with ty i v -> variable_with ty i (with_alignment x v).
Proof. unfold variable_with. auto. Qed.

(** Stepping a run forward: the next operation succeeds with a state that
    satisfies the invariant. *)
Tactic Notation "mforward" constr(E) "as" ident(s') ident(Hinv) ident(Hfr) :=
  let Hrun := fresh "Hrun" in
  destruct E as (s' & Hrun & Hinv & Hfr);
  rewrite (bind_eq _ _ _ _ _ Hrun); clear Hrun.

(** The post-processing runs to its end on a global variable whose size
    agrees with the declaration, and leaves [Init] as the initializer. *)
Lemma emit_global_finish_runs decl GV Init s d elt i0 :
  trees s !! decl = Some d ->
  holds_at GV (variable_with (PointerTy elt) i0) s ->
  has_attribute "annotate" (DECL_ATTRIBUTES d) = false ->
  (forall v, gv_type v = PointerTy elt ->
             SizeOfGlobalMatchesDecl (TheTarget s) v d = Some true) ->
  exists s', emit_global_finish decl GV Init s = Some (tt, s')
             /\ holds_at GV (variable_with (PointerTy elt) (Some Init)) s'
             /\ llvm_cache s' = llvm_cache s
             /\ trees s' = <[decl := set_TREE_ASM_WRITTEN true d]> (trees s)
             /\ errorcount s' = errorcount s /\ sorrycount s' = sorrycount s.
Proof.
  intros Hd H0 Hann Hsize. unfold emit_global_finish.
  rewrite (bind_eq _ _ _ d s) by (apply decl_of_Some; eauto).
  set (Q := variable_with (PointerTy elt) (Some Init)).
  mforward (update_global_holds GV (setInitializer (Some Init)) _ Q s
              (fun v => variable_with_setInitializer _ _ _ v) H0) as s1 H1 F1.
  mforward (when_update_global_holds
              (bool_decide (TREE_CODE d = VAR_DECL) && DECL_THREAD_LOCAL_P d)
              GV (setThreadLocal true) Q s1
              (fun v => variable_with_setThreadLocal _ _ _ v) H1) as s2 H2 F2.
  destruct H2 as (gv & Hgv & HQ).
  rewrite (bind_eq _ _ _ gv s2) by (apply global_of_Some; eauto).
  cbn [gets bind].
  assert (holds_at GV Q s2) as H2 by (exists gv; auto).
  mforward (update_global_holds GV
              (with_linkage (constant_Linkage (isConstant gv)
                 (emit_global_Linkage d (flag_odr s2) (gv_linkage gv)))) Q Q s2
              (fun v => variable_with_with_linkage _ _ _ v) H2) as s3 H3 F3.
  mforward (handleVisibility_holds d GV Q s3
              (fun x v => variable_with_with_visibility _ _ x v) H3) as s4 H4 F4.
  assert (exists s8, when (bool_decide (TREE_CODE d = VAR_DECL))
    (do _ <- match DECL_SECTION_NAME d with
             | Some sec => update_global GV (with_section sec)
             | None => ret tt
             end;
     do _ <- when (negb (DECL_ALIGN d =? 0))
               (do tm <- gets TheTarget;
                do gv <- global_of GV;
                do elt <- unwrap (getElementType (gv_type gv));
                let TargetAlign := getABITypeAlignment tm elt in
                when (DECL_USER_ALIGN d || (8 * TargetAlign <? DECL_ALIGN d))
                  (update_global GV (with_alignment (DECL_ALIGN d / 8))));
     do _ <- when (DECL_PRESERVE_P d)
               (if false
                then modify (upd_AttributeCompilerUsedGlobals (SetVector_insert (GlobalRef GV)))
                else modify (upd_AttributeUsedGlobals (SetVector_insert (GlobalRef GV))));
     match DECL_ATTRIBUTES d with
     | [] => ret tt
     | _ :: _ => AddAnnotateAttrsToGlobal GV d
     end) s4 = Some (tt, s8) /\ holds_at GV Q s8 /\ same_frontend s4 s8) as E.
  { destruct (bool_decide (TREE_CODE d = VAR_DECL)); cbn [when];
      [|exists s4; repeat split; exact H4].
    assert (exists sa, match DECL_SECTION_NAME d with
                       | Some sec => update_global GV (with_section sec)
                       | None => ret tt
                       end s4 = Some (tt, sa)
                       /\ holds_at GV Q sa /\ same_frontend s4 sa) as Ea.
    { destruct (DECL_SECTION_NAME d).
      - apply (update_global_holds GV _ Q Q);
          [intros v; apply variable_with_with_section | exact H4].
      - exists s4. repeat split. exact H4. }
    mforward Ea as s5 H5 F5.
    assert (exists sb, when (negb (DECL_ALIGN d =? 0))
               (do tm <- gets TheTarget;
                do gv <- global_of GV;
                do elt <- unwrap (getElementType (gv_type gv));
                let TargetAlign := getABITypeAlignment tm elt in
                when (DECL_USER_ALIGN d || (8 * TargetAlign <? DECL_ALIGN d))
                  (update_global GV (with_alignment (DECL_ALIGN d / 8)))) s5
               = Some (tt, sb) /\ holds_at GV Q sb /\ same_frontend s5 sb) as Eb.
    { destruct (negb _); cbn [when]; [|exists s5; repeat split; exact H5].
      cbn [gets bind]. destruct H5 as (gva & Hgva & HQa).
      rewrite (bind_eq _ _ _ gva s5) by (apply global_of_Some; eauto).
      destruct HQa as (Ha1 & Ha2 & Ha3). rewrite Ha2. cbn [getElementType unwrap ret bind].
      apply when_update_global_holds;
        [intros v; apply variable_with_with_alignment |].
      exists gva. repeat split; assumption. }
    mforward Eb as s6 H6 F6.
    assert (exists sc, when (DECL_PRESERVE_P d)
               (if false
                then modify (upd_AttributeCompilerUsedGlobals (SetVector_insert (GlobalRef GV)))
                else modify (upd_AttributeUsedGlobals (SetVector_insert (GlobalRef GV)))) s6
               = Some (tt, sc) /\ holds_at GV Q sc /\ same_frontend s6 sc) as Ec.
    { destruct (DECL_PRESERVE_P d); cbn [when].
      - eexists. split; [reflexivity|]. split; [exact H6 | repeat split].
      - exists s6. repeat split. exact H6. }
    mforward Ec as s7 H7 F7.
    assert (match DECL_ATTRIBUTES d with
            | [] => ret tt
            | _ :: _ => AddAnnotateAttrsToGlobal GV d
            end s7 = Some (tt, s7)) as Ed.
    { destruct (DECL_ATTRIBUTES d) eqn:EA; [reflexivity|].
      unfold AddAnnotateAttrsToGlobal. rewrite EA, Hann. reflexivity. }
    exists s7. split; [exact Ed|]. split; [exact H7|].
    eauto using same_frontend_trans. }
  mforward E as s8 H8 F8.
  destruct H8 as (gv8 & Hgv8 & HQ8).
  rewrite (bind_eq _ _ _ gv8 s8) by (apply global_of_Some; eauto).
  cbn [gets bind].
  assert (same_frontend s s8) as F08 by eauto 10 using same_frontend_trans.
  destruct F08 as (Et & Ec & ETM & _ & _ & _ & Ee & Es).
  rewrite ETM, Hsize by apply HQ8. cbn [unwrap assert bind ret].
  unfold mark_written.
  rewrite (bind_eq _ _ _ d s8) by (apply decl_of_Some; rewrite Et; eauto).
  eexists. split; [reflexivity|]. cbn.
  split; [exists gv8; auto|]. rewrite Et. auto.
Qed.

Lemma PointerTy_neq t : PointerTy t <> t.
Proof. induction t; try discriminate. intros [= H]. auto. Qed.

Lemma make_decl_llvm_has_rtl decl s V s' d :
  trees s !! decl = Some d ->
  make_decl_llvm decl s = Some (V, s') ->
  HAS_RTL_P (TREE_CODE d) = true.
Proof.
  intros Hd H. unfold make_decl_llvm in H. mbind H as V0 s0 Hget.
  apply get_decl_llvm_inv in Hget. destruct Hget as (_ & _ & d' & Hd' & Hr).
  congruence.
Qed.

Lemma make_decl_llvm_cached decl s d v :
  trees s !! decl = Some d -> HAS_RTL_P (TREE_CODE d) = true ->
  cached s decl = ValuePtr v ->
  make_decl_llvm decl s = Some (Some v, s).
Proof.
  intros Hd Hr Hc. unfold make_decl_llvm.
  erewrite (bind_eq _ _ _ (Some v)); [reflexivity|].
  eapply get_decl_llvm_eq; eauto.
Qed.

Lemma cast_GlobalValue_eq g v s :
  TheModule s !! g = Some v -> cast_GlobalValue (Some (GlobalRef g)) s = Some (g, s).
Proof. intros H. unfold cast_GlobalValue, bind, global_of, ret. now rewrite H. Qed.

Lemma cast_GlobalVariable_eq g v s :
  TheModule s !! g = Some v -> isGlobalVariable v = true ->
  cast_GlobalVariable (Some (GlobalRef g)) s = Some (g, s).
Proof.
  intros H Hv. unfold cast_GlobalVariable.
  rewrite (bind_eq _ _ _ _ _ (cast_GlobalValue_eq _ _ _ H)).
  rewrite (bind_eq _ _ _ v s) by (apply global_of_Some; eauto).
  rewrite Hv. reflexivity.
Qed.

Lemma cast_Function_eq g v s :
  TheModule s !! g = Some v -> isFunction v = true ->
  cast_Function (Some (GlobalRef g)) s = Some (g, s).
Proof.
  intros H Hv. unfold cast_Function.
  rewrite (bind_eq _ _ _ _ _ (cast_GlobalValue_eq _ _ _ H)).
  rewrite (bind_eq _ _ _ v s) by (apply global_of_Some; eauto).
  rewrite Hv. reflexivity.
Qed.

(** The guard: once the global of a declaration has an initializer,
    make_definition_llvm returns it without emitting anything, whatever
    [emit_global] would do. *)
Lemma make_definition_llvm_defined (eg : tree -> M unit) decl s d GV gv :
  trees s !! decl = Some d ->
  HAS_RTL_P (TREE_CODE d) = true ->
  (TREE_STATIC d = true \/ DECL_EXTERNAL d = true) ->
  cached s decl = ValuePtr (GlobalRef GV) ->
  TheModule s !! GV = Some gv ->
  isDeclaration gv = false ->
  make_definition_llvm_with eg decl s = Some (Some (GlobalRef GV), s).
Proof.
  intros Hd Hr Hst Hc Hgv Hdef. unfold make_definition_llvm_with, DECL_LLVM.
  rewrite (bind_eq _ _ _ d s) by (apply decl_of_Some; eauto).
  pose proof (make_decl_llvm_cached _ _ _ _ Hd Hr Hc) as Hm.
  destruct (_ && _); [exact Hm|].
  destruct (DECL_EXTERNAL d) eqn:Ee; [exact Hm|].
  destruct Hst as [Hst | Hst]; [|discriminate]. rewrite Hst. cbn [negb].
  rewrite (bind_eq _ _ _ _ _ Hm).
  rewrite (bind_eq _ _ _ _ _ (cast_GlobalValue_eq _ _ _ Hgv)).
  rewrite (bind_eq _ _ _ gv s) by (apply global_of_Some; eauto).
  rewrite Hdef. reflexivity.
Qed.

Lemma make_decl_llvm_result_cached decl s v s' :
  make_decl_llvm decl s = Some (Some v, s') -> cached s' decl = ValuePtr v.
Proof.
  intros H.
  destruct (make_decl_llvm_cases _ _ _ _ H)
    as [(v' & [= <-] & -> & Hc) | [(E & _) | [(E & _)
       | (g & s2 & d1 & [= ->] & _ & _ & -> & _)]]]; try discriminate.
  - exact Hc.
  - apply cached_set.
Qed.

Lemma CreateBitCast_global m g v ty :
  m !! g = Some v -> gv_type v <> ty ->
  CreateBitCast m (GlobalRef g) ty = Some (BitCastExpr (GlobalRef g) ty).
Proof.
  intros Hg Hne. unfold CreateBitCast. cbn. rewrite Hg. cbn.
  destruct (decide (gv_type v = ty)); [contradiction | reflexivity].
Qed.

(** X25.  For a global variable whose initial value is its own address
    and converts to the type the global has, emit_global returns after one
    round, whatever the fuel: the undefined placeholder installed before the
    conversion makes make_definition_llvm hand back the global without
    emitting it again.  The finished global has the cast of its own address
    as initializer, which is neither the null value nor the undefined
    placeholder. *)
Theorem self_reference_terminates (s : State) (decl : tree) (d : tree_decl)
    (ty : gcc_type) (GV : sym) (s1 : State) (elt : LType) (i0 : option Constant) :
  trees s !! decl = Some d ->
  emit_global_skips d = false ->
  DECL_INITIAL d = Some (ADDR_EXPR ty true decl) ->
  (TREE_STATIC d = true \/ DECL_EXTERNAL d = true) ->
  has_attribute "annotate" (DECL_ATTRIBUTES d) = false ->
  make_decl_llvm decl s = Some (Some (GlobalRef GV), s1) ->
  holds_at GV (variable_with (PointerTy elt) i0) s1 ->
  ConvertType (TheTypeConverter s1) ty = elt ->
  (forall v, gv_type v = PointerTy elt ->
             SizeOfGlobalMatchesDecl (TheTarget s1) v d = Some true) ->
  exists s',
    (forall fuel, emit_global (S fuel) decl s = Some (tt, s'))
    /\ cached s' decl = ValuePtr (GlobalRef GV)
    /\ holds_at GV
         (variable_with (PointerTy elt) (Some (BitCastExpr (GlobalRef GV) elt))) s'
    /\ BitCastExpr (GlobalRef GV) elt <> NullValue elt
    /\ BitCastExpr (GlobalRef GV) elt <> UndefValue elt.
Proof.
  intros Hd Hskip Hinit Hst Hann Hmat HGV Hty Hsize.
  destruct (make_decl_llvm_trees _ _ _ _ _ Hd Hmat) as (d1 & Hd1 & Hor).
  pose proof (make_decl_llvm_has_rtl _ _ _ _ _ Hd Hmat) as Hrtl.
  pose proof (make_decl_llvm_result_cached _ _ _ _ Hmat) as Hcached.
  (* what the declaration looks like after materialisation *)
  assert (DECL_INITIAL d1 = Some (ADDR_EXPR ty true decl)
          /\ TREE_CODE d1 = TREE_CODE d
          /\ (TREE_STATIC d1 = true \/ DECL_EXTERNAL d1 = true)
          /\ has_attribute "annotate" (DECL_ATTRIBUTES d1) = false
          /\ DECL_SIZE d1 = DECL_SIZE d) as (Hinit1 & Hcode1 & Hst1 & Hann1 & Hsz1).
  { destruct Hor as [-> | ->]; cbn; auto. }
  destruct HGV as (gv1 & Hgv1 & Hvar1 & Hty1 & Hi1).
  set (Init := BitCastExpr (GlobalRef GV) elt).
  set (gv2 := setInitializer (Some (UndefValue elt)) gv1).
  set (s2 := upd_TheModule (insert GV gv2) s1).
  assert (holds_at GV (variable_with (PointerTy elt) (Some (UndefValue elt))) s2) as HGV2.
  { exists gv2. split; [cbn; apply lookup_insert_eq|].
    apply (variable_with_setInitializer _ i0). repeat split; assumption. }
  destruct (emit_global_finish_runs decl GV Init s2 d1 elt _ Hd1 HGV2 Hann1)
    as (s' & Hfin & HGV' & Hc' & _).
  { intros v Hv. unfold SizeOfGlobalMatchesDecl. rewrite Hsz1.
    apply (Hsize v Hv). }
  exists s'. split; [|split; [|split; [|split]]].
  - intros fuel. cbn [emit_global]. unfold emit_global_with.
    rewrite (bind_eq _ _ _ d s) by (apply decl_of_Some; eauto).
    unfold emit_global_skips in Hskip. apply orb_false_iff in Hskip.
    destruct Hskip as [Hs1 Hs2]. rewrite Hs1, Hs2.
    unfold DECL_LLVM at 1. rewrite (bind_eq _ _ _ _ _ Hmat).
    rewrite (bind_eq _ _ _ _ _ (cast_GlobalVariable_eq _ _ _ Hgv1 Hvar1)).
    rewrite (bind_eq _ _ _ d1 s1) by (apply decl_of_Some; eauto).
    rewrite Hinit1.
    assert ((do _ <- assert (TREE_CONSTANT (ADDR_EXPR ty true decl)
                             || is_STRING_CST (ADDR_EXPR ty true decl));
             do gv <- global_of GV;
             do elt0 <- unwrap (getElementType (gv_type gv));
             do _ <- update_global GV (setInitializer (Some (UndefValue elt0)));
             ConvertInitializer (make_definition_llvm_with (emit_global fuel))
               (ADDR_EXPR ty true decl)) s1 = Some (Init, s2)) as Hconv.
    { cbn [TREE_CONSTANT orb assert bind ret].
      rewrite (bind_eq _ _ _ gv1 s1) by (apply global_of_Some; eauto).
      rewrite Hty1. cbn [getElementType unwrap ret bind].
      rewrite (bind_eq _ _ _ _ _ (update_global_eq _ _ _ _ Hgv1)).
      fold gv2. fold s2. unfold ConvertInitializer. cbn [gets bind].
      erewrite (bind_eq _ _ _ (Some (GlobalRef GV)) s2).
      2:{ apply (make_definition_llvm_defined _ decl s2 d1 GV gv2); auto.
          - congruence.
          - cbn. apply lookup_insert_eq.
          - unfold gv2, setInitializer, isDeclaration.
            unfold isGlobalVariable in Hvar1.
            destruct (gv_payload gv1); try discriminate. reflexivity. }
      erewrite (bind_eq _ _ _ GV s2).
      2:{ apply (cast_GlobalValue_eq _ gv2). cbn. apply lookup_insert_eq. }
      unfold CreateBitCastM. cbn [gets bind].
      change (TheTypeConverter s2) with (TheTypeConverter s1). rewrite Hty.
      erewrite (CreateBitCast_global _ GV gv2).
      - reflexivity.
      - cbn. apply lookup_insert_eq.
      - unfold gv2, setInitializer. destruct (gv_payload gv1); cbn;
          rewrite Hty1; apply PointerTy_neq. }
    rewrite (bind_eq _ _ _ _ _ Hconv).
    rewrite (bind_eq _ _ _ gv2 s2)
      by (apply global_of_Some; eexists; split; [apply lookup_insert_eq | reflexivity]).
    assert (gv_type gv2 = PointerTy elt) as Hty2.
    { unfold gv2, setInitializer. destruct (gv_payload gv1); cbn; exact Hty1. }
    rewrite Hty2. cbn [getElementType unwrap ret bind].
    unfold getTypeM. cbn [gets bind Init getType unwrap ret].
    rewrite bool_decide_false by tauto.
    cbn [ret bind]. exact Hfin.
  - unfold cached. rewrite Hc'. exact Hcached.
  - exact HGV'.
  - discriminate.
  - discriminate.
Qed.

Lemma self_reference_terminates_witness :
  exists s',
    (forall fuel, emit_global (S fuel) Unit.G Unit.start = Some (tt, s'))
    /\ cached s' Unit.G = ValuePtr (GlobalRef 1%positive)
    /\ holds_at 1%positive
         (variable_with (PointerTy Int8PtrTy)
            (Some (BitCastExpr (GlobalRef 1%positive) Int8PtrTy))) s'
    /\ BitCastExpr (GlobalRef 1%positive) Int8PtrTy <> NullValue Int8PtrTy
    /\ BitCastExpr (GlobalRef 1%positive) Int8PtrTy <> UndefValue Int8PtrTy.
Proof.
  apply (self_reference_terminates Unit.start Unit.G
           (Unit.declaration VAR_DECL "G" Unit.ptr_type
              (Some (ADDR_EXPR Unit.ptr_type true Unit.G)) true)
           Unit.ptr_type 1%positive
           (after (make_decl_llvm Unit.G) Unit.start) Int8PtrTy None).
  - reflexivity.
  - reflexivity.
  - reflexivity.
  - left. reflexivity.
  - reflexivity.
  - vm_compute. reflexivity.
  - eexists. split; [vm_compute; reflexivity|]. repeat split.
  - reflexivity.
  - intros v Hv. unfold SizeOfGlobalMatchesDecl. rewrite Hv. reflexivity.
Defined.

(** ** A self-reference that is retyped *)


(** ** Replacing a symbol *)

Lemma mentions_getBitCast g m c ty : mentions g (getBitCast m c ty) = mentions g c.
Proof.
  unfold getBitCast, CreateBitCast.
  destruct (getType m c) as [t|]; [|reflexivity].
  destruct (decide (t = ty)); [reflexivity|].
  destruct c; try reflexivity. cbn.
  destruct (getType m c) as [t'|]; [|reflexivity].
  destruct (decide (t' = ty)); reflexivity.
Qed.

Lemma mentions_subst m Old New c :
  mentions Old New = false -> mentions Old (subst_constant m Old New c) = false.
Proof.
  intros HN. induction c; cbn; try reflexivity.
  - case_bool_decide; [assumption|]. cbn. now apply bool_decide_eq_false.
  - destruct (mentions Old c) eqn:E; [|exact E].
    now rewrite mentions_getBitCast.
Qed.

(** What a rebuilt constant expression refers to is what the replacement
    refers to. *)
Lemma mentions_subst_of m Old New c g :
  mentions Old c = true -> mentions g (subst_constant m Old New c) = mentions g New.
Proof.
  induction c; cbn; try discriminate.
  - intros H. now rewrite H.
  - intros H. rewrite H, mentions_getBitCast. auto.
Qed.

Lemma subst_constant_unused m Old New c :
  mentions Old c = false -> subst_constant m Old New c = c.
Proof.
  destruct c; cbn; try reflexivity.
  - intros H. now rewrite H.
  - intros H. now rewrite H.
Qed.

(** The folding looks at the types of the globals the replacement refers
    to, and at nothing else of the module. *)
Lemma getType_ext m m' c :
  (forall g, mentions g c = true -> gv_type <$> m !! g = gv_type <$> m' !! g) ->
  getType m c = getType m' c.
Proof.
  intros H. destruct c; try reflexivity. cbn. apply H. cbn.
  now apply bool_decide_eq_true.
Qed.

Lemma CreateBitCast_ext m m' c ty :
  (forall g, mentions g c = true -> gv_type <$> m !! g = gv_type <$> m' !! g) ->
  CreateBitCast m c ty = CreateBitCast m' c ty.
Proof.
  intros H. unfold CreateBitCast. rewrite (getType_ext m m' c H).
  destruct (getType m' c); [|reflexivity].
  destruct (decide _); [reflexivity|].
  destruct c; try reflexivity.
  rewrite (getType_ext m m' c) by (intros g Hg; apply H; exact Hg). reflexivity.
Qed.

Lemma subst_constant_ext m m' Old New c :
  (forall g, mentions g New = true -> gv_type <$> m !! g = gv_type <$> m' !! g) ->
  subst_constant m Old New c = subst_constant m' Old New c.
Proof.
  intros H. induction c; cbn; try reflexivity.
  destruct (mentions Old c) eqn:E; [|reflexivity].
  rewrite IHc. unfold getBitCast. rewrite (CreateBitCast_ext m m'); [reflexivity|].
  intros g Hg. apply H. now rewrite (mentions_subst_of _ _ _ _ _ E) in Hg.
Qed.

Lemma subst_operand_ext m m' Old New o :
  (forall g, mentions g New = true -> gv_type <$> m !! g = gv_type <$> m' !! g) ->
  subst_operand m Old New o = subst_operand m' Old New o.
Proof. intros H. destruct o; cbn; try reflexivity. f_equal. now apply subst_constant_ext. Qed.

Lemma subst_inst_ext m m' Old New i :
  (forall g, mentions g New = true -> gv_type <$> m !! g = gv_type <$> m' !! g) ->
  subst_inst m Old New i = subst_inst m' Old New i.
Proof.
  intros H. destruct i; cbn; rewrite ?(subst_operand_ext m m') by exact H; try reflexivity.
  f_equal. apply map_ext. intros o. now apply subst_operand_ext.
Qed.

Lemma subst_block_ext m m' Old New b :
  (forall g, mentions g New = true -> gv_type <$> m !! g = gv_type <$> m' !! g) ->
  subst_block m Old New b = subst_block m' Old New b.
Proof.
  intros H. unfold subst_block. f_equal. apply map_ext. intros [r i].
  now rewrite (subst_inst_ext m m').
Qed.

Lemma subst_payload_ext m m' Old New p :
  (forall g, mentions g New = true -> gv_type <$> m !! g = gv_type <$> m' !! g) ->
  subst_payload m Old New p = subst_payload m' Old New p.
Proof.
  intros H. destruct p as [[c|] ? ?| ? ? body | a]; cbn; try reflexivity.
  - now rewrite (subst_constant_ext m m').
  - f_equal. apply map_ext. intros b. now apply subst_block_ext.
  - now rewrite (subst_constant_ext m m').
Qed.

Lemma subst_global_ext m m' Old New v :
  (forall g, mentions g New = true -> gv_type <$> m !! g = gv_type <$> m' !! g) ->
  subst_global m Old New v = subst_global m' Old New v.
Proof. intros H. unfold subst_global. now rewrite (subst_payload_ext m m'). Qed.

Lemma subst_annotation_ext m m' Old New a :
  (forall g, mentions g New = true -> gv_type <$> m !! g = gv_type <$> m' !! g) ->
  subst_annotation m Old New a = subst_annotation m' Old New a.
Proof.
  intros H. unfold subst_annotation. now rewrite !(subst_constant_ext m m') by exact H.
Qed.

Lemma operand_mentions_subst m Old New o :
  mentions Old New = false -> operand_mentions Old (subst_operand m Old New o) = false.
Proof. intros HN. destruct o; cbn; auto using mentions_subst. Qed.

Lemma existsb_map_false {A} (f : A -> bool) (g : A -> A) l :
  (forall x, f (g x) = false) -> existsb f (map g l) = false.
Proof. intros H. induction l; cbn; [reflexivity|]. now rewrite H, IHl. Qed.

Lemma inst_mentions_subst m Old New i :
  mentions Old New = false ->
  existsb (operand_mentions Old) (inst_operands (subst_inst m Old New i)) = false.
Proof.
  intros HN. destruct i; cbn; rewrite ?operand_mentions_subst by assumption;
    try reflexivity.
  apply existsb_map_false. intros x. now apply operand_mentions_subst.
Qed.

Lemma block_mentions_subst m Old New b :
  mentions Old New = false -> block_mentions Old (subst_block m Old New b) = false.
Proof.
  intros HN. unfold block_mentions, subst_block. cbn.
  induction (bb_insts b) as [|[r i] l IH]; cbn; [reflexivity|].
  now rewrite inst_mentions_subst, IH.
Qed.

Lemma payload_mentions_subst m Old New p :
  mentions Old New = false ->
  payload_mentions Old (subst_payload m Old New p) = false.
Proof.
  intros HN. destruct p as [[c|] ? ?| ? ? body | a]; cbn;
    auto using mentions_subst.
  apply existsb_map_false. intros x. now apply block_mentions_subst.
Qed.

Lemma annotation_mentions_subst m Old New a :
  mentions Old New = false ->
  annotation_mentions Old (subst_annotation m Old New a) = false.
Proof.
  intros HN. unfold annotation_mentions, subst_annotation. cbn.
  now rewrite !mentions_subst.
Qed.

(** The state changeLLVMConstant leaves. *)


Lemma changeLLVMConstant_inv Old New s r s' :
  changeLLVMConstant Old New s = Some (r, s') ->
  use_empty Old s = true
  /\ TheModule s' = TheModule s
  /\ AttributeAnnotateGlobals s' = AttributeAnnotateGlobals s
  /\ detached s' = detached s
  /\ trees s' = trees s
  /\ llvm_cache s' = rebind_cache Old New (llvm_cache s)
  /\ StaticCtors s' = rebind_structors Old New (StaticCtors s)
  /\ StaticDtors s' = rebind_structors Old New (StaticDtors s)
  /\ AttributeUsedGlobals s' = rebind_roots Old New (AttributeUsedGlobals s)
  /\ AttributeCompilerUsedGlobals s'
     = rebind_roots Old New (AttributeCompilerUsedGlobals s).
Proof.
  unfold changeLLVMConstant, llvm_replace_cached, rebind_roots. intros H.
  mbind H as s0 sa Hg. mleaf Hg.
  mbind H as u sb Ha. apply assert_Some in Ha. destruct Ha as [Hu E]. minj E.
  split; [exact Hu|].
  mbind H as u1 s1 H1. mbind H as s1' s1'' Hg. mleaf Hg.
  mbind H as u2 s2 H2. mbind H as u3 s3 H3. mbind H as u4 s4 H4.
  mleaf H3. mleaf H4. mleaf H.
  apply when_Some in H1. apply when_Some in H2.
  destruct H1 as [[E1 H1] | [E1 H1]]; [mleaf H1 | minj H1];
    (destruct H2 as [[E2 H2] | [E2 H2]]; [mleaf H2 | minj H2]);
    cbn in *; rewrite ?E1, ?E2; repeat split; reflexivity.
Qed.

Lemma rebind_cache_lookup Old New m t :
  default NullPtr (rebind_cache Old New m !! t)
  = if decide (default NullPtr (m !! t) = ValuePtr (GlobalRef Old))
    then ValuePtr New else default NullPtr (m !! t).
Proof.
  unfold rebind_cache. rewrite lookup_fmap. destruct (m !! t) as [p|]; cbn.
  - reflexivity.
  - destruct (decide _); [discriminate | reflexivity].
Qed.

Lemma rebind_structors_lookup Old New l i p :
  l !! i = Some (GlobalRef Old, p) ->
  rebind_structors Old New l !! i = Some (New, p).
Proof.
  intros H. unfold rebind_structors. rewrite list_lookup_fmap, H. cbn.
  destruct (decide _); [reflexivity | contradiction].
Qed.

Lemma rebind_structors_gone Old New l p :
  New <> GlobalRef Old -> (GlobalRef Old, p) ∉ rebind_structors Old New l.
Proof.
  intros HN Hin. unfold rebind_structors in Hin. apply list_elem_of_fmap in Hin.
  destruct Hin as ([c q] & E & _). cbn in E.
  destruct (decide (c = GlobalRef Old)); injection E as E1 E2; congruence.
Qed.

Lemma rebind_roots_in Old New l :
  GlobalRef Old ∈ l -> New ∈ rebind_roots Old New l.
Proof.
  intros H. unfold rebind_roots, SetVector_count, SetVector_insert.
  rewrite bool_decide_true by assumption.
  case_bool_decide; [assumption|]. apply elem_of_app. right. apply list_elem_of_singleton.
  reflexivity.
Qed.

Lemma rebind_roots_gone Old New l :
  New <> GlobalRef Old -> GlobalRef Old ∉ rebind_roots Old New l.
Proof.
  intros HN. unfold rebind_roots, SetVector_count, SetVector_insert, SetVector_remove.
  case_bool_decide as Hin; [|assumption].
  case_bool_decide as Hnew.
  - intros Hx. apply list_elem_of_filter in Hx. tauto.
  - intros Hx. apply elem_of_app in Hx. destruct Hx as [Hx | Hx].
    + apply list_elem_of_filter in Hx. tauto.
    + apply list_elem_of_singleton in Hx. congruence.
Qed.

Lemma rebound_of_rebind Old New s s' :
  New <> GlobalRef Old ->
  llvm_cache s' = rebind_cache Old New (llvm_cache s) ->
  StaticCtors s' = rebind_structors Old New (StaticCtors s) ->
  StaticDtors s' = rebind_structors Old New (StaticDtors s) ->
  AttributeUsedGlobals s' = rebind_roots Old New (AttributeUsedGlobals s) ->
  AttributeCompilerUsedGlobals s'
  = rebind_roots Old New (AttributeCompilerUsedGlobals s) ->
  rebound Old New s s'.
Proof.
  intros HN Ec E1 E2 E3 E4. unfold rebound, cached.
  rewrite Ec, E1, E2, E3, E4.
  split; [|split; [|split; [|split; [|split; [|split; [|split; [|split; [|split]]]]]]]].
  - intros t Ht. rewrite rebind_cache_lookup, Ht.
    destruct (decide _); [reflexivity | contradiction].
  - intros i p. apply rebind_structors_lookup.
  - intros i p. apply rebind_structors_lookup.
  - apply rebind_roots_in.
  - apply rebind_roots_in.
  - intros t. rewrite rebind_cache_lookup.
    destruct (decide _) as [E|E]; [congruence | exact E].
  - intros p. now apply rebind_structors_gone.
  - intros p. now apply rebind_structors_gone.
  - now apply rebind_roots_gone.
  - now apply rebind_roots_gone.
Qed.

Lemma rebound_set_cache Old New s s1 t :
  New <> GlobalRef Old ->
  rebound Old New s s1 ->
  rebound Old New s (upd_llvm_cache (insert t (ValuePtr New)) s1).
Proof.
  intros HN (H1 & H2 & H3 & H4 & H5 & H6 & H7 & H8 & H9 & H10).
  unfold rebound, cached in *. cbn.
  split; [|split; [|split; [|split; [|split; [|split; [|split; [|split; [|split]]]]]]]];
    try assumption.
  - intros t' Ht'. destruct (decide (t = t')) as [->|Hne].
    + now rewrite lookup_insert_eq.
    + rewrite lookup_insert_ne by assumption. auto.
  - intros t'. destruct (decide (t = t')) as [->|Hne].
    + rewrite lookup_insert_eq. cbn. congruence.
    + rewrite lookup_insert_ne by assumption. auto.
Qed.

Lemma CreateBitCast_global_cases m g ty c :
  CreateBitCast m (GlobalRef g) ty = Some c ->
  exists v, m !! g = Some v
            /\ ((gv_type v = ty /\ c = GlobalRef g)
                \/ (gv_type v <> ty /\ c = BitCastExpr (GlobalRef g) ty)).
Proof.
  unfold CreateBitCast. cbn. destruct (m !! g) as [v|]; [|discriminate]. cbn.
  destruct (decide (gv_type v = ty)); intros [= <-]; eauto.
Qed.

Lemma CreateBitCastM_inv c ty s r s' :
  CreateBitCastM c ty s = Some (r, s') ->
  s' = s /\ CreateBitCast (TheModule s) c ty = Some r.
Proof.
  unfold CreateBitCastM. intros H. mbind H as m s0 Hm. mleaf Hm.
  apply unwrap_Some in H. destruct H as (a & Ha & E). injection E as -> ->. auto.
Qed.

Lemma fresh_live_not_detached s g : g ∈ detached s -> fresh (live s) <> g.
Proof.
  intros Hg E. apply (is_fresh (live s)). rewrite E. unfold live. set_solver.
Qed.


Lemma rebind_cache_unmentioned Old New m t v :
  mentions Old New = false ->
  (forall v0, default NullPtr (m !! t) = ValuePtr v0 -> mentions Old v0 = true ->
              v0 = GlobalRef Old) ->
  default NullPtr (rebind_cache Old New m !! t) = ValuePtr v -> mentions Old v = false.
Proof.
  intros HN Hin. rewrite rebind_cache_lookup.
  destruct (decide _) as [E|E].
  - now intros [= <-].
  - intros Hv. destruct (mentions Old v) eqn:Em; [|reflexivity].
    rewrite (Hin v Hv Em) in Hv. contradiction.
Qed.

Lemma rebind_structors_unmentioned Old New l c p :
  mentions Old New = false ->
  (forall c0 p0, (c0, p0) ∈ l -> mentions Old c0 = true -> c0 = GlobalRef Old) ->
  (c, p) ∈ rebind_structors Old New l -> mentions Old c = false.
Proof.
  intros HN Hin Hc. unfold rebind_structors in Hc. apply list_elem_of_fmap in Hc.
  destruct Hc as ([c0 p0] & E & Hc0). cbn in E.
  destruct (decide (c0 = GlobalRef Old)) as [E0|E0]; injection E as -> ->; [exact HN|].
  destruct (mentions Old c0) eqn:Em; [|reflexivity].
  now specialize (Hin c0 p0 Hc0 Em).
Qed.

Lemma rebind_roots_unmentioned Old New l c :
  mentions Old New = false ->
  (forall c0, c0 ∈ l -> mentions Old c0 = true -> c0 = GlobalRef Old) ->
  c ∈ rebind_roots Old New l -> mentions Old c = false.
Proof.
  intros HN Hin Hc.
  assert (c = New \/ (c ∈ l /\ c <> GlobalRef Old)) as [-> | [Hl Hne]].
  { unfold rebind_roots, SetVector_count, SetVector_insert, SetVector_remove in Hc.
    case_bool_decide as Hold.
    - case_bool_decide as Hnew.
      + apply list_elem_of_filter in Hc. tauto.
      + apply elem_of_app in Hc. destruct Hc as [Hc | Hc].
        * apply list_elem_of_filter in Hc. tauto.
        * apply list_elem_of_singleton in Hc. auto.
    - right. split; [exact Hc|]. congruence. }
  - exact HN.
  - destruct (mentions Old c) eqn:Em; [|reflexivity].
    now specialize (Hin c Hl Em).
Qed.

(** After changeLLVMConstant no collection refers to the old global, if
    none held a constant expression over it. *)
Lemma unreferenced_of_rebind Old New s s' :
  mentions Old New = false ->
  llvm_cache s' = rebind_cache Old New (llvm_cache s) ->
  StaticCtors s' = rebind_structors Old New (StaticCtors s) ->
  StaticDtors s' = rebind_structors Old New (StaticDtors s) ->
  AttributeUsedGlobals s' = rebind_roots Old New (AttributeUsedGlobals s) ->
  AttributeCompilerUsedGlobals s'
  = rebind_roots Old New (AttributeCompilerUsedGlobals s) ->
  held_as_itself Old s -> unreferenced Old s'.
Proof.
  intros HN Ec E1 E2 E3 E4 (H1 & H2 & H3 & H4 & H5). unfold unreferenced, cached.
  rewrite Ec, E1, E2, E3, E4.
  split; [|split; [|split; [|split]]].
  - intros t v. apply rebind_cache_unmentioned; [exact HN|]. apply H1.
  - intros c p. now apply rebind_structors_unmentioned.
  - intros c p. now apply rebind_structors_unmentioned.
  - intros c. now apply rebind_roots_unmentioned.
  - intros c. now apply rebind_roots_unmentioned.
Qed.

Lemma unreferenced_set_cache Old New s t :
  mentions Old New = false ->
  unreferenced Old s -> unreferenced Old (upd_llvm_cache (insert t (ValuePtr New)) s).
Proof.
  intros HN (H1 & H2). split; [|exact H2].
  intros t' v. unfold cached. cbn. destruct (decide (t = t')) as [->|Hne].
  - rewrite lookup_insert_eq. cbn. now intros [= <-].
  - rewrite lookup_insert_ne by assumption. apply H1.
Qed.

Lemma redirected_pointwise Old Cast m s s' :
  mentions Old Cast = false ->
  (forall g, mentions g Cast = true -> gv_type <$> m !! g = gv_type <$> TheModule s' !! g) ->
  TheModule s' !! Old = None ->
  (forall g v', TheModule s' !! g = Some v' ->
                exists v, gv_payload v' = subst_payload m Old Cast (gv_payload v)) ->
  (forall g v, g <> Old -> TheModule s !! g = Some v ->
               exists v', TheModule s' !! g = Some v'
                          /\ gv_payload v' = subst_payload m Old Cast (gv_payload v)) ->
  AttributeAnnotateGlobals s'
  = map (subst_annotation m Old Cast) (AttributeAnnotateGlobals s) ->
  redirected Old Cast s s'.
Proof.
  intros HC Hty Hold Hall Hm Ea. unfold redirected. rewrite Ea.
  split; [exact Hold|]. split; [|split].
  - intros g v' Hg. destruct (Hall g v' Hg) as (v & ->).
    now apply payload_mentions_subst.
  - intros a Ha. apply list_elem_of_fmap in Ha. destruct Ha as (a0 & -> & _).
    now apply annotation_mentions_subst.
  - intros g v Hg Hv. destruct (Hm g v Hg Hv) as (v' & Hv' & E).
    exists v'. split; [exact Hv'|]. rewrite E. now apply subst_payload_ext.
Qed.

Lemma with_name_payload n v : gv_payload (with_name n v) = gv_payload v.
Proof. now destruct v. Qed.

Lemma subst_global_payload m Old New v :
  gv_payload (subst_global m Old New v) = subst_payload m Old New (gv_payload v).
Proof. now destruct v. Qed.

Lemma subst_global_type m Old New v : gv_type (subst_global m Old New v) = gv_type v.
Proof. reflexivity. Qed.

Lemma replaceAllUsesWith_inv Old New s r s' :
  replaceAllUsesWith Old New s = Some (r, s') ->
  s' = upd_AttributeAnnotateGlobals (map (subst_annotation (TheModule s) Old New))
         (upd_TheModule (fmap (subst_global (TheModule s) Old New)) s).
Proof. unfold replaceAllUsesWith, modify. now intros [= _ <-]. Qed.

(** The retyping step of emit_global is a run of the repair protocol: the
    uses of the old global become casts of the new one, and the cache and
    the collections hold the new global itself. *)
Lemma retype_global_repairs decl GV InitTy s NGV s' :
  retype_global decl GV InitTy s = Some (NGV, s') ->
  exists gv Cast,
    TheModule s !! GV = Some gv
    /\ NGV <> GV
    /\ TheModule s !! NGV = None
    /\ (Cast = GlobalRef NGV \/ Cast = BitCastExpr (GlobalRef NGV) (gv_type gv))
    /\ (gv_type gv <> PointerTy InitTy -> Cast = BitCastExpr (GlobalRef NGV) (gv_type gv))
    /\ redirected GV Cast s s'
    /\ rebound GV (GlobalRef NGV) s s'
    /\ (held_as_itself GV s -> unreferenced GV s')
    /\ cached s' decl = ValuePtr (GlobalRef NGV)
    /\ GV ∉ detached s' ∖ detached s.
Proof.
  unfold retype_global. intros H.
  mbind H as gv s0 Hgv. apply global_of_Some in Hgv.
  destruct Hgv as (gv' & Hgv & E). injection E as -> ->.
  mbind H as u1 s1 Hrm. unfold removeFromParent, modify in Hrm.
  injection Hrm as <- <-.
  mbind H as NGV' s2 Hnew. apply new_global_inv in Hnew.
  destruct Hnew as (EN & Hfresh & Es2).
  assert (NGV' <> GV) as Hne.
  { rewrite EN. apply fresh_live_not_detached. cbn. set_solver. }
  clear EN.
  mbind H as Cast s3 Hc. apply CreateBitCastM_inv in Hc. destruct Hc as (-> & Hc).
  mbind H as u2 s3 Hr. apply replaceAllUsesWith_inv in Hr.
  set (m := TheModule s2) in Hr.
  assert (m = TheModule s2) as Em2 by reflexivity. clearbody m.
  subst s2. subst s3.
  mbind H as u3 s4 Hch. apply changeLLVMConstant_inv in Hch.
  destruct Hch as (_ & Em & Ea & Ed & Et & Ec & E1 & E2 & E3 & E4).
  mbind H as u4 s5 Hdel. unfold delete_global, modify in Hdel.
  injection Hdel as <- <-.
  mbind H as V s6 Hset. apply SET_DECL_LLVM_inv in Hset.
  destruct Hset as (-> & -> & _). unfold ret in H. injection H as <- <-.
  cbn in Hfresh. rewrite lookup_delete_ne in Hfresh by congruence.
  apply CreateBitCast_global_cases in Hc. destruct Hc as (nv & Hnv & Hcases).
  cbn in Hnv. rewrite lookup_insert_eq in Hnv. injection Hnv as <-.
  assert (mentions GV Cast = false) as HC.
  { destruct Hcases as [[_ ->] | [_ ->]]; cbn; apply bool_decide_eq_false; congruence. }
  exists gv', Cast. split; [exact Hgv|]. split; [exact Hne|]. split; [exact Hfresh|].
  split; [destruct Hcases as [[_ ->] | [_ ->]]; auto|].
  split.
  { intros Hty. destruct Hcases as [[E _] | [_ ->]]; [|reflexivity].
    cbn in E. congruence. }
  split; [|split; [|split; [|split]]].
  - apply (redirected_pointwise _ _ m); [exact HC| | | | |].
    + intros g _. cbn. rewrite Em. cbn. cbn in Em2. rewrite lookup_fmap, <- Em2.
      now destruct (m !! g).
    + cbn. rewrite Em. cbn. rewrite lookup_fmap, lookup_insert_ne, lookup_delete_eq by congruence.
      reflexivity.
    + intros g v'. cbn. rewrite Em. cbn. rewrite lookup_fmap.
      destruct (_ !! g) as [v|]; [|discriminate]. intros [= <-]. eauto.
    + intros g v Hg Hv. cbn. rewrite Em. cbn. rewrite lookup_fmap.
      assert (g <> NGV') by congruence.
      rewrite lookup_insert_ne, lookup_delete_ne, Hv by congruence. cbn. eauto.
    + cbn. rewrite Ea. reflexivity.
  - apply rebound_set_cache; [congruence|].
    apply rebound_of_rebind; cbn; try assumption; congruence.
  - intros Hheld. apply unreferenced_set_cache.
    { cbn. apply bool_decide_eq_false. congruence. }
    assert (mentions GV (GlobalRef NGV') = false) as HN
      by (cbn; apply bool_decide_eq_false; congruence).
    destruct (unreferenced_of_rebind GV (GlobalRef NGV') s s4 HN Ec E1 E2 E3 E4 Hheld)
      as (U1 & U2 & U3 & U4 & U5).
    repeat split; assumption.
  - apply cached_set.
  - cbn. rewrite Ed. cbn. intros Hin.
    apply elem_of_difference in Hin as [Hin _].
    apply elem_of_difference in Hin as [_ Hin].
    apply Hin. now apply elem_of_singleton.
Qed.

(** The collision step of make_decl_llvm is a run of the repair protocol in
    which the cache and the collections receive the cast of the new global,
    the value its users received. *)
Lemma replace_forward_declaration_repairs New Old s s' :
  replace_forward_declaration New Old s = Some (tt, s') ->
  New <> Old ->
  exists old Cast,
    TheModule s !! Old = Some old
    /\ (Cast = GlobalRef New \/ Cast = BitCastExpr (GlobalRef New) (gv_type old))
    /\ (forall new, TheModule s !! New = Some new -> gv_type new <> gv_type old ->
                    Cast = BitCastExpr (GlobalRef New) (gv_type old))
    /\ redirected Old Cast s s'
    /\ rebound Old Cast s s'
    /\ (held_as_itself Old s -> unreferenced Old s').
Proof.
  unfold replace_forward_declaration. intros H Hne.
  mbind H as old s0 Hold. apply global_of_Some in Hold.
  destruct Hold as (old' & Hold & E). injection E as -> ->.
  mbind H as u0 s0 Hdecl. apply assert_Some in Hdecl.
  destruct Hdecl as [_ E]. minj E.
  mbind H as Cast s1 Hc. apply CreateBitCastM_inv in Hc. destruct Hc as (-> & Hc).
  mbind H as u1 s1 Hr. apply replaceAllUsesWith_inv in Hr. subst s1.
  mbind H as u2 s2 Hch. apply changeLLVMConstant_inv in Hch.
  destruct Hch as (_ & Em & Ea & Ed & Et & Ec & E1 & E2 & E3 & E4).
  mbind H as u3 s3 Htake. unfold takeName in Htake.
  mbind Htake as o s4 Ho. apply global_of_Some in Ho.
  destruct Ho as (o' & Ho & E). injection E as -> ->.
  mbind Htake as u4 s4 Hu1. apply update_global_inv in Hu1.
  destruct Hu1 as (v1 & Hv1 & ->).
  apply update_global_inv in Htake. destruct Htake as (v2 & Hv2 & ->).
  unfold eraseFromParent, modify in H. injection H as <-.
  apply CreateBitCast_global_cases in Hc. destruct Hc as (nv & Hnv & Hcases).
  assert (mentions Old Cast = false) as HC.
  { destruct Hcases as [[_ ->] | [_ ->]]; cbn; apply bool_decide_eq_false; congruence. }
  cbn in Hv2. rewrite lookup_insert_ne, Em in Hv2 by congruence.
  cbn in Hv2. rewrite lookup_fmap, Hnv in Hv2. cbn in Hv2. injection Hv2 as <-.
  exists old', Cast. split; [exact Hold|].
  split; [destruct Hcases as [[_ ->] | [_ ->]]; auto|].
  split.
  { intros new Hnew Hty. rewrite Hnv in Hnew. injection Hnew as ->.
    destruct Hcases as [[E _] | [_ ->]]; [contradiction | reflexivity]. }
  split; [|split].
  - apply (redirected_pointwise _ _ (TheModule s)); [exact HC| | | | |].
    + intros g Hg. assert (g = New) as ->.
      { destruct Hcases as [[_ ->] | [_ ->]]; cbn in Hg;
          now apply bool_decide_eq_true in Hg. }
      cbn. rewrite lookup_delete_ne, lookup_insert_eq, Hnv by congruence. reflexivity.
    + cbn. now rewrite lookup_delete_eq.
    + intros g v'. cbn. destruct (decide (g = Old)) as [->|Hg].
      { now rewrite lookup_delete_eq. }
      rewrite lookup_delete_ne by congruence.
      destruct (decide (g = New)) as [->|Hg'].
      { rewrite lookup_insert_eq. intros [= <-]. exists nv.
        now rewrite with_name_payload, subst_global_payload. }
      rewrite !lookup_insert_ne, Em by congruence. cbn. rewrite lookup_fmap.
      destruct (_ !! g) as [v|]; [|discriminate]. intros [= <-].
      exists v. apply subst_global_payload.
    + intros g v Hg Hv. cbn. rewrite lookup_delete_ne by congruence.
      destruct (decide (g = New)) as [->|Hg'].
      { rewrite lookup_insert_eq. eexists. split; [reflexivity|].
        rewrite with_name_payload, subst_global_payload. congruence. }
      rewrite !lookup_insert_ne, Em by congruence. cbn. rewrite lookup_fmap, Hv.
      cbn. eexists. split; [reflexivity|]. apply subst_global_payload.
    + cbn. rewrite Ea. reflexivity.
  - apply rebound_of_rebind; cbn; try assumption.
    destruct Hcases as [[_ ->] | [_ ->]]; congruence.
  - intros Hheld.
    destruct (unreferenced_of_rebind Old Cast s s2 HC Ec E1 E2 E3 E4 Hheld)
      as (U1 & U2 & U3 & U4 & U5).
    repeat split; assumption.
Qed.

(** A state whose collections pass this test holds [g] as itself. *)
Lemma held_as_itself_checked g s :
  map_Forall (fun _ p => match p with
                         | ValuePtr v => mentions g v = true -> v = GlobalRef g
                         | _ => True
                         end) (llvm_cache s) ->
  Forall (fun cp => mentions g (fst cp) = true -> fst cp = GlobalRef g) (StaticCtors s) ->
  Forall (fun cp => mentions g (fst cp) = true -> fst cp = GlobalRef g) (StaticDtors s) ->
  Forall (fun c => mentions g c = true -> c = GlobalRef g) (AttributeUsedGlobals s) ->
  Forall (fun c => mentions g c = true -> c = GlobalRef g)
         (AttributeCompilerUsedGlobals s) ->
  held_as_itself g s.
Proof.
  intros Hc H1 H2 H3 H4.
  rewrite Forall_forall in H1. rewrite Forall_forall in H2.
  rewrite Forall_forall in H3. rewrite Forall_forall in H4.
  split; [|split; [|split; [|split]]].
  - intros t v. unfold cached. destruct (llvm_cache s !! t) as [p|] eqn:E; cbn;
      [|discriminate].
    intros ->. exact (Hc t _ E).
  - intros c p Hin. exact (H1 (c, p) Hin).
  - intros c p Hin. exact (H2 (c, p) Hin).
  - exact H3.
  - exact H4.
Qed.

(** C1, as stated, fails on the collision path of make_decl_llvm: [arr] is
    cached as global 2, a function named [arr] is declared and becomes
    global 3, global 2 leaves the module, and the cache of [arr] then holds
    the cast of global 3 to the old type, which is not global 3. *)
Lemma collision_leaves_cast_in_cache :
  cached NameCollision.after_user Unit.arr = ValuePtr (GlobalRef 2%positive)
  /\ make_decl_llvm Unit.arr_function NameCollision.after_user
     = Some (Some (GlobalRef 3%positive), NameCollision.after_collision)
  /\ TheModule NameCollision.after_collision !! 2%positive = None
  /\ cached NameCollision.after_collision Unit.arr
     = ValuePtr (BitCastExpr (GlobalRef 3%positive) (PointerTy (ArrayTy Int32Ty 0)))
  /\ cached NameCollision.after_collision Unit.arr <> ValuePtr (GlobalRef 3%positive).
Proof.
  split; [vm_compute; reflexivity|].
  split; [vm_compute; reflexivity|].
  split; [vm_compute; reflexivity|].
  split; [vm_compute; reflexivity|].
  vm_compute. discriminate.
Qed.

(** C1, as amended.  Both runs of the forward-declaration repair protocol
    take the old symbol out of the module and leave no global value and no
    annotation that mentions it: every global value that used it uses a
    pointer-cast of the new symbol where it used the old one, the cast
    folded into the cast it is an operand of.  The declaration cache, the
    constructor and destructor lists and the two root sets hold the
    replacement wherever they held the old symbol, and no entry that is the
    old symbol: the replacement is the new symbol itself after the retyping
    step of emit_global, and the pointer-cast of the new symbol, the value
    its users received, after the name collision in make_decl_llvm.  If the
    collections held the old symbol only as itself, and not inside a
    pointer-cast such as an earlier collision leaves in the cache, then no
    entry of theirs refers to the old symbol in any form afterwards. *)
Theorem repair_protocol_rebinds :
  (forall decl GV InitTy s NGV s',
      retype_global decl GV InitTy s = Some (NGV, s') ->
      exists gv Cast,
        TheModule s !! GV = Some gv
        /\ NGV <> GV
        /\ (Cast = GlobalRef NGV \/ Cast = BitCastExpr (GlobalRef NGV) (gv_type gv))
        /\ redirected GV Cast s s'
        /\ rebound GV (GlobalRef NGV) s s'
        /\ (held_as_itself GV s -> unreferenced GV s')
        /\ cached s' decl = ValuePtr (GlobalRef NGV))
  /\ (forall New Old s s',
         replace_forward_declaration New Old s = Some (tt, s') ->
         New <> Old ->
         exists old Cast,
           TheModule s !! Old = Some old
           /\ (Cast = GlobalRef New \/ Cast = BitCastExpr (GlobalRef New) (gv_type old))
           /\ (forall new, TheModule s !! New = Some new -> gv_type new <> gv_type old ->
                           Cast = BitCastExpr (GlobalRef New) (gv_type old))
           /\ redirected Old Cast s s'
           /\ rebound Old Cast s s'
           /\ (held_as_itself Old s -> unreferenced Old s')).
Proof.
  split.
  - intros decl GV InitTy s NGV s' H.
    destruct (retype_global_repairs _ _ _ _ _ _ H)
      as (gv & Cast & Hgv & Hne & _ & Hc & _ & Hr & Hb & Hu & Hca & _).
    exists gv, Cast. auto 10.
  - intros New Old s s' H Hne.
    exact (replace_forward_declaration_repairs _ _ _ _ H Hne).
Qed.

Lemma repair_protocol_rebinds_witness :
  (exists s' gv Cast,
      retype_global Unit.arr 2%positive (ArrayTy Int32Ty 100) NameCollision.after_user
      = Some (3%positive, s')
      /\ TheModule NameCollision.after_user !! 2%positive = Some gv
      /\ redirected 2%positive Cast NameCollision.after_user s'
      /\ rebound 2%positive (GlobalRef 3%positive) NameCollision.after_user s'
      /\ unreferenced 2%positive s'
      /\ cached s' Unit.arr = ValuePtr (GlobalRef 3%positive)
      /\ getInitializer <$> TheModule s' !! 1%positive
         = Some (Some (BitCastExpr (GlobalRef 3%positive) Int8PtrTy)))
  /\ (exists s1 s' old Cast,
         new_global (Function_new Unit.method_type ExternalLinkage "arr") NameCollision.after_user
         = Some (3%positive, s1)
         /\ replace_forward_declaration 3%positive 2%positive s1 = Some (tt, s')
         /\ TheModule s1 !! 2%positive = Some old
         /\ Cast = BitCastExpr (GlobalRef 3%positive) (gv_type old)
         /\ redirected 2%positive Cast s1 s'
         /\ rebound 2%positive Cast s1 s'
         /\ unreferenced 2%positive s'
         /\ getInitializer <$> TheModule s' !! 1%positive
            = Some (Some (BitCastExpr (GlobalRef 3%positive) Int8PtrTy))).
Proof.
  assert (held_as_itself 2%positive NameCollision.after_user) as Hheld.
  { apply held_as_itself_checked; try (vm_compute; constructor).
    apply map_Forall_to_list. vm_compute.
    repeat constructor; cbn; intros [=]. }
  split.
  - eexists (after (retype_global Unit.arr 2%positive (ArrayTy Int32Ty 100))
                   NameCollision.after_user).
    destruct (proj1 repair_protocol_rebinds Unit.arr 2%positive (ArrayTy Int32Ty 100)
                NameCollision.after_user 3%positive
                (after (retype_global Unit.arr 2%positive (ArrayTy Int32Ty 100))
                       NameCollision.after_user))
      as (gv & Cast & Hgv & _ & _ & Hr & Hb & Hu & Hc).
    + vm_compute. reflexivity.
    + exists gv, Cast. split; [vm_compute; reflexivity|].
      split; [exact Hgv|]. split; [exact Hr|]. split; [exact Hb|].
      split; [exact (Hu Hheld)|]. split; [exact Hc|]. vm_compute. reflexivity.
  - eexists (after (new_global (Function_new Unit.method_type ExternalLinkage "arr"))
                   NameCollision.after_user).
    eexists (after (replace_forward_declaration 3%positive 2%positive)
                   (after (new_global (Function_new Unit.method_type ExternalLinkage "arr"))
                          NameCollision.after_user)).
    destruct (proj2 repair_protocol_rebinds 3%positive 2%positive
                (after (new_global (Function_new Unit.method_type ExternalLinkage "arr"))
                       NameCollision.after_user)
                (after (replace_forward_declaration 3%positive 2%positive)
                   (after (new_global (Function_new Unit.method_type ExternalLinkage "arr"))
                          NameCollision.after_user)))
      as (old & Cast & Hold & _ & Hc & Hr & Hb & Hu).
    + vm_compute. reflexivity.
    + discriminate.
    + exists old, Cast. split; [vm_compute; reflexivity|].
      split; [vm_compute; reflexivity|]. split; [exact Hold|].
      split.
      { eapply Hc; [vm_compute; reflexivity|].
        vm_compute in Hold. injection Hold as <-. vm_compute. discriminate. }
      split; [exact Hr|]. split; [exact Hb|].
      split; [exact (Hu Hheld)|]. vm_compute. reflexivity.
Defined.

(** The cast that a collision leaves in the cache is a pointer to a constant
    expression, and no user of the symbol it casts: when that symbol is
    replaced in its turn, the entry stays as it is, the cast of a symbol that
    is gone.  Here the cache did not hold the old symbol as itself only. *)
Lemma cast_in_cache_outlives_its_symbol :
  cached NameCollision.before_second_collision Unit.arr
  = ValuePtr (BitCastExpr (GlobalRef 3%positive) (PointerTy (ArrayTy Int32Ty 0)))
  /\ make_decl_llvm NameCollision.arr_again NameCollision.before_second_collision
     = Some (Some (GlobalRef 4%positive), NameCollision.after_second_collision)
  /\ TheModule NameCollision.after_second_collision !! 3%positive = None
  /\ cached NameCollision.after_second_collision Unit.arr
     = ValuePtr (BitCastExpr (GlobalRef 3%positive) (PointerTy (ArrayTy Int32Ty 0)))
  /\ ~ held_as_itself 3%positive NameCollision.before_second_collision.
Proof.
  split; [vm_compute; reflexivity|].
  split; [vm_compute; reflexivity|].
  split; [vm_compute; reflexivity|].
  split; [vm_compute; reflexivity|].
  intros (Hc & _).
  specialize (Hc Unit.arr (BitCastExpr (GlobalRef 3%positive) (PointerTy (ArrayTy Int32Ty 0)))).
  assert (BitCastExpr (GlobalRef 3%positive) (PointerTy (ArrayTy Int32Ty 0))
          = GlobalRef 3%positive) as E.
  { apply Hc; vm_compute; reflexivity. }
  discriminate E.
Qed.

(** ** Runs that complete *)

Lemma runs_bind {A B} (c : M A) (k : A -> M B) s Q :
  runs c s (fun a s1 => runs (k a) s1 Q) -> runs (bind c k) s Q.
Proof.
  intros (a & s1 & Hc & b & s2 & Hk & HQ). exists b, s2.
  split; [|exact HQ]. now rewrite (bind_eq _ _ _ _ _ Hc).
Qed.

Lemma runs_conseq {A} (c : M A) s (P Q : A -> State -> Prop) :
  runs c s P -> (forall a s', P a s' -> Q a s') -> runs c s Q.
Proof. intros (a & s' & Hc & HP) HPQ. exists a, s'. auto. Qed.

Lemma runs_ret {A} (a : A) s (Q : A -> State -> Prop) : Q a s -> runs (ret a) s Q.
Proof. intros HQ. exists a, s. auto. Qed.

Lemma runs_get s (Q : State -> State -> Prop) : Q s s -> runs get s Q.
Proof. intros HQ. exists s, s. auto. Qed.

Lemma runs_gets {A} (f : State -> A) s (Q : A -> State -> Prop) :
  Q (f s) s -> runs (gets f) s Q.
Proof. intros HQ. exists (f s), s. auto. Qed.

Lemma runs_modify f s (Q : unit -> State -> Prop) : Q tt (f s) -> runs (modify f) s Q.
Proof. intros HQ. exists tt, (f s). auto. Qed.

Lemma runs_assert b s (Q : unit -> State -> Prop) :
  b = true -> Q tt s -> runs (assert b) s Q.
Proof. intros -> HQ. exists tt, s. auto. Qed.

Lemma runs_unwrap {A} (o : option A) a s (Q : A -> State -> Prop) :
  o = Some a -> Q a s -> runs (unwrap o) s Q.
Proof. intros -> HQ. exists a, s. auto. Qed.

Lemma runs_when b (c : M unit) s (Q : unit -> State -> Prop) :
  (b = true -> runs c s Q) -> (b = false -> Q tt s) -> runs (when b c) s Q.
Proof. destruct b; cbn; intros H1 H2; [auto | apply runs_ret; auto]. Qed.

Lemma runs_decl_of t d s (Q : tree_decl -> State -> Prop) :
  trees s !! t = Some d -> Q d s -> runs (decl_of t) s Q.
Proof. intros Hd HQ. exists d, s. split; [|exact HQ]. apply decl_of_Some. eauto. Qed.

Lemma runs_global_of g v s (Q : GlobalValue -> State -> Prop) :
  TheModule s !! g = Some v -> Q v s -> runs (global_of g) s Q.
Proof. intros Hv HQ. exists v, s. split; [|exact HQ]. apply global_of_Some. eauto. Qed.

Lemma runs_new_global v s (Q : sym -> State -> Prop) :
  (forall g, TheModule s !! g = None -> g ∉ detached s ->
             Q g (upd_TheModule
                    (insert g (with_name (unique_name (TheModule s) (gv_name v)) v)) s)) ->
  runs (new_global v) s Q.
Proof.
  intros HQ. eexists _, _. split; [reflexivity|]. apply HQ.
  - apply fresh_live_not_in_module.
  - intros Hd. now apply (fresh_live_not_detached s _ Hd).
Qed.

Lemma runs_update_global g f v s (Q : unit -> State -> Prop) :
  TheModule s !! g = Some v ->
  Q tt (upd_TheModule (insert g (f v)) s) -> runs (update_global g f) s Q.
Proof. intros Hv HQ. eexists _, _. split; [apply update_global_eq; exact Hv | exact HQ]. Qed.

Lemma upd_TheModule_insert_id g v s :
  TheModule s !! g = Some v -> upd_TheModule (insert g v) s = s.
Proof.
  intros H. destruct s. unfold upd_TheModule. cbn in *.
  now rewrite (insert_id _ _ _ H).
Qed.

Lemma runs_handleVisibility d g v s (Q : unit -> State -> Prop) :
  TheModule s !! g = Some v ->
  (forall x, Q tt (upd_TheModule (insert g (with_visibility x v)) s)) ->
  runs (handleVisibility d g) s Q.
Proof.
  intros Hv HQ. unfold handleVisibility.
  assert (Q tt s) as HQs.
  { rewrite <- (upd_TheModule_insert_id g v s Hv).
    assert (v = with_visibility (gv_visibility v) v) as E by now destruct v.
    rewrite E at 1. apply HQ. }
  destruct (_ && _); [destruct (DECL_VISIBILITY d)|];
    first [now apply runs_ret | eapply runs_update_global; eauto].
Qed.

Lemma runs_CreateBitCastM g v ty s (Q : Constant -> State -> Prop) :
  TheModule s !! g = Some v ->
  (forall c, c = GlobalRef g \/ c = BitCastExpr (GlobalRef g) ty -> Q c s) ->
  runs (CreateBitCastM (GlobalRef g) ty) s Q.
Proof.
  intros Hv HQ. unfold CreateBitCastM. apply runs_bind, runs_gets.
  unfold CreateBitCast. cbn. rewrite Hv. cbn.
  destruct (decide (gv_type v = ty)); eapply runs_unwrap; eauto.
Qed.

Lemma use_empty_intro g s :
  (forall k v, TheModule s !! k = Some v -> payload_mentions g (gv_payload v) = false) ->
  (forall a, a ∈ AttributeAnnotateGlobals s -> annotation_mentions g a = false) ->
  use_empty g s = true.
Proof.
  intros Hm Ha. unfold use_empty. apply andb_true_intro. split.
  - apply forallb_forall. intros [k v] Hin. apply list_elem_of_In in Hin.
    apply elem_of_map_to_list in Hin. cbn. now rewrite (Hm k v Hin).
  - apply forallb_forall. intros a Hin. apply list_elem_of_In in Hin.
    now rewrite (Ha a Hin).
Qed.

Lemma use_empty_replaced Old c s :
  mentions Old c = false ->
  use_empty Old (upd_AttributeAnnotateGlobals (map (subst_annotation (TheModule s) Old c))
                   (upd_TheModule (fmap (subst_global (TheModule s) Old c)) s)) = true.
Proof.
  intros Hc. apply use_empty_intro; cbn.
  - intros k v. rewrite lookup_fmap. destruct (_ !! k) as [v0|]; [|discriminate].
    intros [= <-]. rewrite subst_global_payload. now apply payload_mentions_subst.
  - intros a Ha. apply list_elem_of_fmap in Ha. destruct Ha as (a0 & -> & _).
    now apply annotation_mentions_subst.
Qed.

Lemma runs_replaceAllUsesWith Old c s (Q : unit -> State -> Prop) :
  Q tt (upd_AttributeAnnotateGlobals (map (subst_annotation (TheModule s) Old c))
          (upd_TheModule (fmap (subst_global (TheModule s) Old c)) s)) ->
  runs (replaceAllUsesWith Old c) s Q.
Proof. apply runs_modify. Qed.

Lemma runs_changeLLVMConstant Old New s (Q : unit -> State -> Prop) :
  use_empty Old s = true ->
  (forall s', TheModule s' = TheModule s -> trees s' = trees s -> Q tt s') ->
  runs (changeLLVMConstant Old New) s Q.
Proof.
  intros Hu HQ. unfold changeLLVMConstant, llvm_replace_cached.
  apply runs_bind, runs_get. apply runs_bind, runs_assert; [exact Hu|].
  apply runs_bind, runs_when; intros _;
    [apply runs_modify|]; (apply runs_bind, runs_get);
    (apply runs_bind, runs_when; intros _; [apply runs_modify|]);
    do 2 (apply runs_bind, runs_modify); apply runs_modify; apply HQ; reflexivity.
Qed.

Lemma make_decl_llvm_keeps_cgraph_asm decl : keeps cgraph_asm (make_decl_llvm decl).
Proof.
  unfold make_decl_llvm, make_decl_llvm_prepare. solve_keeps.
Qed.
Lemma make_decl_llvm_keeps_varpool_asm decl : keeps varpool_asm (make_decl_llvm decl).
Proof.
  unfold make_decl_llvm, make_decl_llvm_prepare. solve_keeps.
Qed.

(** The second half of emit_alias runs to its end whenever the alias and the
    aliasee are two globals of the module: the global of the alias is
    erased, the aliasee stays, and the declaration is marked as written. *)
Lemma emit_alias_finish_runs decl V Aliasee s d v a :
  trees s !! decl = Some d ->
  TheModule s !! V = Some v ->
  TheModule s !! Aliasee = Some a ->
  Aliasee <> V ->
  runs (emit_alias_finish decl V Aliasee) s (fun _ s' =>
    TheModule s' !! V = None
    /\ trees s' = <[decl := set_TREE_ASM_WRITTEN true d]> (trees s)
    /\ exists m c, TheModule s' !! Aliasee = Some (subst_global m V c a)).
Proof.
  intros Hd Hv Ha Hne. unfold emit_alias_finish.
  apply runs_bind, (runs_decl_of _ d); [exact Hd|].
  apply runs_bind, runs_gets.
  apply runs_bind, (runs_global_of _ v); [exact Hv|].
  apply runs_bind.
  apply (runs_conseq _ _
           (fun _ s1 => trees s1 = trees s
                        /\ exists m c, TheModule s1 !! Aliasee
                                        = Some (subst_global m V c a))).
  - destruct (bool_decide _).
    + apply runs_bind, (runs_global_of _ a); [exact Ha|].
      apply runs_bind, runs_new_global. intros GA HGA _.
      assert (GA <> V) as HGV by congruence.
      assert (GA <> Aliasee) as HGAl by congruence.
      eapply runs_bind, runs_handleVisibility; [cbn; apply lookup_insert_eq|].
      intros x.
      eapply runs_bind, runs_CreateBitCastM; [cbn; apply lookup_insert_eq|].
      intros c Hc.
      apply runs_bind, runs_replaceAllUsesWith.
      apply runs_bind, runs_changeLLVMConstant.
      { apply use_empty_replaced.
        destruct Hc as [-> | ->]; cbn; apply bool_decide_eq_false; congruence. }
      intros s' Em Et. unfold takeName.
      eapply runs_bind, runs_global_of.
      { rewrite Em. cbn. rewrite lookup_fmap, !lookup_insert_ne, Hv by congruence.
        reflexivity. }
      eapply runs_bind, runs_update_global.
      { rewrite Em. cbn. rewrite lookup_fmap, !lookup_insert_ne, Hv by congruence.
        reflexivity. }
      eapply runs_update_global.
      { cbn. rewrite lookup_insert_ne by congruence. rewrite Em. cbn.
        rewrite lookup_fmap, lookup_insert_eq. reflexivity. }
      split; [cbn; rewrite Et; reflexivity|].
      eexists _, c. cbn. rewrite !lookup_insert_ne by congruence. rewrite Em. cbn.
      rewrite lookup_fmap, !lookup_insert_ne, Ha by congruence. reflexivity.
    + eapply runs_bind, runs_CreateBitCastM; [exact Ha|].
      intros c Hc.
      apply runs_bind, runs_replaceAllUsesWith.
      apply runs_changeLLVMConstant.
      { apply use_empty_replaced.
        destruct Hc as [-> | ->]; cbn; apply bool_decide_eq_false; congruence. }
      intros s' Em Et. split; [rewrite Et; reflexivity|].
      eexists _, c. rewrite Em. cbn. rewrite lookup_fmap, Ha. reflexivity.
  - intros _ s1 (Et & m & c & Hc).
    apply runs_bind. unfold eraseFromParent. apply runs_modify.
    unfold mark_written. eapply runs_bind, runs_decl_of; [cbn; rewrite Et; exact Hd|].
    apply runs_modify. cbn. split; [apply lookup_delete_eq|].
    split; [rewrite Et; reflexivity|].
    exists m, c. rewrite lookup_delete_ne by congruence. exact Hc.
Qed.

(** C5.  An alias whose target is an identifier with no function and no
    variable of the unit behind it.  Without the weakref attribute,
    emit_alias reports the error and returns in the state the lookup of the
    alias's own global left: the module is the same, no alias is created and
    the declaration is not marked as written.  With the weakref attribute,
    emit_alias runs to its end, and a fresh declaration with external-weak
    linkage, named after the ultimate target, is in the module as the
    aliasee, while the global of the alias is erased. *)
Theorem alias_to_undefined_symbol fuel decl i s d V s1 v :
  seen_error s = false ->
  trees s !! decl = Some d ->
  DECL_LLVM decl s = Some (Some (GlobalRef V), s1) ->
  TheModule s1 !! V = Some v ->
  isGlobalAlias v = false ->
  isPointerTy (gv_type v) = true ->
  cgraph_asm s !! IDENTIFIER_POINTER
    (if has_attribute "weakref" (DECL_ATTRIBUTES d)
     then ultimate_transparent_alias i else i) = None ->
  varpool_asm s !! IDENTIFIER_POINTER
    (if has_attribute "weakref" (DECL_ATTRIBUTES d)
     then ultimate_transparent_alias i else i) = None ->
  if has_attribute "weakref" (DECL_ATTRIBUTES d) then
    exists Aliasee a s',
      emit_alias fuel decl (TargetIdentifier i) s = Some (tt, s')
      /\ TheModule s1 !! Aliasee = None
      /\ TheModule s' !! Aliasee = Some a
      /\ gv_linkage a = ExternalWeakLinkage
      /\ isDeclaration a = true
      /\ gv_name a = unique_name (TheModule s1)
                       (IDENTIFIER_POINTER (ultimate_transparent_alias i))
      /\ TheModule s' !! V = None
      /\ (exists d', trees s' !! decl = Some d' /\ TREE_ASM_WRITTEN d' = true)
  else
    exists s',
      emit_alias fuel decl (TargetIdentifier i) s = Some (tt, s')
      /\ s' = report (Error "%q+D aliased to undefined symbol %qs" (Some decl)) s1
      /\ seen_error s' = true
      /\ TheModule s' = TheModule s1
      /\ trees s' = trees s1.
Proof.
  intros He Hd Hrun Hv Hal Hty Hc Hvp.
  destruct (make_decl_llvm_trees _ _ _ _ _ Hd Hrun) as (d1 & Hd1 & Ed1).
  assert (DECL_ATTRIBUTES d1 = DECL_ATTRIBUTES d) as Ea
      by (destruct Ed1 as [-> | ->]; reflexivity).
  rewrite <- (make_decl_llvm_keeps_cgraph_asm _ _ _ _ Hrun) in Hc.
  rewrite <- (make_decl_llvm_keeps_varpool_asm _ _ _ _ Hrun) in Hvp.
  destruct (has_attribute "weakref" (DECL_ATTRIBUTES d)) eqn:Ew.
  - (* weakref to external symbol. *)
    set (Name := IDENTIFIER_POINTER (ultimate_transparent_alias i)) in *.
    assert (runs (emit_alias fuel decl (TargetIdentifier i)) s
              (fun _ s' =>
                 exists Aliasee a,
                   TheModule s1 !! Aliasee = None
                   /\ TheModule s' !! Aliasee = Some a
                   /\ gv_linkage a = ExternalWeakLinkage
                   /\ isDeclaration a = true
                   /\ gv_name a = unique_name (TheModule s1) Name
                   /\ TheModule s' !! V = None
                   /\ exists d', trees s' !! decl = Some d'
                                 /\ TREE_ASM_WRITTEN d' = true)) as Hr.
    { unfold emit_alias. apply runs_bind, runs_get. rewrite He.
      apply runs_bind. exists (Some (GlobalRef V)), s1. split; [exact Hrun|].
      apply runs_bind. exists V, s1. split; [eapply cast_GlobalValue_eq; eauto|].
      apply runs_bind, (runs_decl_of _ d1); [exact Hd1|].
      rewrite Ea, Ew. apply runs_bind, runs_get.
      fold Name. rewrite Hc, Hvp. cbn [negb].
      apply runs_bind, (runs_global_of _ v); [exact Hv|].
      apply runs_bind.
      assert (forall nv : GlobalValue,
                 gv_linkage nv = ExternalWeakLinkage -> isDeclaration nv = true ->
                 gv_name nv = Name ->
                 runs (new_global nv) s1
                   (fun Aliasee s2 =>
                      runs (emit_alias_finish decl V Aliasee) s2
                        (fun _ s' =>
                           exists Aliasee a,
                             TheModule s1 !! Aliasee = None
                             /\ TheModule s' !! Aliasee = Some a
                             /\ gv_linkage a = ExternalWeakLinkage
                             /\ isDeclaration a = true
                             /\ gv_name a = unique_name (TheModule s1) Name
                             /\ TheModule s' !! V = None
                             /\ exists d', trees s' !! decl = Some d'
                                           /\ TREE_ASM_WRITTEN d' = true))) as Hnew.
      { intros nv HL HD HN. apply runs_new_global. intros A HA _.
        assert (A <> V) as HAV by congruence.
        eapply runs_conseq.
        - eapply (emit_alias_finish_runs decl V A _ d1 v).
          + exact Hd1.
          + cbn. rewrite lookup_insert_ne by congruence. exact Hv.
          + cbn. apply lookup_insert_eq.
          + exact HAV.
        - cbn beta. intros _ s' (HV & Et & m & c & HAl).
          exists A. eexists. split; [exact HA|]. split; [exact HAl|].
          split; [destruct nv; exact HL|].
          split.
          { destruct nv as [? ? ? ? ? ? p]. unfold isDeclaration in *. cbn in *.
            destruct p as [[?|] ? ?|? ? [|? ?]|?]; try discriminate; reflexivity. }
          split; [destruct nv; cbn in *; now rewrite HN|].
          split; [exact HV|].
          exists (set_TREE_ASM_WRITTEN true d1). split; [|reflexivity].
          rewrite Et. apply lookup_insert_eq. }
      unfold isGlobalAlias in Hal.
      destruct (gv_payload v) as [init constant tl|cc attrs body|al] eqn:Ep;
        [| |discriminate].
      - apply Hnew; reflexivity.
      - destruct (gv_type v) as [| |elt| | |] eqn:Et; try discriminate.
        apply runs_bind, (runs_unwrap _ elt); [reflexivity|].
        apply Hnew; reflexivity. }
    destruct Hr as ([] & s' & Hrun' & A & a & H1 & H2 & H3 & H4 & H5 & H6 & H7).
    exists A, a, s'. auto 10.
  - eexists. split; [|split; [reflexivity|split; [reflexivity|split; reflexivity]]].
    assert (runs (emit_alias fuel decl (TargetIdentifier i)) s
              (fun _ s' =>
                 s' = report (Error "%q+D aliased to undefined symbol %qs" (Some decl)) s1))
      as Hr.
    { unfold emit_alias. apply runs_bind, runs_get. rewrite He.
      apply runs_bind. exists (Some (GlobalRef V)), s1. split; [exact Hrun|].
      apply runs_bind. exists V, s1. split; [eapply cast_GlobalValue_eq; eauto|].
      apply runs_bind, (runs_decl_of _ d1); [exact Hd1|].
      rewrite Ea, Ew. apply runs_bind, runs_get.
      rewrite Hc, Hvp. cbn [negb]. unfold error. apply runs_modify. reflexivity. }
    destruct Hr as ([] & s' & Hrun' & ->). exact Hrun'.
Qed.

Lemma alias_to_undefined_symbol_witness :
  (exists Aliasee a s',
      emit_alias 1 Unit.weak_alias (TargetIdentifier (Identifier "ext")) Unit.start
      = Some (tt, s')
      /\ TheModule s' !! Aliasee = Some a
      /\ gv_linkage a = ExternalWeakLinkage
      /\ TheModule s' !! 1%positive = None)
  /\ (exists s',
         emit_alias 1 Unit.strong_alias (TargetIdentifier (Identifier "ext")) Unit.start
         = Some (tt, s')
         /\ seen_error s' = true
         /\ TheModule s' = TheModule (after (make_decl_llvm Unit.strong_alias) Unit.start)).
Proof.
  split.
  - pose proof (alias_to_undefined_symbol 1 Unit.weak_alias (Identifier "ext") Unit.start
                  (Unit.with_attributes [("weakref", ["ext"])]
                     (Unit.declaration VAR_DECL "w" Unit.int_type None false))
                  1%positive (after (make_decl_llvm Unit.weak_alias) Unit.start)
                  (GlobalVariable_new Int32Ty false ExternalLinkage "w")) as H.
    assert (has_attribute "weakref"
              (DECL_ATTRIBUTES
                 (Unit.with_attributes [("weakref", ["ext"])]
                    (Unit.declaration VAR_DECL "w" Unit.int_type None false))) = true)
      as Hw by (vm_compute; reflexivity).
    rewrite Hw in H.
    destruct H as (A & a & s' & H1 & _ & H2 & H3 & _ & _ & H4 & _);
      try (vm_compute; reflexivity).
    exists A, a, s'. auto.
  - pose proof (alias_to_undefined_symbol 1 Unit.strong_alias (Identifier "ext") Unit.start
                  (Unit.declaration VAR_DECL "a" Unit.int_type None true)
                  1%positive (after (make_decl_llvm Unit.strong_alias) Unit.start)
                  (GlobalVariable_new Int32Ty false ExternalLinkage "a")) as H.
    assert (has_attribute "weakref"
              (DECL_ATTRIBUTES (Unit.declaration VAR_DECL "a" Unit.int_type None true))
            = false)
      as Hw by (vm_compute; reflexivity).
    rewrite Hw in H.
    destruct H as (s' & H1 & _ & H2 & H3 & _); try (vm_compute; reflexivity).
    exists s'. auto.
Defined.

(** ** Thunks *)

Lemma uwrap_idem w x : uwrap w (uwrap w x) = uwrap w x.
Proof. unfold uwrap. apply Zmod_mod. Qed.
Lemma uwrap_add_l w a b : uwrap w (uwrap w a + b) = uwrap w (a + b).
Proof. unfold uwrap. apply Zplus_mod_idemp_l. Qed.
Lemma uwrap_add_r w a b : uwrap w (a + uwrap w b) = uwrap w (a + b).
Proof. unfold uwrap. apply Zplus_mod_idemp_r. Qed.

Lemma exec_insts_app mc args l l' : forall fr0 fr,
  exec_insts mc args fr0 l = Some (fr, Continue) ->
  exec_insts mc args fr0 (l ++ l') = exec_insts mc args fr l'.
Proof.
  induction l as [|[r i] l IH]; intros fr0 fr H; cbn in *.
  - now injection H as ->.
  - destruct (exec_inst mc args fr0 r i) as [[fr1 [| |]]|]; try discriminate.
    now apply IH.
Qed.

Lemma find_block_cons bb l n :
  find_block (bb :: l) n = if decide (bb_name bb = n) then Some bb else find_block l n.
Proof.
  unfold find_block. cbn. destruct (decide (bb_name bb = n)); [reflexivity|].
  now destruct (list_find _ l) as [[? ?]|].
Qed.

Lemma find_block_name l n bb : find_block l n = Some bb -> bb_name bb = n.
Proof.
  induction l as [|b l IH]; [discriminate|]. rewrite find_block_cons.
  destruct (decide _); [now intros [= <-] | exact IH].
Qed.

Lemma find_block_map (f : BasicBlock -> BasicBlock) l n :
  (forall bb, bb_name (f bb) = bb_name bb) ->
  find_block (map f l) n = f <$> find_block l n.
Proof.
  intros Hf. induction l as [|b l IH]; [reflexivity|]. cbn [map].
  rewrite !find_block_cons, Hf. destruct (decide _); [reflexivity | exact IH].
Qed.

Lemma find_block_app l l' n :
  find_block (l ++ l') n
  = match find_block l n with Some bb => Some bb | None => find_block l' n end.
Proof.
  induction l as [|b l IH]; [reflexivity|]. cbn [app].
  rewrite !find_block_cons. destruct (decide _); [reflexivity | exact IH].
Qed.



Lemma Insert_blocks i b :
  bld_blocks (snd (Insert i b)) = map (Insert_in i b) (bld_blocks b).
Proof. reflexivity. Qed.

Lemma Insert_in_name i b bb : bb_name (Insert_in i b bb) = bb_name bb.
Proof. unfold Insert_in. now destruct (decide _). Qed.

Lemma Insert_names i b :
  map bb_name (bld_blocks (snd (Insert i b))) = map bb_name (bld_blocks b).
Proof.
  rewrite Insert_blocks, map_map. apply map_ext, Insert_in_name.
Qed.

Lemma Insert_elsewhere i b n :
  n <> bld_insert b -> find_block (bld_blocks (snd (Insert i b))) n = find_block (bld_blocks b) n.
Proof.
  intros Hn. rewrite Insert_blocks, find_block_map by apply Insert_in_name.
  destruct (find_block (bld_blocks b) n) as [bb|] eqn:E; [|reflexivity].
  cbn. apply find_block_name in E. unfold Insert_in.
  destruct (decide _); [congruence | reflexivity].
Qed.

(** Appending an instruction that runs. *)
Lemma Insert_point mc args fr0 b fr i fr' c :
  at_point mc args fr0 b fr Continue ->
  exec_inst mc args fr (bld_next b) i = Some (fr', c) ->
  at_point mc args fr0 (snd (Insert i b)) fr' c.
Proof.
  intros (bb & Hf & He) Hi.
  exists {| bb_name := bb_name bb; bb_insts := bb_insts bb ++ [(bld_next b, i)] |}.
  split.
  - rewrite Insert_blocks. change (bld_insert (snd (Insert i b))) with (bld_insert b).
    rewrite find_block_map by apply Insert_in_name.
    rewrite Hf. cbn. apply find_block_name in Hf. unfold Insert_in.
    destruct (decide _); [reflexivity | contradiction].
  - cbn. rewrite (exec_insts_app _ _ _ _ _ _ He). cbn. rewrite Hi.
    now destruct c.
Qed.

Lemma eval_operand_set_reg mc args n x fr o :
  operand_below n o ->
  eval_operand mc args (set_reg n x fr) o = eval_operand mc args fr o.
Proof.
  destruct o as [i|r|c]; cbn; try reflexivity.
  intros Hr. apply lookup_insert_ne. lia.
Qed.

Lemma operand_below_le n m o : (n <= m)%nat -> operand_below n o -> operand_below m o.
Proof. destruct o; cbn; auto. lia. Qed.

Lemma grows_refl mc args b fr : grows mc args b fr b fr.
Proof. unfold grows. auto 10. Qed.

Lemma grows_trans mc args b fr b1 fr1 b2 fr2 :
  grows mc args b fr b1 fr1 -> grows mc args b1 fr1 b2 fr2 -> grows mc args b fr b2 fr2.
Proof.
  intros (L1 & I1 & N1 & C1 & O1 & F1) (L2 & I2 & N2 & C2 & O2 & F2).
  unfold grows. split; [lia|]. split; [congruence|]. split; [congruence|].
  split; [congruence|]. split.
  - intros o Ho. rewrite O2 by (eapply operand_below_le; eauto). auto.
  - intros n Hn. rewrite F2 by congruence. auto.
Qed.

Lemma grows_Insert mc args b fr i x :
  grows mc args b fr (snd (Insert i b)) (set_reg (bld_next b) x fr).
Proof.
  unfold grows. split; [cbn; lia|]. split; [reflexivity|].
  split; [apply Insert_names|]. split; [reflexivity|]. split.
  - intros o Ho. now apply eval_operand_set_reg.
  - intros n Hn. now apply Insert_elsewhere.
Qed.

(** Appending an instruction that computes [x]. *)
Lemma yields_Insert mc args fr0 b fr i ty x :
  at_point mc args fr0 b fr Continue ->
  exec_inst mc args fr (bld_next b) i = Some (set_reg (bld_next b) x fr, Continue) ->
  yields mc args fr0 b fr ((OInst (bld_next b), ty), snd (Insert i b)) x.
Proof.
  intros Hp Hi. exists (set_reg (bld_next b) x fr).
  split; [eapply Insert_point; eauto|]. split; [apply grows_Insert|].
  split; [cbn; apply lookup_insert_eq | cbn; lia].
Qed.

Lemma yields_same mc args fr0 b fr V x :
  at_point mc args fr0 b fr Continue ->
  eval_operand mc args fr (fst V) = Some x ->
  operand_below (bld_next b) (fst V) ->
  yields mc args fr0 b fr (V, b) x.
Proof. intros Hp He Hb. exists fr. split; [exact Hp|]. split; [apply grows_refl|]. auto. Qed.

Lemma yields_CreateBitCast mc args fr0 b fr V ty x :
  at_point mc args fr0 b fr Continue ->
  eval_operand mc args fr (fst V) = Some x ->
  operand_below (bld_next b) (fst V) ->
  yields mc args fr0 b fr (Builder_CreateBitCast V ty b) x.
Proof.
  intros Hp He Hb. unfold Builder_CreateBitCast.
  destruct (decide (snd V = ty)); [now apply yields_same|].
  destruct V as [[i|r|c] t]; cbn [fst snd] in *.
  - apply yields_Insert; [exact Hp|]. cbn in *. now rewrite He.
  - apply yields_Insert; [exact Hp|]. cbn in *. now rewrite He.
  - apply yields_same; auto.
Qed.

Lemma yields_CreateInBoundsGEP mc args fr0 b fr Ptr Idx a k :
  at_point mc args fr0 b fr Continue ->
  eval_operand mc args fr (fst Ptr) = Some a ->
  eval_operand mc args fr (fst Idx) = Some k ->
  yields mc args fr0 b fr (Builder_CreateInBoundsGEP Ptr Idx b)
         (uwrap (ptr_bits mc) (a + k)).
Proof.
  intros Hp Ha Hk. apply yields_Insert; [exact Hp|]. cbn. now rewrite Ha, Hk.
Qed.

Lemma yields_CreateLoad mc args fr0 b fr Ptr a :
  at_point mc args fr0 b fr Continue ->
  eval_operand mc args fr (fst Ptr) = Some a ->
  yields mc args fr0 b fr (Builder_CreateLoad Ptr b)
         (uwrap (ptr_bits mc) (memory mc a)).
Proof.
  intros Hp Ha. apply yields_Insert; [exact Hp|]. cbn. now rewrite Ha.
Qed.

Lemma yields_CreatePtrToInt mc args fr0 b fr V ty x :
  at_point mc args fr0 b fr Continue ->
  eval_operand mc args fr (fst V) = Some x ->
  yields mc args fr0 b fr (Builder_CreatePtrToInt V ty b) x.
Proof.
  intros Hp Ha. apply yields_Insert; [exact Hp|]. cbn. now rewrite Ha.
Qed.

Lemma yields_CreateICmpEQ mc args fr0 b fr A B x y :
  at_point mc args fr0 b fr Continue ->
  eval_operand mc args fr (fst A) = Some x ->
  eval_operand mc args fr (fst B) = Some y ->
  yields mc args fr0 b fr (Builder_CreateICmpEQ A B b) (if x =? y then 1 else 0).
Proof.
  intros Hp Ha Hb. apply yields_Insert; [exact Hp|]. cbn. now rewrite Ha, Hb.
Qed.

(** One operation after another. *)
Lemma yields_then mc args fr0 b fr res1 x1 res2 x2 :
  yields mc args fr0 b fr res1 x1 ->
  (forall fr1,
      at_point mc args fr0 (snd res1) fr1 Continue ->
      grows mc args b fr (snd res1) fr1 ->
      eval_operand mc args fr1 (fst (fst res1)) = Some x1 ->
      operand_below (bld_next (snd res1)) (fst (fst res1)) ->
      yields mc args fr0 (snd res1) fr1 res2 x2) ->
  yields mc args fr0 b fr res2 x2.
Proof.
  intros (fr1 & P1 & G1 & E1 & B1) H.
  destruct (H fr1 P1 G1 E1 B1) as (fr2 & P2 & G2 & E2 & B2).
  exists fr2. split; [exact P2|]. split; [eapply grows_trans; eauto|]. auto.
Qed.

(** A value known before an operation is known after it. *)
Lemma grows_carry mc args b fr b1 fr1 o x :
  grows mc args b fr b1 fr1 ->
  eval_operand mc args fr o = Some x /\ operand_below (bld_next b) o ->
  eval_operand mc args fr1 o = Some x /\ operand_below (bld_next b1) o.
Proof.
  intros (L & _ & _ & _ & O & _) [He Hb]. split.
  - rewrite O; assumption.
  - eapply operand_below_le; eauto.
Qed.

(** Taking the next operation of a chain of builder calls. *)
Ltac ythen lem :=
  lazymatch goal with
  | |- yields _ _ _ _ _ (let '(_, _) := ?op in _) _ =>
      let V := fresh "V" in
      let B := fresh "B" in
      let E := fresh "E" in
      destruct op as [V B] eqn:E;
      eapply (yields_then _ _ _ _ _ (V, B)); [rewrite <- E; lem|];
      let fr1 := fresh "fr" in
      let P := fresh "P" in
      let G := fresh "G" in
      let Ev := fresh "Ev" in
      let Bl := fresh "Bl" in
      intros fr1 P G Ev Bl; cbn [fst snd] in P, G, Ev, Bl |- *;
      repeat match goal with
             | H : eval_operand _ _ _ _ = Some _ /\ operand_below _ _ |- _ =>
                 apply (grows_carry _ _ _ _ _ _ _ _ G) in H
             end;
      clear E G
  end.

Lemma yields_ApplyFixedOffset mc args fr0 b fr IntPtrTy V F BackTy x :
  at_point mc args fr0 b fr Continue ->
  eval_operand mc args fr (fst V) = Some x ->
  operand_below (bld_next b) (fst V) ->
  uwrap (ptr_bits mc) x = x ->
  yields mc args fr0 b fr (ApplyFixedOffset IntPtrTy V F BackTy b) (advanced mc x F).
Proof.
  intros Hp He Hb Hx. unfold ApplyFixedOffset, advanced.
  destruct (F =? 0) eqn:EF.
  - apply Z.eqb_eq in EF. subst F. rewrite Z.add_0_r, Hx. now apply yields_same.
  - rewrite <- uwrap_add_r.
    ythen ltac:(apply yields_CreateBitCast; eassumption).
    ythen ltac:(eapply yields_CreateInBoundsGEP; [eassumption | eassumption | reflexivity]).
    apply yields_CreateBitCast; assumption.
Qed.

Lemma yields_ApplyVirtualOffset mc args fr0 b fr IntPtrTy This vv x :
  at_point mc args fr0 b fr Continue ->
  eval_operand mc args fr (fst This) = Some x ->
  operand_below (bld_next b) (fst This) ->
  yields mc args fr0 b fr (ApplyVirtualOffset IntPtrTy This vv b)
         (advanced mc x (virtual_offset mc vv x)).
Proof.
  intros Hp He Hb. unfold ApplyVirtualOffset, virtual_offset, advanced.
  rewrite <- (uwrap_add_r _ x), <- (uwrap_add_l _ (memory mc x)), <- (uwrap_add_r _ _ vv).
  assert (eval_operand mc args fr (fst This) = Some x
          /\ operand_below (bld_next b) (fst This)) as HThis by auto.
  cbv zeta.
  ythen ltac:(apply yields_CreateBitCast; eassumption).
  ythen ltac:(eapply yields_CreateLoad; eassumption).
  ythen ltac:(apply yields_CreateBitCast; eassumption).
  ythen ltac:(eapply yields_CreateInBoundsGEP; [eassumption | eassumption | reflexivity]).
  ythen ltac:(apply yields_CreateBitCast; eassumption).
  ythen ltac:(eapply yields_CreateLoad; eassumption).
  ythen ltac:(eapply yields_CreatePtrToInt; eassumption).
  assert (eval_operand mc args fr7 (fst V5) = Some
            (uwrap (ptr_bits mc)
               (memory mc (uwrap (ptr_bits mc)
                             (uwrap (ptr_bits mc) (memory mc x) + uwrap (ptr_bits mc) vv))))
          /\ operand_below (bld_next B5) (fst V5)) as HVC by auto.
  destruct HThis as [HT1 HT2].
  ythen ltac:(apply yields_CreateBitCast; eassumption).
  destruct HVC as [HV1 HV2].
  ythen ltac:(eapply yields_CreateInBoundsGEP; eassumption).
  apply yields_CreateBitCast; assumption.
Qed.

(** The loop over the arguments: the operands it collects evaluate, after
    the instructions it appended, to the arguments the thunk is to pass. *)
Lemma thunk_arguments_yields mc args fr0 info IntPtrTy attrs params :
  forall i FoundThis b fr ops b',
    thunk_arguments info IntPtrTy params attrs i FoundThis b = Some (ops, b') ->
    at_point mc args fr0 b fr Continue ->
    length (drop i args) = length params ->
    FoundThis = true \/ Forall (fun x => uwrap (ptr_bits mc) x = x) args ->
    exists fr',
      at_point mc args fr0 b' fr' Continue
      /\ grows mc args b fr b' fr'
      /\ Forall2 (fun o x => eval_operand mc args fr' o = Some x
                             /\ operand_below (bld_next b') o)
           ops (passed_arguments (adjust_this mc info) attrs i FoundThis (drop i args)).
Proof.
  induction params as [|ty params IH]; intros i FoundThis b fr ops b' H Hp Hlen Hcan.
  - cbn in H. injection H as <- <-. exists fr.
    split; [exact Hp|]. split; [apply grows_refl|].
    destruct (drop i args); [constructor | discriminate].
  - destruct (drop i args) as [|a rest] eqn:Ed; [discriminate|].
    assert (args !! i = Some a) as Ha.
    { rewrite <- (Nat.add_0_r i), <- lookup_drop, Ed. reflexivity. }
    assert (drop (S i) args = rest) as Er.
    { rewrite <- Nat.add_1_r, <- drop_drop, Ed. reflexivity. }
    assert (FoundThis = false -> uwrap (ptr_bits mc) a = a) as Hca.
    { intros ->. destruct Hcan as [?|Hcan]; [discriminate|].
      rewrite Forall_forall in Hcan. apply Hcan. eapply list_elem_of_lookup_2; eauto. }
    cbn in Hlen. injection Hlen as Hlen. rewrite <- Er in Hlen.
    cbn [thunk_arguments passed_arguments] in *.
    destruct (nth i attrs (false, false)) as [sret nest].
    destruct (FoundThis || sret || nest) eqn:Efound.
    + destruct (thunk_arguments info IntPtrTy params attrs (S i) FoundThis b)
        as [[ops' B']|] eqn:Et; [|discriminate].
      cbn in H. injection H as <- <-.
      destruct (IH _ _ _ _ _ _ Et Hp Hlen Hcan) as (fr' & P' & G' & F').
      exists fr'. split; [exact P'|]. split; [exact G'|].
      rewrite Er in F'. constructor; [|exact F'].
      split; [exact Ha | exact I].
    + destruct FoundThis; [discriminate|]. specialize (Hca eq_refl).
      destruct (negb (isPointerTy ty)); [discriminate|].
      destruct (ApplyFixedOffset IntPtrTy (OArg i, ty) (fixed_offset info) ty b)
        as [T1 B1] eqn:E1.
      assert (yields mc args fr0 b fr (T1, B1) (advanced mc a (fixed_offset info))) as Y1.
      { rewrite <- E1. apply yields_ApplyFixedOffset; auto. exact I. }
      destruct Y1 as (fr1 & P1 & G1 & Ev1 & Bl1). cbn [fst snd] in *.
      assert (exists T2 B2 fr2,
                 (if virtual_offset_p info
                  then ApplyVirtualOffset IntPtrTy T1 (virtual_value info) B1
                  else (T1, B1)) = (T2, B2)
                 /\ at_point mc args fr0 B2 fr2 Continue
                 /\ grows mc args b fr B2 fr2
                 /\ eval_operand mc args fr2 (fst T2) = Some (adjust_this mc info a)
                 /\ operand_below (bld_next B2) (fst T2)) as (T2 & B2 & fr2 & E2 & P2 & G2 & Ev2 & Bl2).
      { unfold adjust_this. destruct (virtual_offset_p info).
        - destruct (ApplyVirtualOffset IntPtrTy T1 (virtual_value info) B1)
            as [T2 B2] eqn:E2.
          pose proof (yields_ApplyVirtualOffset mc args fr0 B1 fr1 IntPtrTy T1
                        (virtual_value info) _ P1 Ev1 Bl1) as Y2.
          rewrite E2 in Y2. destruct Y2 as (fr2 & P2 & G2 & Ev2 & Bl2).
          exists T2, B2, fr2. split; [reflexivity|]. split; [exact P2|].
          split; [eapply grows_trans; eauto|]. auto.
        - exists T1, B1, fr1. auto 10. }
      rewrite E2 in H.
      destruct (thunk_arguments info IntPtrTy params attrs (S i) true B2)
        as [[ops' B']|] eqn:Et; [|discriminate].
      cbn in H. injection H as <- <-.
      destruct (IH _ _ _ _ _ _ Et P2 Hlen (or_introl eq_refl)) as (fr' & P' & G' & F').
      exists fr'. split; [exact P'|]. split; [eapply grows_trans; eauto|].
      rewrite Er in F'. constructor; [|exact F'].
      eapply grows_carry; eauto.
Qed.

Lemma passed_arguments_found adjust attrs args :
  forall i, passed_arguments adjust attrs i true args = args.
Proof.
  induction args as [|a args IH]; intros i; [reflexivity|]. cbn.
  destruct (nth i attrs (false, false)). cbn. now rewrite IH.
Qed.

Lemma block_runs_same mc args body body' n fr0 fr c :
  find_block body' n = find_block body n ->
  block_runs mc args body n fr0 fr c -> block_runs mc args body' n fr0 fr c.
Proof. intros E (bb & Hf & He). exists bb. split; [congruence | exact He]. Qed.

Lemma find_block_absent l n : n ∉ map bb_name l -> find_block l n = None.
Proof.
  induction l as [|b l IH]; [reflexivity|]. cbn [map]. rewrite find_block_cons.
  intros Hn. destruct (decide _) as [E|E].
  - exfalso. apply Hn. rewrite E. apply list_elem_of_here.
  - apply IH. intros Hin. apply Hn. now apply list_elem_of_further.
Qed.

Lemma Insert_eta i b : Insert i b = (OInst (bld_next b), snd (Insert i b)).
Proof. reflexivity. Qed.

Lemma exec_blocks_block fuel mc args body fr0 n bb :
  find_block body n = Some bb ->
  exec_blocks (S fuel) mc args body fr0 n
  = match exec_insts mc args fr0 (bb_insts bb) with
    | Some (fr', Returned v) => Some {| out_calls := calls fr'; out_return := v |}
    | Some (fr', Branch l) => exec_blocks fuel mc args body fr' l
    | _ => None
    end.
Proof. intros H. cbn [exec_blocks]. rewrite H. reflexivity. Qed.

(** Entering a function whose first block returns. *)
Lemma run_function_returns fuel mc args body n names fr v :
  map bb_name body = n :: names ->
  block_runs mc args body n {| regs := ∅; calls := [] |} fr (Returned v) ->
  run_function (S fuel) mc body args = Some {| out_calls := calls fr; out_return := v |}.
Proof.
  intros Hn (bb & Hf & He). destruct body as [|b0 body]; [discriminate|].
  injection Hn as Hn _. unfold run_function.
  rewrite Hn, (exec_blocks_block _ _ _ _ _ _ _ Hf), He. reflexivity.
Qed.

(** Entering a function whose first block branches to a block that returns. *)
Lemma run_function_branches fuel mc args body n names fr1 l fr v :
  map bb_name body = n :: names ->
  block_runs mc args body n {| regs := ∅; calls := [] |} fr1 (Branch l) ->
  block_runs mc args body l fr1 fr (Returned v) ->
  run_function (S (S fuel)) mc body args
  = Some {| out_calls := calls fr; out_return := v |}.
Proof.
  intros Hn (bb & Hf & He) (bb' & Hf' & He'). destruct body as [|b0 body]; [discriminate|].
  injection Hn as Hn _. unfold run_function.
  rewrite Hn, (exec_blocks_block _ _ _ _ _ _ _ Hf), He.
  rewrite (exec_blocks_block _ _ _ _ _ _ _ Hf'), He'. reflexivity.
Qed.

Lemma mapM_eval mc args fr n ops vs :
  Forall2 (fun o x => eval_operand mc args fr o = Some x /\ operand_below n o) ops vs ->
  mapM (eval_operand mc args fr) ops = Some vs.
Proof.
  intros H. apply mapM_Some. eapply Forall2_impl; [exact H|]. now intros o x [? _].
Qed.



(** The entry block up to the call: the target is called once, with the
    arguments the thunk is to pass. *)
Lemma thunk_call_point mc args info IntPtrTy params cc attrs callee fa ops B1 :
  thunk_arguments info IntPtrTy params attrs 0 (negb (this_adjusting info)) entry_builder
  = Some (ops, B1) ->
  length args = length params ->
  negb (this_adjusting info) = true \/ Forall (fun x => uwrap (ptr_bits mc) x = x) args ->
  eval_constant mc callee = Some fa ->
  exists frC,
    at_point mc args entry_frame
      (snd (Insert (CallInst (OConst callee) ops cc attrs true) B1)) frC Continue
    /\ calls frC
       = [(fa, passed_arguments (adjust_this mc info) attrs 0
                 (negb (this_adjusting info)) args)]
    /\ regs frC !! bld_next B1
       = Some (uwrap (ptr_bits mc)
                 (call_result mc fa
                    (passed_arguments (adjust_this mc info) attrs 0
                       (negb (this_adjusting info)) args)))
    /\ bld_insert B1 = "entry"
    /\ map bb_name (bld_blocks B1) = ["entry"].
Proof.
  intros Ht Hlen Hcan Hfa.
  assert (at_point mc args entry_frame entry_builder entry_frame Continue) as P0.
  { exists {| bb_name := "entry"; bb_insts := [] |}. split; reflexivity. }
  destruct (thunk_arguments_yields mc args entry_frame info IntPtrTy attrs params
              0 _ _ _ _ _ Ht P0 Hlen Hcan) as (fr1 & P1 & G1 & F1).
  cbn [drop] in F1. apply mapM_eval in F1.
  destruct G1 as (_ & GI & GN & GC & _ & _).
  eexists. split; [|split; [|split; [|split]]].
  - eapply Insert_point; [exact P1|]. cbn. rewrite Hfa. cbn. rewrite F1. cbn. reflexivity.
  - cbn. rewrite GC. reflexivity.
  - cbn. apply lookup_insert_eq.
  - exact GI.
  - exact GN.
Qed.

Lemma this_adjusting_body_runs mc args fuel info IntPtrTy RetTy params cc attrs callee
    CallTy blocks fa :
  emit_thunk_body info IntPtrTy RetTy params cc attrs callee CallTy [] = Some blocks ->
  this_adjusting info = true ->
  length args = length params ->
  Forall (fun x => uwrap (ptr_bits mc) x = x) args ->
  eval_constant mc callee = Some fa ->
  run_function (S fuel) mc blocks args
  = Some {| out_calls := [(fa, passed_arguments (adjust_this mc info) attrs 0 false args)];
            out_return :=
              if isVoidTy RetTy then None
              else Some (uwrap (ptr_bits mc)
                           (call_result mc fa
                              (passed_arguments (adjust_this mc info) attrs 0 false args))) |}.
Proof.
  intros H Hthis Hlen Hcan Hfa. unfold emit_thunk_body in H.
  fold entry_builder in H.
  destruct (thunk_arguments info IntPtrTy params attrs 0 (negb (this_adjusting info))
              entry_builder) as [[ops B1]|] eqn:Et; [|discriminate].
  destruct (thunk_call_point mc args info IntPtrTy params cc attrs callee fa ops B1
              Et Hlen (or_intror Hcan) Hfa) as (frC & PC & HC & HR & HI & HN).
  rewrite Hthis in *. cbn [negb] in *.
  cbn [mbind option_bind] in H.
  rewrite (Insert_eta (CallInst _ _ _ _ _)) in H.
  set (B2 := snd (Insert (CallInst (OConst callee) ops cc attrs true) B1)) in *.
  cbv beta iota in H.
  assert (bld_insert B2 = "entry") as HI2 by exact HI.
  assert (map bb_name (bld_blocks B2) = ["entry"]) as HN2
      by (unfold B2; now rewrite Insert_names).
  rewrite <- HC.
  destruct (isVoidTy RetTy); apply (inj Some) in H; subst blocks.
  - apply (run_function_returns _ _ _ _ "entry" []).
    + now rewrite Insert_names.
    + rewrite <- HI2. apply (Insert_point _ _ _ _ _ _ _ _ PC). reflexivity.
  - apply (run_function_returns _ _ _ _ "entry" []).
    + now rewrite Insert_names.
    + rewrite <- HI2. apply (Insert_point _ _ _ _ _ _ _ _ PC). cbn. now rewrite HR.
Qed.

Lemma Create_names n b :
  map bb_name (bld_blocks (BasicBlock_Create n b)) = map bb_name (bld_blocks b) ++ [n].
Proof. cbn [BasicBlock_Create bld_blocks]. now rewrite map_app. Qed.

Lemma Create_find_other n b m :
  m <> n -> find_block (bld_blocks (BasicBlock_Create n b)) m = find_block (bld_blocks b) m.
Proof.
  intros Hm. cbn [BasicBlock_Create bld_blocks]. rewrite find_block_app, find_block_cons.
  cbn [bb_name]. destruct (decide (n = m)); [congruence|].
  now destruct (find_block (bld_blocks b) m).
Qed.

Lemma Create_find_new n b :
  n ∉ map bb_name (bld_blocks b) ->
  find_block (bld_blocks (BasicBlock_Create n b)) n
  = Some {| bb_name := n; bb_insts := [] |}.
Proof.
  intros Hn. cbn [BasicBlock_Create bld_blocks].
  rewrite find_block_app, (find_block_absent _ _ Hn), find_block_cons. cbn [bb_name].
  destruct (decide (n = n)); [reflexivity | contradiction].
Qed.

Lemma block_runs_Insert mc args i b n f0 f c :
  n <> bld_insert b ->
  block_runs mc args (bld_blocks b) n f0 f c ->
  block_runs mc args (bld_blocks (snd (Insert i b))) n f0 f c.
Proof. intros Hn. apply block_runs_same. now apply Insert_elsewhere. Qed.

Lemma block_runs_grows mc args b fr b' fr' n f0 f c :
  grows mc args b fr b' fr' ->
  n <> bld_insert b ->
  block_runs mc args (bld_blocks b) n f0 f c ->
  block_runs mc args (bld_blocks b') n f0 f c.
Proof. intros (_ & _ & _ & _ & _ & F) Hn. apply block_runs_same. now apply F. Qed.

Lemma block_runs_Create mc args n' b n f0 f c :
  block_runs mc args (bld_blocks b) n f0 f c ->
  block_runs mc args (bld_blocks (BasicBlock_Create n' b)) n f0 f c.
Proof.
  intros (bb & Hf & He). exists bb. split; [|exact He].
  cbn [BasicBlock_Create bld_blocks]. now rewrite find_block_app, Hf.
Qed.

Lemma block_runs_empty mc args body n fr :
  find_block body n = Some {| bb_name := n; bb_insts := [] |} ->
  block_runs mc args body n fr fr Continue.
Proof. intros Hf. eexists. split; [exact Hf | reflexivity]. Qed.

Lemma covariant_body_runs mc args fuel info IntPtrTy RetTy params cc attrs callee
    CallTy blocks fa :
  emit_thunk_body info IntPtrTy RetTy params cc attrs callee CallTy [] = Some blocks ->
  this_adjusting info = false ->
  length args = length params ->
  eval_constant mc callee = Some fa ->
  run_function (S (S fuel)) mc blocks args
  = Some {| out_calls := [(fa, args)];
            out_return :=
              Some (if uwrap (ptr_bits mc) (call_result mc fa args) =? 0 then 0
                    else adjust_returned mc info
                           (uwrap (ptr_bits mc) (call_result mc fa args))) |}.
Proof.
  intros H Hthis Hlen Hfa. unfold emit_thunk_body in H.
  fold entry_builder in H.
  destruct (thunk_arguments info IntPtrTy params attrs 0 (negb (this_adjusting info))
              entry_builder) as [[ops B1]|] eqn:Et; [|discriminate].
  assert (negb (this_adjusting info) = true) as Hfound by now rewrite Hthis.
  destruct (thunk_call_point mc args info IntPtrTy params cc attrs callee fa ops B1
              Et Hlen (or_introl Hfound) Hfa) as (frC & PC & HC & HR & HI & HN).
  rewrite Hthis in *. cbn [negb] in *. rewrite passed_arguments_found in *.
  set (R := uwrap (ptr_bits mc) (call_result mc fa args)) in *.
  cbn [mbind option_bind] in H.
  rewrite (Insert_eta (CallInst _ _ _ _ _)) in H.
  set (B2 := snd (Insert (CallInst (OConst callee) ops cc attrs true) B1)) in *.
  cbv beta iota zeta in H.
  destruct (negb (isPointerTy CallTy)); [discriminate|].
  (* First check if the returned value is NULL. *)
  destruct (Builder_CreateICmpEQ (OInst (bld_next B1), CallTy)
              (OConst (NullValue CallTy), CallTy) B2) as [isNull B3] eqn:E3.
  pose proof (yields_CreateICmpEQ mc args entry_frame B2 frC (OInst (bld_next B1), CallTy)
                (OConst (NullValue CallTy), CallTy) R 0 PC HR eq_refl) as Y3.
  rewrite E3 in Y3. destruct Y3 as (fr3 & P3 & G3 & Ev3 & Bl3). cbn [fst snd] in *.
  assert (eval_operand mc args fr3 (OInst (bld_next B1)) = Some R
          /\ operand_below (bld_next B3) (OInst (bld_next B1))) as [HR3 HB3].
  { apply (grows_carry _ _ _ _ _ _ _ _ G3). split; [exact HR|]. cbn. lia. }
  destruct G3 as (GL3 & GI3 & GN3 & GC3 & _ & _).
  assert (bld_insert B3 = "entry") as HI3 by (rewrite GI3; exact HI).
  assert (map bb_name (bld_blocks B3) = ["entry"]) as HN3
      by (rewrite GN3; unfold B2; now rewrite Insert_names).
  set (B5 := BasicBlock_Create "isNotNull" (BasicBlock_Create "isNull" B3)) in *.
  assert (map bb_name (bld_blocks B5) = ["entry"; "isNull"; "isNotNull"]) as HN5
      by (unfold B5; now rewrite !Create_names, HN3).
  rewrite (Insert_eta (CondBrInst _ _ _)) in H.
  set (B6 := snd (Insert (CondBrInst isNull.1 "isNull" "isNotNull") B5)) in *.
  cbv beta iota in H.
  assert (block_runs mc args (bld_blocks B6) "entry" entry_frame fr3
            (Branch (if R =? 0 then "isNull" else "isNotNull"))) as RE.
  { rewrite <- HI3. apply (Insert_point mc args entry_frame B5 fr3).
    - apply block_runs_Create, block_runs_Create. exact P3.
    - cbn. rewrite Ev3. cbn. now destruct (R =? 0). }
  assert (find_block (bld_blocks B6) "isNull"
          = Some {| bb_name := "isNull"; bb_insts := [] |}) as FN.
  { unfold B6. rewrite Insert_elsewhere by (cbn; rewrite HI3; discriminate).
    unfold B5. rewrite Create_find_other by discriminate.
    apply Create_find_new. rewrite HN3. now intros ?%list_elem_of_singleton. }
  assert (find_block (bld_blocks B6) "isNotNull"
          = Some {| bb_name := "isNotNull"; bb_insts := [] |}) as FNN.
  { unfold B6. rewrite Insert_elsewhere by (cbn; rewrite HI3; discriminate).
    unfold B5. apply Create_find_new. rewrite Create_names, HN3.
    intros [?%list_elem_of_singleton|?%list_elem_of_singleton]%elem_of_app;
      discriminate. }
  (* If it is NULL, return it without any adjustment. *)
  rewrite (Insert_eta (RetInst _)) in H.
  set (B8 := snd (Insert (RetInst (OConst (NullValue CallTy)))
                    (SetInsertPoint "isNull" B6))) in *.
  cbv beta iota in H.
  assert (block_runs mc args (bld_blocks B8) "isNull" fr3 fr3 (Returned (Some 0))) as RN.
  { apply (Insert_point mc args fr3 (SetInsertPoint "isNull" B6) fr3).
    - apply block_runs_empty. exact FN.
    - reflexivity. }
  assert (block_runs mc args (bld_blocks B8) "entry" entry_frame fr3
            (Branch (if R =? 0 then "isNull" else "isNotNull"))) as RE8
      by (apply block_runs_Insert; [discriminate | exact RE]).
  assert (at_point mc args fr3 (SetInsertPoint "isNotNull" B8) fr3 Continue) as P9.
  { apply block_runs_empty. cbn [SetInsertPoint bld_blocks bld_insert].
    unfold B8. rewrite Insert_elsewhere by discriminate. exact FNN. }
  assert (map bb_name (bld_blocks (SetInsertPoint "isNotNull" B8))
          = ["entry"; "isNull"; "isNotNull"]) as HN9.
  { cbn [SetInsertPoint bld_blocks]. unfold B8. rewrite Insert_names.
    cbn [SetInsertPoint bld_blocks]. unfold B6. now rewrite Insert_names. }
  assert (operand_below (bld_next (SetInsertPoint "isNotNull" B8)) (OInst (bld_next B1)))
    as HB9 by (cbn in *; lia).
  set (B9 := SetInsertPoint "isNotNull" B8) in *.
  (* Otherwise, first adjust by the virtual offset, if any. *)
  lazymatch type of H with
  | (let '(_, _) := ?e in _) = _ => destruct e as [RV B10] eqn:E10
  end.
  assert (yields mc args fr3 B9 fr3 (RV, B10)
            (if virtual_offset_p info
             then advanced mc R (virtual_offset mc (virtual_value info) R)
             else R)) as Y10.
  { destruct (virtual_offset_p info).
    - rewrite <- E10. now apply yields_ApplyVirtualOffset.
    - injection E10 as <- <-. now apply yields_same. }
  clear E10.
  destruct Y10 as (fr10 & P10 & G10 & Ev10 & Bl10). cbn [fst snd] in *.
  (* Then move 'this' by the fixed offset. *)
  destruct (ApplyFixedOffset IntPtrTy RV (fixed_offset info) RetTy B10)
    as [RV0 B11] eqn:E11.
  assert (yields mc args fr3 B10 fr10 (RV0, B11) (adjust_returned mc info R)) as Y11.
  { rewrite <- E11. unfold adjust_returned. apply yields_ApplyFixedOffset; auto.
    destruct (virtual_offset_p info); [apply uwrap_idem | apply uwrap_idem]. }
  destruct Y11 as (fr11 & P11 & G11 & Ev11 & Bl11). cbn [fst snd] in *.
  pose proof (grows_trans _ _ _ _ _ _ _ _ G10 G11) as G.
  (* Return the adjusted value. *)
  rewrite (Insert_eta (RetInst _)) in H.
  cbv beta iota in H. apply (inj Some) in H. subst blocks.
  assert (bld_insert B11 = "isNotNull") as HI11 by (destruct G as (_ & -> & _); reflexivity).
  assert (block_runs mc args (bld_blocks (snd (Insert (RetInst RV0.1) B11)))
            "isNotNull" fr3 fr11 (Returned (Some (adjust_returned mc info R)))) as RNN.
  { rewrite <- HI11. apply (Insert_point mc args fr3 B11 fr11); [exact P11|].
    cbn. now rewrite Ev11. }
  assert (calls fr11 = [(fa, args)]) as HC11.
  { destruct G as (_ & _ & _ & -> & _). now rewrite GC3. }
  rewrite <- HC11.
  destruct (R =? 0) eqn:ER.
  - replace (calls fr11) with (calls fr3) by (rewrite HC11, GC3; exact HC).
    apply (run_function_branches _ _ _ _ "entry" ["isNull"; "isNotNull"] fr3 "isNull").
    + rewrite Insert_names. destruct G as (_ & _ & -> & _). exact HN9.
    + apply block_runs_Insert; [rewrite HI11; discriminate|].
      apply (block_runs_grows _ _ _ _ _ _ _ _ _ _ G); [discriminate | exact RE8].
    + apply block_runs_Insert; [rewrite HI11; discriminate|].
      apply (block_runs_grows _ _ _ _ _ _ _ _ _ _ G); [discriminate | exact RN].
  - apply (run_function_branches _ _ _ _ "entry" ["isNull"; "isNotNull"] fr3 "isNotNull").
    + rewrite Insert_names. destruct G as (_ & _ & -> & _). exact HN9.
    + apply block_runs_Insert; [rewrite HI11; discriminate|].
      apply (block_runs_grows _ _ _ _ _ _ _ _ _ _ G); [discriminate | exact RE8].
    + exact RNN.
Qed.

Lemma getType_insert m g v v' c :
  m !! g = Some v -> gv_type v' = gv_type v ->
  getType (<[g := v']> m) c = getType m c.
Proof.
  intros Hg Ht. destruct c as [x| | | | |]; try reflexivity. cbn.
  destruct (decide (g = x)) as [->|Hne].
  - rewrite lookup_insert_eq, Hg. cbn. now rewrite Ht.
  - now rewrite lookup_insert_ne.
Qed.

(** emit_thunk on a thunk and a target that are both materialised, the
    thunk as a function without body and without variable arguments: it
    runs to its end and gives the thunk the body emit_thunk_body builds. *)
Lemma emit_thunk_runs node s d da Thunk fn RetTy params cc attrs callee CallTy blocks :
  seen_error s = false ->
  trees s !! node_decl node = Some d ->
  HAS_RTL_P (TREE_CODE d) = true ->
  cached s (node_decl node) = ValuePtr (GlobalRef Thunk) ->
  TheModule s !! Thunk = Some fn ->
  gv_type fn = PointerTy (FunctionTy RetTy params false) ->
  gv_payload fn = Function cc attrs [] ->
  trees s !! thunk_alias (thunk node) = Some da ->
  HAS_RTL_P (TREE_CODE da) = true ->
  cached s (thunk_alias (thunk node)) = ValuePtr callee ->
  callee_return_type (TheModule s) callee = Some CallTy ->
  emit_thunk_body (thunk node) (IntPtrType s) RetTy params cc attrs callee CallTy []
  = Some blocks ->
  runs (emit_thunk node) s (fun _ s' =>
    exists fn', TheModule s' !! Thunk = Some fn'
                /\ gv_payload fn' = Function cc attrs blocks
                /\ gv_type fn' = gv_type fn
                /\ gv_linkage fn' = GetLinkageForAlias d (flag_odr s)
                /\ cached s' (node_decl node) = ValuePtr (GlobalRef Thunk)).
Proof.
  intros He Hd Hrtl Hc Hfn Hty Hpay Hda Hrtla Hca Hct Hbody.
  unfold emit_thunk. apply runs_bind, runs_get. rewrite He.
  apply runs_bind. exists (Some (GlobalRef Thunk)), s.
  split; [now apply (make_decl_llvm_cached _ _ d)|].
  apply runs_bind. exists Thunk, s. split.
  { apply (cast_Function_eq _ fn); [exact Hfn|]. unfold isFunction. now rewrite Hpay. }
  apply runs_bind, (runs_global_of _ fn); [exact Hfn|].
  rewrite Hty. cbn [getElementType].
  unfold mark_written.
  apply runs_bind, runs_bind, (runs_decl_of _ d); [exact Hd|].
  apply runs_modify.
  eapply runs_bind, runs_decl_of; [cbn; apply lookup_insert_eq|].
  apply runs_bind, runs_gets.
  eapply runs_bind, runs_update_global; [exact Hfn|].
  eapply runs_bind, runs_handleVisibility; [cbn; apply lookup_insert_eq|].
  intros x.
  set (fn2 := with_visibility x (with_linkage _ fn)).
  set (s3 := upd_TheModule (insert Thunk fn2) _).
  assert (exists da', trees s3 !! thunk_alias (thunk node) = Some da'
                      /\ HAS_RTL_P (TREE_CODE da') = true) as (da' & Hda' & Hrtla').
  { cbn. destruct (decide (node_decl node = thunk_alias (thunk node))) as [E|E].
    - rewrite <- E, lookup_insert_eq. eexists. split; [reflexivity | exact Hrtl].
    - rewrite lookup_insert_ne by exact E. eauto. }
  apply runs_bind. exists (Some callee), s3.
  split; [apply (make_decl_llvm_cached _ _ da'); [exact Hda' | exact Hrtla' | exact Hca]|].
  apply runs_bind, (runs_unwrap _ callee); [reflexivity|].
  apply runs_bind, runs_get.
  assert (callee_return_type (TheModule s3) callee = Some CallTy) as Hct3.
  { unfold callee_return_type in *. cbn.
    rewrite (getType_insert _ Thunk (with_linkage (GetLinkageForAlias
               (set_TREE_ASM_WRITTEN true d) (flag_odr s)) fn)), (getType_insert _ Thunk fn);
      auto. apply lookup_insert_eq. }
  apply runs_bind, (runs_unwrap _ CallTy); [exact Hct3|].
  eapply runs_bind, runs_global_of; [cbn; apply lookup_insert_eq|].
  replace (gv_payload fn2) with (Function cc attrs []) by (symmetry; exact Hpay).
  apply runs_bind, (runs_unwrap _ blocks); [exact Hbody|].
  eapply runs_update_global; [cbn; apply lookup_insert_eq|].
  eexists. split; [cbn; apply lookup_insert_eq|].
  unfold setBody. replace (gv_payload fn2) with (Function cc attrs [])
    by (symmetry; exact Hpay).
  split; [reflexivity|]. split; [exact Hty|]. split; [reflexivity | exact Hc].
Qed.



(** C7.  emit_thunk on a this-adjusting thunk, the thunk and its target
    both materialised and the thunk still without body: the function it
    builds calls the target once, passing every argument as it came in,
    except 'this', the first argument that is neither the struct-return nor
    the static-chain argument, and returns what the call returned.  'this'
    goes out as the incoming pointer P advanced by the fixed offset F, that
    is P + F modulo the pointer width, when there is no virtual offset; when
    there is one, the pointer advanced by F is then advanced by the virtual
    offset read through it. *)
Theorem this_adjusting_thunk_adjusts_this node s d da Thunk fn RetTy params cc attrs
    callee CallTy blocks :
  seen_error s = false ->
  trees s !! node_decl node = Some d ->
  HAS_RTL_P (TREE_CODE d) = true ->
  cached s (node_decl node) = ValuePtr (GlobalRef Thunk) ->
  TheModule s !! Thunk = Some fn ->
  gv_type fn = PointerTy (FunctionTy RetTy params false) ->
  gv_payload fn = Function cc attrs [] ->
  trees s !! thunk_alias (thunk node) = Some da ->
  HAS_RTL_P (TREE_CODE da) = true ->
  cached s (thunk_alias (thunk node)) = ValuePtr callee ->
  callee_return_type (TheModule s) callee = Some CallTy ->
  emit_thunk_body (thunk node) (IntPtrType s) RetTy params cc attrs callee CallTy []
  = Some blocks ->
  this_adjusting (thunk node) = true ->
  exists s' fn',
    emit_thunk node s = Some (tt, s')
    /\ TheModule s' !! Thunk = Some fn'
    /\ gv_payload fn' = Function cc attrs blocks
    /\ (forall mc args fa fuel,
           length args = length params ->
           Forall (fun x => uwrap (ptr_bits mc) x = x) args ->
           eval_constant mc callee = Some fa ->
           run_function (S fuel) mc blocks args
           = Some {| out_calls :=
                       [(fa, passed_arguments (adjust_this mc (thunk node)) attrs 0
                               false args)];
                     out_return :=
                       if isVoidTy RetTy then None
                       else Some (uwrap (ptr_bits mc)
                                    (call_result mc fa
                                       (passed_arguments (adjust_this mc (thunk node))
                                          attrs 0 false args))) |})
    /\ (forall mc P,
           adjust_this mc (thunk node) P
           = if virtual_offset_p (thunk node)
             then advanced mc (uwrap (ptr_bits mc) (P + fixed_offset (thunk node)))
                    (virtual_offset mc (virtual_value (thunk node))
                       (uwrap (ptr_bits mc) (P + fixed_offset (thunk node))))
             else uwrap (ptr_bits mc) (P + fixed_offset (thunk node))).
Proof.
  intros He Hd Hrtl Hc Hfn Hty Hpay Hda Hrtla Hca Hct Hbody Hthis.
  destruct (emit_thunk_runs node s d da Thunk fn RetTy params cc attrs callee CallTy
              blocks He Hd Hrtl Hc Hfn Hty Hpay Hda Hrtla Hca Hct Hbody)
    as ([] & s' & Hrun & fn' & Hfn' & Hpay' & _).
  exists s', fn'. split; [exact Hrun|]. split; [exact Hfn'|]. split; [exact Hpay'|].
  split.
  - intros mc args fa fuel Hlen Hcan Hfa.
    eapply this_adjusting_body_runs; eauto.
  - reflexivity.
Qed.

Lemma this_adjusting_thunk_adjusts_this_witness :
  exists s' blocks,
    emit_thunk ThunkUnit.this_thunk ThunkUnit.materialised = Some (tt, s')
    /\ (gv_payload <$> TheModule s' !! 1%positive) = Some (Function 0 [] blocks)
    /\ run_function 1 ThunkUnit.machine blocks [4096; 7]
       = Some {| out_calls := [(8192, [8240; 7])]; out_return := Some 8240 |}.
Proof.
  destruct (this_adjusting_thunk_adjusts_this ThunkUnit.this_thunk ThunkUnit.materialised
              (Unit.declaration FUNCTION_DECL "thunk" Unit.fn_type None true)
              (Unit.declaration FUNCTION_DECL "method" Unit.fn_type None true)
              1%positive (Function_new Unit.method_type ExternalLinkage "thunk")
              Int8PtrTy [Int8PtrTy; Int32Ty] 0%N [] (GlobalRef 2%positive) Int8PtrTy
              (default []
                 (emit_thunk_body (thunk ThunkUnit.this_thunk) (IntegerTy 64) Int8PtrTy
                    [Int8PtrTy; Int32Ty] 0 [] (GlobalRef 2%positive) Int8PtrTy [])))
    as (s' & fn' & H1 & H2 & H3 & H4 & _); try (vm_compute; reflexivity).
  eexists s', _. split; [exact H1|]. split; [rewrite H2; cbn; rewrite H3; reflexivity|].
  apply (H4 ThunkUnit.machine [4096; 7] 8192 0%nat).
  - reflexivity.
  - repeat constructor.
  - reflexivity.
Defined.

(** C6.  emit_thunk on a covariant-return thunk, the thunk and its target
    both materialised and the thunk still without body: the function it
    builds calls the target once with the arguments as they came in, and
    compares the pointer the call returned with null before anything else is
    done to it.  A null pointer is returned as null, no offset applied.  Any
    other pointer is returned advanced by the virtual offset read through
    it, when there is one, and after that by the fixed offset. *)
Theorem covariant_thunk_checks_null node s d da Thunk fn RetTy params cc attrs
    callee CallTy blocks :
  seen_error s = false ->
  trees s !! node_decl node = Some d ->
  HAS_RTL_P (TREE_CODE d) = true ->
  cached s (node_decl node) = ValuePtr (GlobalRef Thunk) ->
  TheModule s !! Thunk = Some fn ->
  gv_type fn = PointerTy (FunctionTy RetTy params false) ->
  gv_payload fn = Function cc attrs [] ->
  trees s !! thunk_alias (thunk node) = Some da ->
  HAS_RTL_P (TREE_CODE da) = true ->
  cached s (thunk_alias (thunk node)) = ValuePtr callee ->
  callee_return_type (TheModule s) callee = Some CallTy ->
  emit_thunk_body (thunk node) (IntPtrType s) RetTy params cc attrs callee CallTy []
  = Some blocks ->
  this_adjusting (thunk node) = false ->
  exists s' fn',
    emit_thunk node s = Some (tt, s')
    /\ TheModule s' !! Thunk = Some fn'
    /\ gv_payload fn' = Function cc attrs blocks
    /\ (forall mc args fa fuel,
           length args = length params ->
           eval_constant mc callee = Some fa ->
           run_function (S (S fuel)) mc blocks args
           = Some {| out_calls := [(fa, args)];
                     out_return :=
                       Some (if uwrap (ptr_bits mc) (call_result mc fa args) =? 0 then 0
                             else adjust_returned mc (thunk node)
                                    (uwrap (ptr_bits mc) (call_result mc fa args))) |})
    /\ (forall mc R,
           adjust_returned mc (thunk node) R
           = if virtual_offset_p (thunk node)
             then uwrap (ptr_bits mc)
                    (advanced mc R (virtual_offset mc (virtual_value (thunk node)) R)
                     + fixed_offset (thunk node))
             else uwrap (ptr_bits mc) (R + fixed_offset (thunk node))).
Proof.
  intros He Hd Hrtl Hc Hfn Hty Hpay Hda Hrtla Hca Hct Hbody Hthis.
  destruct (emit_thunk_runs node s d da Thunk fn RetTy params cc attrs callee CallTy
              blocks He Hd Hrtl Hc Hfn Hty Hpay Hda Hrtla Hca Hct Hbody)
    as ([] & s' & Hrun & fn' & Hfn' & Hpay' & _).
  exists s', fn'. split; [exact Hrun|]. split; [exact Hfn'|]. split; [exact Hpay'|].
  split.
  - intros mc args fa fuel Hlen Hfa.
    eapply covariant_body_runs; eauto.
  - intros mc R. unfold adjust_returned. now destruct (virtual_offset_p (thunk node)).
Qed.

Lemma covariant_thunk_checks_null_witness :
  exists s' blocks,
    emit_thunk ThunkUnit.covariant_thunk ThunkUnit.materialised = Some (tt, s')
    /\ (gv_payload <$> TheModule s' !! 1%positive) = Some (Function 0 [] blocks)
    /\ run_function 2 ThunkUnit.machine blocks [4096; 7]
       = Some {| out_calls := [(8192, [4096; 7])]; out_return := Some 4104 |}
    /\ run_function 2 ThunkUnit.machine blocks [0; 7]
       = Some {| out_calls := [(8192, [0; 7])]; out_return := Some 0 |}.
Proof.
  destruct (covariant_thunk_checks_null ThunkUnit.covariant_thunk ThunkUnit.materialised
              (Unit.declaration FUNCTION_DECL "thunk" Unit.fn_type None true)
              (Unit.declaration FUNCTION_DECL "method" Unit.fn_type None true)
              1%positive (Function_new Unit.method_type ExternalLinkage "thunk")
              Int8PtrTy [Int8PtrTy; Int32Ty] 0%N [] (GlobalRef 2%positive) Int8PtrTy
              (default []
                 (emit_thunk_body (thunk ThunkUnit.covariant_thunk) (IntegerTy 64) Int8PtrTy
                    [Int8PtrTy; Int32Ty] 0 [] (GlobalRef 2%positive) Int8PtrTy [])))
    as (s' & fn' & H1 & H2 & H3 & H4 & _); try (vm_compute; reflexivity).
  eexists s', _. split; [exact H1|]. split; [rewrite H2; cbn; rewrite H3; reflexivity|].
  split.
  - apply (H4 ThunkUnit.machine [4096; 7] 8192 0%nat); reflexivity.
  - apply (H4 ThunkUnit.machine [0; 7] 8192 0%nat); reflexivity.
Defined.

(** * Further properties of the code *)

(** ** The two namespaces of the declaration cache *)

(** X1.  get_decl_llvm reads back what set_decl_llvm stored for a
    declaration with RTL, a null pointer included; the call changes the
    cache entry of that declaration only, and nothing else of the state
    the module is read from. *)
Theorem decl_llvm_roundtrip (s : State) (t : tree) (d : tree_decl) (V : option Constant) :
  trees s !! t = Some d ->
  HAS_RTL_P (TREE_CODE d) = true ->
  exists s',
    set_decl_llvm t V s = Some (V, s')
    /\ get_decl_llvm t s' = Some (V, s')
    /\ (forall t', t' <> t -> cached s' t' = cached s t')
    /\ TheModule s' = TheModule s /\ trees s' = trees s.
Proof.
  intros Ht Hr. exists (upd_llvm_cache (insert t (Value_to_ptr V)) s).
  split; [|split; [|split; [|split]]].
  - unfold set_decl_llvm, llvm_set_cached.
    rewrite (bind_eq _ _ _ d s) by (apply decl_of_Some; eauto).
    rewrite Hr. reflexivity.
  - apply (get_decl_llvm_eq _ _ d); [exact Ht | exact Hr | apply cached_set].
  - intros t' Hne. unfold cached. cbn. now rewrite lookup_insert_ne.
  - reflexivity.
  - reflexivity.
Qed.

Lemma decl_llvm_roundtrip_witness :
  exists s',
    set_decl_llvm Unit.foo_public (Some (GlobalRef 5%positive)) Unit.start
    = Some (Some (GlobalRef 5%positive), s')
    /\ get_decl_llvm Unit.foo_public s' = Some (Some (GlobalRef 5%positive), s').
Proof.
  destruct (decl_llvm_roundtrip Unit.start Unit.foo_public
              (Unit.declaration VAR_DECL "foo" Unit.int_type
                 (Some (INTEGER_CST Unit.int_type 2)) true)
              (Some (GlobalRef 5%positive)))
    as (s' & H1 & H2 & _); [reflexivity | reflexivity |].
  exists s'. split; assumption.
Defined.

Lemma get_decl_index_has_no_rtl t s r :
  get_decl_index t s = Some r ->
  exists d, trees s !! t = Some d /\ HAS_RTL_P (TREE_CODE d) = false.
Proof.
  unfold get_decl_index. intros H.
  mbind H as d s0 Hd. apply decl_of_Some in Hd. destruct Hd as (d' & Hd & E).
  injection E as -> ->.
  mbind H as u s1 Ha. apply assert_Some in Ha. destruct Ha as [Ha _].
  exists d'. split; [exact Hd|]. now apply negb_true_iff.
Qed.

Lemma set_decl_index_has_no_rtl t i s r :
  set_decl_index t i s = Some r ->
  exists d, trees s !! t = Some d /\ HAS_RTL_P (TREE_CODE d) = false.
Proof.
  unfold set_decl_index. intros H.
  mbind H as d s0 Hd. apply decl_of_Some in Hd. destruct Hd as (d' & Hd & E).
  injection E as -> ->.
  mbind H as u s1 Ha. apply assert_Some in Ha. destruct Ha as [Ha _].
  exists d'. split; [exact Hd|]. now apply negb_true_iff.
Qed.

(** X2.  The value namespace and the index namespace never meet: where
    get_decl_llvm or set_decl_llvm gets past its assertion on HAS_RTL_P for
    a declaration, get_decl_index and set_decl_index abort on theirs, for
    every index. *)
Theorem decl_namespaces_are_disjoint (s : State) (t : tree) :
  is_Some (get_decl_llvm t s) \/ (exists V, is_Some (set_decl_llvm t V s)) ->
  get_decl_index t s = None /\ forall i, set_decl_index t i s = None.
Proof.
  intros H.
  assert (exists d, trees s !! t = Some d /\ HAS_RTL_P (TREE_CODE d) = true)
    as (d & Hd & Hr).
  { destruct H as [[[r s1] Hg] | (V & [r s1] & Hs)].
    - apply get_decl_llvm_inv in Hg. tauto.
    - apply set_decl_llvm_inv in Hs. tauto. }
  split.
  - destruct (get_decl_index t s) as [r'|] eqn:Hi; [|reflexivity].
    apply get_decl_index_has_no_rtl in Hi. destruct Hi as (d' & Hd' & Hr').
    rewrite Hd in Hd'. injection Hd' as <-. congruence.
  - intros i. destruct (set_decl_index t i s) as [r'|] eqn:Hi; [|reflexivity].
    apply set_decl_index_has_no_rtl in Hi. destruct Hi as (d' & Hd' & Hr').
    rewrite Hd in Hd'. injection Hd' as <-. congruence.
Qed.

Lemma decl_namespaces_are_disjoint_witness :
  get_decl_index Unit.foo_public Unit.start = None
  /\ set_decl_index Unit.foo_public 3 Unit.start = None.
Proof.
  destruct (decl_namespaces_are_disjoint Unit.start Unit.foo_public) as [H1 H2].
  - left. vm_compute. eexists. reflexivity.
  - split; [exact H1 | apply H2].
Defined.

(** ** Assembler names *)

(** X3.  The name LLVM gets for a declaration never begins with a star and
    is as long as the assembler name: it is the assembler name itself
    unless that begins with a star, the star is replaced by the character
    with code 1, and what follows the first character is what
    extractRegisterName returns for a starred name.  Without an assembler
    name it is empty. *)
Theorem getLLVMAssemblerName_has_no_star (d : tree_decl) :
  (forall rest, getLLVMAssemblerName d <> String "*" rest)
  /\ String.length (getLLVMAssemblerName d)
     = String.length (default "" (DECL_ASSEMBLER_NAME d))
  /\ (DECL_ASSEMBLER_NAME d = None /\ getLLVMAssemblerName d = ""
      \/ (exists rest, DECL_ASSEMBLER_NAME d = Some (String "*" rest)
                       /\ getLLVMAssemblerName d = String (ascii_of_nat 1) rest
                       /\ extractRegisterName d = Some rest)
      \/ (DECL_ASSEMBLER_NAME d = Some (getLLVMAssemblerName d)
          /\ extractRegisterName d = Some (getLLVMAssemblerName d))).
Proof.
  unfold getLLVMAssemblerName, extractRegisterName.
  destruct (DECL_ASSEMBLER_NAME d) as [[|c rest]|]; cbn.
  - split; [discriminate|]. split; [reflexivity|]. right. right. auto.
  - destruct (decide (c = "*"%char)) as [->|Hc].
    + split; [discriminate|]. split; [reflexivity|]. right. left. eauto.
    + assert (forall A (x y : A),
                 match c with
                 | "*"%char => x
                 | _ => y
                 end = y) as E.
      { intros A x y.
        destruct c as [[] [] [] [] [] [] [] []]; try reflexivity. contradiction. }
      rewrite !E. split; [congruence|]. split; [reflexivity|]. right. right. auto.
  - split; [discriminate|]. split; [reflexivity|]. left. auto.
Qed.

(** ** The size check of a global *)

(** Where nothing wraps around, the check is the rounding in the integers. *)
Lemma SizeOfGlobalMatchesDecl_in_range (TM : TargetMachine) (gv : GlobalValue)
    (d : tree_decl) (gcc_size : Z) (Ty : LType) :
  DECL_SIZE d = Some gcc_size ->
  getElementType (gv_type gv) = Some Ty ->
  isSized TM Ty = true ->
  0 < getABITypeAlignment TM Ty ->
  8 * getABITypeAlignment TM Ty < 2 ^ 32 ->
  0 <= gcc_size ->
  gcc_size + 8 * getABITypeAlignment TM Ty - 1 < 2 ^ 64 ->
  SizeOfGlobalMatchesDecl TM gv d
  = Some (bool_decide
            (getTypeAllocSizeInBits TM Ty
             = (gcc_size + 8 * getABITypeAlignment TM Ty - 1)
               / (8 * getABITypeAlignment TM Ty) * (8 * getABITypeAlignment TM Ty))).
Proof.
  intros Hs Ht Hz Ha Ha32 Hg Hg64. unfold SizeOfGlobalMatchesDecl.
  rewrite Hs, Ht, Hz. cbn [negb].
  set (A := 8 * getABITypeAlignment TM Ty) in *.
  assert (0 < A) as HA by (unfold A; lia).
  assert (uwrap 32 A = A) as -> by (unfold uwrap; apply Z.mod_small; lia).
  assert (uwrap 64 (gcc_size + A - 1) = gcc_size + A - 1) as ->
      by (unfold uwrap; apply Z.mod_small; lia).
  pose proof (Z.mul_div_le (gcc_size + A - 1) A HA) as Hle.
  assert (0 <= (gcc_size + A - 1) / A) as Hq by (apply Z.div_pos; lia).
  assert (uwrap 64 ((gcc_size + A - 1) / A * A) = (gcc_size + A - 1) / A * A) as ->
      by (unfold uwrap; apply Z.mod_small; nia).
  assert (((0 <=? gcc_size) && (gcc_size <? 2 ^ 64)) = true) as ->
      by (apply andb_true_intro; split; [apply Z.leb_le | apply Z.ltb_lt]; lia).
  cbn [negb]. assert ((A =? 0) = false) as -> by (apply Z.eqb_neq; lia).
  reflexivity.
Qed.

(** X4.  When the declaration has a size and the type of the global is
    sized, SizeOfGlobalMatchesDecl accepts exactly when the allocation size
    of the type is DECL_SIZE rounded up to the alignment in bits: a multiple
    of the alignment that is at least DECL_SIZE and less than one alignment
    above it.  The sizes are taken where the 64-bit arithmetic of the source
    does not wrap. *)
Theorem SizeOfGlobalMatchesDecl_rounds_up (TM : TargetMachine) (gv : GlobalValue)
    (d : tree_decl) (gcc_size : Z) (Ty : LType) :
  DECL_SIZE d = Some gcc_size ->
  getElementType (gv_type gv) = Some Ty ->
  isSized TM Ty = true ->
  0 < getABITypeAlignment TM Ty ->
  8 * getABITypeAlignment TM Ty < 2 ^ 32 ->
  0 <= gcc_size ->
  gcc_size + 8 * getABITypeAlignment TM Ty - 1 < 2 ^ 64 ->
  SizeOfGlobalMatchesDecl TM gv d = Some true
  <-> ((8 * getABITypeAlignment TM Ty | getTypeAllocSizeInBits TM Ty)
       /\ gcc_size <= getTypeAllocSizeInBits TM Ty
                   < gcc_size + 8 * getABITypeAlignment TM Ty).
Proof.
  intros Hs Ht Hz Ha Ha32 Hg Hg64.
  rewrite (SizeOfGlobalMatchesDecl_in_range TM gv d gcc_size Ty Hs Ht Hz Ha Ha32 Hg Hg64).
  set (A := 8 * getABITypeAlignment TM Ty). set (a := getTypeAllocSizeInBits TM Ty).
  assert (0 < A) as HA by (unfold A; lia).
  split; [intros [= E]; apply bool_decide_eq_true in E; revert E
         | intros E; f_equal; apply bool_decide_eq_true; revert E].
  - intros ->. split; [apply Z.divide_factor_r|].
    pose proof (Z.mul_div_le (gcc_size + A - 1) A HA).
    pose proof (Z.mul_succ_div_gt (gcc_size + A - 1) A HA). lia.
  - intros [[k ->] Hr].
    assert ((gcc_size + A - 1) / A = k) as ->; [|reflexivity].
    symmetry. apply (Z.div_unique_pos _ _ _ (gcc_size + A - 1 - k * A)); lia.
Qed.

Lemma SizeOfGlobalMatchesDecl_rounds_up_witness :
  SizeOfGlobalMatchesDecl Unit.target (GlobalVariable_new Int32Ty false ExternalLinkage "v")
    (Unit.declaration VAR_DECL "v" Unit.int_type None true) = Some true
  <-> ((8 * 4 | 32) /\ 32 <= 32 < 32 + 8 * 4).
Proof.
  apply (SizeOfGlobalMatchesDecl_rounds_up Unit.target
           (GlobalVariable_new Int32Ty false ExternalLinkage "v")
           (Unit.declaration VAR_DECL "v" Unit.int_type None true) 32 Int32Ty);
    first [reflexivity | lia].
Defined.

(** ** changeLLVMConstant on its own *)

Lemma rebind_structors_absent Old New l :
  (forall p, (GlobalRef Old, p) ∉ l) -> rebind_structors Old New l = l.
Proof.
  intros H. unfold rebind_structors. induction l as [|[c p] l IH]; [reflexivity|].
  cbn. destruct (decide (c = GlobalRef Old)) as [->|_].
  - exfalso. apply (H p). apply list_elem_of_here.
  - f_equal. apply IH. intros q Hq. apply (H q). now apply list_elem_of_further.
Qed.

Lemma rebind_cache_absent Old New (m : gmap tree void_ptr) :
  (forall t, default NullPtr (m !! t) <> ValuePtr (GlobalRef Old)) ->
  rebind_cache Old New m = m.
Proof.
  intros H. unfold rebind_cache. apply map_eq. intros t. rewrite lookup_fmap.
  specialize (H t). destruct (m !! t) as [p|]; [|reflexivity]. cbn in *.
  destruct (decide _); [contradiction | reflexivity].
Qed.

Lemma changeLLVMConstant_eq Old New s :
  use_empty Old s = true ->
  changeLLVMConstant Old New s
  = Some (tt,
          upd_llvm_cache (rebind_cache Old New)
            (upd_StaticDtors (rebind_structors Old New)
               (upd_StaticCtors (rebind_structors Old New)
                  (upd_AttributeCompilerUsedGlobals (rebind_roots Old New)
                     (upd_AttributeUsedGlobals (rebind_roots Old New) s))))).
Proof.
  intros Hu. unfold changeLLVMConstant, llvm_replace_cached, rebind_roots.
  rewrite (bind_eq _ _ _ s s) by reflexivity.
  rewrite (bind_eq _ _ _ tt s) by (apply assert_Some; auto).
  destruct s as [m dt tm tc odr cache ctors dtors used cused ann strs cfg tr ca va ec sc dg].
  unfold bind, get, modify, when, ret, upd_llvm_cache, upd_StaticDtors, upd_StaticCtors,
    upd_AttributeCompilerUsedGlobals, upd_AttributeUsedGlobals. cbn.
  destruct (SetVector_count (GlobalRef Old) used); cbn;
    destruct (SetVector_count (GlobalRef Old) cused); reflexivity.
Qed.

(** X5.  changeLLVMConstant aborts on its assertion while the old value
    still has a use.  When the old value has none and none of the
    collections holds it, the call changes nothing at all. *)
Theorem changeLLVMConstant_unreferenced (Old : sym) (New : Constant) (s : State) :
  (use_empty Old s = false -> changeLLVMConstant Old New s = None)
  /\ (use_empty Old s = true ->
      GlobalRef Old ∉ AttributeUsedGlobals s ->
      GlobalRef Old ∉ AttributeCompilerUsedGlobals s ->
      (forall p, (GlobalRef Old, p) ∉ StaticCtors s) ->
      (forall p, (GlobalRef Old, p) ∉ StaticDtors s) ->
      (forall t, cached s t <> ValuePtr (GlobalRef Old)) ->
      changeLLVMConstant Old New s = Some (tt, s)).
Proof.
  split.
  - intros Hu. unfold changeLLVMConstant.
    rewrite (bind_eq _ _ _ s s) by reflexivity.
    unfold bind. rewrite Hu. reflexivity.
  - intros Hu H1 H2 H3 H4 H5. rewrite (changeLLVMConstant_eq _ _ _ Hu).
    destruct s as [m dt tm tc odr cache ctors dtors used cused ann strs cfg tr ca va ec sc dg].
    unfold cached in H5.
    unfold upd_llvm_cache, upd_StaticDtors, upd_StaticCtors,
      upd_AttributeCompilerUsedGlobals, upd_AttributeUsedGlobals.
    cbn [TheModule detached TheTarget TheTypeConverter flag_odr llvm_cache StaticCtors
         StaticDtors AttributeUsedGlobals AttributeCompilerUsedGlobals
         AttributeAnnotateGlobals StringCSTCache config trees cgraph_asm varpool_asm
         errorcount sorrycount diagnostics] in *.
    rewrite (rebind_structors_absent _ _ _ H3), (rebind_structors_absent _ _ _ H4),
      (rebind_cache_absent _ _ _ H5).
    unfold rebind_roots, SetVector_count.
    rewrite !bool_decide_false by assumption. reflexivity.
Qed.

Lemma changeLLVMConstant_unreferenced_witness :
  changeLLVMConstant 2%positive (GlobalRef 1%positive)
    (after (make_decl_llvm Unit.foo_public) Unit.start)
  = Some (tt, after (make_decl_llvm Unit.foo_public) Unit.start).
Proof.
  apply (proj2 (changeLLVMConstant_unreferenced 2%positive (GlobalRef 1%positive)
                  (after (make_decl_llvm Unit.foo_public) Unit.start))).
  - reflexivity.
  - vm_compute. apply not_elem_of_nil.
  - vm_compute. apply not_elem_of_nil.
  - intros p. vm_compute. apply not_elem_of_nil.
  - intros p. vm_compute. apply not_elem_of_nil.
  - intros t. unfold cached.
    change (llvm_cache (after (make_decl_llvm Unit.foo_public) Unit.start))
      with (<[Unit.foo_public := ValuePtr (GlobalRef 1%positive)]>
              (∅ : gmap tree void_ptr)).
    destruct (decide (t = Unit.foo_public)) as [->|Hne].
    + rewrite lookup_insert_eq. discriminate.
    + rewrite lookup_insert_ne, lookup_empty by congruence. discriminate.
Defined.

Lemma NoDup_SetVector_insert x l : NoDup l -> NoDup (SetVector_insert x l).
Proof.
  intros H. unfold SetVector_insert. case_bool_decide as Hx; [exact H|].
  apply NoDup_app. split; [exact H|]. split.
  - intros y Hy Hy'. apply list_elem_of_singleton in Hy'. congruence.
  - apply NoDup_singleton.
Qed.

Lemma NoDup_rebind_roots Old New l : NoDup l -> NoDup (rebind_roots Old New l).
Proof.
  intros H. unfold rebind_roots. destruct (SetVector_count _ l); [|exact H].
  apply NoDup_SetVector_insert. unfold SetVector_remove. now apply NoDup_filter.
Qed.

Lemma elem_of_SetVector_insert x y l : y ∈ SetVector_insert x l <-> y = x \/ y ∈ l.
Proof.
  unfold SetVector_insert. case_bool_decide as Hx.
  - split; [auto | intros [->|?]; assumption].
  - rewrite elem_of_app, list_elem_of_singleton. tauto.
Qed.

Lemma elem_of_rebind_roots Old New l c :
  c ∈ rebind_roots Old New l
  <-> (c ∈ l /\ c <> GlobalRef Old) \/ (c = New /\ GlobalRef Old ∈ l)
      \/ (c ∈ l /\ GlobalRef Old ∉ l).
Proof.
  unfold rebind_roots, SetVector_count, SetVector_remove. case_bool_decide as Hin.
  - rewrite elem_of_SetVector_insert, list_elem_of_filter. tauto.
  - split; [intros H; right; right; auto|].
    intros [[? _] | [[_ ?] | [? _]]]; tauto.
Qed.

(** X6.  What changeLLVMConstant keeps: each of the two root sets, the
    used and the compiler-used one, has no duplicates afterwards if it had
    none, even when the new value was a root already, and its roots
    afterwards are the other roots, and the new value where the old one was
    a root; the constructors and the destructors keep their number, order
    and priorities; the cache binds the same declarations; the module is
    untouched. *)
Theorem changeLLVMConstant_keeps_sets (Old : sym) (New : Constant) (s s' : State) :
  changeLLVMConstant Old New s = Some (tt, s') ->
  (NoDup (AttributeUsedGlobals s) -> NoDup (AttributeUsedGlobals s'))
  /\ (NoDup (AttributeCompilerUsedGlobals s) -> NoDup (AttributeCompilerUsedGlobals s'))
  /\ (forall c, c ∈ AttributeUsedGlobals s'
                <-> (c ∈ AttributeUsedGlobals s /\ c <> GlobalRef Old)
                    \/ (c = New /\ GlobalRef Old ∈ AttributeUsedGlobals s)
                    \/ (c ∈ AttributeUsedGlobals s
                        /\ GlobalRef Old ∉ AttributeUsedGlobals s))
  /\ (forall c, c ∈ AttributeCompilerUsedGlobals s'
                <-> (c ∈ AttributeCompilerUsedGlobals s /\ c <> GlobalRef Old)
                    \/ (c = New /\ GlobalRef Old ∈ AttributeCompilerUsedGlobals s)
                    \/ (c ∈ AttributeCompilerUsedGlobals s
                        /\ GlobalRef Old ∉ AttributeCompilerUsedGlobals s))
  /\ (StaticCtors s').*2 = (StaticCtors s).*2
  /\ (StaticDtors s').*2 = (StaticDtors s).*2
  /\ dom (llvm_cache s') = dom (llvm_cache s)
  /\ TheModule s' = TheModule s.
Proof.
  intros H. apply changeLLVMConstant_inv in H.
  destruct H as (_ & Em & _ & _ & _ & Ec & E1 & E2 & E3 & E4).
  rewrite Ec, E1, E2, E3, E4.
  split; [apply NoDup_rebind_roots|]. split; [apply NoDup_rebind_roots|].
  split; [intros c; apply elem_of_rebind_roots|].
  split; [intros c; apply elem_of_rebind_roots|].
  assert (forall l, (rebind_structors Old New l).*2 = l.*2) as Hs.
  { intros l. unfold rebind_structors. induction l as [|[c p] l IH]; [reflexivity|].
    cbn. rewrite <- IH. now destruct (decide _). }
  split; [apply Hs|]. split; [apply Hs|].
  split; [unfold rebind_cache; apply dom_fmap_L | exact Em].
Qed.



Lemma changeLLVMConstant_keeps_sets_witness :
  AttributeUsedGlobals
    (after (changeLLVMConstant 1%positive (GlobalRef 2%positive)) RootUnit.two_roots)
  = [GlobalRef 2%positive]
  /\ AttributeCompilerUsedGlobals
       (after (changeLLVMConstant 1%positive (GlobalRef 2%positive)) RootUnit.two_roots)
     = [GlobalRef 3%positive; GlobalRef 2%positive]
  /\ NoDup (AttributeUsedGlobals
              (after (changeLLVMConstant 1%positive (GlobalRef 2%positive))
                     RootUnit.two_roots))
  /\ (GlobalRef 2%positive
      ∈ AttributeCompilerUsedGlobals
          (after (changeLLVMConstant 1%positive (GlobalRef 2%positive))
                 RootUnit.two_roots))
  /\ (StaticCtors
        (after (changeLLVMConstant 1%positive (GlobalRef 2%positive))
               RootUnit.two_roots)).*2 = [65535].
Proof.
  destruct (changeLLVMConstant_keeps_sets 1%positive (GlobalRef 2%positive)
              RootUnit.two_roots
              (after (changeLLVMConstant 1%positive (GlobalRef 2%positive))
                     RootUnit.two_roots)) as (H1 & _ & _ & Hc & H2 & _).
  - vm_compute. reflexivity.
  - split; [vm_compute; reflexivity|]. split; [vm_compute; reflexivity|]. split; [|split].
    + apply H1. apply NoDup_cons. split; [|apply NoDup_singleton].
      intros Hx. apply list_elem_of_singleton in Hx. discriminate.
    + apply Hc. right. left. split; [reflexivity|]. apply list_elem_of_here.
    + rewrite H2. reflexivity.
Defined.

(** ** Metadata strings and annotations *)

(** What one call of ConvertMetadataStringToGV does, and the next one. *)
Lemma ConvertMetadataStringToGV_runs (str : string) (s : State) :
  exists g s1,
    ConvertMetadataStringToGV str s = Some (GlobalRef g, s1)
    /\ ConvertMetadataStringToGV str s1 = Some (GlobalRef g, s1)
    /\ StringCSTCache s1 !! str = Some g
    /\ (forall g', g' <> g -> TheModule s1 !! g' = TheModule s !! g')
    /\ match StringCSTCache s !! str with
       | Some g0 => g = g0 /\ s1 = s
       | None =>
           TheModule s !! g = None
           /\ TheModule s1 !! g
              = Some {| gv_name := unique_name (TheModule s) ".str";
                        gv_type := PointerTy (ArrayTy Int8Ty
                                                (N.of_nat (String.length str) + 1));
                        gv_linkage := PrivateLinkage;
                        gv_visibility := DefaultVisibility;
                        gv_section := "llvm.metadata"; gv_alignment := 0;
                        gv_payload :=
                          GlobalVariable
                            (Some (ConstantString
                                     (ArrayTy Int8Ty (N.of_nat (String.length str) + 1))
                                     str)) true false |}
       end.
Proof.
  unfold ConvertMetadataStringToGV.
  destruct (StringCSTCache s !! str) as [g0|] eqn:Ec.
  - exists g0, s. unfold bind, gets, ret. rewrite Ec. auto 10.
  - set (v := {| gv_name := ".str"; gv_type := _ |}).
    set (g := fresh (live s)).
    set (v1 := with_name (unique_name (TheModule s) (gv_name v)) v).
    exists g, (upd_StringCSTCache (insert str g)
                 (upd_TheModule (insert g (with_section "llvm.metadata" v1))
                    (upd_TheModule (insert g v1) s))).
    split; [|split; [|split; [|split; [|split]]]].
    + unfold bind at 1, gets. rewrite Ec.
      rewrite (bind_eq _ _ _ g (upd_TheModule (insert g v1) s)) by reflexivity.
      rewrite (bind_eq _ _ _ tt (upd_TheModule (insert g (with_section "llvm.metadata" v1))
                                   (upd_TheModule (insert g v1) s))).
      * reflexivity.
      * apply update_global_eq. cbn. apply lookup_insert_eq.
    + unfold bind at 1, gets. cbn. rewrite lookup_insert_eq. reflexivity.
    + cbn. apply lookup_insert_eq.
    + intros g' Hg'. cbn. now rewrite !lookup_insert_ne by congruence.
    + apply fresh_live_not_in_module.
    + cbn. rewrite lookup_insert_eq. reflexivity.
Qed.

(** X7.  ConvertMetadataStringToGV always returns a global, and asking
    again for the same string returns the same global and changes nothing.
    A string seen before costs nothing; a new one adds exactly one global:
    private, constant, in section llvm.metadata, holding the string with
    its terminator, at an address no global had, every other global left as
    it was. *)
Theorem ConvertMetadataStringToGV_caches (str : string) (s : State) :
  exists g s1,
    ConvertMetadataStringToGV str s = Some (GlobalRef g, s1)
    /\ ConvertMetadataStringToGV str s1 = Some (GlobalRef g, s1)
    /\ StringCSTCache s1 !! str = Some g
    /\ (forall g', g' <> g -> TheModule s1 !! g' = TheModule s !! g')
    /\ match StringCSTCache s !! str with
       | Some g0 => g = g0 /\ s1 = s
       | None =>
           TheModule s !! g = None
           /\ TheModule s1 !! g
              = Some {| gv_name := unique_name (TheModule s) ".str";
                        gv_type := PointerTy (ArrayTy Int8Ty
                                                (N.of_nat (String.length str) + 1));
                        gv_linkage := PrivateLinkage;
                        gv_visibility := DefaultVisibility;
                        gv_section := "llvm.metadata"; gv_alignment := 0;
                        gv_payload :=
                          GlobalVariable
                            (Some (ConstantString
                                     (ArrayTy Int8Ty (N.of_nat (String.length str) + 1))
                                     str)) true false |}
       end.
Proof. apply ConvertMetadataStringToGV_runs. Qed.

Lemma attribute_args_without name attrs :
  has_attribute name attrs = false -> attribute_args name attrs = [].
Proof.
  unfold has_attribute, attribute_args. intros H. apply bool_decide_eq_false in H.
  induction attrs as [|a attrs IH]; [reflexivity|].
  rewrite filter_cons. destruct (decide (a.1 = name)) as [E|E].
  - exfalso. apply H. now apply Exists_cons_hd.
  - apply IH. intros Hx. apply H. now apply Exists_cons_tl.
Qed.

(** X8.  AddAnnotateAttrsToGlobal, for a global of the module and a string
    cache that names globals of the module, always returns.  It appends one
    entry for each argument of each annotate attribute, in the order of the
    attributes, after the entries there were; every new entry names the
    global, cast to a byte pointer, the same file constant and the line of the
    declaration.  Without an annotate attribute nothing changes. *)
Theorem AddAnnotateAttrsToGlobal_entries (GV : sym) (d : tree_decl) (s : State)
    (v : GlobalValue) :
  TheModule s !! GV = Some v ->
  (forall str g, StringCSTCache s !! str = Some g -> is_Some (TheModule s !! g)) ->
  exists s' file gvc,
    AddAnnotateAttrsToGlobal GV d s = Some (tt, s')
    /\ AttributeAnnotateGlobals s'
       = AttributeAnnotateGlobals s
         ++ map (fun text => {| ann_global := gvc; ann_text := text; ann_file := file;
                                ann_line := DECL_SOURCE_LINE d |})
                (attribute_args "annotate" (DECL_ATTRIBUTES d))
    /\ (gvc = GlobalRef GV \/ gvc = BitCastExpr (GlobalRef GV) Int8PtrTy)
    /\ length (AttributeAnnotateGlobals s')
       = (length (AttributeAnnotateGlobals s)
          + length (attribute_args "annotate" (DECL_ATTRIBUTES d)))%nat
    /\ (has_attribute "annotate" (DECL_ATTRIBUTES d) = false -> s' = s).
Proof.
  intros Hv Hok. unfold AddAnnotateAttrsToGlobal.
  destruct (has_attribute "annotate" (DECL_ATTRIBUTES d)) eqn:Ha; cbn [negb].
  - destruct (ConvertMetadataStringToGV_runs (DECL_SOURCE_FILE d) s)
      as (g & s1 & Hrun & _ & _ & Hother & Hcase).
    assert (exists vg, TheModule s1 !! g = Some vg) as (vg & Hvg).
    { destruct (StringCSTCache s !! DECL_SOURCE_FILE d) as [g0|] eqn:Ec.
      - destruct Hcase as [-> ->]. exact (Hok _ _ Ec).
      - destruct Hcase as [_ Hnew]. eauto. }
    assert (exists v1, TheModule s1 !! GV = Some v1) as (v1 & Hv1).
    { destruct (decide (GV = g)) as [->|Hne]; [eauto|].
      rewrite Hother by exact Hne. eauto. }
    assert (runs (do file <- ConvertMetadataStringToGV (DECL_SOURCE_FILE d);
                  do file0 <- CreateBitCastM file Int8PtrTy;
                  do gv <- CreateBitCastM (GlobalRef GV) Int8PtrTy;
                  modify (upd_AttributeAnnotateGlobals (fun l =>
                    l ++ map (fun text => {| ann_global := gv; ann_text := text;
                                             ann_file := file0;
                                             ann_line := DECL_SOURCE_LINE d |})
                             (attribute_args "annotate" (DECL_ATTRIBUTES d))))) s
              (fun _ s' =>
                 exists file gvc,
                   AttributeAnnotateGlobals s'
                   = AttributeAnnotateGlobals s1
                     ++ map (fun text => {| ann_global := gvc; ann_text := text;
                                            ann_file := file;
                                            ann_line := DECL_SOURCE_LINE d |})
                            (attribute_args "annotate" (DECL_ATTRIBUTES d))
                   /\ (gvc = GlobalRef GV \/ gvc = BitCastExpr (GlobalRef GV) Int8PtrTy)))
      as ([] & s' & Hr & file & gvc & Ea & Hg).
    { apply runs_bind. exists (GlobalRef g), s1. split; [exact Hrun|].
      eapply runs_bind, runs_CreateBitCastM; [exact Hvg|]. intros file _.
      eapply runs_bind, runs_CreateBitCastM; [exact Hv1|]. intros gvc Hg.
      apply runs_modify. exists file, gvc. split; [reflexivity | exact Hg]. }
    assert (AttributeAnnotateGlobals s1 = AttributeAnnotateGlobals s) as E1.
    { destruct (StringCSTCache s !! DECL_SOURCE_FILE d) as [g0|] eqn:Ec.
      - destruct Hcase as [_ ->]. reflexivity.
      - revert Hrun. unfold ConvertMetadataStringToGV. unfold bind at 1, gets.
        rewrite Ec. intros Hrun.
        apply bind_Some in Hrun. destruct Hrun as (g1 & sa & Hn & Hrun).
        apply new_global_inv in Hn. destruct Hn as (_ & _ & ->).
        apply bind_Some in Hrun. destruct Hrun as (u & sb & Hu & Hrun).
        apply update_global_inv in Hu. destruct Hu as (vu & _ & ->).
        apply bind_Some in Hrun. destruct Hrun as (u2 & sc & Hm & Hrun).
        unfold modify in Hm. injection Hm as _ <-.
        unfold ret in Hrun. injection Hrun as _ <-. reflexivity. }
    exists s', file, gvc. split; [exact Hr|]. rewrite Ea, E1.
    split; [reflexivity|]. split; [exact Hg|].
    split; [now rewrite length_app, length_map | discriminate].
  - exists s, (GlobalRef GV), (GlobalRef GV). split; [reflexivity|].
    rewrite (attribute_args_without _ _ Ha). cbn. rewrite app_nil_r.
    split; [reflexivity|]. split; [auto|]. split; [lia | auto].
Qed.

Lemma AddAnnotateAttrsToGlobal_entries_witness :
  exists s',
    AddAnnotateAttrsToGlobal 1%positive
      (Unit.with_attributes [("annotate", ["hot"; "io"]); ("used", []); ("annotate", ["x"])]
         (Unit.declaration VAR_DECL "foo" Unit.int_type None true))
      (after (make_decl_llvm Unit.foo_public) Unit.start) = Some (tt, s')
    /\ ann_text <$> AttributeAnnotateGlobals s' = ["hot"; "io"; "x"].
Proof.
  destruct (AddAnnotateAttrsToGlobal_entries 1%positive
              (Unit.with_attributes
                 [("annotate", ["hot"; "io"]); ("used", []); ("annotate", ["x"])]
                 (Unit.declaration VAR_DECL "foo" Unit.int_type None true))
              (after (make_decl_llvm Unit.foo_public) Unit.start)
              (GlobalVariable_new Int32Ty false ExternalLinkage "foo"))
    as (s' & file & gvc & H1 & H2 & _).
  - vm_compute. reflexivity.
  - intros str g H. vm_compute in H. discriminate H.
  - exists s'. split; [exact H1|]. rewrite H2. reflexivity.
Defined.

(** ** What make_decl_llvm declares *)

Lemma getNamedValue_None m Name g v :
  getNamedValue m Name = None -> Name <> "" -> m !! g = Some v -> gv_name v <> Name.
Proof.
  unfold getNamedValue. intros H Hn Hg E.
  destruct (decide (Name = "")); [done|].
  apply fmap_None in H. apply list_find_None in H.
  rewrite Forall_forall in H.
  apply (H (g, v)); [|exact E].
  now apply elem_of_map_to_list.
Qed.

Lemma getNamedValue_Some m Name g :
  getNamedValue m Name = Some g -> exists v, m !! g = Some v /\ gv_name v = Name.
Proof.
  unfold getNamedValue. destruct (decide (Name = "")); [discriminate|].
  intros H. apply fmap_Some in H. destruct H as ([i [g' v]] & H & ->).
  apply list_find_Some in H. destruct H as (Hi & Hn & _). cbn in *.
  exists v. split; [|exact Hn].
  apply elem_of_map_to_list. now apply list_elem_of_lookup_2 in Hi.
Qed.

(** A name only one global value carries is found at that value. *)
Lemma getNamedValue_only m Name g v :
  Name <> "" -> m !! g = Some v -> gv_name v = Name ->
  (forall g' v', m !! g' = Some v' -> gv_name v' = Name -> g' = g) ->
  getNamedValue m Name = Some g.
Proof.
  intros Hn Hg Hv Hu. unfold getNamedValue.
  destruct (decide (Name = "")); [done|].
  destruct (list_find _ _) as [[i [g' v']]|] eqn:E.
  - apply list_find_Some in E. destruct E as (Hi & Hn' & _). cbn in *.
    apply list_elem_of_lookup_2, elem_of_map_to_list in Hi.
    now rewrite (Hu g' v' Hi Hn').
  - apply list_find_None in E. rewrite Forall_forall in E.
    exfalso. apply (E (g, v)); [|exact Hv]. now apply elem_of_map_to_list.
Qed.

Lemma getNamedValue_insert_new m Name g v :
  getNamedValue m Name = None -> Name <> "" -> gv_name v = Name ->
  getNamedValue (<[g:=v]> m) Name = Some g.
Proof.
  intros H Hn Hv. apply (getNamedValue_only _ _ g v Hn).
  - apply lookup_insert_eq.
  - exact Hv.
  - intros g' v' Hg' Hv'. destruct (decide (g' = g)) as [|Hne]; [done|].
    rewrite lookup_insert_ne in Hg' by done.
    now destruct (getNamedValue_None _ _ _ _ H Hn Hg').
Qed.

Lemma getFunction_None m Name : getNamedValue m Name = None -> getFunction m Name = None.
Proof. unfold getFunction. now intros ->. Qed.
Lemma getGlobalVariable_None m Name :
  getNamedValue m Name = None -> getGlobalVariable m Name = None.
Proof. unfold getGlobalVariable. now intros ->. Qed.

Lemma unique_name_free m Name : getNamedValue m Name = None -> unique_name m Name = Name.
Proof. unfold unique_name. now intros ->. Qed.

Lemma getFunction_Some m Name F :
  getFunction m Name = Some F ->
  Name <> "" /\ exists v, m !! F = Some v /\ gv_name v = Name /\ isFunction v = true.
Proof.
  unfold getFunction. destruct (getNamedValue m Name) as [g|] eqn:E; [|discriminate].
  assert (Name <> "") as Hn.
  { intros ->. unfold getNamedValue in E. now destruct (decide _). }
  apply getNamedValue_Some in E. destruct E as (v & Hv & Hname).
  rewrite Hv. destruct (isFunction v) eqn:Hf; [|discriminate].
  intros [= <-]. eauto.
Qed.

Lemma getGlobalVariable_Some m Name G :
  getGlobalVariable m Name = Some G ->
  Name <> "" /\ exists v, m !! G = Some v /\ gv_name v = Name /\ isGlobalVariable v = true.
Proof.
  unfold getGlobalVariable. destruct (getNamedValue m Name) as [g|] eqn:E; [|discriminate].
  assert (Name <> "") as Hn.
  { intros ->. unfold getNamedValue in E. now destruct (decide _). }
  apply getNamedValue_Some in E. destruct E as (v & Hv & Hname).
  rewrite Hv. destruct (isGlobalVariable v) eqn:Hf; [|discriminate].
  intros [= <-]. eauto.
Qed.

Lemma handleVisibility_eq d g v s :
  TheModule s !! g = Some v ->
  handleVisibility d g s
  = Some (tt, upd_TheModule
                (insert g (with_visibility (forwarded_visibility d (gv_visibility v)) v)) s).
Proof.
  intros Hv. unfold handleVisibility, forwarded_visibility.
  assert (Some (tt, s)
          = Some (tt, upd_TheModule
                        (insert g (with_visibility (gv_visibility v) v)) s)) as Hid.
  { replace (with_visibility (gv_visibility v) v) with v by now destruct v.
    now rewrite (upd_TheModule_insert_id g v s Hv). }
  destruct (_ && _); [destruct (DECL_VISIBILITY d)|];
    first [exact Hid | now apply update_global_eq].
Qed.

Lemma check_external_weak_eq d g v s :
  TheModule s !! g = Some v ->
  check_external_weak d g s
  = Some (tt, upd_TheModule
                (insert g (if DECL_EXTERNAL d && DECL_WEAK d
                           then with_linkage ExternalWeakLinkage v else v)) s).
Proof.
  intros Hv. unfold check_external_weak. destruct (_ && _); cbn.
  - now apply update_global_eq.
  - now rewrite (upd_TheModule_insert_id g v s Hv).
Qed.

Lemma set_DECL_COMMON_same d : DECL_COMMON d = false -> set_DECL_COMMON false d = d.
Proof. destruct d. cbn. now intros ->. Qed.

Lemma upd_trees_insert_id t d s : trees s !! t = Some d -> upd_trees (insert t d) s = s.
Proof.
  intros H. destruct s. unfold upd_trees. cbn in *.
  now rewrite (insert_id _ _ _ H).
Qed.

(** The second step of the bookkeeping: DECL_COMMON is cleared where a
    variable cannot be common. *)
Lemma clear_common_eq decl d s :
  trees s !! decl = Some d ->
  (do _ <- when (bool_decide (TREE_CODE d = VAR_DECL)
                 && bool_decide (DECL_SECTION_NAME d <> None)
                 && bool_decide (DECL_INITIAL d = None) && DECL_COMMON d)
             (modify (upd_trees (insert decl (set_DECL_COMMON false d))));
   do d <- decl_of decl;
   when (bool_decide (TREE_CODE d = VAR_DECL) && DECL_WEAK d)
     (modify (upd_trees (insert decl (set_DECL_COMMON false d))))) s
  = Some (tt, upd_trees (insert decl (uncommon d)) s).
Proof.
  intros Hd.
  unfold uncommon.
  destruct (bool_decide (TREE_CODE d = VAR_DECL)) eqn:Ev; cbn [andb].
  - destruct (bool_decide (DECL_SECTION_NAME d <> None)
              && bool_decide (DECL_INITIAL d = None)) eqn:Es; cbn [andb].
    + destruct (DECL_COMMON d) eqn:Ec.
      * cbn [when].
        rewrite (bind_eq _ _ _ tt (upd_trees (insert decl (set_DECL_COMMON false d)) s))
          by reflexivity.
        rewrite (bind_eq _ _ _ (set_DECL_COMMON false d)
                   (upd_trees (insert decl (set_DECL_COMMON false d)) s))
          by (apply decl_of_Some; eexists; split; [apply lookup_insert_eq | reflexivity]).
        rewrite orb_true_r. cbn [TREE_CODE set_DECL_COMMON]. rewrite Ev. cbn [andb].
        destruct (DECL_WEAK (set_DECL_COMMON false d)); cbn [when].
        -- unfold modify. destruct s. unfold upd_trees. cbn.
           now rewrite insert_insert_eq.
        -- reflexivity.
      * cbn [when]. rewrite (bind_eq _ _ _ tt s) by reflexivity.
        rewrite (bind_eq _ _ _ d s) by (apply decl_of_Some; eauto).
        rewrite Ev, orb_true_r. cbn [andb].
        rewrite (set_DECL_COMMON_same d Ec), (upd_trees_insert_id _ _ _ Hd).
        destruct (DECL_WEAK d); cbn [when]; [|reflexivity].
        unfold modify. now rewrite (upd_trees_insert_id _ _ _ Hd).
    + cbn [when]. rewrite (bind_eq _ _ _ tt s) by reflexivity.
      rewrite (bind_eq _ _ _ d s) by (apply decl_of_Some; eauto).
      rewrite Ev, orb_false_r. cbn [andb].
      destruct (DECL_WEAK d); cbn [when]; [reflexivity|].
      now rewrite (upd_trees_insert_id _ _ _ Hd).
  - cbn [when]. rewrite (bind_eq _ _ _ tt s) by reflexivity.
    rewrite (bind_eq _ _ _ d s) by (apply decl_of_Some; eauto).
    rewrite Ev. cbn [andb when]. now rewrite (upd_trees_insert_id _ _ _ Hd).
Qed.

(** The bookkeeping on a declaration: the declaration is the same but for
    DECL_COMMON. *)
Lemma make_decl_llvm_prepare_eq decl d Name s :
  trees s !! decl = Some d ->
  make_decl_llvm_prepare decl d Name s
  = Some (tt, upd_trees (insert decl (uncommon d)) s).
Proof. intros Hd. unfold make_decl_llvm_prepare. now apply clear_common_eq. Qed.

Lemma runs_eq {A} (c : M A) s a s1 (Q : A -> State -> Prop) :
  c s = Some (a, s1) -> Q a s1 -> runs c s Q.
Proof. intros H HQ. exists a, s1. auto. Qed.

Lemma runs_exactly {A} (c : M A) s a s1 :
  runs c s (fun a' s' => a' = a /\ s' = s1) -> c s = Some (a, s1).
Proof. now intros (a' & s' & H & -> & ->). Qed.

Lemma upd_TheModule_insert_insert g v v' s :
  upd_TheModule (insert g v') (upd_TheModule (insert g v) s) = upd_TheModule (insert g v') s.
Proof. destruct s. unfold upd_TheModule. cbn. now rewrite insert_insert_eq. Qed.

Lemma lookup_upd_TheModule_insert g v s :
  TheModule (upd_TheModule (insert g v) s) !! g = Some v.
Proof. cbn. apply lookup_insert_eq. Qed.

Lemma when_update_global_eq (b : bool) g f v s :
  TheModule s !! g = Some v ->
  when b (update_global g f) s
  = Some (tt, upd_TheModule (insert g (if b then f v else v)) s).
Proof.
  intros Hv. destruct b; cbn [when].
  - now apply update_global_eq.
  - now rewrite (upd_TheModule_insert_id g v s Hv).
Qed.

Lemma uncommon_code d : TREE_CODE (uncommon d) = TREE_CODE d.
Proof. unfold uncommon. now destruct (_ && _). Qed.
Lemma uncommon_type d : TREE_TYPE (uncommon d) = TREE_TYPE d.
Proof. unfold uncommon. now destruct (_ && _). Qed.
Lemma uncommon_linkage d : declared_linkage (uncommon d) = declared_linkage d.
Proof. unfold uncommon. now destruct (_ && _). Qed.
Lemma uncommon_visibility d x :
  forwarded_visibility (uncommon d) x = forwarded_visibility d x.
Proof. unfold uncommon. now destruct (_ && _). Qed.
Lemma uncommon_constant d : declared_constant (uncommon d) = declared_constant d.
Proof. unfold uncommon. now destruct (_ && _). Qed.
Lemma uncommon_thread_local d :
  declared_thread_local (uncommon d) = declared_thread_local d.
Proof. unfold uncommon. now destruct (_ && _). Qed.
Lemma uncommon_function d : TREE_CODE d = FUNCTION_DECL -> uncommon d = d.
Proof. unfold uncommon. now intros ->. Qed.

(** The function branch when no global value has the name: a declaration
    is created under it. *)
Lemma make_decl_llvm_function_new decl d Name s Ty CC PAL :
  Name <> "" -> getNamedValue (TheModule s) Name = None ->
  ConvertFunctionType (TheTypeConverter s) (TREE_TYPE d) decl = (Ty, CC, PAL) ->
  make_decl_llvm_function decl d Name s
  = Some (fresh (live s),
          upd_TheModule
            (insert (fresh (live s))
               {| gv_name := Name; gv_type := PointerTy Ty;
                  gv_linkage := declared_linkage d;
                  gv_visibility := forwarded_visibility d DefaultVisibility;
                  gv_section := ""; gv_alignment := 0;
                  gv_payload := Function CC PAL [] |}) s).
Proof.
  intros Hn Hfree Hty. apply runs_exactly. unfold make_decl_llvm_function.
  apply runs_bind, runs_assert; [now apply negb_true_iff, bool_decide_eq_false|].
  apply runs_bind, runs_gets. rewrite (getFunction_None _ _ Hfree).
  apply runs_bind, runs_gets. rewrite Hty.
  apply runs_bind. eapply runs_eq; [reflexivity|].
  cbn [gv_name Function_new]. rewrite (unique_name_free _ _ Hfree).
  set (F := fresh (live s)).
  apply runs_bind. eapply runs_eq;
    [apply update_global_eq, lookup_upd_TheModule_insert|].
  rewrite upd_TheModule_insert_insert.
  apply runs_bind. eapply runs_eq;
    [apply update_global_eq, lookup_upd_TheModule_insert|].
  rewrite upd_TheModule_insert_insert.
  apply runs_bind. eapply runs_eq;
    [apply check_external_weak_eq, lookup_upd_TheModule_insert|].
  rewrite upd_TheModule_insert_insert.
  apply runs_bind. eapply runs_eq;
    [apply handleVisibility_eq, lookup_upd_TheModule_insert|].
  rewrite upd_TheModule_insert_insert.
  apply runs_bind. eapply runs_global_of; [apply lookup_upd_TheModule_insert|].
  assert (forall x y, gv_name (with_visibility x y) = gv_name y) as Ev by reflexivity.
  rewrite Ev.
  assert (forall y : GlobalValue,
             gv_name (if DECL_EXTERNAL d && DECL_WEAK d
                      then with_linkage ExternalWeakLinkage y else y) = gv_name y) as El
    by (intros y; now destruct (_ && _)).
  rewrite El. cbn [gv_name setAttributes setCallingConv with_name Function_new
                     gv_payload with_payload].
  rewrite bool_decide_eq_false_2 by (intros H; now apply H).
  apply runs_bind, runs_ret, runs_ret. split; [reflexivity|].
  f_equal. f_equal. unfold declared_linkage. now destruct (_ && _).
Qed.

(** The function branch when a function has the name: it is reused. *)
Lemma make_decl_llvm_function_old decl d Name s F :
  getFunction (TheModule s) Name = Some F ->
  make_decl_llvm_function decl d Name s = Some (F, s).
Proof.
  intros HF. apply runs_exactly. unfold make_decl_llvm_function.
  destruct (getFunction_Some _ _ _ HF) as (Hn & _).
  apply runs_bind, runs_assert; [now apply negb_true_iff, bool_decide_eq_false|].
  apply runs_bind, runs_gets. rewrite HF. now apply runs_ret.
Qed.

Lemma checking_accepts_function d : TREE_CODE d = FUNCTION_DECL -> checking_rejects d = false.
Proof. unfold checking_rejects. now intros ->. Qed.

(** The run of make_decl_llvm up to the point where the global value is
    looked up or created, for a declaration that is not cached and not a
    register variable. *)
Lemma make_decl_llvm_enter decl s d :
  trees s !! decl = Some d -> HAS_RTL_P (TREE_CODE d) = true ->
  cached s decl = NullPtr -> seen_error s = false ->
  ENABLE_CHECKING (config s) && checking_rejects d = false ->
  bool_decide (TREE_CODE d <> FUNCTION_DECL) && DECL_REGISTER d = false ->
  make_decl_llvm decl s
  = (if bool_decide (TREE_CODE d = FUNCTION_DECL) then
       do FnEntry <- make_decl_llvm_function decl (uncommon d) (llvm_name d);
       SET_DECL_LLVM decl (GlobalRef FnEntry)
     else
       do GV <- make_decl_llvm_variable decl (uncommon d) (llvm_name d);
       SET_DECL_LLVM decl (GlobalRef GV))
      (upd_trees (insert decl (uncommon d)) s).
Proof.
  intros Hd Hrtl Hc He Hchk Hreg. unfold make_decl_llvm.
  rewrite (bind_eq _ _ _ None s) by now apply (get_decl_llvm_eq _ _ d None).
  rewrite (bind_eq _ _ _ d s) by (apply decl_of_Some; eauto).
  rewrite (bind_eq _ _ _ (config s) s) by reflexivity.
  rewrite Hchk. cbn [negb].
  rewrite (bind_eq _ _ _ tt s) by reflexivity.
  rewrite (bind_eq _ _ _ s s) by reflexivity.
  rewrite He, Hreg. fold (llvm_name d).
  rewrite (bind_eq _ _ _ _ _ (make_decl_llvm_prepare_eq _ _ _ _ Hd)).
  rewrite (bind_eq _ _ _ (uncommon d) (upd_trees (insert decl (uncommon d)) s))
    by (apply decl_of_Some; eexists; split; [apply lookup_insert_eq | reflexivity]).
  now rewrite uncommon_code.
Qed.

Lemma SET_DECL_LLVM_eq t c s d :
  trees s !! t = Some d -> HAS_RTL_P (TREE_CODE d) = true ->
  SET_DECL_LLVM t c s = Some (Some c, upd_llvm_cache (insert t (ValuePtr c)) s).
Proof.
  intros Hd Hr. unfold SET_DECL_LLVM, set_decl_llvm, llvm_set_cached.
  rewrite (bind_eq _ _ _ d s) by (apply decl_of_Some; eauto).
  now rewrite Hr.
Qed.

Lemma make_decl_llvm_new_function decl s d Ty CC PAL :
  trees s !! decl = Some d -> TREE_CODE d = FUNCTION_DECL ->
  cached s decl = NullPtr -> seen_error s = false ->
  getLLVMAssemblerName d <> "" ->
  getNamedValue (TheModule s) (getLLVMAssemblerName d) = None ->
  ConvertFunctionType (TheTypeConverter s) (TREE_TYPE d) decl = (Ty, CC, PAL) ->
  make_decl_llvm decl s
  = Some (Some (GlobalRef (fresh (live s))),
          upd_llvm_cache (insert decl (ValuePtr (GlobalRef (fresh (live s)))))
            (upd_TheModule
               (insert (fresh (live s))
                  {| gv_name := getLLVMAssemblerName d; gv_type := PointerTy Ty;
                     gv_linkage := declared_linkage d;
                     gv_visibility := forwarded_visibility d DefaultVisibility;
                     gv_section := ""; gv_alignment := 0;
                     gv_payload := Function CC PAL [] |}) s)).
Proof.
  intros Hd Hcode Hc He Hn Hfree Hty.
  assert (llvm_name d = getLLVMAssemblerName d) as En
    by (unfold llvm_name; now rewrite Hcode).
  rewrite (make_decl_llvm_enter decl s d Hd); try done.
  - rewrite Hcode, bool_decide_eq_true_2 by done.
    rewrite En, (uncommon_function d Hcode), (upd_trees_insert_id _ _ _ Hd).
    rewrite (bind_eq _ _ _ _ _ (make_decl_llvm_function_new _ _ _ _ _ _ _ Hn Hfree Hty)).
    apply (SET_DECL_LLVM_eq _ _ _ d); [exact Hd | now rewrite Hcode].
  - now rewrite Hcode.
  - rewrite (checking_accepts_function d Hcode). apply andb_false_r.
  - now rewrite Hcode.
Qed.

Lemma make_decl_llvm_old_function decl s d F :
  trees s !! decl = Some d -> TREE_CODE d = FUNCTION_DECL ->
  cached s decl = NullPtr -> seen_error s = false ->
  getFunction (TheModule s) (getLLVMAssemblerName d) = Some F ->
  make_decl_llvm decl s
  = Some (Some (GlobalRef F), upd_llvm_cache (insert decl (ValuePtr (GlobalRef F))) s).
Proof.
  intros Hd Hcode Hc He HF.
  assert (llvm_name d = getLLVMAssemblerName d) as En
    by (unfold llvm_name; now rewrite Hcode).
  rewrite (make_decl_llvm_enter decl s d Hd); try done.
  - rewrite Hcode, bool_decide_eq_true_2 by done.
    rewrite En, (uncommon_function d Hcode), (upd_trees_insert_id _ _ _ Hd).
    rewrite (bind_eq _ _ _ _ _ (make_decl_llvm_function_old _ _ _ _ _ HF)).
    apply (SET_DECL_LLVM_eq _ _ _ d); [exact Hd | now rewrite Hcode].
  - now rewrite Hcode.
  - rewrite (checking_accepts_function d Hcode). apply andb_false_r.
  - now rewrite Hcode.
Qed.

(** The flags make_decl_llvm raises on the variable [v] for [d]. *)
Lemma mark_constant_eq d GV v s :
  TheModule s !! GV = Some v ->
  when ((TREE_READONLY d && negb (TREE_SIDE_EFFECTS d))
        || bool_decide (TREE_CODE d = CONST_DECL))
    (if DECL_EXTERNAL d then update_global GV (setConstant true)
     else match DECL_INITIAL d with
          | Some init =>
              when (bool_decide (init <> error_mark_node)
                    && (TREE_CONSTANT init || is_STRING_CST init))
                (update_global GV (setConstant true))
          | None => ret tt
          end) s
  = Some (tt, upd_TheModule
                (insert GV (if declared_constant d then setConstant true v else v)) s).
Proof.
  intros Hv. unfold declared_constant.
  assert (Some (tt, s) = Some (tt, upd_TheModule (insert GV v) s)) as Hid
    by now rewrite (upd_TheModule_insert_id GV v s Hv).
  destruct (_ || _); cbn [when andb]; [|exact Hid].
  destruct (DECL_EXTERNAL d); [now apply update_global_eq|].
  destruct (DECL_INITIAL d) as [init|]; [|exact Hid].
  now apply when_update_global_eq.
Qed.

Lemma raised_flags_declaration (b c : bool) v :
  isDeclaration (if b then setThreadLocal true (if c then setConstant true v else v)
                 else if c then setConstant true v else v) = isDeclaration v.
Proof.
  destruct v as [n t l vi se al [i k tl | cc a body | al']]; now destruct b, c.
Qed.

Lemma raised_flags_type (b c : bool) v :
  gv_type (if b then setThreadLocal true (if c then setConstant true v else v)
           else if c then setConstant true v else v) = gv_type v.
Proof.
  destruct v as [n t l vi se al [i k tl | cc a body | al']]; now destruct b, c.
Qed.

Lemma SizeOfGlobalMatchesDecl_type TM v v' d :
  gv_type v' = gv_type v -> SizeOfGlobalMatchesDecl TM v' d = SizeOfGlobalMatchesDecl TM v d.
Proof. unfold SizeOfGlobalMatchesDecl. now intros ->. Qed.

(** The end of the variable branch, from a variable [v] at [GV]: the flags
    are raised and the size is checked. *)
Lemma make_decl_llvm_variable_flags_eq d GV v s :
  TheModule s !! GV = Some v ->
  (do _ <- when ((TREE_READONLY d && negb (TREE_SIDE_EFFECTS d))
                 || bool_decide (TREE_CODE d = CONST_DECL))
             (if DECL_EXTERNAL d then update_global GV (setConstant true)
              else match DECL_INITIAL d with
                   | Some init =>
                       when (bool_decide (init <> error_mark_node)
                             && (TREE_CONSTANT init || is_STRING_CST init))
                         (update_global GV (setConstant true))
                   | None => ret tt
                   end);
   do _ <- when (bool_decide (TREE_CODE d = VAR_DECL) && DECL_THREAD_LOCAL_P d)
             (update_global GV (setThreadLocal true));
   do gv <- global_of GV;
   do tm <- gets TheTarget;
   do _ <- (if isDeclaration gv then ret tt
            else do matches <- unwrap (SizeOfGlobalMatchesDecl tm gv d); assert matches);
   ret GV) s
  = if isDeclaration v || size_matches (TheTarget s) v d
    then Some (GV, upd_TheModule
                     (insert GV
                        (if declared_thread_local d
                         then setThreadLocal true
                                (if declared_constant d then setConstant true v else v)
                         else if declared_constant d then setConstant true v else v)) s)
    else None.
Proof.
  intros Hv.
  rewrite (bind_eq _ _ _ _ _ (mark_constant_eq d GV v s Hv)).
  rewrite (bind_eq _ _ _ _ _
             (when_update_global_eq _ _ _ _ _ (lookup_upd_TheModule_insert _ _ _))).
  rewrite upd_TheModule_insert_insert. fold (declared_thread_local d).
  rewrite (bind_eq _ _ _ _ _
             (proj2 (global_of_Some _ _ _)
                (ex_intro _ _ (conj (lookup_upd_TheModule_insert _ _ _) eq_refl)))).
  rewrite (bind_eq _ _ _ (TheTarget s) _) by reflexivity.
  rewrite raised_flags_declaration.
  rewrite (SizeOfGlobalMatchesDecl_type _ v) by apply raised_flags_type.
  unfold size_matches.
  destruct (isDeclaration v); [reflexivity|]. cbn [orb].
  now destruct (SizeOfGlobalMatchesDecl (TheTarget s) v d) as [[|]|].
Qed.

(** The variable branch when no global value has the name, or there is no
    name: a declaration is created. *)
Lemma make_decl_llvm_variable_new decl d Name s :
  TREE_CODE d = VAR_DECL \/ TREE_CODE d = CONST_DECL ->
  getNamedValue (TheModule s) Name = None ->
  make_decl_llvm_variable decl d Name s
  = Some (fresh (live s),
          upd_TheModule
            (insert (fresh (live s))
               {| gv_name := Name;
                  gv_type :=
                    PointerTy
                      (if isVoidTy (ConvertType (TheTypeConverter s) (TREE_TYPE d))
                       then StructTy []
                       else ConvertType (TheTypeConverter s) (TREE_TYPE d));
                  gv_linkage := declared_linkage d;
                  gv_visibility := forwarded_visibility d DefaultVisibility;
                  gv_section := ""; gv_alignment := 0;
                  gv_payload := GlobalVariable None (declared_constant d)
                                  (declared_thread_local d) |}) s).
Proof.
  intros Hcode Hfree. apply runs_exactly. unfold make_decl_llvm_variable.
  apply runs_bind, runs_assert.
  { destruct Hcode as [-> | ->]; reflexivity. }
  apply runs_bind, runs_gets. cbv zeta.
  set (Ty := if isVoidTy _ then _ else _).
  set (GV := fresh (live s)).
  set (v := {| gv_name := Name; gv_type := PointerTy Ty;
               gv_linkage := declared_linkage d;
               gv_visibility := forwarded_visibility d DefaultVisibility;
               gv_section := ""; gv_alignment := 0;
               gv_payload := GlobalVariable None false false |}).
  assert (runs
            (do GV0 <- new_global (GlobalVariable_new Ty false ExternalLinkage Name);
             do _ <- check_external_weak d GV0;
             do _ <- handleVisibility d GV0;
             ret GV0) s
            (fun a s' => a = GV /\ s' = upd_TheModule (insert GV v) s)) as Hnew.
  { apply runs_bind. eapply runs_eq; [reflexivity|].
    cbn [gv_name GlobalVariable_new]. rewrite (unique_name_free _ _ Hfree).
    fold GV.
    apply runs_bind. eapply runs_eq;
      [apply check_external_weak_eq, lookup_upd_TheModule_insert|].
    rewrite upd_TheModule_insert_insert.
    apply runs_bind. eapply runs_eq;
      [apply handleVisibility_eq, lookup_upd_TheModule_insert|].
    rewrite upd_TheModule_insert_insert.
    apply runs_ret. split; [reflexivity|]. f_equal. f_equal.
    unfold v, declared_linkage. now destruct (_ && _). }
  apply runs_bind.
  apply (runs_conseq _ _ (fun a s' => a = GV /\ s' = upd_TheModule (insert GV v) s)).
  - destruct (bool_decide (Name = "")) eqn:En.
    { apply bool_decide_eq_true in En. rewrite <- En. exact Hnew. }
    apply runs_bind, runs_gets. rewrite (getGlobalVariable_None _ _ Hfree).
    destruct Hnew as (a & s' & Hnew & -> & ->).
    apply bind_Some in Hnew. destruct Hnew as (g0 & s0 & H0 & Hnew).
    apply runs_bind. eapply runs_eq; [exact H0|].
    apply bind_Some in Hnew. destruct Hnew as ([] & s1 & H1 & Hnew).
    apply runs_bind. eapply runs_eq; [exact H1|].
    apply bind_Some in Hnew. destruct Hnew as ([] & s2 & H2 & Hnew).
    apply runs_bind. eapply runs_eq; [exact H2|].
    injection Hnew as -> ->.
    apply runs_bind. eapply runs_global_of; [apply lookup_upd_TheModule_insert|].
    cbn [gv_name v]. rewrite bool_decide_eq_false_2 by (intros H; now apply H).
    apply runs_bind, runs_ret, runs_ret. auto.
  - intros a s' [-> ->].
    eapply runs_eq;
      [apply make_decl_llvm_variable_flags_eq with (v := v), lookup_upd_TheModule_insert|].
    cbn [isDeclaration v gv_payload orb].
    rewrite upd_TheModule_insert_insert. split; [reflexivity|].
    f_equal. f_equal. unfold v.
    now destruct (declared_thread_local d), (declared_constant d).
Qed.

(** The variable branch when a variable has the name: it is reused as it
    is, and only its flags are raised; a defined variable of another size
    stops the run. *)
Lemma make_decl_llvm_variable_old decl d Name s GVE v :
  TREE_CODE d = VAR_DECL \/ TREE_CODE d = CONST_DECL ->
  getGlobalVariable (TheModule s) Name = Some GVE ->
  TheModule s !! GVE = Some v ->
  make_decl_llvm_variable decl d Name s
  = if isDeclaration v || size_matches (TheTarget s) v d
    then Some (GVE,
               upd_TheModule
                 (insert GVE
                    (with_payload
                       (GlobalVariable (getInitializer v)
                          (isConstant v || declared_constant d)
                          (isThreadLocal v || declared_thread_local d)) v)) s)
    else None.
Proof.
  intros Hcode HG Hv. unfold make_decl_llvm_variable.
  destruct (getGlobalVariable_Some _ _ _ HG) as (Hn & v0 & Hv0 & _ & Hgv).
  rewrite Hv in Hv0. injection Hv0 as <-.
  assert (bool_decide (TREE_CODE d = VAR_DECL)
          || bool_decide (TREE_CODE d = CONST_DECL) = true) as ->
    by (destruct Hcode as [-> | ->]; reflexivity).
  rewrite (bind_eq _ _ _ tt s) by reflexivity.
  rewrite (bind_eq _ _ _ (TheTypeConverter s) s) by reflexivity.
  cbv zeta. rewrite bool_decide_eq_false_2 by exact Hn.
  rewrite (bind_eq _ _ _ GVE s).
  2:{ rewrite (bind_eq _ _ _ (TheModule s) s) by reflexivity. now rewrite HG. }
  rewrite (make_decl_llvm_variable_flags_eq d GVE v s Hv).
  destruct (_ || _); [|reflexivity].
  f_equal. f_equal. f_equal. f_equal.
  destruct v as [n t l vi se al [i k tl | cc a body | al']]; try discriminate.
  unfold with_payload, getInitializer, isConstant, isThreadLocal. cbn.
  destruct (declared_thread_local d), (declared_constant d), k, tl; reflexivity.
Qed.

Lemma variable_has_rtl d :
  TREE_CODE d = VAR_DECL \/ TREE_CODE d = CONST_DECL -> HAS_RTL_P (TREE_CODE d) = true.
Proof. now intros [-> | ->]. Qed.

Lemma variable_is_no_function d :
  TREE_CODE d = VAR_DECL \/ TREE_CODE d = CONST_DECL ->
  bool_decide (TREE_CODE d = FUNCTION_DECL) = false.
Proof. now intros [-> | ->]. Qed.

Lemma trees_uncommon decl d s :
  trees (upd_trees (insert decl (uncommon d)) s) !! decl = Some (uncommon d).
Proof. cbn. apply lookup_insert_eq. Qed.

Lemma uncommon_size TM v d :
  SizeOfGlobalMatchesDecl TM v (uncommon d) = SizeOfGlobalMatchesDecl TM v d.
Proof. unfold uncommon. now destruct (_ && _). Qed.

Lemma variable_not_function d :
  TREE_CODE d = VAR_DECL \/ TREE_CODE d = CONST_DECL ->
  bool_decide (TREE_CODE d <> FUNCTION_DECL) = true.
Proof. now intros [-> | ->]. Qed.

Lemma make_decl_llvm_new_variable decl s d :
  trees s !! decl = Some d ->
  TREE_CODE d = VAR_DECL \/ TREE_CODE d = CONST_DECL ->
  DECL_REGISTER d = false ->
  cached s decl = NullPtr -> seen_error s = false ->
  ENABLE_CHECKING (config s) && checking_rejects d = false ->
  getNamedValue (TheModule s) (llvm_name d) = None ->
  make_decl_llvm decl s
  = Some (Some (GlobalRef (fresh (live s))),
          upd_llvm_cache (insert decl (ValuePtr (GlobalRef (fresh (live s)))))
            (upd_TheModule
               (insert (fresh (live s))
                  {| gv_name := llvm_name d;
                     gv_type :=
                       PointerTy
                         (if isVoidTy (ConvertType (TheTypeConverter s) (TREE_TYPE d))
                          then StructTy []
                          else ConvertType (TheTypeConverter s) (TREE_TYPE d));
                     gv_linkage := declared_linkage d;
                     gv_visibility := forwarded_visibility d DefaultVisibility;
                     gv_section := ""; gv_alignment := 0;
                     gv_payload := GlobalVariable None (declared_constant d)
                                     (declared_thread_local d) |})
               (upd_trees (insert decl (uncommon d)) s))).
Proof.
  intros Hd Hcode Hreg Hc He Hchk Hfree.
  rewrite (make_decl_llvm_enter decl s d Hd); try done.
  - rewrite (variable_is_no_function d Hcode).
    assert (TREE_CODE (uncommon d) = VAR_DECL \/ TREE_CODE (uncommon d) = CONST_DECL)
      as Hcode' by now rewrite uncommon_code.
    rewrite (bind_eq _ _ _ _ _
               (make_decl_llvm_variable_new decl (uncommon d) (llvm_name d)
                  (upd_trees (insert decl (uncommon d)) s) Hcode' Hfree)).
    change (live (upd_trees (insert decl (uncommon d)) s)) with (live s).
    cbn [TheTypeConverter upd_trees].
    rewrite uncommon_type, uncommon_linkage, uncommon_visibility, uncommon_constant,
      uncommon_thread_local.
    apply (SET_DECL_LLVM_eq _ _ _ (uncommon d)); [apply lookup_insert_eq|].
    rewrite uncommon_code. now apply variable_has_rtl.
  - now apply variable_has_rtl.
  - rewrite Hreg. apply andb_false_r.
Qed.

Lemma make_decl_llvm_old_variable decl s d GVE v :
  trees s !! decl = Some d -> TREE_CODE d = VAR_DECL ->
  DECL_REGISTER d = false ->
  cached s decl = NullPtr -> seen_error s = false ->
  ENABLE_CHECKING (config s) && checking_rejects d = false ->
  getGlobalVariable (TheModule s) (getLLVMAssemblerName d) = Some GVE ->
  TheModule s !! GVE = Some v ->
  make_decl_llvm decl s
  = if isDeclaration v || size_matches (TheTarget s) v d
    then Some (Some (GlobalRef GVE),
               upd_llvm_cache (insert decl (ValuePtr (GlobalRef GVE)))
                 (upd_TheModule
                    (insert GVE
                       (with_payload
                          (GlobalVariable (getInitializer v)
                             (isConstant v || declared_constant d)
                             (isThreadLocal v || declared_thread_local d)) v))
                    (upd_trees (insert decl (uncommon d)) s)))
    else None.
Proof.
  intros Hd Hcode Hreg Hc He Hchk HG Hv.
  assert (llvm_name d = getLLVMAssemblerName d) as En
    by (unfold llvm_name; now rewrite Hcode).
  rewrite (make_decl_llvm_enter decl s d Hd); try done.
  - rewrite (variable_is_no_function d (or_introl Hcode)), En.
    assert (TREE_CODE (uncommon d) = VAR_DECL \/ TREE_CODE (uncommon d) = CONST_DECL)
      as Hcode' by (rewrite uncommon_code; now left).
    unfold bind at 1.
    rewrite (make_decl_llvm_variable_old decl (uncommon d) (getLLVMAssemblerName d)
               (upd_trees (insert decl (uncommon d)) s) GVE v Hcode' HG Hv).
    cbn [TheTarget upd_trees]. unfold size_matches. rewrite uncommon_size.
    destruct (_ || _); [|reflexivity].
    rewrite uncommon_constant, uncommon_thread_local.
    apply (SET_DECL_LLVM_eq _ _ _ (uncommon d)); [apply lookup_insert_eq|].
    now rewrite uncommon_code, Hcode.
  - now rewrite Hcode.
  - rewrite Hreg. apply andb_false_r.
Qed.



(** X9. make_decl_llvm on a function declaration that is not cached, in a
    unit without errors, whose assembler name is not empty and is the name
    of no global value: a new function is added to the module under exactly
    that name, a declaration without body, with the converted type, calling
    convention and attributes, external linkage (external weak when the
    declaration is external and weak) and the visibility handleVisibility
    forwards; it is cached for the declaration and returned, nothing else
    changes, and the module then finds it by the name. *)
Theorem make_decl_llvm_declares_function decl s d Ty CC PAL :
  trees s !! decl = Some d -> TREE_CODE d = FUNCTION_DECL ->
  cached s decl = NullPtr -> seen_error s = false ->
  getLLVMAssemblerName d <> "" ->
  getNamedValue (TheModule s) (getLLVMAssemblerName d) = None ->
  ConvertFunctionType (TheTypeConverter s) (TREE_TYPE d) decl = (Ty, CC, PAL) ->
  exists F,
    TheModule s !! F = None /\ (F ∉ detached s)
    /\ make_decl_llvm decl s
       = Some (Some (GlobalRef F),
               upd_llvm_cache (insert decl (ValuePtr (GlobalRef F)))
                 (upd_TheModule
                    (insert F (declared_function d (getLLVMAssemblerName d) Ty CC PAL))
                    s))
    /\ getFunction
         (<[F := declared_function d (getLLVMAssemblerName d) Ty CC PAL]> (TheModule s))
         (getLLVMAssemblerName d) = Some F.
Proof.
  intros Hd Hcode Hc He Hn Hfree Hty. exists (fresh (live s)).
  split; [apply fresh_live_not_in_module|].
  split; [intros H; now apply (fresh_live_not_detached s _ H)|].
  split; [now apply make_decl_llvm_new_function|].
  unfold getFunction.
  rewrite (getNamedValue_insert_new _ _ _ _ Hfree Hn) by reflexivity.
  now rewrite lookup_insert_eq.
Qed.

Lemma make_decl_llvm_declares_function_witness :
  exists F,
    TheModule Unit.start !! F = None /\ (F ∉ detached Unit.start)
    /\ make_decl_llvm Unit.method Unit.start
       = Some (Some (GlobalRef F),
               upd_llvm_cache (insert Unit.method (ValuePtr (GlobalRef F)))
                 (upd_TheModule
                    (insert F (declared_function
                                 (Unit.declaration FUNCTION_DECL "method" Unit.fn_type
                                    None true)
                                 "method" Unit.method_type 0 []))
                    Unit.start))
    /\ getFunction
         (<[F := declared_function
                   (Unit.declaration FUNCTION_DECL "method" Unit.fn_type None true)
                   "method" Unit.method_type 0 []]> (TheModule Unit.start))
         "method" = Some F.
Proof.
  apply (make_decl_llvm_declares_function Unit.method Unit.start
           (Unit.declaration FUNCTION_DECL "method" Unit.fn_type None true)
           Unit.method_type 0 []).
  - reflexivity.
  - reflexivity.
  - reflexivity.
  - reflexivity.
  - discriminate.
  - vm_compute. reflexivity.
  - reflexivity.
Defined.

(** X10. make_decl_llvm on a function declaration that is not cached, whose
    assembler name is the name of a function of the module: that function
    is returned and cached for the declaration, and the module is left as it
    is, whatever the type, linkage or visibility of the new declaration. *)
Theorem make_decl_llvm_shares_function decl s d F :
  trees s !! decl = Some d -> TREE_CODE d = FUNCTION_DECL ->
  cached s decl = NullPtr -> seen_error s = false ->
  getFunction (TheModule s) (getLLVMAssemblerName d) = Some F ->
  make_decl_llvm decl s
  = Some (Some (GlobalRef F), upd_llvm_cache (insert decl (ValuePtr (GlobalRef F))) s).
Proof. apply make_decl_llvm_old_function. Qed.

Lemma make_decl_llvm_shares_function_witness :
  make_decl_llvm Redeclared.method_again Redeclared.once_declared
  = Some (Some (GlobalRef 1%positive),
          upd_llvm_cache (insert Redeclared.method_again (ValuePtr (GlobalRef 1%positive)))
            Redeclared.once_declared).
Proof.
  apply (make_decl_llvm_shares_function Redeclared.method_again Redeclared.once_declared
           (Unit.declaration FUNCTION_DECL "method" Unit.fn_type None true) 1%positive).
  - reflexivity.
  - reflexivity.
  - reflexivity.
  - reflexivity.
  - vm_compute. reflexivity.
Defined.

(** X11. make_decl_llvm on a variable or constant declaration that is not
    cached and not a register variable, in a unit without errors, whose name
    (none for a CONST_DECL) is the name of no global value: a new global
    variable is added to the module under that name, without initializer,
    of the converted type (the empty struct for void), with external or
    external weak linkage, the forwarded visibility, constant and thread
    local as the declaration says; it is cached and returned, and
    DECL_COMMON is cleared on a variable that is weak or has a section and
    no initial value. *)
Theorem make_decl_llvm_declares_variable decl s d :
  trees s !! decl = Some d ->
  TREE_CODE d = VAR_DECL \/ TREE_CODE d = CONST_DECL ->
  DECL_REGISTER d = false ->
  cached s decl = NullPtr -> seen_error s = false ->
  ENABLE_CHECKING (config s) && checking_rejects d = false ->
  getNamedValue (TheModule s) (llvm_name d) = None ->
  exists GV,
    TheModule s !! GV = None /\ (GV ∉ detached s)
    /\ make_decl_llvm decl s
       = Some (Some (GlobalRef GV),
               upd_llvm_cache (insert decl (ValuePtr (GlobalRef GV)))
                 (upd_TheModule
                    (insert GV
                       (declared_variable d (llvm_name d)
                          (ConvertType (TheTypeConverter s) (TREE_TYPE d))))
                    (upd_trees (insert decl (uncommon d)) s))).
Proof.
  intros Hd Hcode Hreg Hc He Hchk Hfree. exists (fresh (live s)).
  split; [apply fresh_live_not_in_module|].
  split; [intros H; now apply (fresh_live_not_detached s _ H)|].
  now apply make_decl_llvm_new_variable.
Qed.

Lemma make_decl_llvm_declares_variable_witness :
  exists GV,
    TheModule Unit.start !! GV = None /\ (GV ∉ detached Unit.start)
    /\ make_decl_llvm Unit.arr Unit.start
       = Some (Some (GlobalRef GV),
               upd_llvm_cache (insert Unit.arr (ValuePtr (GlobalRef GV)))
                 (upd_TheModule
                    (insert GV
                       (declared_variable
                          (Unit.declaration VAR_DECL "arr" Unit.open_array_type None true)
                          "arr" (ArrayTy Int32Ty 0)))
                    (upd_trees
                       (insert Unit.arr
                          (uncommon (Unit.declaration VAR_DECL "arr" Unit.open_array_type
                                       None true)))
                       Unit.start))).
Proof.
  apply (make_decl_llvm_declares_variable Unit.arr Unit.start
           (Unit.declaration VAR_DECL "arr" Unit.open_array_type None true)).
  - reflexivity.
  - left. reflexivity.
  - reflexivity.
  - reflexivity.
  - reflexivity.
  - reflexivity.
  - vm_compute. reflexivity.
Defined.

(** X12. make_decl_llvm on a variable declaration that is not cached, whose
    assembler name is the name of a global variable of the module: when
    that variable is a declaration, or its size matches the size of the new
    declaration, it is cached and returned with its name, type, linkage,
    visibility and initializer as they were, and the constant and thread
    local flags only ever raised; when it is a definition of another size
    the run aborts. *)
Theorem make_decl_llvm_shares_variable decl s d GVE v :
  trees s !! decl = Some d -> TREE_CODE d = VAR_DECL ->
  DECL_REGISTER d = false ->
  cached s decl = NullPtr -> seen_error s = false ->
  ENABLE_CHECKING (config s) && checking_rejects d = false ->
  getGlobalVariable (TheModule s) (getLLVMAssemblerName d) = Some GVE ->
  TheModule s !! GVE = Some v ->
  make_decl_llvm decl s
  = if isDeclaration v || size_matches (TheTarget s) v d
    then Some (Some (GlobalRef GVE),
               upd_llvm_cache (insert decl (ValuePtr (GlobalRef GVE)))
                 (upd_TheModule (insert GVE (redeclared_variable d v))
                    (upd_trees (insert decl (uncommon d)) s)))
    else None.
Proof. apply make_decl_llvm_old_variable. Qed.

Lemma make_decl_llvm_shares_variable_witness :
  make_decl_llvm Unit.foo_public Redeclared.foo_declared
  = if isDeclaration
         (declared_variable
            (Unit.declaration VAR_DECL "foo" Unit.int_type
               (Some (INTEGER_CST Unit.int_type 1)) false)
            "foo" Int32Ty)
       || size_matches (TheTarget Redeclared.foo_declared)
            (declared_variable
               (Unit.declaration VAR_DECL "foo" Unit.int_type
                  (Some (INTEGER_CST Unit.int_type 1)) false)
               "foo" Int32Ty)
            (Unit.declaration VAR_DECL "foo" Unit.int_type
               (Some (INTEGER_CST Unit.int_type 2)) true)
    then Some (Some (GlobalRef 1%positive),
               upd_llvm_cache (insert Unit.foo_public (ValuePtr (GlobalRef 1%positive)))
                 (upd_TheModule
                    (insert 1%positive
                       (redeclared_variable
                          (Unit.declaration VAR_DECL "foo" Unit.int_type
                             (Some (INTEGER_CST Unit.int_type 2)) true)
                          (declared_variable
                             (Unit.declaration VAR_DECL "foo" Unit.int_type
                                (Some (INTEGER_CST Unit.int_type 1)) false)
                             "foo" Int32Ty)))
                    (upd_trees
                       (insert Unit.foo_public
                          (uncommon (Unit.declaration VAR_DECL "foo" Unit.int_type
                                       (Some (INTEGER_CST Unit.int_type 2)) true)))
                       Redeclared.foo_declared)))
    else None.
Proof.
  apply (make_decl_llvm_shares_variable Unit.foo_public Redeclared.foo_declared
           (Unit.declaration VAR_DECL "foo" Unit.int_type
              (Some (INTEGER_CST Unit.int_type 2)) true)
           1%positive).
  - reflexivity.
  - reflexivity.
  - reflexivity.
  - reflexivity.
  - reflexivity.
  - reflexivity.
  - vm_compute. reflexivity.
  - vm_compute. reflexivity.
Defined.



(** ** What emit_alias leaves *)

Lemma CreateBitCastM_eq g x ty s :
  TheModule s !! g = Some x ->
  CreateBitCastM (GlobalRef g) ty s = Some (as_type g x ty, s).
Proof.
  intros Hx. unfold CreateBitCastM, as_type.
  rewrite (bind_eq _ _ _ (TheModule s) s) by reflexivity.
  unfold CreateBitCast. cbn. rewrite Hx. cbn.
  now destruct (decide (gv_type x = ty)).
Qed.

Lemma as_type_mentions g x ty V : g <> V -> mentions V (as_type g x ty) = false.
Proof.
  intros Hne. unfold as_type.
  destruct (decide _); cbn; apply bool_decide_eq_false; congruence.
Qed.

Lemma as_type_mentions_only g x ty g0 : mentions g0 (as_type g x ty) = true -> g0 = g.
Proof.
  unfold as_type. destruct (decide _); cbn; intros H;
    now apply bool_decide_eq_true in H.
Qed.

Lemma make_decl_llvm_tree_after decl s V s1 :
  make_decl_llvm decl s = Some (V, s1) -> is_Some (trees s1 !! decl).
Proof.
  intros H.
  assert (exists d, trees s !! decl = Some d) as (d & Hd).
  { unfold make_decl_llvm in H. apply bind_Some in H.
    destruct H as (V0 & s0 & Hget & _).
    apply get_decl_llvm_inv in Hget. destruct Hget as (_ & _ & d & Hd & _). eauto. }
  destruct (make_decl_llvm_trees _ _ _ _ _ Hd H) as (d' & Hd' & _). eauto.
Qed.

(** The second half of emit_alias for an alias whose linkage is not
    internal. *)
Lemma emit_alias_finish_aliased decl V Aliasee s d v a :
  trees s !! decl = Some d ->
  TheModule s !! V = Some v ->
  TheModule s !! Aliasee = Some a ->
  Aliasee <> V ->
  GetLinkageForAlias d (flag_odr s) <> InternalLinkage ->
  runs (emit_alias_finish decl V Aliasee) s (fun _ s' =>
    TheModule s'
    = delete V
        (subst_global
           (<[fresh (live s) := created_alias d (flag_odr s) v a Aliasee]> (TheModule s))
           V (as_type (fresh (live s)) a (gv_type v))
           <$> <[fresh (live s) := created_alias d (flag_odr s) v a Aliasee]> (TheModule s))
    /\ llvm_cache s' = rebind_cache V (GlobalRef (fresh (live s))) (llvm_cache s)
    /\ trees s' = <[decl := set_TREE_ASM_WRITTEN true d]> (trees s)
    /\ diagnostics s' = diagnostics s).
Proof.
  intros Hd Hv Ha Hne HL. unfold emit_alias_finish.
  set (GA := fresh (live s)).
  assert (TheModule s !! GA = None) as HGA by apply fresh_live_not_in_module.
  assert (GA <> V) as HGV by congruence.
  assert (GA <> Aliasee) as HGAl by congruence.
  apply runs_bind, (runs_decl_of _ d); [exact Hd|].
  apply runs_bind, runs_gets.
  apply runs_bind, (runs_global_of _ v); [exact Hv|].
  rewrite bool_decide_eq_true_2 by exact HL.
  apply runs_bind.
  apply runs_bind, (runs_global_of _ a); [exact Ha|].
  apply runs_bind. eapply runs_eq; [reflexivity|]. fold GA.
  cbn [gv_name]. rewrite unique_name_free by (unfold getNamedValue; now destruct (decide _)).
  apply runs_bind. eapply runs_eq;
    [apply handleVisibility_eq, lookup_upd_TheModule_insert|].
  rewrite upd_TheModule_insert_insert.
  cbn [with_name with_visibility gv_visibility gv_name gv_type gv_linkage gv_section
         gv_alignment gv_payload].
  set (ga := {| gv_name := ""; gv_type := gv_type a;
                gv_linkage := GetLinkageForAlias d (flag_odr s);
                gv_visibility := forwarded_visibility d DefaultVisibility;
                gv_section := ""; gv_alignment := 0;
                gv_payload := GlobalAlias (GlobalRef Aliasee) |}).
  apply runs_bind. eapply runs_eq;
    [apply (CreateBitCastM_eq GA ga), lookup_upd_TheModule_insert|].
  change (gv_type ga) with (gv_type a).
  assert (as_type GA ga (gv_type v) = as_type GA a (gv_type v)) as -> by reflexivity.
  set (c := as_type GA a (gv_type v)).
  apply runs_bind, runs_replaceAllUsesWith.
  apply runs_bind. eapply runs_eq.
  { apply changeLLVMConstant_eq, use_empty_replaced. now apply as_type_mentions. }
  unfold takeName.
  eapply runs_bind, runs_global_of.
  { cbn. rewrite lookup_fmap, lookup_insert_ne, Hv by congruence. reflexivity. }
  eapply runs_bind, runs_update_global.
  { cbn. rewrite lookup_fmap, lookup_insert_ne, Hv by congruence. reflexivity. }
  eapply runs_update_global.
  { cbn. rewrite lookup_insert_ne by congruence.
    rewrite lookup_fmap, lookup_insert_eq. reflexivity. }
  apply runs_bind. unfold eraseFromParent. apply runs_modify.
  unfold mark_written. eapply runs_bind, runs_decl_of; [cbn; exact Hd|].
  apply runs_modify.
  split; [|cbn; auto].
  cbn [TheModule upd_trees upd_TheModule upd_llvm_cache upd_StaticDtors upd_StaticCtors
         upd_AttributeCompilerUsedGlobals upd_AttributeUsedGlobals
         upd_AttributeAnnotateGlobals].
  apply map_eq. intros g.
  destruct (decide (g = V)) as [->|HgV].
  { now rewrite !lookup_delete_eq. }
  rewrite !lookup_delete_ne by congruence.
  assert (forall x,
             subst_global (<[GA:=ga]> (TheModule s)) V c x
             = subst_global (<[GA:=created_alias d (flag_odr s) v a Aliasee]> (TheModule s))
                 V c x) as Ext.
  { intros x. apply subst_global_ext. intros g0 Hg0.
    apply as_type_mentions_only in Hg0. subst g0.
    now rewrite !lookup_insert_eq. }
  rewrite !lookup_fmap.
  destruct (decide (g = GA)) as [->|HgG].
  { rewrite !lookup_insert_eq. reflexivity. }
  rewrite !lookup_insert_ne by congruence.
  rewrite !lookup_fmap, !lookup_insert_ne by congruence.
  destruct (TheModule s !! g) as [x|]; [|reflexivity]. cbn. now rewrite Ext.
Qed.

(** The second half of emit_alias for an alias of internal linkage: its
    users are made to use the aliasee. *)
Lemma emit_alias_finish_direct decl V Aliasee s d v a :
  trees s !! decl = Some d ->
  TheModule s !! V = Some v ->
  TheModule s !! Aliasee = Some a ->
  Aliasee <> V ->
  GetLinkageForAlias d (flag_odr s) = InternalLinkage ->
  runs (emit_alias_finish decl V Aliasee) s (fun _ s' =>
    TheModule s'
    = delete V (subst_global (TheModule s) V (as_type Aliasee a (gv_type v))
                  <$> TheModule s)
    /\ llvm_cache s' = rebind_cache V (GlobalRef Aliasee) (llvm_cache s)
    /\ trees s' = <[decl := set_TREE_ASM_WRITTEN true d]> (trees s)
    /\ diagnostics s' = diagnostics s).
Proof.
  intros Hd Hv Ha Hne HL. unfold emit_alias_finish.
  apply runs_bind, (runs_decl_of _ d); [exact Hd|].
  apply runs_bind, runs_gets.
  apply runs_bind, (runs_global_of _ v); [exact Hv|].
  rewrite HL. cbn [bool_decide decide_rel].
  rewrite bool_decide_eq_false_2 by (intros H; now apply H).
  apply runs_bind.
  apply runs_bind. eapply runs_eq; [apply (CreateBitCastM_eq Aliasee a), Ha|].
  apply runs_bind, runs_replaceAllUsesWith.
  eapply runs_eq.
  { apply changeLLVMConstant_eq, use_empty_replaced. now apply as_type_mentions. }
  apply runs_bind. unfold eraseFromParent. apply runs_modify.
  unfold mark_written. eapply runs_bind, runs_decl_of; [cbn; exact Hd|].
  apply runs_modify. cbn. auto.
Qed.

(** The run of emit_alias on a target that is a declaration, up to its
    second half. *)
Lemma emit_alias_to_decl fuel decl t s V s1 Aliasee s2 (Q : unit -> State -> Prop) :
  seen_error s = false ->
  DECL_LLVM decl s = Some (Some (GlobalRef V), s1) ->
  is_Some (TheModule s1 !! V) ->
  DEFINITION_LLVM fuel t s1 = Some (Some (GlobalRef Aliasee), s2) ->
  is_Some (TheModule s2 !! Aliasee) ->
  runs (emit_alias_finish decl V Aliasee) s2 Q ->
  runs (emit_alias fuel decl (TargetDecl t)) s Q.
Proof.
  intros He H1 [v1 Hv1] H2 [a Ha] HQ. unfold emit_alias.
  apply runs_bind, runs_get. rewrite He.
  apply runs_bind. eapply runs_eq; [exact H1|].
  apply runs_bind. eapply runs_eq; [eapply cast_GlobalValue_eq; eauto|].
  destruct (make_decl_llvm_tree_after _ _ _ _ H1) as [d1 Hd1].
  apply runs_bind, (runs_decl_of _ d1); [exact Hd1|].
  apply runs_bind, runs_get.
  apply runs_bind. eapply runs_eq; [exact H2|].
  apply runs_bind. eapply runs_eq; [eapply cast_GlobalValue_eq; eauto|].
  exact HQ.
Qed.



(** X13. emit_alias on a target that is a declaration, for an alias whose
    linkage (GetLinkageForAlias) is not internal, in a unit without errors,
    when the lookup of the alias's global (DECL_LLVM) and the definition of
    the target (DEFINITION_LLVM, with the fuel given) return two different
    globals of the module: a GlobalAlias to the target is created at a fresh
    address with that linkage, the type of the target and the forwarded
    visibility; it takes the name of the alias's global, every use of that
    global becomes a use of the alias, cast to the old type if the types
    differ and the cast folded into the cast it is an operand of, every
    declaration cached to the old global is cached to the alias, the old
    global is erased and the declaration is marked as written. *)
Theorem emit_alias_creates_alias fuel decl t s V s1 Aliasee s2 d v a :
  seen_error s = false ->
  DECL_LLVM decl s = Some (Some (GlobalRef V), s1) ->
  is_Some (TheModule s1 !! V) ->
  DEFINITION_LLVM fuel t s1 = Some (Some (GlobalRef Aliasee), s2) ->
  trees s2 !! decl = Some d ->
  TheModule s2 !! V = Some v ->
  TheModule s2 !! Aliasee = Some a ->
  Aliasee <> V ->
  GetLinkageForAlias d (flag_odr s2) <> InternalLinkage ->
  exists GA s',
    emit_alias fuel decl (TargetDecl t) s = Some (tt, s')
    /\ TheModule s2 !! GA = None
    /\ TheModule s'
       = delete V
           (subst_global
              (<[GA := created_alias d (flag_odr s2) v a Aliasee]> (TheModule s2))
              V (as_type GA a (gv_type v))
              <$> <[GA := created_alias d (flag_odr s2) v a Aliasee]> (TheModule s2))
    /\ llvm_cache s' = rebind_cache V (GlobalRef GA) (llvm_cache s2)
    /\ trees s' = <[decl := set_TREE_ASM_WRITTEN true d]> (trees s2)
    /\ diagnostics s' = diagnostics s2.
Proof.
  intros He H1 Hv1 H2 Hd Hv Ha Hne HL.
  destruct (emit_alias_to_decl fuel decl t s V s1 Aliasee s2 _ He H1 Hv1 H2
              (ex_intro _ a Ha)
              (emit_alias_finish_aliased decl V Aliasee s2 d v a Hd Hv Ha Hne HL))
    as ([] & s' & Hrun & Hm & Hc & Ht & Hdg).
  exists (fresh (live s2)), s'.
  split; [exact Hrun|]. split; [apply fresh_live_not_in_module|]. auto.
Qed.

Lemma emit_alias_creates_alias_witness :
  exists GA s',
    emit_alias 2 AliasUserUnit.al (TargetDecl AliasUserUnit.big) AliasUserUnit.p_emitted
    = Some (tt, s')
    /\ TheModule AliasUserUnit.p_big_defined !! GA = None
    /\ TheModule s'
       = delete 2%positive
           (subst_global
              (<[GA := created_alias AliasUserUnit.al_decl false
                         (GlobalVariable_new Int32Ty false ExternalLinkage "al")
                         AliasUserUnit.big_defined 3%positive]>
                 (TheModule AliasUserUnit.p_big_defined))
              2%positive
              (as_type GA AliasUserUnit.big_defined (PointerTy Int32Ty))
              <$> <[GA := created_alias AliasUserUnit.al_decl false
                            (GlobalVariable_new Int32Ty false ExternalLinkage "al")
                            AliasUserUnit.big_defined 3%positive]>
                    (TheModule AliasUserUnit.p_big_defined))
    /\ llvm_cache s'
       = rebind_cache 2%positive (GlobalRef GA) (llvm_cache AliasUserUnit.p_big_defined)
    /\ trees s'
       = <[AliasUserUnit.al := set_TREE_ASM_WRITTEN true AliasUserUnit.al_decl]>
           (trees AliasUserUnit.p_big_defined)
    /\ diagnostics s' = diagnostics AliasUserUnit.p_big_defined
    /\ getInitializer <$> TheModule AliasUserUnit.p_emitted !! 1%positive
       = Some (Some (BitCastExpr (GlobalRef 2%positive) Int8PtrTy))
    /\ getInitializer <$> TheModule s' !! 1%positive
       = Some (Some (BitCastExpr (GlobalRef 4%positive) Int8PtrTy))
    /\ gv_payload <$> TheModule s' !! 4%positive = Some (GlobalAlias (GlobalRef 3%positive)).
Proof.
  destruct (emit_alias_creates_alias 2 AliasUserUnit.al AliasUserUnit.big
              AliasUserUnit.p_emitted 2%positive AliasUserUnit.p_emitted 3%positive
              AliasUserUnit.p_big_defined AliasUserUnit.al_decl
              (GlobalVariable_new Int32Ty false ExternalLinkage "al")
              AliasUserUnit.big_defined)
    as (GA & s' & Hrun & HGA & Hm & Hc & Ht & Hd).
  - reflexivity.
  - vm_compute. reflexivity.
  - vm_compute. eexists. reflexivity.
  - vm_compute. reflexivity.
  - vm_compute. reflexivity.
  - vm_compute. reflexivity.
  - vm_compute. reflexivity.
  - discriminate.
  - vm_compute. discriminate.
  - exists GA, s'. repeat (split; [assumption|]).
    split; [vm_compute; reflexivity|].
    assert (s' = after (emit_alias 2 AliasUserUnit.al (TargetDecl AliasUserUnit.big))
                   AliasUserUnit.p_emitted) as ->
        by (unfold after; now rewrite Hrun).
    split; vm_compute; reflexivity.
Defined.

(** X14. emit_alias on a target that is a declaration, for an alias whose
    linkage is internal, in a unit without errors, when the lookup of the
    alias's global (DECL_LLVM) and the definition of the target
    (DEFINITION_LLVM, with the fuel given) return two different globals of
    the module: no alias is created.  Every use of the alias's global
    becomes a use of the target itself, cast to the old type if the types
    differ and the cast folded into the cast it is an operand of, every
    declaration cached to the old global is cached to the target, the old
    global is erased and the declaration is marked as written. *)
Theorem emit_alias_internal_uses_aliasee fuel decl t s V s1 Aliasee s2 d v a :
  seen_error s = false ->
  DECL_LLVM decl s = Some (Some (GlobalRef V), s1) ->
  is_Some (TheModule s1 !! V) ->
  DEFINITION_LLVM fuel t s1 = Some (Some (GlobalRef Aliasee), s2) ->
  trees s2 !! decl = Some d ->
  TheModule s2 !! V = Some v ->
  TheModule s2 !! Aliasee = Some a ->
  Aliasee <> V ->
  GetLinkageForAlias d (flag_odr s2) = InternalLinkage ->
  exists s',
    emit_alias fuel decl (TargetDecl t) s = Some (tt, s')
    /\ TheModule s'
       = delete V (subst_global (TheModule s2) V (as_type Aliasee a (gv_type v))
                     <$> TheModule s2)
    /\ llvm_cache s' = rebind_cache V (GlobalRef Aliasee) (llvm_cache s2)
    /\ trees s' = <[decl := set_TREE_ASM_WRITTEN true d]> (trees s2)
    /\ diagnostics s' = diagnostics s2.
Proof.
  intros He H1 Hv1 H2 Hd Hv Ha Hne HL.
  destruct (emit_alias_to_decl fuel decl t s V s1 Aliasee s2 _ He H1 Hv1 H2
              (ex_intro _ a Ha)
              (emit_alias_finish_direct decl V Aliasee s2 d v a Hd Hv Ha Hne HL))
    as ([] & s' & Hrun & Hpost).
  exists s'. auto.
Qed.

Lemma emit_alias_internal_uses_aliasee_witness :
  exists s',
    emit_alias 2 AliasUserUnit.w2 (TargetDecl AliasUserUnit.big) AliasUserUnit.q_emitted
    = Some (tt, s')
    /\ TheModule s'
       = delete 2%positive
           (subst_global (TheModule AliasUserUnit.q_big_defined) 2%positive
              (as_type 3%positive AliasUserUnit.big_defined (PointerTy Int32Ty))
              <$> TheModule AliasUserUnit.q_big_defined)
    /\ llvm_cache s'
       = rebind_cache 2%positive (GlobalRef 3%positive)
           (llvm_cache AliasUserUnit.q_big_defined)
    /\ trees s'
       = <[AliasUserUnit.w2 := set_TREE_ASM_WRITTEN true AliasUserUnit.w2_decl]>
           (trees AliasUserUnit.q_big_defined)
    /\ diagnostics s' = diagnostics AliasUserUnit.q_big_defined
    /\ getInitializer <$> TheModule AliasUserUnit.q_emitted !! 1%positive
       = Some (Some (BitCastExpr (GlobalRef 2%positive) Int8PtrTy))
    /\ getInitializer <$> TheModule s' !! 1%positive
       = Some (Some (BitCastExpr (GlobalRef 3%positive) Int8PtrTy)).
Proof.
  destruct (emit_alias_internal_uses_aliasee 2 AliasUserUnit.w2 AliasUserUnit.big
              AliasUserUnit.q_emitted 2%positive AliasUserUnit.q_emitted 3%positive
              AliasUserUnit.q_big_defined AliasUserUnit.w2_decl
              (GlobalVariable_new Int32Ty false ExternalLinkage "w2")
              AliasUserUnit.big_defined)
    as (s' & Hrun & Hm & Hc & Ht & Hd).
  - reflexivity.
  - vm_compute. reflexivity.
  - vm_compute. eexists. reflexivity.
  - vm_compute. reflexivity.
  - vm_compute. reflexivity.
  - vm_compute. reflexivity.
  - vm_compute. reflexivity.
  - discriminate.
  - vm_compute. reflexivity.
  - exists s'. repeat (split; [assumption|]).
    split; [vm_compute; reflexivity|].
    assert (s' = after (emit_alias 2 AliasUserUnit.w2 (TargetDecl AliasUserUnit.big))
                   AliasUserUnit.q_emitted) as ->
        by (unfold after; now rewrite Hrun).
    vm_compute. reflexivity.
Defined.

(** ** What emit_global leaves on the variable *)

Lemma AddAnnotateAttrsToGlobal_none GV d s :
  has_attribute "annotate" (DECL_ATTRIBUTES d) = false ->
  AddAnnotateAttrsToGlobal GV d s = Some (tt, s).
Proof. intros H. unfold AddAnnotateAttrsToGlobal. now rewrite H. Qed.

Lemma upd_AttributeUsedGlobals_same s : upd_AttributeUsedGlobals (fun l => l) s = s.
Proof. now destruct s. Qed.

Lemma emit_global_finish_eq decl GV Init s d gv0 elt :
  trees s !! decl = Some d -> TREE_CODE d = VAR_DECL ->
  TheModule s !! GV = Some gv0 -> isGlobalVariable gv0 = true ->
  gv_type gv0 = PointerTy elt ->
  has_attribute "annotate" (DECL_ATTRIBUTES d) = false ->
  emit_global_finish decl GV Init s
  = if size_matches (TheTarget s) gv0 d then
      Some (tt,
            upd_trees (insert decl (set_TREE_ASM_WRITTEN true d))
              (upd_AttributeUsedGlobals
                 (fun l => if DECL_PRESERVE_P d then SetVector_insert (GlobalRef GV) l
                           else l)
                 (upd_TheModule
                    (insert GV
                       (emitted_variable d (flag_odr s)
                          (getABITypeAlignment (TheTarget s) elt) Init gv0)) s)))
    else None.
Proof.
  intros Hd Hcode Hv Hgv Hty Hann. unfold emit_global_finish.
  rewrite (bind_eq _ _ _ d s) by (apply decl_of_Some; eauto).
  rewrite (bind_eq _ _ _ _ _ (update_global_eq _ _ _ _ Hv)).
  rewrite (bind_eq _ _ _ _ _
             (when_update_global_eq _ _ _ _ _ (lookup_upd_TheModule_insert _ _ _))).
  rewrite upd_TheModule_insert_insert. fold (declared_thread_local d).
  rewrite (bind_eq _ _ _ _ _
             (proj2 (global_of_Some _ _ _)
                (ex_intro _ _ (conj (lookup_upd_TheModule_insert _ _ _) eq_refl)))).
  rewrite (bind_eq _ _ _ (flag_odr s) _) by reflexivity.
  cbv zeta.
  rewrite (bind_eq _ _ _ _ _ (update_global_eq _ _ _ _ (lookup_upd_TheModule_insert _ _ _))).
  rewrite upd_TheModule_insert_insert.
  rewrite (bind_eq _ _ _ _ _ (handleVisibility_eq _ _ _ _ (lookup_upd_TheModule_insert _ _ _))).
  rewrite upd_TheModule_insert_insert.
  rewrite Hcode. rewrite bool_decide_eq_true_2 by reflexivity. cbn [when].
  destruct gv0 as [n t l vi se al [i k tl | cc a body | al']]; try discriminate.
  cbn in Hty. subst t.
  set (tl' := tl || declared_thread_local d).
  set (L := constant_Linkage k (emit_global_Linkage d (flag_odr s) l)).
  set (v4 := {| gv_name := n; gv_type := PointerTy elt; gv_linkage := L;
                gv_visibility := forwarded_visibility d vi; gv_section := se;
                gv_alignment := al;
                gv_payload := GlobalVariable (Some Init) k tl' |}).
  match goal with
  | |- context [upd_TheModule (insert GV ?x) s] =>
      assert (x = v4) as -> by (unfold v4, tl'; now destruct (declared_thread_local d), tl)
  end.
  set (v5 := with_section (default se (DECL_SECTION_NAME d)) v4).
  set (v6 := with_alignment
               (if negb (DECL_ALIGN d =? 0)
                   && (DECL_USER_ALIGN d
                       || (8 * getABITypeAlignment (TheTarget s) elt <? DECL_ALIGN d))
                then DECL_ALIGN d / 8 else al) v5).
  assert (forall k : M unit,
             (do _ <- (do _ <- match DECL_SECTION_NAME d with
                               | Some sec => update_global GV (with_section sec)
                               | None => ret tt
                               end;
                       k);
              do gv <- global_of GV;
              do tm <- gets TheTarget;
              do matches <- unwrap (SizeOfGlobalMatchesDecl tm gv d);
              do _ <- assert matches;
              mark_written decl) (upd_TheModule (insert GV v4) s)
             = (do _ <- k;
                do gv <- global_of GV;
                do tm <- gets TheTarget;
                do matches <- unwrap (SizeOfGlobalMatchesDecl tm gv d);
                do _ <- assert matches;
                mark_written decl) (upd_TheModule (insert GV v5) s)) as Esec.
  { intros k0. unfold bind at 1. unfold bind at 1.
    destruct (DECL_SECTION_NAME d) as [sec|].
    - rewrite (update_global_eq _ _ _ _ (lookup_upd_TheModule_insert _ _ _)).
      now rewrite upd_TheModule_insert_insert.
    - cbn [ret]. unfold v5. cbn [default].
      replace (with_section se v4) with v4 by reflexivity. reflexivity. }
  rewrite Esec. clear Esec.
  assert (when (negb (DECL_ALIGN d =? 0))
            (do tm <- gets TheTarget;
             do gv <- global_of GV;
             do elt <- unwrap (getElementType (gv_type gv));
             when (DECL_USER_ALIGN d
                   || (8 * getABITypeAlignment tm elt <? DECL_ALIGN d))
               (update_global GV (with_alignment (DECL_ALIGN d / 8))))
            (upd_TheModule (insert GV v5) s)
          = Some (tt, upd_TheModule (insert GV v6) s)) as Ealign.
  { unfold v6. destruct (negb (DECL_ALIGN d =? 0)); cbn [when andb].
    - rewrite (bind_eq _ _ _ (TheTarget s) _) by reflexivity.
      rewrite (bind_eq _ _ _ _ _
                 (proj2 (global_of_Some _ _ _)
                    (ex_intro _ _ (conj (lookup_upd_TheModule_insert _ _ _) eq_refl)))).
      cbn [gv_type v5 v4 with_section getElementType unwrap].
      rewrite (bind_eq _ _ _ elt _) by reflexivity.
      rewrite (when_update_global_eq _ _ _ _ _ (lookup_upd_TheModule_insert _ _ _)).
      rewrite upd_TheModule_insert_insert. f_equal. f_equal. f_equal. f_equal.
      destruct (DECL_USER_ALIGN d || _); reflexivity.
    - replace (with_alignment al v5) with v5 by reflexivity. reflexivity. }
  unfold bind at 1. unfold bind at 1. rewrite Ealign. clear Ealign.
  unfold bind at 1.
  assert (when (DECL_PRESERVE_P d)
            (if false
             then modify (upd_AttributeCompilerUsedGlobals
                            (SetVector_insert (GlobalRef GV)))
             else modify (upd_AttributeUsedGlobals (SetVector_insert (GlobalRef GV))))
            (upd_TheModule (insert GV v6) s)
          = Some (tt, upd_AttributeUsedGlobals
                        (fun l => if DECL_PRESERVE_P d
                                  then SetVector_insert (GlobalRef GV) l else l)
                        (upd_TheModule (insert GV v6) s))) as ->.
  { destruct (DECL_PRESERVE_P d); cbn [when]; [reflexivity|].
    now rewrite upd_AttributeUsedGlobals_same. }
  set (s6 := upd_AttributeUsedGlobals _ _).
  assert (match DECL_ATTRIBUTES d with
          | [] => ret tt
          | _ :: _ => AddAnnotateAttrsToGlobal GV d
          end s6 = Some (tt, s6)) as ->.
  { pose proof (AddAnnotateAttrsToGlobal_none GV d s6 Hann) as EA.
    destruct (DECL_ATTRIBUTES d); [reflexivity | exact EA]. }
  assert (TheModule s6 !! GV = Some v6) as Hv6 by apply lookup_insert_eq.
  rewrite (bind_eq _ _ _ v6 s6) by (apply global_of_Some; eauto).
  rewrite (bind_eq _ _ _ (TheTarget s) s6) by reflexivity.
  assert (SizeOfGlobalMatchesDecl (TheTarget s) v6 d
          = SizeOfGlobalMatchesDecl (TheTarget s)
              {| gv_name := n; gv_type := PointerTy elt; gv_linkage := l;
                 gv_visibility := vi; gv_section := se; gv_alignment := al;
                 gv_payload := GlobalVariable i k tl |} d) as ->
    by now apply SizeOfGlobalMatchesDecl_type.
  unfold size_matches.
  destruct (SizeOfGlobalMatchesDecl _ _ d) as [[|]|]; [|reflexivity|reflexivity].
  rewrite bool_decide_eq_true_2 by reflexivity.
  rewrite (bind_eq _ _ _ true s6) by reflexivity.
  rewrite (bind_eq _ _ _ tt s6) by reflexivity.
  unfold mark_written.
  rewrite (bind_eq _ _ _ d s6) by (apply decl_of_Some; eauto).
  reflexivity.
Qed.



Lemma emitted_variable_initializer d odr al Init gv0 i :
  isGlobalVariable gv0 = true ->
  emitted_variable d odr al Init (setInitializer i gv0) = emitted_variable d odr al Init gv0.
Proof. destruct gv0 as [n t l vi se a [i0 k tl | cc at' body | al']]; now try discriminate. Qed.

Lemma emit_global_literal fuel decl s GV s1 d0 d gv0 Init elt :
  trees s !! decl = Some d0 -> emit_global_skips d0 = false ->
  DECL_LLVM decl s = Some (Some (GlobalRef GV), s1) ->
  trees s1 !! decl = Some d -> TREE_CODE d = VAR_DECL ->
  TheModule s1 !! GV = Some gv0 -> isGlobalVariable gv0 = true ->
  literal_initializer (TheTypeConverter s1) d = Some (Init, elt) ->
  gv_type gv0 = PointerTy elt ->
  has_attribute "annotate" (DECL_ATTRIBUTES d) = false ->
  emit_global (S fuel) decl s
  = if size_matches (TheTarget s1) gv0 d then
      Some (tt,
            upd_trees (insert decl (set_TREE_ASM_WRITTEN true d))
              (upd_AttributeUsedGlobals
                 (fun l => if DECL_PRESERVE_P d then SetVector_insert (GlobalRef GV) l
                           else l)
                 (upd_TheModule
                    (insert GV
                       (emitted_variable d (flag_odr s1)
                          (getABITypeAlignment (TheTarget s1) elt) Init gv0)) s1)))
    else None.
Proof.
  intros Hd0 Hskip Hrun Hd Hcode Hv Hgv Hinit Hty Hann.
  change (emit_global (S fuel) decl)
    with (emit_global_with
            (ConvertInitializer (make_definition_llvm_with (emit_global fuel))) decl).
  unfold emit_global_with.
  rewrite (bind_eq _ _ _ d0 s) by (apply decl_of_Some; eauto).
  unfold emit_global_skips in Hskip. apply orb_false_iff in Hskip.
  destruct Hskip as [-> ->].
  rewrite (bind_eq _ _ _ _ _ Hrun).
  rewrite (bind_eq _ _ _ _ _ (cast_GlobalVariable_eq _ _ _ Hv Hgv)).
  rewrite (bind_eq _ _ _ d s1) by (apply decl_of_Some; eauto).
  set (gvU := match DECL_INITIAL d with
              | None | Some error_mark_node => gv0
              | Some _ => setInitializer (Some (UndefValue elt)) gv0
              end).
  assert (gv_type gvU = PointerTy elt) as HtyU.
  { unfold gvU. destruct (DECL_INITIAL d) as [[| | |]|]; try exact Hty;
      destruct gv0 as [n t l vi se a [i0 k tl | cc at' body | al']]; exact Hty. }
  assert (isGlobalVariable gvU = true) as HgvU.
  { unfold gvU. destruct (DECL_INITIAL d) as [[| | |]|]; try exact Hgv;
      destruct gv0 as [n t l vi se a [i0 k tl | cc at' body | al']]; exact Hgv. }
  assert (forall x, emitted_variable d (flag_odr s1) x Init gvU
                    = emitted_variable d (flag_odr s1) x Init gv0) as EgvU.
  { intros x. unfold gvU.
    destruct (DECL_INITIAL d) as [[| | |]|]; try reflexivity;
      now apply emitted_variable_initializer. }
  assert (match DECL_INITIAL d with
          | None | Some error_mark_node =>
              do tc <- gets TheTypeConverter;
              ret (getDefaultValue (ConvertType tc (TREE_TYPE d)))
          | Some init =>
              do _ <- assert (TREE_CONSTANT init || is_STRING_CST init);
              do gv <- global_of GV;
              do elt <- unwrap (getElementType (gv_type gv));
              do _ <- update_global GV (setInitializer (Some (UndefValue elt)));
              ConvertInitializer (make_definition_llvm_with (emit_global fuel)) init
          end s1 = Some (Init, upd_TheModule (insert GV gvU) s1)) as EInit.
  { unfold literal_initializer in Hinit. unfold gvU.
    destruct (DECL_INITIAL d) as [[|ty z|ty str|ty c op]|]; try discriminate;
      injection Hinit as <- <-.
    - rewrite (upd_TheModule_insert_id _ _ _ Hv). reflexivity.
    - cbn [TREE_CONSTANT is_STRING_CST orb].
      rewrite (bind_eq _ _ _ tt s1) by reflexivity.
      rewrite (bind_eq _ _ _ gv0 s1) by (apply global_of_Some; eauto).
      rewrite Hty. cbn [getElementType unwrap].
      rewrite (bind_eq _ _ _ _ s1) by reflexivity.
      rewrite (bind_eq _ _ _ _ _ (update_global_eq _ _ _ _ Hv)).
      reflexivity.
    - cbn [TREE_CONSTANT is_STRING_CST orb].
      rewrite (bind_eq _ _ _ tt s1) by reflexivity.
      rewrite (bind_eq _ _ _ gv0 s1) by (apply global_of_Some; eauto).
      rewrite Hty. cbn [getElementType unwrap].
      rewrite (bind_eq _ _ _ _ s1) by reflexivity.
      rewrite (bind_eq _ _ _ _ _ (update_global_eq _ _ _ _ Hv)).
      reflexivity.
    - rewrite (upd_TheModule_insert_id _ _ _ Hv). reflexivity. }
  rewrite (bind_eq _ _ _ _ _ EInit). clear EInit.
  rewrite (bind_eq _ _ _ _ _
             (proj2 (global_of_Some _ _ _)
                (ex_intro _ _ (conj (lookup_upd_TheModule_insert _ _ _) eq_refl)))).
  rewrite HtyU. cbn [getElementType unwrap].
  rewrite (bind_eq _ _ _ elt (upd_TheModule (insert GV gvU) s1)) by reflexivity.
  assert (getTypeM Init (upd_TheModule (insert GV gvU) s1)
          = Some (elt, upd_TheModule (insert GV gvU) s1)) as ETy.
  { unfold literal_initializer in Hinit.
    destruct (DECL_INITIAL d) as [[|ty z|ty str|ty c op]|]; try discriminate;
      injection Hinit as <- <-; reflexivity. }
  rewrite (bind_eq _ _ _ _ _ ETy). clear ETy.
  rewrite bool_decide_eq_false_2 by (intros H; now apply H).
  rewrite (bind_eq _ _ _ GV (upd_TheModule (insert GV gvU) s1)) by reflexivity.
  rewrite (emit_global_finish_eq decl GV Init (upd_TheModule (insert GV gvU) s1)
             d gvU elt Hd Hcode
             (lookup_upd_TheModule_insert _ _ _) HgvU HtyU Hann).
  cbn [TheTarget flag_odr upd_TheModule]. unfold size_matches.
  rewrite (SizeOfGlobalMatchesDecl_type _ gv0 gvU) by now rewrite HtyU, Hty.
  now rewrite upd_TheModule_insert_insert, EgvU.
Qed.

(** X15. emit_global on a VAR_DECL that is not skipped, whose initial value
    is absent or an integer or string literal and whose global variable has
    the type of that value, when the declaration has no annotate attribute:
    whatever the fuel, the run ends iff the size check passes (the size of
    the declaration fits 64 bits and SizeOfGlobalMatchesDecl, computed with
    the wrap-around of the source, is true), and then the global is exactly
    [emitted_variable]: the initializer (zero when there
    is none), the linkage of the table, the forwarded visibility, the
    section if the declaration names one, the alignment DECL_ALIGN / 8 only
    if the user asked for it or it exceeds the ABI alignment, thread
    locality; a preserved variable is added to the used roots, nothing is
    added to the compiler-used roots, and the declaration is marked as
    written. *)
Theorem emit_global_defines_variable fuel decl s GV s1 d0 d gv0 Init elt :
  trees s !! decl = Some d0 -> emit_global_skips d0 = false ->
  DECL_LLVM decl s = Some (Some (GlobalRef GV), s1) ->
  trees s1 !! decl = Some d -> TREE_CODE d = VAR_DECL ->
  TheModule s1 !! GV = Some gv0 -> isGlobalVariable gv0 = true ->
  literal_initializer (TheTypeConverter s1) d = Some (Init, elt) ->
  gv_type gv0 = PointerTy elt ->
  has_attribute "annotate" (DECL_ATTRIBUTES d) = false ->
  emit_global (S fuel) decl s
  = if size_matches (TheTarget s1) gv0 d then
      Some (tt,
            upd_trees (insert decl (set_TREE_ASM_WRITTEN true d))
              (upd_AttributeUsedGlobals
                 (fun l => if DECL_PRESERVE_P d then SetVector_insert (GlobalRef GV) l
                           else l)
                 (upd_TheModule
                    (insert GV
                       (emitted_variable d (flag_odr s1)
                          (getABITypeAlignment (TheTarget s1) elt) Init gv0)) s1)))
    else None.
Proof. apply emit_global_literal. Qed.

Lemma emit_global_defines_variable_witness :
  emit_global 1 Unit.foo_public Unit.start
  = if size_matches (TheTarget (after (make_decl_llvm Unit.foo_public) Unit.start))
         (GlobalVariable_new Int32Ty false ExternalLinkage "foo")
         (Unit.declaration VAR_DECL "foo" Unit.int_type
            (Some (INTEGER_CST Unit.int_type 2)) true)
    then
      Some (tt,
            upd_trees
              (insert Unit.foo_public
                 (set_TREE_ASM_WRITTEN true
                    (Unit.declaration VAR_DECL "foo" Unit.int_type
                       (Some (INTEGER_CST Unit.int_type 2)) true)))
              (upd_AttributeUsedGlobals
                 (fun l =>
                    if DECL_PRESERVE_P
                         (Unit.declaration VAR_DECL "foo" Unit.int_type
                            (Some (INTEGER_CST Unit.int_type 2)) true)
                    then SetVector_insert (GlobalRef 1%positive) l else l)
                 (upd_TheModule
                    (insert 1%positive
                       (emitted_variable
                          (Unit.declaration VAR_DECL "foo" Unit.int_type
                             (Some (INTEGER_CST Unit.int_type 2)) true)
                          (flag_odr (after (make_decl_llvm Unit.foo_public) Unit.start))
                          (getABITypeAlignment
                             (TheTarget (after (make_decl_llvm Unit.foo_public) Unit.start))
                             Int32Ty)
                          (ConstantInt Int32Ty 2)
                          (GlobalVariable_new Int32Ty false ExternalLinkage "foo")))
                    (after (make_decl_llvm Unit.foo_public) Unit.start))))
    else None.
Proof.
  apply (emit_global_defines_variable 0 Unit.foo_public Unit.start 1%positive
           (after (make_decl_llvm Unit.foo_public) Unit.start)
           (Unit.declaration VAR_DECL "foo" Unit.int_type
              (Some (INTEGER_CST Unit.int_type 2)) true)
           (Unit.declaration VAR_DECL "foo" Unit.int_type
              (Some (INTEGER_CST Unit.int_type 2)) true)
           (GlobalVariable_new Int32Ty false ExternalLinkage "foo")
           (ConstantInt Int32Ty 2) Int32Ty).
  - reflexivity.
  - reflexivity.
  - vm_compute. reflexivity.
  - vm_compute. reflexivity.
  - reflexivity.
  - vm_compute. reflexivity.
  - reflexivity.
  - reflexivity.
  - reflexivity.
  - vm_compute. reflexivity.
Defined.

(** ** Same-body aliases, thunks to varargs functions, private variables *)

(** X16. emit_same_body_alias on an alias whose target is extern inline
    (DECL_EXTERNAL), in a unit without errors, when the lookup of the
    alias's global (DECL_LLVM) and the definition of the target
    (DEFINITION_LLVM, with the fuel given) return two different globals of
    the module: whatever the linkage of the alias, no alias is created.
    Every use of the alias's global becomes a use of the target's, cast to
    the old type if the types differ and the cast folded into the cast it is
    an operand of, every declaration cached to the old global is cached to
    the target's, the old global is erased and the alias is marked as
    written. *)
Theorem emit_same_body_alias_extern_inline fuel alias s td Alias s1 Aliasee s2 d v a :
  seen_error s = false ->
  trees s !! thunk_alias (thunk alias) = Some td ->
  DECL_EXTERNAL td = true ->
  DECL_LLVM (node_decl alias) s = Some (Some (GlobalRef Alias), s1) ->
  is_Some (TheModule s1 !! Alias) ->
  DEFINITION_LLVM fuel (thunk_alias (thunk alias)) s1
  = Some (Some (GlobalRef Aliasee), s2) ->
  trees s2 !! node_decl alias = Some d ->
  TheModule s2 !! Alias = Some v ->
  TheModule s2 !! Aliasee = Some a ->
  Aliasee <> Alias ->
  exists s',
    emit_same_body_alias fuel alias s = Some (tt, s')
    /\ TheModule s'
       = delete Alias
           (subst_global (TheModule s2) Alias (as_type Aliasee a (gv_type v))
              <$> TheModule s2)
    /\ llvm_cache s' = rebind_cache Alias (GlobalRef Aliasee) (llvm_cache s2)
    /\ trees s' = <[node_decl alias := set_TREE_ASM_WRITTEN true d]> (trees s2)
    /\ diagnostics s' = diagnostics s2.
Proof.
  intros He Htd Hext H1 [v1 Hv1] H2 Hd Hv Ha Hne.
  assert (runs (emit_same_body_alias fuel alias) s (fun _ s' =>
            TheModule s'
            = delete Alias
                (subst_global (TheModule s2) Alias (as_type Aliasee a (gv_type v))
                   <$> TheModule s2)
            /\ llvm_cache s' = rebind_cache Alias (GlobalRef Aliasee) (llvm_cache s2)
            /\ trees s' = <[node_decl alias := set_TREE_ASM_WRITTEN true d]> (trees s2)
            /\ diagnostics s' = diagnostics s2)) as ([] & s' & Hrun & Hpost).
  { unfold emit_same_body_alias. apply runs_bind, runs_get. rewrite He. cbv zeta.
    apply runs_bind, (runs_decl_of _ td); [exact Htd|].
    rewrite Hext. cbn [negb].
    apply runs_bind. eapply runs_eq; [exact H1|].
    apply runs_bind. eapply runs_eq; [eapply cast_GlobalValue_eq; eauto|].
    apply runs_bind. eapply runs_eq; [exact H2|].
    apply runs_bind. eapply runs_eq; [eapply cast_GlobalValue_eq; eauto|].
    apply runs_bind, (runs_global_of _ v); [exact Hv|].
    apply runs_bind. eapply runs_eq; [apply (CreateBitCastM_eq Aliasee a), Ha|].
    apply runs_bind, runs_replaceAllUsesWith.
    apply runs_bind. eapply runs_eq.
    { apply changeLLVMConstant_eq, use_empty_replaced. now apply as_type_mentions. }
    apply runs_bind. unfold eraseFromParent. apply runs_modify.
    unfold mark_written. eapply runs_bind, runs_decl_of; [cbn; exact Hd|].
    apply runs_modify. cbn. auto. }
  exists s'. auto.
Qed.



Lemma emit_same_body_alias_extern_inline_witness :
  exists s',
    emit_same_body_alias 1 SameBodyUserUnit.alias_node SameBodyUserUnit.r_emitted
    = Some (tt, s')
    /\ TheModule s'
       = delete 2%positive
           (subst_global (TheModule SameBodyUserUnit.both_declared) 2%positive
              (as_type 3%positive
                 (declared_function SameBodyUserUnit.base_decl "base" Unit.method_type 0 [])
                 (PointerTy SameBodyUserUnit.complete_type))
              <$> TheModule SameBodyUserUnit.both_declared)
    /\ llvm_cache s'
       = rebind_cache 2%positive (GlobalRef 3%positive)
           (llvm_cache SameBodyUserUnit.both_declared)
    /\ trees s'
       = <[SameBodyUserUnit.complete :=
             set_TREE_ASM_WRITTEN true SameBodyUserUnit.complete_decl]>
           (trees SameBodyUserUnit.both_declared)
    /\ diagnostics s' = diagnostics SameBodyUserUnit.both_declared
    /\ getInitializer <$> TheModule SameBodyUserUnit.r_emitted !! 1%positive
       = Some (Some (BitCastExpr (GlobalRef 2%positive) Int8PtrTy))
    /\ getInitializer <$> TheModule s' !! 1%positive
       = Some (Some (BitCastExpr (GlobalRef 3%positive) Int8PtrTy)).
Proof.
  destruct (emit_same_body_alias_extern_inline 1 SameBodyUserUnit.alias_node
              SameBodyUserUnit.r_emitted
              SameBodyUserUnit.base_decl 2%positive SameBodyUserUnit.r_emitted 3%positive
              SameBodyUserUnit.both_declared SameBodyUserUnit.complete_decl
              (declared_function SameBodyUserUnit.complete_decl "complete"
                 SameBodyUserUnit.complete_type 0 [])
              (declared_function SameBodyUserUnit.base_decl "base" Unit.method_type 0 []))
    as (s' & Hrun & Hm & Hc & Ht & Hd).
  - reflexivity.
  - vm_compute. reflexivity.
  - reflexivity.
  - vm_compute. reflexivity.
  - vm_compute. eexists. reflexivity.
  - vm_compute. reflexivity.
  - vm_compute. reflexivity.
  - vm_compute. reflexivity.
  - vm_compute. reflexivity.
  - discriminate.
  - exists s'. repeat (split; [assumption|]).
    split; [vm_compute; reflexivity|].
    assert (s' = after (emit_same_body_alias 1 SameBodyUserUnit.alias_node)
                   SameBodyUserUnit.r_emitted) as ->
        by (unfold after; now rewrite Hrun).
    vm_compute. reflexivity.
Defined.

(** X17. emit_thunk on a thunk whose function is variadic, in a unit without
    errors: "thunks to varargs functions not supported" is reported as a
    sorry and that is all; no body is built, the thunk is not marked
    as written, the module and the declarations are as the lookup of the
    thunk left them, and the unit now counts as broken, so that running
    emit_thunk again changes nothing. *)
Theorem emit_thunk_varargs_is_refused node s Thunk s1 fn RetTy params :
  seen_error s = false ->
  DECL_LLVM (node_decl node) s = Some (Some (GlobalRef Thunk), s1) ->
  TheModule s1 !! Thunk = Some fn ->
  isFunction fn = true ->
  gv_type fn = PointerTy (FunctionTy RetTy params true) ->
  exists s',
    s' = report (Sorry "thunks to varargs functions not supported" None) s1
    /\ emit_thunk node s = Some (tt, s')
    /\ TheModule s' = TheModule s1 /\ trees s' = trees s1
    /\ llvm_cache s' = llvm_cache s1
    /\ seen_error s' = true
    /\ emit_thunk node s' = Some (tt, s').
Proof.
  intros He H1 Hfn Hf Hty. eexists. split; [reflexivity|].
  set (s' := report _ s1).
  assert (seen_error s' = true) as He'.
  { unfold s', seen_error. cbn. apply orb_true_r. }
  split; [|split; [reflexivity|split; [reflexivity|split; [reflexivity|split]]]].
  - unfold emit_thunk.
    rewrite (bind_eq _ _ _ s s) by reflexivity. rewrite He.
    rewrite (bind_eq _ _ _ _ _ H1).
    rewrite (bind_eq _ _ _ _ _ (cast_Function_eq _ _ _ Hfn Hf)).
    rewrite (bind_eq _ _ _ fn s1) by (apply global_of_Some; eauto).
    rewrite Hty. reflexivity.
  - exact He'.
  - unfold emit_thunk. rewrite (bind_eq _ _ _ s' s') by reflexivity.
    now rewrite He'.
Qed.

Lemma emit_thunk_varargs_is_refused_witness :
  exists s',
    s' = report (Sorry "thunks to varargs functions not supported" None)
           (after (make_decl_llvm Unit.thunk_decl) VarargsUnit.variadic_unit)
    /\ emit_thunk ThunkUnit.this_thunk VarargsUnit.variadic_unit = Some (tt, s')
    /\ TheModule s' = TheModule (after (make_decl_llvm Unit.thunk_decl) VarargsUnit.variadic_unit)
    /\ trees s' = trees (after (make_decl_llvm Unit.thunk_decl) VarargsUnit.variadic_unit)
    /\ llvm_cache s' = llvm_cache (after (make_decl_llvm Unit.thunk_decl) VarargsUnit.variadic_unit)
    /\ seen_error s' = true
    /\ emit_thunk ThunkUnit.this_thunk s' = Some (tt, s').
Proof.
  apply (emit_thunk_varargs_is_refused ThunkUnit.this_thunk VarargsUnit.variadic_unit 1%positive
           (after (make_decl_llvm Unit.thunk_decl) VarargsUnit.variadic_unit)
           (declared_function (Unit.declaration FUNCTION_DECL "thunk" Unit.fn_type None true)
              "thunk" (FunctionTy Int8PtrTy [Int8PtrTy] true) 0 [])
           Int8PtrTy [Int8PtrTy]).
  - reflexivity.
  - vm_compute. reflexivity.
  - vm_compute. reflexivity.
  - reflexivity.
  - reflexivity.
Defined.

(** A declaration emit_variables passes over: anything but a VAR_DECL that
    is public or preserved. *)
Lemma for_each_private fuel vars s :
  Forall (fun var => exists d, trees s !! var = Some d
                               /\ bool_decide (TREE_CODE d = VAR_DECL)
                                  && (TREE_PUBLIC d || DECL_PRESERVE_P d) = false) vars ->
  for_each (fun var =>
              do d <- decl_of var;
              when (bool_decide (TREE_CODE d = VAR_DECL)
                    && (TREE_PUBLIC d || DECL_PRESERVE_P d))
                (emit_global fuel var)) vars s = Some (tt, s).
Proof.
  induction 1 as [|var vars (d & Hd & Hp) _ IH]; [reflexivity|].
  cbn [for_each].
  rewrite (bind_eq _ _ _ tt s); [exact IH|].
  rewrite (bind_eq _ _ _ d s) by (apply decl_of_Some; eauto).
  now rewrite Hp.
Qed.

(** X18. emit_variables emits no variable that is neither public nor
    preserved: in a unit without errors whose static variables are all of
    that kind (or no VAR_DECL), it does exactly what emitting the alias
    pairs in order does, whatever the fuel, and with no alias pair it leaves
    the state as it is.  A static variable that is no declaration of the
    unit stops the run. *)
Theorem emit_variables_passes_private fuel vars pairs s :
  seen_error s = false ->
  Forall (fun var => exists d, trees s !! var = Some d
                               /\ bool_decide (TREE_CODE d = VAR_DECL)
                                  && (TREE_PUBLIC d || DECL_PRESERVE_P d) = false) vars ->
  emit_variables fuel vars pairs s
  = for_each (fun p => emit_alias fuel (fst p) (snd p)) pairs s
  /\ emit_variables fuel vars [] s = Some (tt, s)
  /\ (forall var, trees s !! var = None ->
                  emit_variables fuel (var :: vars) pairs s = None).
Proof.
  intros He Hp.
  assert (forall pairs',
             emit_variables fuel vars pairs' s
             = for_each (fun p => emit_alias fuel (fst p) (snd p)) pairs' s) as E.
  { intros pairs'. unfold emit_variables.
    rewrite (bind_eq _ _ _ s s) by reflexivity. rewrite He.
    now rewrite (bind_eq _ _ _ _ _ (for_each_private fuel vars s Hp)). }
  split; [apply E|]. split; [apply E|].
  intros var Hvar. unfold emit_variables.
  rewrite (bind_eq _ _ _ s s) by reflexivity. rewrite He.
  cbn [for_each]. unfold bind at 1. unfold bind at 1. unfold bind at 1.
  unfold decl_of. now rewrite Hvar.
Qed.

Lemma emit_variables_passes_private_witness :
  emit_variables 0 [Unit.foo_static; Unit.method; Unit.field]
    [(Unit.strong_alias, TargetIdentifier (Identifier "ext"))] Unit.start
  = for_each (fun p => emit_alias 0 (fst p) (snd p))
      [(Unit.strong_alias, TargetIdentifier (Identifier "ext"))] Unit.start
  /\ emit_variables 0 [Unit.foo_static; Unit.method; Unit.field] [] Unit.start
     = Some (tt, Unit.start)
  /\ (forall var, trees Unit.start !! var = None ->
                  emit_variables 0 (var :: [Unit.foo_static; Unit.method; Unit.field])
                    [(Unit.strong_alias, TargetIdentifier (Identifier "ext"))] Unit.start
                  = None).
Proof.
  apply (emit_variables_passes_private 0 [Unit.foo_static; Unit.method; Unit.field]
           [(Unit.strong_alias, TargetIdentifier (Identifier "ext"))] Unit.start).
  - reflexivity.
  - repeat constructor; eexists; (split; [vm_compute; reflexivity | reflexivity]).
Defined.

(** ** make_definition_llvm *)

(** X23. make_definition_llvm on a static, non-external VAR_DECL whose
    global variable is declared but not yet defined, with a literal (or no)
    initial value of the type of the global, a matching size and no
    annotate attribute: whatever the fuel (if any), it returns that global,
    now defined with the initializer as emit_global leaves it; and asked
    again, with or without fuel, it returns the same global and changes
    nothing. *)
Theorem make_definition_llvm_defines_once fuel decl s d GV gv0 Init elt :
  trees s !! decl = Some d -> TREE_CODE d = VAR_DECL ->
  DECL_EXTERNAL d = false -> TREE_STATIC d = true ->
  emit_global_skips d = false ->
  cached s decl = ValuePtr (GlobalRef GV) ->
  TheModule s !! GV = Some gv0 ->
  isGlobalVariable gv0 = true -> isDeclaration gv0 = true ->
  literal_initializer (TheTypeConverter s) d = Some (Init, elt) ->
  gv_type gv0 = PointerTy elt ->
  has_attribute "annotate" (DECL_ATTRIBUTES d) = false ->
  SizeOfGlobalMatchesDecl (TheTarget s) gv0 d = Some true ->
  exists s',
    DEFINITION_LLVM (S fuel) decl s = Some (Some (GlobalRef GV), s')
    /\ TheModule s' !! GV
       = Some (emitted_variable d (flag_odr s) (getABITypeAlignment (TheTarget s) elt)
                 Init gv0)
    /\ isDeclaration (emitted_variable d (flag_odr s)
                        (getABITypeAlignment (TheTarget s) elt) Init gv0) = false
    /\ (forall fuel', DEFINITION_LLVM fuel' decl s' = Some (Some (GlobalRef GV), s')).
Proof.
  intros Hd Hcode Hext Hst Hskip Hc Hv Hgv Hdecl Hinit Hty Hann Hsz.
  assert (HAS_RTL_P (TREE_CODE d) = true) as Hrtl by now rewrite Hcode.
  pose proof (make_decl_llvm_cached decl s d (GlobalRef GV) Hd Hrtl Hc) as Hrun.
  pose proof (emit_global_literal fuel decl s GV s d d gv0 Init elt Hd Hskip Hrun Hd
                Hcode Hv Hgv Hinit Hty Hann) as Hemit.
  unfold size_matches in Hemit. rewrite Hsz in Hemit.
  rewrite bool_decide_eq_true_2 in Hemit by reflexivity.
  set (gv' := emitted_variable d (flag_odr s) (getABITypeAlignment (TheTarget s) elt)
                Init gv0) in *.
  set (s' := upd_trees _ _) in Hemit.
  set (d' := set_TREE_ASM_WRITTEN true d).
  assert (trees s' !! decl = Some d') as Hd'
    by (unfold s'; cbn; apply lookup_insert_eq).
  assert (cached s' decl = ValuePtr (GlobalRef GV)) as Hc' by exact Hc.
  assert (TheModule s' !! GV = Some gv') as Hv'
    by (unfold s'; cbn; apply lookup_insert_eq).
  pose proof (make_decl_llvm_cached decl s' d' (GlobalRef GV) Hd' Hrtl Hc') as Hrun'.
  exists s'. split; [|split; [exact Hv'|split; [reflexivity|]]].
  - unfold DEFINITION_LLVM, make_definition_llvm, make_definition_llvm_with.
    rewrite (bind_eq _ _ _ d s) by (apply decl_of_Some; eauto).
    rewrite Hcode, Hext, Hst.
    change (bool_decide (VAR_DECL <> CONST_DECL) && bool_decide (VAR_DECL <> VAR_DECL))
      with false.
    cbn [negb].
    unfold DECL_LLVM at 1. rewrite (bind_eq _ _ _ _ _ Hrun).
    rewrite (bind_eq _ _ _ _ _ (cast_GlobalValue_eq _ _ _ Hv)).
    rewrite (bind_eq _ _ _ gv0 s) by (apply global_of_Some; eauto).
    rewrite Hdecl. cbn [negb].
    destruct fuel as [|fuel0].
    + rewrite (bind_eq _ _ _ _ _ Hemit). exact Hrun'.
    + rewrite (bind_eq _ _ _ _ _ Hemit). exact Hrun'.
  - intros fuel'.
    unfold DEFINITION_LLVM, make_definition_llvm, make_definition_llvm_with.
    rewrite (bind_eq _ _ _ d' s') by (apply decl_of_Some; eauto).
    assert (TREE_CODE d' = VAR_DECL) as -> by exact Hcode.
    assert (DECL_EXTERNAL d' = false) as -> by exact Hext.
    assert (TREE_STATIC d' = true) as -> by exact Hst.
    change (bool_decide (VAR_DECL <> CONST_DECL) && bool_decide (VAR_DECL <> VAR_DECL))
      with false.
    cbn [negb].
    unfold DECL_LLVM at 1. rewrite (bind_eq _ _ _ _ _ Hrun').
    rewrite (bind_eq _ _ _ _ _ (cast_GlobalValue_eq _ _ _ Hv')).
    rewrite (bind_eq _ _ _ gv' s') by (apply global_of_Some; eauto).
    reflexivity.
Qed.

Lemma make_definition_llvm_defines_once_witness :
  exists s',
    DEFINITION_LLVM 1 Unit.foo_public (after (make_decl_llvm Unit.foo_public) Unit.start)
    = Some (Some (GlobalRef 1%positive), s')
    /\ TheModule s' !! 1%positive
       = Some (emitted_variable
                 (Unit.declaration VAR_DECL "foo" Unit.int_type
                    (Some (INTEGER_CST Unit.int_type 2)) true)
                 (flag_odr (after (make_decl_llvm Unit.foo_public) Unit.start))
                 (getABITypeAlignment
                    (TheTarget (after (make_decl_llvm Unit.foo_public) Unit.start)) Int32Ty)
                 (ConstantInt Int32Ty 2)
                 (GlobalVariable_new Int32Ty false ExternalLinkage "foo"))
    /\ isDeclaration
         (emitted_variable
            (Unit.declaration VAR_DECL "foo" Unit.int_type
               (Some (INTEGER_CST Unit.int_type 2)) true)
            (flag_odr (after (make_decl_llvm Unit.foo_public) Unit.start))
            (getABITypeAlignment
               (TheTarget (after (make_decl_llvm Unit.foo_public) Unit.start)) Int32Ty)
            (ConstantInt Int32Ty 2)
            (GlobalVariable_new Int32Ty false ExternalLinkage "foo")) = false
    /\ (forall fuel',
           DEFINITION_LLVM fuel' Unit.foo_public s' = Some (Some (GlobalRef 1%positive), s')).
Proof.
  apply (make_definition_llvm_defines_once 0 Unit.foo_public
           (after (make_decl_llvm Unit.foo_public) Unit.start)
           (Unit.declaration VAR_DECL "foo" Unit.int_type
              (Some (INTEGER_CST Unit.int_type 2)) true)
           1%positive (GlobalVariable_new Int32Ty false ExternalLinkage "foo")
           (ConstantInt Int32Ty 2) Int32Ty).
  - vm_compute. reflexivity.
  - reflexivity.
  - reflexivity.
  - reflexivity.
  - reflexivity.
  - vm_compute. reflexivity.
  - vm_compute. reflexivity.
  - reflexivity.
  - reflexivity.
  - reflexivity.
  - reflexivity.
  - vm_compute. reflexivity.
  - vm_compute. reflexivity.
Defined.

(** ** The plugin arguments *)

Lemma load_set_flag F G f :
  load_flag F (set_flag G f) = bool_decide (F = G) || load_flag F f.
Proof. destruct F, G; reflexivity. Qed.

Lemma Flags_ext f g : (forall F, load_flag F f = load_flag F g) -> f = g.
Proof.
  intros H. destruct f, g.
  pose proof (H addr_DebugPassStructure). pose proof (H addr_DebugPassArguments).
  pose proof (H addr_DisableLLVMOptimizations). pose proof (H addr_EnableGCCOptimizations).
  pose proof (H addr_EmitIR). pose proof (H addr_SaveGCCOutput).
  cbn in *. congruence.
Qed.

(** The table has each flag once, under its own key, and no key twice. *)
Lemma PluginFlags_keys F : {| Key := key_of F; Flag := F |} ∈ PluginFlags.
Proof. destruct F; unfold PluginFlags; cbn; set_solver. Qed.

Lemma look_for_flag_table name a st :
  look_for_flag name a PluginFlags st
  = match list_find (fun F => key a = Key F) PluginFlags with
    | Some (_, F) =>
        (true,
         match value a with
         | Some v =>
             {| plugin_flags := plugin_flags st;
                plugin_warnings :=
                  plugin_warnings st ++ [superfluous_value name (key a) v] |}
         | None =>
             {| plugin_flags := set_flag (Flag F) (plugin_flags st);
                plugin_warnings := plugin_warnings st |}
         end)
    | None => (false, st)
    end.
Proof.
  generalize PluginFlags. intros table.
  induction table as [|F rest IH]; [reflexivity|].
  cbn [look_for_flag list_find]. 
  destruct (String.eqb_spec (key a) (Key F)) as [E|E]; cbn [negb].
  - rewrite decide_True by exact E. reflexivity.
  - rewrite decide_False by exact E. rewrite IH.
    destruct (list_find _ rest) as [[i G]|]; reflexivity.
Qed.

Lemma find_key a :
  match list_find (fun F => key a = Key F) PluginFlags with
  | Some (_, F) => key a = key_of (Flag F) /\ recognized a = true
  | None => recognized a = false /\ forall F, key a <> key_of F
  end.
Proof.
  destruct (list_find _ _) as [[i F]|] eqn:E.
  - apply list_find_Some in E. destruct E as (Hi & Hk & _).
    split.
    + rewrite Hk. apply list_elem_of_lookup_2 in Hi. unfold PluginFlags in Hi.
      repeat (apply elem_of_cons in Hi; destruct Hi as [-> | Hi]; [reflexivity|]).
      now apply elem_of_nil in Hi.
    + apply bool_decide_eq_true. rewrite Hk. apply list_elem_of_fmap.
      exists F. split; [reflexivity|]. now apply list_elem_of_lookup_2 in Hi.
  - apply list_find_None in E. rewrite Forall_forall in E. split.
    + apply bool_decide_eq_false. intros Hin. apply list_elem_of_fmap in Hin.
      destruct Hin as (F & Hk & HF). now apply (E F HF).
    + intros F HF. apply (E _ (PluginFlags_keys F)). exact HF.
Qed.

Lemma key_of_inj F G : key_of F = key_of G -> F = G.
Proof. destruct F, G; cbn; intros H; first [reflexivity | discriminate H]. Qed.

(** One turn of the outer loop. *)
Lemma process_plugin_arguments_cons name a rest st :
  process_plugin_arguments name (a :: rest) st
  = process_plugin_arguments name rest
      {| plugin_flags :=
           if recognized a && bool_decide (value a = None)
           then match list_find (fun F => key a = Key F) PluginFlags with
                | Some (_, F) => set_flag (Flag F) (plugin_flags st)
                | None => plugin_flags st
                end
           else plugin_flags st;
         plugin_warnings := plugin_warnings st ++ option_list (warning_for name a) |}.
Proof.
  cbn [process_plugin_arguments]. rewrite look_for_flag_table.
  pose proof (find_key a) as Hk. unfold warning_for.
  destruct (list_find _ PluginFlags) as [[i F]|].
  - destruct Hk as [_ ->]. cbn [negb andb].
    destruct (value a) as [v|]; cbn; [reflexivity|].
    rewrite app_nil_r. now destruct st.
  - destruct Hk as [-> _]. reflexivity.
Qed.

Lemma process_plugin_arguments_flag name argv : forall st F,
  load_flag F (plugin_flags (process_plugin_arguments name argv st))
  = load_flag F (plugin_flags st) || existsb (switches_on F) argv.
Proof.
  induction argv as [|a rest IH]; intros st F.
  - cbn. now rewrite orb_false_r.
  - rewrite process_plugin_arguments_cons, IH. cbn [plugin_flags existsb].
    rewrite orb_assoc. f_equal.
    pose proof (find_key a) as Hk. unfold switches_on.
    destruct (list_find _ PluginFlags) as [[i G]|].
    + destruct Hk as [Hk ->]. cbn [andb].
      destruct (bool_decide (value a = None)); cbn [andb].
      * rewrite load_set_flag, orb_comm, andb_true_r. f_equal. rewrite Hk.
        apply bool_decide_ext. split; [now intros -> | intros H; symmetry; now apply key_of_inj].
      * now rewrite andb_false_r, orb_false_r.
    + destruct Hk as [-> Hk]. cbn [andb].
      rewrite bool_decide_eq_false_2 by apply Hk. cbn. now rewrite orb_false_r.
Qed.

Lemma process_plugin_arguments_warnings name argv : forall st,
  plugin_warnings (process_plugin_arguments name argv st)
  = plugin_warnings st ++ omap (warning_for name) argv.
Proof.
  induction argv as [|a rest IH]; intros st.
  - cbn. now rewrite app_nil_r.
  - rewrite process_plugin_arguments_cons, IH. cbn [plugin_warnings].
    rewrite <- app_assoc. f_equal. cbn.
    destruct (warning_for name a); reflexivity.
Qed.

(** X19. The argument loop of plugin_init sets a flag exactly when an
    argument has its key and no value; it never clears a flag, so the flags
    at the end do not depend on the order of the arguments, nor on how
    often one is given. *)
Theorem plugin_arguments_set_flags name argv st :
  (forall F, load_flag F (plugin_flags (process_plugin_arguments name argv st))
             = load_flag F (plugin_flags st) || existsb (switches_on F) argv)
  /\ (forall argv', argv' ≡ₚ argv ->
                    plugin_flags (process_plugin_arguments name argv' st)
                    = plugin_flags (process_plugin_arguments name argv st))
  /\ plugin_flags (process_plugin_arguments name (argv ++ argv) st)
     = plugin_flags (process_plugin_arguments name argv st).
Proof.
  split; [intros F; apply process_plugin_arguments_flag|].
  split.
  - intros argv' Hp. apply Flags_ext. intros F.
    rewrite !process_plugin_arguments_flag. f_equal.
    apply eq_true_iff_eq. rewrite !existsb_exists.
    split; intros (a & Hin & Ha); exists a; (split; [|exact Ha]);
      apply list_elem_of_In; apply list_elem_of_In in Hin.
    + now rewrite <- Hp.
    + now rewrite Hp.
  - apply Flags_ext. intros F.
    rewrite !process_plugin_arguments_flag, existsb_app.
    now destruct (load_flag F (plugin_flags st)), (existsb (switches_on F) argv).
Qed.

(** X20. The argument loop of plugin_init warns once for each argument
    that sets no flag, in the order of the arguments and after the warnings
    there were: "superfluous" for a key of the table given with a value,
    "unrecognized" for any other key; an argument that sets a flag draws no
    warning. *)
Theorem plugin_arguments_warn name argv st :
  plugin_warnings (process_plugin_arguments name argv st)
  = plugin_warnings st ++ omap (warning_for name) argv
  /\ (forall a, warning_for name a = None <-> exists F, switches_on F a = true).
Proof.
  split; [apply process_plugin_arguments_warnings|].
  intros a. unfold warning_for, switches_on.
  pose proof (find_key a) as Hk.
  destruct (list_find _ PluginFlags) as [[i G]|].
  - destruct Hk as [Hk ->]. destruct (value a) as [v|]; split.
    + discriminate.
    + intros (F & H). apply andb_true_iff in H. destruct H as [_ H].
      now apply bool_decide_eq_true in H.
    + intros _. exists (Flag G). apply andb_true_iff.
      split; now apply bool_decide_eq_true.
    + reflexivity.
  - destruct Hk as [-> Hk]. split; [discriminate|].
    intros (F & H). apply andb_true_iff in H. destruct H as [H _].
    apply bool_decide_eq_true in H. now destruct (Hk F).
Qed.

Lemma plugin_arguments_set_flags_witness :
  plugin_flags
    (process_plugin_arguments "dragonegg"
       [ {| key := "bogus"; value := None |}; {| key := "emit-ir"; value := None |};
         {| key := "save-gcc-output"; value := Some "yes" |} ]
       {| plugin_flags := Build_Flags false false false false false false;
          plugin_warnings := [] |})
  = plugin_flags
      (process_plugin_arguments "dragonegg"
         [ {| key := "emit-ir"; value := None |}; {| key := "bogus"; value := None |};
           {| key := "save-gcc-output"; value := Some "yes" |} ]
         {| plugin_flags := Build_Flags false false false false false false;
            plugin_warnings := [] |}).
Proof.
  apply (proj1 (proj2 (plugin_arguments_set_flags "dragonegg"
                         [ {| key := "emit-ir"; value := None |};
                           {| key := "bogus"; value := None |};
                           {| key := "save-gcc-output"; value := Some "yes" |} ]
                         {| plugin_flags := Build_Flags false false false false false false;
                            plugin_warnings := [] |}))).
  apply perm_swap.
Defined.

(** ** The output file names *)

Lemma append_length (a b : string) :
  String.length (a +:+ b) = (String.length a + String.length b)%nat.
Proof. induction a as [|c a IH]; simpl; [reflexivity | now f_equal]. Qed.

Lemma append_differs (a b : string) : b <> "" -> a +:+ b <> a.
Proof.
  intros Hb E. apply (f_equal String.length) in E. rewrite append_length in E.
  destruct b; [now apply Hb | cbn in E; lia].
Qed.

(** X21. TakeoverAsmOutput never reads through a null file name: it always
    returns.  LLVM's output file is the assembly file GCC was given; without
    one it is "-" when there is no input file either, and otherwise the dump
    base name (the input file name, or "gccdump" for an empty one, when none
    was set) with its ending stripped and ".s" appended.  GCC's own output
    goes to the bit bucket, or with SaveGCCOutput to LLVM's file name
    followed by ".gcc", which is never LLVM's file. *)
Theorem TakeoverAsmOutput_names (strip_off_ending : string -> string)
    (HOST_BIT_BUCKET : string) (save : bool) (n : OutputNames) :
  exists n' llvm,
    TakeoverAsmOutput strip_off_ending HOST_BIT_BUCKET save n = Some n'
    /\ llvm_asm_file_name n' = Some llvm
    /\ match asm_file_name n, main_input_filename n with
       | Some asm, _ => llvm = asm
       | None, None => llvm = "-"
       | None, Some main =>
           llvm = strip_off_ending
                    (default (if decide (main = "") then "gccdump" else main)
                       (dump_base_name n)) +:+ ".s"
       end
    /\ asm_file_name n' = Some (if save then llvm +:+ ".gcc" else HOST_BIT_BUCKET)
    /\ (if save then asm_file_name n' <> llvm_asm_file_name n'
        else asm_file_name n' = Some HOST_BIT_BUCKET)
    /\ main_input_filename n' = main_input_filename n.
Proof.
  unfold TakeoverAsmOutput.
  destruct n as [dump main asm llvm0]. cbn.
  assert (forall m : string,
             (if negb (String.eqb m "") then m else "gccdump")
             = (if decide (m = "") then "gccdump" else m)) as Em.
  { intros m. destruct (String.eqb_spec m "") as [->|Hne]; cbn.
    - reflexivity.
    - now rewrite decide_False. }
  destruct asm as [asm|].
  - assert (match main with
            | Some _ => Some asm
            | None => Some asm
            end = Some asm) as -> by now destruct main.
    cbn. eexists _, asm. split; [reflexivity|]. cbn.
    repeat split; destruct save; cbn; try reflexivity;
      try (intros [= E]; now apply append_differs in E).
  - destruct main as [main|].
    + destruct dump as [dump|]; cbn.
      * eexists _, _. split; [reflexivity|]. cbn.
        repeat split; destruct save; cbn; try reflexivity;
          try (intros [= E]; now apply append_differs in E).
      * eexists _, _. split; [reflexivity|]. cbn. rewrite Em.
        repeat split; destruct save; cbn; try reflexivity;
          try (intros [= E]; now apply append_differs in E).
    + destruct dump as [dump|]; cbn.
      * eexists _, _. split; [reflexivity|]. cbn.
        repeat split; destruct save; cbn; try reflexivity;
          try (intros [= E]; now apply append_differs in E).
      * eexists _, _. split; [reflexivity|]. cbn.
        repeat split; destruct save; cbn; try reflexivity;
          try (intros [= E]; now apply append_differs in E).
Qed.

(** ** What every run ensures *)

Lemma ensures_bind {A B} (P : State -> Prop) (c : M A) (Q : A -> State -> Prop)
    (k : A -> M B) (R : B -> State -> Prop) :
  ensures P c Q -> (forall a, ensures (Q a) (k a) R) -> ensures P (bind c k) R.
Proof.
  intros Hc Hk s r s' HP H. apply bind_Some in H. destruct H as (a & s1 & H1 & H2).
  exact (Hk a s1 r s' (Hc s a s1 HP H1) H2).
Qed.

Lemma ensures_seq {A B} (P : State -> Prop) (c : M A) (k : A -> M B)
    (R : B -> State -> Prop) :
  ensures P c (fun _ => P) -> (forall a, ensures P (k a) R) -> ensures P (bind c k) R.
Proof. intros Hc Hk. exact (ensures_bind P c (fun _ => P) k R Hc Hk). Qed.

Lemma ensures_post {A} (P : State -> Prop) (c : M A) (Q Q' : A -> State -> Prop) :
  ensures P c Q -> (forall a s, Q a s -> Q' a s) -> ensures P c Q'.
Proof. intros Hc HQ s r s' HP H. apply HQ. exact (Hc s r s' HP H). Qed.

Lemma ensures_pre {A} (P P' : State -> Prop) (c : M A) (Q : A -> State -> Prop) :
  (forall s, P' s -> P s) -> ensures P c Q -> ensures P' c Q.
Proof. intros HP Hc s r s' HP' H. exact (Hc s r s' (HP s HP') H). Qed.

Lemma ensures_ret {A} (P : State -> Prop) (a : A) : ensures P (ret a) (fun _ => P).
Proof. intros s r s' HP [= <- <-]. exact HP. Qed.

Lemma ensures_abort {A} (P : State -> Prop) (Q : A -> State -> Prop) :
  ensures P abort Q.
Proof. intros s r s' _ [=]. Qed.

Lemma ensures_get (P : State -> Prop) : ensures P get (fun _ => P).
Proof. intros s r s' HP [= <- <-]. exact HP. Qed.

Lemma ensures_gets {A} (f : State -> A) (P : State -> Prop) :
  ensures P (gets f) (fun _ => P).
Proof. intros s r s' HP [= <- <-]. exact HP. Qed.

Lemma ensures_assert b (P : State -> Prop) : ensures P (assert b) (fun _ => P).
Proof. intros s r s' HP H. apply assert_Some in H. destruct H as [_ [= _ <-]]. exact HP. Qed.

Lemma ensures_unwrap {A} (o : option A) (P : State -> Prop) :
  ensures P (unwrap o) (fun _ => P).
Proof.
  intros s r s' HP H. apply unwrap_Some in H. destruct H as (a & _ & [= <- <-]). exact HP.
Qed.

Lemma ensures_decl_of t (P : State -> Prop) : ensures P (decl_of t) (fun _ => P).
Proof.
  intros s r s' HP H. apply decl_of_Some in H. destruct H as (a & _ & [= <- <-]). exact HP.
Qed.

Lemma ensures_global_of g (P : State -> Prop) : ensures P (global_of g) (fun _ => P).
Proof.
  intros s r s' HP H. apply global_of_Some in H. destruct H as (a & _ & [= <- <-]).
  exact HP.
Qed.

Lemma ensures_when b (c : M unit) (P : State -> Prop) :
  ensures P c (fun _ => P) -> ensures P (when b c) (fun _ => P).
Proof. intros Hc. destruct b; [exact Hc | apply ensures_ret]. Qed.

Lemma ensures_modify f (P : State -> Prop) :
  (forall s, P s -> P (f s)) -> ensures P (modify f) (fun _ => P).
Proof. intros Hf s r s' HP [= <- <-]. exact (Hf s HP). Qed.

Lemma ensures_assert_then {B} b (k : unit -> M B) (P : State -> Prop)
    (R : B -> State -> Prop) :
  (b = true -> ensures P (k tt) R) -> ensures P (bind (assert b) k) R.
Proof.
  intros Hk s r s' HP H. apply bind_Some in H. destruct H as (a & s1 & H1 & H2).
  apply assert_Some in H1. destruct H1 as [Hb [= -> ->]]. exact (Hk Hb s r s' HP H2).
Qed.

Lemma ensures_unwrap_then {A B} (o : option A) (k : A -> M B) (P : State -> Prop)
    (R : B -> State -> Prop) :
  (forall a, o = Some a -> ensures P (k a) R) -> ensures P (bind (unwrap o) k) R.
Proof.
  intros Hk s r s' HP H. apply bind_Some in H. destruct H as (a & s1 & H1 & H2).
  apply unwrap_Some in H1. destruct H1 as (a' & Ho & [= -> ->]).
  exact (Hk a' Ho s r s' HP H2).
Qed.

(** A run taken as an instance of what every run ensures. *)
Lemma ensures_run {A} (P : State -> Prop) (c : M A) (Q : A -> State -> Prop) s r s' :
  ensures P c Q -> P s -> c s = Some (r, s') -> Q r s'.
Proof. intros Hc. apply Hc. Qed.

Ltac ensures_step :=
  lazymatch goal with
  | |- ensures _ (bind (assert _) _) _ => apply ensures_assert_then; intros ?
  | |- ensures _ (bind (unwrap _) _) _ => apply ensures_unwrap_then; intros ? ?
  | |- ensures _ (bind _ _) _ => apply ensures_seq; [|intros ?]
  | |- ensures _ (ret _) _ => apply ensures_ret
  | |- ensures _ abort _ => apply ensures_abort
  | |- ensures _ get _ => apply ensures_get
  | |- ensures _ (gets _) _ => apply ensures_gets
  | |- ensures _ (assert _) _ => apply ensures_assert
  | |- ensures _ (unwrap _) _ => apply ensures_unwrap
  | |- ensures _ (when _ _) _ => apply ensures_when
  | |- ensures _ (decl_of _) _ => apply ensures_decl_of
  | |- ensures _ (global_of _) _ => apply ensures_global_of
  | |- ensures _ (if ?b then _ else _) _ => destruct b eqn:?
  | |- ensures _ (match ?x with _ => _ end) _ => destruct x eqn:?
  end.

(** ** A global that an operation spares *)

Lemma subst_global_kept m Old New : keeps_definition (subst_global m Old New).
Proof.
  intros [n ty l vis sec al p]. unfold isDeclaration, isGlobalVariable, subst_global. cbn.
  destruct p as [[i|] c t | cc a [|b body] | a]; repeat split; reflexivity.
Qed.
Lemma with_visibility_kept x : keeps_definition (with_visibility x).
Proof. intros []. repeat split; reflexivity. Qed.
Lemma with_section_kept x : keeps_definition (with_section x).
Proof. intros []. repeat split; reflexivity. Qed.
Lemma with_alignment_kept x : keeps_definition (with_alignment x).
Proof. intros []. repeat split; reflexivity. Qed.
Lemma with_name_kept x : keeps_definition (with_name x).
Proof. intros []. repeat split; reflexivity. Qed.
Lemma setConstant_kept x : keeps_definition (setConstant x).
Proof.
  intros [n ty l vis sec al [[i|] c t | cc a [|b body] | a]]; repeat split; reflexivity.
Qed.
Lemma setThreadLocal_kept x : keeps_definition (setThreadLocal x).
Proof.
  intros [n ty l vis sec al [[i|] c t | cc a [|b body] | a]]; repeat split; reflexivity.
Qed.
Lemma setCallingConv_kept x : keeps_definition (setCallingConv x).
Proof.
  intros [n ty l vis sec al [[i|] c t | cc a [|b body] | a]]; repeat split; reflexivity.
Qed.
Lemma setAttributes_kept x : keeps_definition (setAttributes x).
Proof.
  intros [n ty l vis sec al [[i|] c t | cc a [|b body] | a]]; repeat split; reflexivity.
Qed.

Section Spared.
Variables (g : sym) (Q : GlobalValue -> Prop) (K : State -> Prop) (free : tree -> Prop).
Hypothesis Q_stable : stable Q.
Hypothesis K_framed : framed g K free.

Lemma spared_frontend s s' :
  TheModule s' = TheModule s -> llvm_cache s' = llvm_cache s -> trees s' = trees s ->
  spared g Q K s -> spared g Q K s'.
Proof.
  intros Em Ec Et [HK (v & Hv & HQ)]. split.
  - destruct K_framed as (Hf & _). exact (Hf s s' Ec Et HK).
  - exists v. rewrite Em. auto.
Qed.

Lemma spared_module f s :
  (forall v, TheModule s !! g = Some v ->
             exists v', f (TheModule s) !! g = Some v'
                        /\ gv_linkage v' = gv_linkage v
                        /\ isDeclaration v' = isDeclaration v
                        /\ isGlobalVariable v' = isGlobalVariable v) ->
  spared g Q K s -> spared g Q K (upd_TheModule f s).
Proof.
  intros Hf [HK (v & Hv & HQ)]. split.
  - destruct K_framed as (Hfr & _). apply (Hfr s); [reflexivity|reflexivity|exact HK].
  - destruct (Hf v Hv) as (v' & Hv' & E1 & E2 & E3). exists v'. split; [exact Hv'|].
    exact (Q_stable v v' E1 E2 E3 HQ).
Qed.

Lemma ensures_kept_state {A} (c : M A) :
  keeps TheModule c -> keeps llvm_cache c -> keeps trees c ->
  ensures (spared g Q K) c (fun _ => spared g Q K).
Proof.
  intros H1 H2 H3 s r s' HP H.
  exact (spared_frontend s s' (H1 s r s' H) (H2 s r s' H) (H3 s r s' H) HP).
Qed.

Lemma ensures_modify_frontend f :
  (forall s, TheModule (f s) = TheModule s) ->
  (forall s, llvm_cache (f s) = llvm_cache s) ->
  (forall s, trees (f s) = trees s) ->
  ensures (spared g Q K) (modify f) (fun _ => spared g Q K).
Proof.
  intros E1 E2 E3. apply ensures_modify. intros s. apply spared_frontend; auto.
Qed.

Lemma ensures_update_other g' f :
  g' <> g -> ensures (spared g Q K) (update_global g' f) (fun _ => spared g Q K).
Proof.
  intros Hne s r s' HP H. apply update_global_inv in H. destruct H as (v & Hv & ->).
  apply spared_module; [|exact HP]. intros v0 Hv0. exists v0.
  rewrite lookup_insert_ne by exact Hne. auto.
Qed.

Lemma ensures_update_kept g' f :
  keeps_definition f ->
  ensures (spared g Q K) (update_global g' f) (fun _ => spared g Q K).
Proof.
  intros Hf s r s' HP H. apply update_global_inv in H. destruct H as (v & Hv & ->).
  apply spared_module; [|exact HP]. intros v0 Hv0.
  destruct (decide (g' = g)) as [->|Hne].
  - rewrite Hv in Hv0. injection Hv0 as <-. exists (f v).
    rewrite lookup_insert_eq. split; [reflexivity|]. apply Hf.
  - exists v0. rewrite lookup_insert_ne by exact Hne. auto.
Qed.

Lemma ensures_new_global v :
  ensures (spared g Q K) (new_global v) (fun g' s => g' <> g /\ spared g Q K s).
Proof.
  intros s r s' HP H. apply new_global_inv in H. destruct H as (_ & Hfresh & ->).
  assert (r <> g) as Hne.
  { intros E. destruct HP as [_ (v0 & Hv0 & _)]. rewrite <- E in Hv0.
    rewrite Hfresh in Hv0. discriminate. }
  split; [exact Hne|].
  apply spared_module; [|exact HP]. intros v0 Hv0. exists v0.
  rewrite lookup_insert_ne by exact Hne. auto.
Qed.

Lemma ensures_new_global_then {B} v (k : sym -> M B) (R : B -> State -> Prop) :
  (forall g', g' <> g -> ensures (spared g Q K) (k g') R) ->
  ensures (spared g Q K) (bind (new_global v) k) R.
Proof.
  intros Hk. eapply ensures_bind; [apply ensures_new_global|].
  intros g' s r s' [Hne HP]. exact (Hk g' Hne s r s' HP).
Qed.

Lemma ensures_replaceAllUsesWith Old New :
  ensures (spared g Q K) (replaceAllUsesWith Old New) (fun _ => spared g Q K).
Proof.
  unfold replaceAllUsesWith. apply ensures_modify. intros s HP.
  apply (spared_frontend (upd_TheModule (fmap (subst_global (TheModule s) Old New)) s));
    [reflexivity|reflexivity|reflexivity|].
  apply spared_module; [|exact HP]. intros v Hv.
  exists (subst_global (TheModule s) Old New v).
  rewrite lookup_fmap, Hv. split; [reflexivity|]. apply subst_global_kept.
Qed.

Lemma ensures_eraseFromParent g' :
  g' <> g -> ensures (spared g Q K) (eraseFromParent g') (fun _ => spared g Q K).
Proof.
  intros Hne. unfold eraseFromParent. apply ensures_modify. intros s HP.
  apply spared_module; [|exact HP]. intros v Hv. exists v.
  rewrite lookup_delete_ne by exact Hne. auto.
Qed.

Lemma ensures_removeFromParent g' :
  g' <> g -> ensures (spared g Q K) (removeFromParent g') (fun _ => spared g Q K).
Proof.
  intros Hne. unfold removeFromParent. apply ensures_modify. intros s HP.
  apply (spared_frontend (upd_TheModule (delete g') s));
    [reflexivity|reflexivity|reflexivity|].
  apply spared_module; [|exact HP]. intros v Hv. exists v.
  rewrite lookup_delete_ne by exact Hne. auto.
Qed.

Lemma ensures_rebind Old p :
  Old <> g ->
  ensures (spared g Q K) (llvm_replace_cached (ValuePtr (GlobalRef Old)) p)
    (fun _ => spared g Q K).
Proof.
  intros Hne. unfold llvm_replace_cached. apply ensures_modify.
  intros s [HK (v & Hv & HQ)]. split.
  - destruct K_framed as (_ & Hr & _). exact (Hr Old p s Hne HK).
  - exists v. auto.
Qed.

Lemma ensures_set_cached t p :
  free t ->
  ensures (spared g Q K) (llvm_set_cached t p) (fun _ => spared g Q K).
Proof.
  intros Hfree. unfold llvm_set_cached. apply ensures_seq; [|intros ?; apply ensures_ret].
  apply ensures_modify. intros s [HK (v & Hv & HQ)]. split.
  - destruct K_framed as (_ & _ & Hb & _). exact (Hb t p s Hfree HK).
  - exists v. auto.
Qed.

Lemma ensures_write_tree t d :
  free t ->
  ensures (spared g Q K) (modify (upd_trees (insert t d))) (fun _ => spared g Q K).
Proof.
  intros Hfree. apply ensures_modify. intros s [HK (v & Hv & HQ)]. split.
  - destruct K_framed as (_ & _ & _ & Ht). exact (Ht t d s Hfree HK).
  - exists v. auto.
Qed.

End Spared.

Lemma ensures_global_of_then {B} g Q K g' (k : GlobalValue -> M B)
    (R : B -> State -> Prop) :
  (forall v, (g' = g -> Q v) -> ensures (spared g Q K) (k v) R) ->
  ensures (spared g Q K) (bind (global_of g') k) R.
Proof.
  intros Hk s r s' HP H. apply bind_Some in H. destruct H as (v & s1 & H1 & H2).
  apply global_of_Some in H1. destruct H1 as (v' & Hv & [= -> ->]).
  refine (Hk v' _ s r s' HP H2). intros ->.
  destruct HP as [_ (v0 & Hv0 & HQ)]. rewrite Hv in Hv0. injection Hv0 as <-. exact HQ.
Qed.

(** The properties and frames the development uses. *)
Lemma defined_with_stable L : stable (defined_with L).
Proof. intros v v' E1 E2 _ [H1 H2]. split; congruence. Qed.

Lemma linkage_stable L : stable (fun v => gv_linkage v = L).
Proof. intros v v' E1 _ _ H. congruence. Qed.

Lemma kind_stable b : stable (fun v => isGlobalVariable v = b).
Proof. intros v v' _ _ E H. congruence. Qed.

Lemma unframed g : framed g (fun _ => True) (fun _ => True).
Proof. repeat split. Qed.

Lemma bound_to_framed g t d : framed g (bound_to g t d) (fun t' => t' <> t).
Proof.
  split; [|split; [|split]].
  - intros s s' Ec Et [Hc Ht].
    split; [unfold cached; rewrite Ec; exact Hc | rewrite Et; exact Ht].
  - intros Old p s Hne [Hc Ht]. split; [|exact Ht].
    unfold cached in *. cbn. rewrite lookup_fmap.
    destruct (llvm_cache s !! t) as [q|]; cbn in *; [|discriminate]. subst q.
    rewrite decide_False by congruence. reflexivity.
  - intros t' p s Hne [Hc Ht]. split; [|exact Ht].
    unfold cached in *. cbn. rewrite lookup_insert_ne by congruence. exact Hc.
  - intros t' d' s Hne [Hc Ht]. split; [exact Hc|].
    cbn. rewrite lookup_insert_ne by congruence. exact Ht.
Qed.

Ltac spared_side :=
  cbv beta;
  first [ eassumption | exact (defined_with_stable _) | exact (bound_to_framed _ _ _)
        | exact (linkage_stable _) | exact (kind_stable _) | exact (unframed _)
        | exact I | congruence ].

Ltac kept_side :=
  first [ apply with_visibility_kept | apply with_section_kept
        | apply with_alignment_kept | apply with_name_kept
        | apply setConstant_kept | apply setThreadLocal_kept
        | apply setCallingConv_kept | apply setAttributes_kept ].

Ltac spared_leaf :=
  first
    [ eapply ensures_modify_frontend; first [spared_side | intros ?; reflexivity]
    | eapply ensures_update_kept; first [spared_side | kept_side]
    | eapply ensures_update_other; spared_side
    | eapply ensures_replaceAllUsesWith; spared_side
    | eapply ensures_eraseFromParent; spared_side
    | eapply ensures_removeFromParent; spared_side
    | eapply ensures_rebind; spared_side
    | eapply ensures_set_cached; spared_side
    | eapply ensures_write_tree; spared_side ].

Ltac spared_step :=
  lazymatch goal with
  | |- ensures _ (bind (new_global _) _) _ =>
      eapply ensures_new_global_then; [spared_side .. | intros ? ?]
  | |- ensures _ (bind (global_of _) _) _ =>
      eapply ensures_global_of_then; intros ? ?
  | |- ensures _ (update_global _ _) _ => spared_leaf
  | |- ensures _ (modify _) _ => spared_leaf
  | |- ensures _ (replaceAllUsesWith _ _) _ => spared_leaf
  | |- ensures _ (eraseFromParent _) _ => spared_leaf
  | |- ensures _ (removeFromParent _) _ => spared_leaf
  | |- ensures _ (delete_global _) _ => unfold delete_global; spared_leaf
  | |- ensures _ (llvm_replace_cached _ _) _ => spared_leaf
  | |- ensures _ (llvm_set_cached _ _) _ => spared_leaf
  | |- _ => ensures_step
  end.

Section SparedOperations.
Variables (g : sym) (Q : GlobalValue -> Prop) (K : State -> Prop) (free : tree -> Prop).
Hypothesis Q_stable : stable Q.
Hypothesis K_framed : framed g K free.

Lemma ensures_handleVisibility d g' :
  ensures (spared g Q K) (handleVisibility d g') (fun _ => spared g Q K).
Proof. unfold handleVisibility. repeat spared_step. Qed.

Lemma ensures_check_external_weak d g' :
  g' <> g ->
  ensures (spared g Q K) (check_external_weak d g') (fun _ => spared g Q K).
Proof. intros Hne. unfold check_external_weak. repeat spared_step. Qed.

Lemma ensures_takeName New Old :
  ensures (spared g Q K) (takeName New Old) (fun _ => spared g Q K).
Proof. unfold takeName. repeat spared_step. Qed.

Lemma ensures_CreateBitCastM c ty :
  ensures (spared g Q K) (CreateBitCastM c ty) (fun _ => spared g Q K).
Proof. unfold CreateBitCastM. repeat spared_step. Qed.

Lemma ensures_getTypeM c :
  ensures (spared g Q K) (getTypeM c) (fun _ => spared g Q K).
Proof. unfold getTypeM. repeat spared_step. Qed.

Lemma ensures_changeLLVMConstant Old New :
  Old <> g ->
  ensures (spared g Q K) (changeLLVMConstant Old New) (fun _ => spared g Q K).
Proof. intros Hne. unfold changeLLVMConstant. repeat spared_step. Qed.

Lemma ensures_replace_forward_declaration New Old :
  Old <> g ->
  ensures (spared g Q K) (replace_forward_declaration New Old) (fun _ => spared g Q K).
Proof.
  intros Hne. unfold replace_forward_declaration.
  repeat first
    [ apply ensures_CreateBitCastM
    | apply ensures_changeLLVMConstant; exact Hne
    | apply ensures_takeName
    | spared_step ].
Qed.

Lemma ensures_SET_DECL_LLVM t c :
  free t ->
  ensures (spared g Q K) (SET_DECL_LLVM t c) (fun _ => spared g Q K).
Proof. intros Hfree. unfold SET_DECL_LLVM, set_decl_llvm. repeat spared_step. Qed.

Lemma ensures_mark_written t :
  free t -> ensures (spared g Q K) (mark_written t) (fun _ => spared g Q K).
Proof. intros Hfree. unfold mark_written. repeat spared_step. Qed.

Lemma ensures_make_decl_llvm_prepare t d Name :
  free t ->
  ensures (spared g Q K) (make_decl_llvm_prepare t d Name) (fun _ => spared g Q K).
Proof. intros Hfree. unfold make_decl_llvm_prepare. repeat spared_step. Qed.

Lemma ensures_ValidateRegisterVariable t :
  ensures (spared g Q K) (ValidateRegisterVariable t) (fun _ => spared g Q K).
Proof.
  eapply ensures_kept_state; [exact K_framed|..]; solve_keeps.
Qed.

Lemma ensures_ConvertMetadataStringToGV str :
  ensures (spared g Q K) (ConvertMetadataStringToGV str) (fun _ => spared g Q K).
Proof. unfold ConvertMetadataStringToGV. repeat spared_step. Qed.

Lemma ensures_AddAnnotateAttrsToGlobal GV d :
  ensures (spared g Q K) (AddAnnotateAttrsToGlobal GV d) (fun _ => spared g Q K).
Proof.
  unfold AddAnnotateAttrsToGlobal.
  repeat first
    [ apply ensures_ConvertMetadataStringToGV
    | apply ensures_CreateBitCastM
    | spared_step ].
Qed.

Lemma ensures_emit_global_finish t GV Init :
  GV <> g -> free t ->
  ensures (spared g Q K) (emit_global_finish t GV Init) (fun _ => spared g Q K).
Proof.
  intros Hne Hfree. unfold emit_global_finish.
  repeat first
    [ apply ensures_handleVisibility
    | apply ensures_AddAnnotateAttrsToGlobal
    | apply ensures_mark_written; exact Hfree
    | spared_step ].
Qed.

Lemma ensures_retype_global t GV InitTy :
  GV <> g -> free t ->
  ensures (spared g Q K) (retype_global t GV InitTy)
    (fun NGV s => NGV <> g /\ spared g Q K s).
Proof.
  intros Hne Hfree. unfold retype_global.
  repeat first
    [ apply ensures_CreateBitCastM
    | apply ensures_changeLLVMConstant; exact Hne
    | apply ensures_SET_DECL_LLVM; exact Hfree
    | spared_step ].
  intros s r s' HP [= <- <-]. auto.
Qed.

End SparedOperations.

Ltac spared_op :=
  first
    [ eapply ensures_handleVisibility; spared_side
    | eapply ensures_check_external_weak; spared_side
    | eapply ensures_takeName; spared_side
    | eapply ensures_CreateBitCastM; spared_side
    | eapply ensures_getTypeM; spared_side
    | eapply ensures_changeLLVMConstant; spared_side
    | eapply ensures_SET_DECL_LLVM; spared_side
    | eapply ensures_mark_written; spared_side
    | eapply ensures_make_decl_llvm_prepare; spared_side
    | eapply ensures_ValidateRegisterVariable; spared_side
    | eapply ensures_ConvertMetadataStringToGV; spared_side
    | eapply ensures_AddAnnotateAttrsToGlobal; spared_side
    | eapply ensures_emit_global_finish; spared_side
    | spared_step ].

(** ** A definition that the emission of other declarations spares *)

Lemma settled_not_declaration g L t d s g' v :
  settled g L t d s -> TheModule s !! g' = Some v -> isDeclaration v = true -> g' <> g.
Proof.
  intros [_ (v0 & Hv0 & _ & Hd)] Hv Hdecl ->. rewrite Hv in Hv0. injection Hv0 as ->.
  congruence.
Qed.

Lemma settled_other_binding g L t d s t' p :
  settled g L t d s -> cached s t' = p -> p <> ValuePtr (GlobalRef g) -> t' <> t.
Proof. intros [[Hc _] _] E Hne ->. congruence. Qed.

Lemma settled_replace_forward_declaration g L t d New Old :
  ensures (settled g L t d) (replace_forward_declaration New Old)
    (fun _ => settled g L t d).
Proof.
  intros s r s' HP H.
  assert (Old <> g) as Hne.
  { unfold replace_forward_declaration in H.
    apply bind_Some in H. destruct H as (old & s1 & Ho & H).
    apply global_of_Some in Ho. destruct Ho as (v & Hv & [= -> ->]).
    apply bind_Some in H. destruct H as (u & s2 & Ha & _).
    apply assert_Some in Ha. destruct Ha as [Ha _].
    exact (settled_not_declaration _ _ _ _ _ _ _ HP Hv Ha). }
  refine (ensures_run (settled g L t d) _ (fun _ => settled g L t d) s r s' _ HP H).
  unfold settled.
  eapply ensures_replace_forward_declaration; spared_side.
Qed.

Lemma settled_make_decl_llvm_function g L t d decl d' Name :
  ensures (settled g L t d) (make_decl_llvm_function decl d' Name)
    (fun _ => settled g L t d).
Proof.
  unfold make_decl_llvm_function, settled.
  repeat first [ apply (settled_replace_forward_declaration g L t d) | spared_op ].
Qed.

Lemma settled_make_decl_llvm_variable g L t d decl d' Name :
  ensures (settled g L t d) (make_decl_llvm_variable decl d' Name)
    (fun _ => settled g L t d).
Proof.
  unfold make_decl_llvm_variable, settled.
  repeat first [ apply (settled_replace_forward_declaration g L t d) | spared_op ].
Qed.

Lemma settled_make_decl_llvm g L t d decl :
  ensures (settled g L t d) (make_decl_llvm decl) (fun _ => settled g L t d).
Proof.
  intros s r s' HP H. unfold make_decl_llvm in H.
  mbind H as V0 s0 Hget. apply get_decl_llvm_inv in Hget. destruct Hget as (-> & Hc & _).
  destruct V0 as [v0|]; [unfold ret in H; injection H as _ <-; exact HP|].
  assert (decl <> t) as Hfree.
  { apply (settled_other_binding _ _ _ _ _ _ _ HP Hc). discriminate. }
  refine (ensures_run (settled g L t d) _ (fun _ => settled g L t d) s r s' _ HP H).
  unfold settled.
  repeat first
    [ apply (settled_make_decl_llvm_function g L t d)
    | apply (settled_make_decl_llvm_variable g L t d)
    | spared_op ].
Qed.

Lemma cast_GlobalValue_inv V s g s' :
  cast_GlobalValue V s = Some (g, s') ->
  V = Some (GlobalRef g) /\ s' = s /\ exists v, TheModule s !! g = Some v.
Proof.
  unfold cast_GlobalValue. intros H.
  destruct V as [[]|]; try discriminate H.
  mbind H as v s1 Hv. apply global_of_Some in Hv. destruct Hv as (v' & Hv & [= -> ->]).
  unfold ret in H. injection H as <- <-. eauto.
Qed.

Lemma cast_GlobalVariable_inv V s g s' :
  cast_GlobalVariable V s = Some (g, s') ->
  V = Some (GlobalRef g) /\ s' = s
  /\ exists v, TheModule s !! g = Some v /\ isGlobalVariable v = true.
Proof.
  unfold cast_GlobalVariable. intros H.
  mbind H as g0 s1 Hg. apply cast_GlobalValue_inv in Hg. destruct Hg as (-> & -> & _).
  mbind H as v s1 Hv. apply global_of_Some in Hv. destruct Hv as (v' & Hv & [= -> ->]).
  mbind H as u s1 Ha. apply assert_Some in Ha. destruct Ha as [Ha [= -> ->]].
  unfold ret in H. injection H as <- <-. eauto.
Qed.

Lemma settled_cast_GlobalValue g L t d V :
  ensures (settled g L t d) (cast_GlobalValue V) (fun _ => settled g L t d).
Proof.
  intros s r s' HP H. apply cast_GlobalValue_inv in H. destruct H as (_ & -> & _).
  exact HP.
Qed.

(** The emission of a declaration whose global is not [g] spares [g]. *)
Lemma settled_emit_global_with g L t d CI decl GV :
  GV <> g ->
  (forall e, ensures (settled g L t d) (CI e) (fun _ => settled g L t d)) ->
  ensures (fun s => settled g L t d s /\ cached s decl = ValuePtr (GlobalRef GV))
    (emit_global_with CI decl) (fun _ => settled g L t d).
Proof.
  intros Hne HCI s r s' [HP Hc] H.
  assert (decl <> t) as Hfree.
  { apply (settled_other_binding _ _ _ _ _ _ _ HP Hc). congruence. }
  unfold emit_global_with in H.
  mbind H as d0 s0 Hd0. apply decl_of_Some in Hd0. destruct Hd0 as (d0' & Hd0 & [= -> ->]).
  destruct (_ && DECL_REGISTER d0'); [unfold ret in H; injection H as _ <-; exact HP|].
  destruct (bool_decide (TYPE_SIZE _ = None));
    [unfold ret in H; injection H as _ <-; exact HP|].
  mbind H as V sA HV. unfold DECL_LLVM in HV.
  assert (V = Some (GlobalRef GV) /\ sA = s) as [-> ->].
  { destruct (make_decl_llvm_cases _ _ _ _ HV)
      as [(v & -> & -> & Hcv) | [(_ & _ & E & _) | [(_ & E & _)
         | (g0 & s2 & d1 & _ & _ & E & _)]]]; try congruence.
    split; [congruence|reflexivity]. }
  clear HV.
  mbind H as GV1 sA HGV. apply cast_GlobalVariable_inv in HGV.
  destruct HGV as ([= <-] & -> & _).
  refine (ensures_run (settled g L t d) _ (fun _ => settled g L t d) s r s' _ HP H).
  unfold settled.
  apply ensures_seq; [apply ensures_decl_of|intros dA].
  apply ensures_seq.
  { repeat first [ apply HCI | spared_op ]. }
  intros Init.
  spared_op. spared_op.
  apply ensures_seq; [spared_op|intros InitTy].
  eapply ensures_bind with (Q := fun GVf s => GVf <> g /\ settled g L t d s).
  - destruct (bool_decide _).
    + eapply ensures_bind; [eapply ensures_retype_global; spared_side|].
      intros NGV x y x' [Hn HPx] Hx.
      mbind Hx as u x1 Ha. apply assert_Some in Ha. destruct Ha as [_ [= -> ->]].
      unfold ret in Hx. injection Hx as <- <-. auto.
    + intros x y x' HPx [= <- <-]. auto.
  - intros GVf x y x' [Hn HPx] Hx.
    refine (ensures_run (settled g L t d) _ (fun _ => settled g L t d) x y x' _ HPx Hx).
    unfold settled.
    eapply ensures_emit_global_finish; spared_side.
Qed.

Lemma settled_make_definition_llvm_with g L t d eg decl :
  (forall GV, GV <> g ->
     ensures (fun s => settled g L t d s /\ cached s decl = ValuePtr (GlobalRef GV))
       (eg decl) (fun _ => settled g L t d)) ->
  ensures (settled g L t d) (make_definition_llvm_with eg decl)
    (fun _ => settled g L t d).
Proof.
  intros Heg. unfold make_definition_llvm_with.
  apply ensures_seq; [apply ensures_decl_of|intros d0].
  destruct (_ && _); [apply settled_make_decl_llvm|].
  destruct (DECL_EXTERNAL d0); [apply settled_make_decl_llvm|].
  destruct (negb (TREE_STATIC d0)).
  { apply ensures_seq; [apply ensures_assert|intros _]. apply settled_make_decl_llvm. }
  intros s r s' HP H.
  mbind H as V s1 HV. unfold DECL_LLVM in HV.
  pose proof (settled_make_decl_llvm g L t d decl s V s1 HP HV) as HP1.
  mbind H as GV s2 HGV. apply cast_GlobalValue_inv in HGV.
  destruct HGV as (-> & -> & _).
  apply make_decl_llvm_result_cached in HV.
  mbind H as gv s2 Hgv. apply global_of_Some in Hgv. destruct Hgv as (gv' & Hgv & [= -> ->]).
  destruct (isDeclaration gv') eqn:Hdecl; cbn [negb] in H.
  - mbind H as u s3 He.
    assert (settled g L t d s3) as HP3.
    { apply (Heg GV (settled_not_declaration _ _ _ _ _ _ _ HP1 Hgv Hdecl) s1 u s3);
        [split; assumption|exact He]. }
    exact (settled_make_decl_llvm g L t d decl s3 r s' HP3 H).
  - unfold ret in H. injection H as _ <-. exact HP1.
Qed.

Lemma settled_ConvertInitializer g L t d DL e :
  (forall t', ensures (settled g L t d) (DL t') (fun _ => settled g L t d)) ->
  ensures (settled g L t d) (ConvertInitializer DL e) (fun _ => settled g L t d).
Proof.
  intros HDL. unfold ConvertInitializer, settled.
  repeat first
    [ apply HDL
    | apply (settled_cast_GlobalValue g L t d)
    | spared_op ].
Qed.

Lemma settled_emit_global g L t d fuel :
  forall decl GV, GV <> g ->
    ensures (fun s => settled g L t d s /\ cached s decl = ValuePtr (GlobalRef GV))
      (emit_global fuel decl) (fun _ => settled g L t d).
Proof.
  induction fuel as [|fuel IH]; intros decl GV Hne.
  - intros s r s' _ H. discriminate H.
  - cbn [emit_global]. apply settled_emit_global_with; [exact Hne|].
    intros e. apply settled_ConvertInitializer. intros t'.
    apply settled_make_definition_llvm_with. intros GV' Hne'. apply IH. exact Hne'.
Qed.

(** ** The linkage of the symbol make_decl_llvm returns *)

Lemma holds_at_update g f (Q Q' : GlobalValue -> Prop) s r s' :
  update_global g f s = Some (r, s') ->
  holds_at g Q s -> (forall v, Q v -> Q' (f v)) -> holds_at g Q' s'.
Proof.
  intros H (v & Hv & HQ) Hf. apply update_global_inv in H. destruct H as (v' & Hv' & ->).
  rewrite Hv in Hv'. injection Hv' as <-. exists (f v). cbn.
  rewrite lookup_insert_eq. auto.
Qed.

Lemma holds_at_new v s g s' :
  new_global v s = Some (g, s') ->
  holds_at g (fun v' => gv_linkage v' = gv_linkage v
                        /\ isGlobalVariable v' = isGlobalVariable v) s'.
Proof.
  intros H. apply new_global_inv in H. destruct H as (_ & _ & ->).
  eexists. cbn. rewrite lookup_insert_eq. split; [reflexivity|].
  destruct v; split; reflexivity.
Qed.

Lemma holds_at_check_external_weak d g b s r s' :
  check_external_weak d g s = Some (r, s') ->
  holds_at g (fun v => gv_linkage v = ExternalLinkage /\ isGlobalVariable v = b) s ->
  holds_at g (fun v => gv_linkage v = declared_linkage d /\ isGlobalVariable v = b) s'.
Proof.
  unfold check_external_weak, declared_linkage, when. intros H HQ.
  destruct (DECL_EXTERNAL d && DECL_WEAK d).
  - refine (holds_at_update _ _ _ _ _ _ _ H HQ _).
    intros [] [_ Hk]. split; [reflexivity|exact Hk].
  - injection H as _ <-. exact HQ.
Qed.

Lemma holds_at_weaken g (Q Q' : GlobalValue -> Prop) s :
  holds_at g Q s -> (forall v, Q v -> Q' v) -> holds_at g Q' s.
Proof. intros (v & Hv & HQ) Himp. exists v. auto. Qed.

Lemma getGlobalVariable_unnamed m : getGlobalVariable m "" = None.
Proof. apply getGlobalVariable_None. reflexivity. Qed.

Lemma isFunction_not_variable v : isFunction v = true -> isGlobalVariable v = false.
Proof. unfold isFunction, isGlobalVariable. destruct (gv_payload v); congruence. Qed.

(** The replacement of a forward declaration found under the name that the
    new global [G] could not get spares [G]. *)
Lemma renamed_replaces_other G gv Name Q s F u s' :
  stable Q ->
  TheModule s !! G = Some gv -> gv_name gv <> Name ->
  (exists vF, TheModule s !! F = Some vF /\ gv_name vF = Name) ->
  replace_forward_declaration G F s = Some (u, s') ->
  holds_at G Q s -> holds_at G Q s'.
Proof.
  intros HQ Hgv Hname (vF & HvF & EF) H HG.
  assert (F <> G) as Hne by (intros ->; congruence).
  assert (spared G Q (fun _ => True) s') as [_ HG'].
  { refine (ensures_run (spared G Q (fun _ => True)) _
              (fun _ => spared G Q (fun _ => True)) s u s' _ _ H).
    - eapply ensures_replace_forward_declaration; [exact HQ|apply unframed|exact Hne].
    - split; [exact I|exact HG]. }
  exact HG'.
Qed.

Lemma holds_at_handleVisibility d g Q s u s' :
  stable Q -> handleVisibility d g s = Some (u, s') -> holds_at g Q s -> holds_at g Q s'.
Proof.
  intros HQ H HG.
  assert (spared g Q (fun _ => True) s') as [_ HG'].
  { refine (ensures_run (spared g Q (fun _ => True)) _
              (fun _ => spared g Q (fun _ => True)) s u s' _ _ H).
    - eapply ensures_handleVisibility; [exact HQ|apply unframed].
    - split; [exact I|exact HG]. }
  exact HG'.
Qed.

Lemma make_decl_llvm_variable_linkage decl d Name s GV s2 v :
  make_decl_llvm_variable decl d Name s = Some (GV, s2) ->
  TheModule s2 !! GV = Some v ->
  match getGlobalVariable (TheModule s) Name with
  | Some G0 => GV = G0 /\ gv_linkage <$> TheModule s !! G0 = Some (gv_linkage v)
  | None => gv_linkage v = declared_linkage d
  end.
Proof.
  intros H Hv. unfold make_decl_llvm_variable in H.
  mbind H as u0 s0 Ha. apply assert_Some in Ha. destruct Ha as [_ [= -> ->]].
  mbind H as tc s0 Htc. unfold gets in Htc. injection Htc as <- <-.
  mbind H as GV1 sa HGV.
  assert (forall L, holds_at GV1 (fun v => gv_linkage v = L) sa ->
                    GV = GV1 /\ gv_linkage v = L) as Hrest.
  { intros L HL.
    cut (GV = GV1 /\ spared GV1 (fun v => gv_linkage v = L) (fun _ => True) s2).
    { intros [-> [_ (v' & Hv' & HL')]]. rewrite Hv in Hv'. injection Hv' as <-. auto. }
    refine (ensures_run (spared GV1 (fun v => gv_linkage v = L) (fun _ => True)) _
              (fun r x => r = GV1 /\ spared GV1 (fun v => gv_linkage v = L) (fun _ => True) x)
              sa GV s2 _ _ H).
    - repeat spared_op. intros x r x' HP [= <- <-]. auto.
    - split; [exact I|exact HL]. }
  clear H.
  destruct (bool_decide (Name = "")) eqn:En.
  - apply bool_decide_eq_true in En. subst Name. rewrite getGlobalVariable_unnamed.
    mbind HGV as G sb Hnew. mbind HGV as u1 sc Hcew. mbind HGV as u2 sd Hhv.
    unfold ret in HGV. injection HGV as <- <-.
    apply holds_at_new in Hnew.
    apply (holds_at_check_external_weak _ _ true _ _ _ Hcew) in Hnew.
    apply (holds_at_weaken _ _ (fun v => gv_linkage v = declared_linkage d)) in Hnew;
      [|intros ? [? _]; assumption].
    apply (holds_at_handleVisibility _ _ _ _ _ _ (linkage_stable _) Hhv) in Hnew.
    destruct (Hrest _ Hnew) as [_ E]. exact E.
  - apply bool_decide_eq_false in En.
    mbind HGV as m sb Hm. unfold gets in Hm. injection Hm as <- <-.
    destruct (getGlobalVariable (TheModule s) Name) as [GVE|] eqn:EG.
    + unfold ret in HGV. injection HGV as <- <-.
      apply getGlobalVariable_Some in EG. destruct EG as (_ & v0 & Hv0 & _).
      destruct (Hrest (gv_linkage v0)) as [-> E]; [exists v0; auto|].
      split; [reflexivity|]. rewrite Hv0. cbn. congruence.
    + mbind HGV as G sb Hnew. mbind HGV as u1 sc Hcew. mbind HGV as u2 sd Hhv.
      mbind HGV as gv se Hgv. apply global_of_Some in Hgv.
      destruct Hgv as (gv' & Hgv & [= -> ->]).
      mbind HGV as u3 se Hw. unfold ret in HGV. injection HGV as <- <-.
      apply holds_at_new in Hnew.
      apply (holds_at_check_external_weak _ _ true _ _ _ Hcew) in Hnew.
      apply (holds_at_weaken _ _ (fun v => gv_linkage v = declared_linkage d)) in Hnew;
        [|intros ? [? _]; assumption].
      apply (holds_at_handleVisibility _ _ _ _ _ _ (linkage_stable _) Hhv) in Hnew.
      assert (holds_at G (fun v => gv_linkage v = declared_linkage d) se) as Hse.
      { apply when_Some in Hw. destruct Hw as [[Hb Hw] | [_ [= _ <-]]]; [|exact Hnew].
        apply bool_decide_eq_true in Hb.
        mbind Hw as m sf Hm. unfold gets in Hm. injection Hm as <- <-.
        mbind Hw as F sf HF. apply unwrap_Some in HF. destruct HF as (F' & HF & [= -> ->]).
        apply getFunction_Some in HF. destruct HF as (_ & vF & HvF & EF & _).
        exact (renamed_replaces_other _ _ _ _ _ _ _ _ (linkage_stable _) Hgv Hb
                 (ex_intro _ vF (conj HvF EF)) Hw Hnew). }
      destruct (Hrest _ Hse) as [_ E]. exact E.
Qed.

Lemma make_decl_llvm_function_kind decl d Name s Fn s2 :
  make_decl_llvm_function decl d Name s = Some (Fn, s2) ->
  holds_at Fn (fun v => isGlobalVariable v = false) s2.
Proof.
  intros H. unfold make_decl_llvm_function in H.
  mbind H as u0 s0 Ha. apply assert_Some in Ha. destruct Ha as [_ [= -> ->]].
  mbind H as m s0 Hm. unfold gets in Hm. injection Hm as <- <-.
  destruct (getFunction (TheModule s) Name) as [FnEntry|] eqn:EF.
  - unfold ret in H. injection H as <- <-.
    apply getFunction_Some in EF. destruct EF as (_ & v & Hv & _ & Hf).
    exists v. split; [exact Hv|]. apply isFunction_not_variable. exact Hf.
  - mbind H as tc s0 Htc. unfold gets in Htc. injection Htc as <- <-.
    destruct (ConvertFunctionType _ _ _) as [[Ty CC] PAL].
    mbind H as F sb Hnew. mbind H as u1 sc Hcc. mbind H as u2 sd Hpal.
    mbind H as u3 se Hcew. mbind H as u4 sf Hhv.
    mbind H as fn sg Hfn. apply global_of_Some in Hfn.
    destruct Hfn as (fn' & Hfn & [= -> ->]).
    mbind H as u5 sg Hw. unfold ret in H. injection H as <- <-.
    apply holds_at_new in Hnew.
    assert (holds_at F (fun v => gv_linkage v = ExternalLinkage
                                 /\ isGlobalVariable v = false) sc) as Hq.
    { refine (holds_at_update _ _ _ _ _ _ _ Hcc Hnew _). intros v [E1 E2].
      destruct (setCallingConv_kept CC v) as (-> & _ & ->). auto. }
    assert (holds_at F (fun v => gv_linkage v = ExternalLinkage
                                 /\ isGlobalVariable v = false) sd) as Hq'.
    { refine (holds_at_update _ _ _ _ _ _ _ Hpal Hq _). intros v [E1 E2].
      destruct (setAttributes_kept PAL v) as (-> & _ & ->). auto. }
    clear Hnew Hq.
    apply (holds_at_check_external_weak _ _ false _ _ _ Hcew) in Hq'.
    apply (holds_at_weaken _ _ (fun v => isGlobalVariable v = false)) in Hq';
      [|intros ? [_ ?]; assumption].
    apply (holds_at_handleVisibility _ _ _ _ _ _ (kind_stable _) Hhv) in Hq'.
    apply when_Some in Hw. destruct Hw as [[Hb Hw] | [_ [= _ <-]]]; [|exact Hq'].
    apply bool_decide_eq_true in Hb.
    mbind Hw as m sh Hm. unfold gets in Hm. injection Hm as <- <-.
    mbind Hw as G sh HG. apply unwrap_Some in HG. destruct HG as (G' & HG & [= -> ->]).
    apply getGlobalVariable_Some in HG. destruct HG as (_ & vG & HvG & EG & _).
    exact (renamed_replaces_other _ _ _ _ _ _ _ _ (kind_stable _) Hfn Hb
             (ex_intro _ vG (conj HvG EG)) Hw Hq').
Qed.

(** The global variable make_decl_llvm returns is the one it found, with the
    linkage it had, or one it has created with external linkage (external
    weak linkage for an external weak declaration). *)
Lemma make_decl_llvm_linkage decl s GV0 sA d v :
  trees s !! decl = Some d ->
  make_decl_llvm decl s = Some (Some (GlobalRef GV0), sA) ->
  TheModule sA !! GV0 = Some v -> isGlobalVariable v = true ->
  match symbol_before s decl d with
  | Some G0 => GV0 = G0 /\ gv_linkage <$> TheModule s !! G0 = Some (gv_linkage v)
  | None => gv_linkage v = declared_linkage d
  end.
Proof.
  intros Hd H Hv Hk. unfold make_decl_llvm in H.
  mbind H as V0 s0 Hget. apply get_decl_llvm_inv in Hget. destruct Hget as (-> & Hc & _).
  unfold symbol_before. rewrite Hc.
  destruct V0 as [v0|]; cbn [Value_to_ptr].
  - unfold ret in H. injection H as -> <-. split; [reflexivity|].
    rewrite Hv. reflexivity.
  - mbind H as d0 s0 Hd0. apply decl_of_Some in Hd0.
    destruct Hd0 as (d1 & Hd1 & [= -> ->]). rewrite Hd in Hd1. injection Hd1 as <-.
    mbind H as cfg sa Hcfg. unfold gets in Hcfg. injection Hcfg as <- <-.
    mbind H as u sb Ha. apply assert_Some in Ha. destruct Ha as [_ [= -> ->]].
    mbind H as sx sc Hg. unfold get in Hg. injection Hg as <- <-.
    destruct (seen_error _); [unfold ret in H; discriminate H|].
    destruct (_ && DECL_REGISTER d);
      [mbind H as b sv Hval; unfold ret in H; discriminate H|].
    mbind H as u1 s1 Hp.
    assert (TheModule s1 = TheModule s) as Em1.
    { revert Hp. generalize s, u1, s1.
      match goal with
      | |- forall s r s', ?c s = Some (r, s') -> _ => change (keeps TheModule c)
      end.
      unfold make_decl_llvm_prepare. solve_keeps. }
    destruct (make_decl_llvm_prepare_trees _ _ _ _ _ _ Hd Hp) as (d1 & Hd1 & Hor).
    mbind H as d1' s1' Hd1'. apply decl_of_Some in Hd1'.
    destruct Hd1' as (d1'' & Hd1'' & [= -> ->]). rewrite Hd1 in Hd1''. injection Hd1'' as <-.
    destruct (bool_decide (TREE_CODE d1 = FUNCTION_DECL)).
    + mbind H as Fn s2 HF. apply SET_DECL_LLVM_inv in H.
      destruct H as ([= ->] & -> & _).
      apply make_decl_llvm_function_kind in HF. destruct HF as (v' & Hv' & Hk').
      cbn in Hv. rewrite Hv in Hv'. injection Hv' as <-. congruence.
    + mbind H as GV s2 HV. apply SET_DECL_LLVM_inv in H.
      destruct H as ([= ->] & -> & _). cbn in Hv.
      pose proof (make_decl_llvm_variable_linkage _ _ _ _ _ _ _ HV Hv) as HL.
      rewrite Em1 in HL. unfold llvm_name.
      destruct (getGlobalVariable _ _); [exact HL|].
      rewrite HL. destruct Hor as [-> | ->]; reflexivity.
Qed.

(** ** The linkage emit_global leaves *)

Lemma emit_global_finish_keeps_cache decl GV Init :
  keeps llvm_cache (emit_global_finish decl GV Init).
Proof. unfold emit_global_finish. solve_keeps. Qed.

Lemma retype_global_keeps_trees decl GV InitTy : keeps trees (retype_global decl GV InitTy).
Proof. solve_keeps. Qed.

(** The global the retyping step creates has external linkage. *)
Lemma retype_global_external decl GV InitTy s NGV s' :
  retype_global decl GV InitTy s = Some (NGV, s') ->
  NGV <> GV /\ cached s' decl = ValuePtr (GlobalRef NGV) /\ trees s' = trees s
  /\ holds_at NGV (fun v => gv_linkage v = ExternalLinkage) s'.
Proof.
  intros H.
  destruct (retype_global_repairs _ _ _ _ _ _ H)
    as (gv & Cast & _ & Hne & _ & _ & _ & _ & _ & _ & Hc & _).
  split; [exact Hne|]. split; [exact Hc|].
  split; [exact (retype_global_keeps_trees _ _ _ _ _ _ H)|].
  unfold retype_global in H.
  mbind H as gv0 s0 Hgv. apply global_of_Some in Hgv. destruct Hgv as (gv' & _ & [= -> ->]).
  mbind H as u1 s1 Hrm. mbind H as N s2 Hnew.
  apply holds_at_new in Hnew.
  apply (holds_at_weaken _ _ (fun v => gv_linkage v = ExternalLinkage)) in Hnew;
    [|intros ? [? _]; assumption].
  cut (NGV = N /\ spared N (fun v => gv_linkage v = ExternalLinkage) (fun _ => True) s').
  { intros [-> [_ HN]]. exact HN. }
  assert (GV <> N) as Hne'.
  { intros ->. apply Hne. clear -H.
    do 5 (apply bind_Some in H; destruct H as (? & ? & _ & H)). unfold ret in H. injection H as <- _.
    reflexivity. }
  refine (ensures_run (spared N (fun v => gv_linkage v = ExternalLinkage) (fun _ => True)) _
            (fun r x => r = N /\ spared N (fun v => gv_linkage v = ExternalLinkage)
                                   (fun _ => True) x)
            s2 NGV s' _ _ H).
  - repeat spared_op. intros x r x' HP [= <- <-]. auto.
  - split; [exact I|exact Hnew].
Qed.

Lemma linkage_table_declared d public one_only common comdat odr constant :
  linkage_table public (DECL_WEAK d) one_only common comdat odr constant
    (declared_linkage d)
  = linkage_table public (DECL_WEAK d) one_only common comdat odr constant
      ExternalLinkage.
Proof.
  unfold linkage_table, declared_linkage.
  destruct (DECL_EXTERNAL d), (DECL_WEAK d), public; reflexivity.
Qed.

Lemma setInitializer_defines i v :
  isGlobalVariable v = true ->
  gv_linkage (setInitializer (Some i) v) = gv_linkage v
  /\ isDeclaration (setInitializer (Some i) v) = false.
Proof.
  destruct v as [n ty l vis sec al [[i0|] c t | cc a body | a]]; try discriminate;
    intros _; split; reflexivity.
Qed.

(** The global of a declaration keeps its linkage while the initial value
    of the declaration is converted, whatever the conversion service [CI]
    does besides, as long as it spares the definitions that are bound. *)
Lemma emit_global_initial_settled (CI : tree_expr -> M Constant)
    decl dA GV0 gvA init sA Init sB :
  (forall e, ensures (settled GV0 (gv_linkage gvA) decl dA) (CI e)
               (fun _ => settled GV0 (gv_linkage gvA) decl dA)) ->
  TheModule sA !! GV0 = Some gvA -> isGlobalVariable gvA = true ->
  cached sA decl = ValuePtr (GlobalRef GV0) -> trees sA !! decl = Some dA ->
  (do _ <- assert (TREE_CONSTANT init || is_STRING_CST init);
   do gv <- global_of GV0;
   do elt <- unwrap (getElementType (gv_type gv));
   do _ <- update_global GV0 (setInitializer (Some (UndefValue elt)));
   CI init) sA
  = Some (Init, sB) ->
  settled GV0 (gv_linkage gvA) decl dA sB.
Proof.
  intros HCI HgvA Hk Hc Ht H.
  mbind H as u0 s0 Ha. apply assert_Some in Ha. destruct Ha as [_ [= -> ->]].
  mbind H as gv s0 Hgv. apply global_of_Some in Hgv. destruct Hgv as (gv' & Hgv & [= -> ->]).
  rewrite HgvA in Hgv. injection Hgv as <-.
  mbind H as elt s0 He. apply unwrap_Some in He. destruct He as (elt' & _ & [= -> ->]).
  mbind H as u1 sU HU. apply update_global_inv in HU. destruct HU as (v & Hv & ->).
  rewrite HgvA in Hv. injection Hv as <-.
  refine (ensures_run (settled GV0 (gv_linkage gvA) decl dA) _
            (fun _ => settled GV0 (gv_linkage gvA) decl dA) _ Init sB _ _ H).
  - apply HCI.
  - split; [split; assumption|].
    exists (setInitializer (Some (UndefValue elt')) gvA). cbn.
    rewrite lookup_insert_eq. split; [reflexivity|]. apply setInitializer_defines. exact Hk.
Qed.

(** The linkage emit_global leaves, for any conversion service [CI] that
    spares the definitions that are bound. *)
Lemma emit_global_with_linkage_table (CI : tree_expr -> M Constant) (decl : tree)
    (s s' : State) (d : tree_decl) :
  (forall g L t d0 e, ensures (settled g L t d0) (CI e) (fun _ => settled g L t d0)) ->
  trees s !! decl = Some d ->
  emit_global_skips d = false ->
  emit_global_with CI decl s = Some (tt, s') ->
  exists GV gv d',
    cached s' decl = ValuePtr (GlobalRef GV)
    /\ TheModule s' !! GV = Some gv
    /\ trees s' !! decl = Some d'
    /\ TREE_ASM_WRITTEN d' = true
    /\ gv_linkage gv
       = linkage_table (TREE_PUBLIC d') (DECL_WEAK d') (DECL_ONE_ONLY d')
           (DECL_COMMON d' && no_initial d') (DECL_COMDAT d')
           (flag_odr s') (isConstant gv) (inherited_linkage s decl d GV).
Proof.
  intros HCI Hd Hskip H. unfold emit_global_with in H.
  mbind H as d0 s0 Hd0. apply decl_of_Some in Hd0. destruct Hd0 as (d0' & Hd0 & [= -> ->]).
  rewrite Hd in Hd0. injection Hd0 as <-.
  unfold emit_global_skips in Hskip. apply orb_false_iff in Hskip.
  destruct Hskip as [E1 E2]. rewrite E1, E2 in H.
  mbind H as V sA HV. unfold DECL_LLVM in HV.
  mbind H as GV0 sA' Hcast. apply cast_GlobalVariable_inv in Hcast.
  destruct Hcast as (-> & -> & gvA & HgvA & HkA).
  pose proof (make_decl_llvm_linkage _ _ _ _ _ _ Hd HV HgvA HkA) as HF1.
  pose proof (make_decl_llvm_result_cached _ _ _ _ HV) as HcA.
  destruct (make_decl_llvm_trees _ _ _ _ _ Hd HV) as (dA & HdA & Hor).
  assert (DECL_WEAK dA = DECL_WEAK d) as EW by (destruct Hor as [-> | ->]; reflexivity).
  clear HV.
  mbind H as dA' sA' HdA'. apply decl_of_Some in HdA'.
  destruct HdA' as (dA'' & HdA'' & [= -> ->]). rewrite HdA in HdA''. injection HdA'' as <-.
  mbind H as Init sB HInit.
  (* with an initial value the global is a definition while the value is
     converted; without one nothing happens in between *)
  assert (settled GV0 (gv_linkage gvA) decl dA sB \/ sB = sA) as HB.
  { destruct (DECL_INITIAL dA) as [[]|];
      first [ left; exact (emit_global_initial_settled CI _ _ _ _ _ _ _ _
                             (HCI _ _ _ _) HgvA HkA HcA HdA HInit)
            | right; mbind HInit as tc sx Htc; unfold gets in Htc;
              injection Htc as <- <-; unfold ret in HInit; injection HInit as _ <-;
              reflexivity ]. }
  assert (exists gvB, TheModule sB !! GV0 = Some gvB /\ gv_linkage gvB = gv_linkage gvA
                      /\ cached sB decl = ValuePtr (GlobalRef GV0)
                      /\ trees sB !! decl = Some dA) as (gvB & HgvB & ELB & HcB & HtB).
  { destruct HB as [[[Hc Ht] (v & Hv & HL & _)] | ->]; eauto 10. }
  clear HB HInit.
  mbind H as gvB' sB' Hg. apply global_of_Some in Hg.
  destruct Hg as (gvB'' & Hg & [= -> ->]). rewrite HgvB in Hg. injection Hg as <-.
  mbind H as elt sB' He. apply unwrap_Some in He. destruct He as (elt' & _ & [= -> ->]).
  mbind H as InitTy sB' HTy.
  assert (sB' = sB) as ->.
  { unfold getTypeM in HTy. mbind HTy as m sx Hm. unfold gets in Hm.
    injection Hm as <- <-. apply unwrap_Some in HTy.
    destruct HTy as (? & _ & [= _ ->]). reflexivity. }
  clear HTy.
  mbind H as GVf sC Hre.
  (* the global that is finished, and its linkage before *)
  assert (trees sC !! decl = Some dA
          /\ cached sC decl = ValuePtr (GlobalRef GVf)
          /\ holds_at GVf (fun v => gv_linkage v = inherited_linkage s decl d GVf
                                    \/ (DECL_WEAK dA = DECL_WEAK d
                                        /\ gv_linkage v = declared_linkage d
                                        /\ inherited_linkage s decl d GVf = ExternalLinkage))
               sC)
    as (HtC & HcC & gvC & HgvC & HLC).
  { destruct (bool_decide (elt' <> InitTy)).
    - mbind Hre as NGV sR Hret. mbind Hre as u sR' Ha.
      apply assert_Some in Ha. destruct Ha as [_ [= -> ->]].
      unfold ret in Hre. injection Hre as <- <-.
      destruct (retype_global_external _ _ _ _ _ _ Hret) as (Hne & Hc & Et & v & Hv & HL).
      split; [rewrite Et; exact HtB|]. split; [exact Hc|].
      exists v. split; [exact Hv|]. left. rewrite HL.
      unfold inherited_linkage. destruct (symbol_before s decl d) as [G0|]; [|reflexivity].
      destruct HF1 as [<- _]. rewrite decide_False by exact Hne. reflexivity.
    - unfold ret in Hre. injection Hre as <- <-.
      split; [exact HtB|]. split; [exact HcB|].
      exists gvB. split; [exact HgvB|]. rewrite ELB.
      unfold inherited_linkage. destruct (symbol_before s decl d) as [G0|].
      + left. destruct HF1 as [<- E]. rewrite decide_True by reflexivity.
        rewrite E. reflexivity.
      + right. auto. }
  clear Hre.
  pose proof (emit_global_finish_keeps_cache _ _ _ _ _ _ H) as Ec.
  destruct (emit_global_finish_linkage _ _ _ _ _ H)
    as (d1 & gv1 & Hd1 & Hgv1 & Et & Eo & gv & Hgv & EL & EC).
  rewrite HtC in Hd1. injection Hd1 as <-.
  rewrite HgvC in Hgv1. injection Hgv1 as <-.
  exists GVf, gv, (set_TREE_ASM_WRITTEN true dA).
  split; [unfold cached in *; rewrite Ec; exact HcC|].
  split; [exact Hgv|].
  split; [rewrite Et; apply lookup_insert_eq|].
  split; [reflexivity|].
  rewrite EL, EC, Eo, emit_global_Linkage_table. cbn.
  destruct HLC as [-> | (EW' & -> & ->)]; [reflexivity|].
  rewrite EW'. apply linkage_table_declared.
Qed.

(** C2, as amended.  When emit_global emits a declaration, the linkage of
    the global the declaration is bound to afterwards follows the
    classification table, first match wins: not public gives internal;
    public and weak gives weak-any whatever the ODR flag; public and
    one-only gives the weak variant the ODR flag selects; public, common and
    without initial value gives common; public and comdat gives the
    link-once variant the ODR flag selects; a public declaration with none
    of these flags gets external linkage when its global was created for it
    by this emission, be it by make_decl_llvm or by the retyping step, and
    keeps the linkage its global had before the emission when make_decl_llvm
    found the global in the cache or under the name of the declaration; and
    for a constant global weak-any becomes weak-ODR and link-once-any
    becomes link-once-ODR. *)
Theorem emit_global_linkage_table (fuel : nat) (decl : tree) (s s' : State)
    (d : tree_decl) :
  trees s !! decl = Some d ->
  emit_global_skips d = false ->
  emit_global fuel decl s = Some (tt, s') ->
  exists GV gv d',
    cached s' decl = ValuePtr (GlobalRef GV)
    /\ TheModule s' !! GV = Some gv
    /\ trees s' !! decl = Some d'
    /\ TREE_ASM_WRITTEN d' = true
    /\ gv_linkage gv
       = linkage_table (TREE_PUBLIC d') (DECL_WEAK d') (DECL_ONE_ONLY d')
           (DECL_COMMON d' && no_initial d') (DECL_COMDAT d')
           (flag_odr s') (isConstant gv) (inherited_linkage s decl d GV).
Proof.
  intros Hd Hskip H. destruct fuel as [|fuel]; [discriminate|].
  cbn [emit_global] in H.
  refine (emit_global_with_linkage_table _ decl s s' d _ Hd Hskip H).
  intros g L t d0 e. apply settled_ConvertInitializer. intros t'.
  apply settled_make_definition_llvm_with. intros GV' Hne.
  apply settled_emit_global. exact Hne.
Qed.

(** C2, as stated, fails: [int foo = 2] is public and carries no flag, its
    global is not constant, but the global is the one [static int foo = 1]
    was emitted to under the same assembler name, and it keeps internal
    linkage where the table of the specification says external. *)
Lemma public_unflagged_global_gets_internal :
  emit_global 1 Unit.foo_public (after (emit_global 1 Unit.foo_static) Unit.start)
  = Some (tt, SharedName.after_two_foo)
  /\ exists d gv,
       trees SharedName.after_two_foo !! Unit.foo_public = Some d
       /\ TREE_PUBLIC d = true /\ DECL_WEAK d = false /\ DECL_ONE_ONLY d = false
       /\ DECL_COMMON d = false /\ DECL_COMDAT d = false
       /\ cached SharedName.after_two_foo Unit.foo_public = ValuePtr (GlobalRef 1%positive)
       /\ TheModule SharedName.after_two_foo !! 1%positive = Some gv
       /\ isConstant gv = false
       /\ gv_linkage gv = InternalLinkage
       /\ gv_linkage gv
          <> linkage_table (TREE_PUBLIC d) (DECL_WEAK d) (DECL_ONE_ONLY d)
               (DECL_COMMON d && no_initial d) (DECL_COMDAT d)
               (flag_odr SharedName.after_two_foo) (isConstant gv) ExternalLinkage.
Proof.
  split; [vm_compute; reflexivity|].
  eexists. eexists.
  split; [vm_compute; reflexivity|].
  repeat (split; [vm_compute; reflexivity|]).
  vm_compute. discriminate.
Qed.

Lemma emit_global_linkage_table_witness :
  (exists GV gv d',
     cached SharedName.after_two_foo Unit.foo_public = ValuePtr (GlobalRef GV)
     /\ TheModule SharedName.after_two_foo !! GV = Some gv
     /\ trees SharedName.after_two_foo !! Unit.foo_public = Some d'
     /\ TREE_ASM_WRITTEN d' = true
     /\ gv_linkage gv
        = linkage_table (TREE_PUBLIC d') (DECL_WEAK d') (DECL_ONE_ONLY d')
            (DECL_COMMON d' && no_initial d') (DECL_COMDAT d')
            (flag_odr SharedName.after_two_foo) (isConstant gv)
            (inherited_linkage (after (emit_global 1 Unit.foo_static) Unit.start)
               Unit.foo_public
               (Unit.declaration VAR_DECL "foo" Unit.int_type
                  (Some (INTEGER_CST Unit.int_type 2)) true) GV))
  /\ inherited_linkage (after (emit_global 1 Unit.foo_static) Unit.start)
       Unit.foo_public
       (Unit.declaration VAR_DECL "foo" Unit.int_type
          (Some (INTEGER_CST Unit.int_type 2)) true) 1%positive
     = InternalLinkage
  /\ (exists GV gv d',
        cached (after (emit_global 1 Unit.foo_public) Unit.start) Unit.foo_public
        = ValuePtr (GlobalRef GV)
        /\ TheModule (after (emit_global 1 Unit.foo_public) Unit.start) !! GV = Some gv
        /\ trees (after (emit_global 1 Unit.foo_public) Unit.start) !! Unit.foo_public
           = Some d'
        /\ TREE_ASM_WRITTEN d' = true
        /\ gv_linkage gv
           = linkage_table (TREE_PUBLIC d') (DECL_WEAK d') (DECL_ONE_ONLY d')
               (DECL_COMMON d' && no_initial d') (DECL_COMDAT d')
               (flag_odr (after (emit_global 1 Unit.foo_public) Unit.start))
               (isConstant gv)
               (inherited_linkage Unit.start Unit.foo_public
                  (Unit.declaration VAR_DECL "foo" Unit.int_type
                     (Some (INTEGER_CST Unit.int_type 2)) true) GV))
  /\ inherited_linkage Unit.start Unit.foo_public
       (Unit.declaration VAR_DECL "foo" Unit.int_type
          (Some (INTEGER_CST Unit.int_type 2)) true) 1%positive
     = ExternalLinkage
  /\ gv_linkage <$> TheModule (after (emit_global 1 Unit.foo_public) Unit.start)
                    !! 1%positive
     = Some ExternalLinkage.
Proof.
  split.
  { apply (emit_global_linkage_table 1 Unit.foo_public
             (after (emit_global 1 Unit.foo_static) Unit.start)
             SharedName.after_two_foo
             (Unit.declaration VAR_DECL "foo" Unit.int_type
                (Some (INTEGER_CST Unit.int_type 2)) true)).
    - vm_compute. reflexivity.
    - reflexivity.
    - vm_compute. reflexivity. }
  split; [vm_compute; reflexivity|].
  split.
  { apply (emit_global_linkage_table 1 Unit.foo_public Unit.start
             (after (emit_global 1 Unit.foo_public) Unit.start)
             (Unit.declaration VAR_DECL "foo" Unit.int_type
                (Some (INTEGER_CST Unit.int_type 2)) true)).
    - vm_compute. reflexivity.
    - reflexivity.
    - vm_compute. reflexivity. }
  split; vm_compute; reflexivity.
Defined.
